(** * PixelSort filter: a shallow embedding of the sorting engine

    The development follows the three source files of the plug-in:
    - [PIPixelSort.h]      parameters, clamping and the sort-key functions;
    - [PISpanDetector.h]   the row accessor and the five span detectors;
    - [PIPixelSortMain.cpp] [SortLine] and the full-image pass of [FilterRun].

    C++ [int] values are unbounded [Z] here (signed overflow is undefined in
    the source; images whose [width * height * 3] fits an [int] keep every
    intermediate value in range), [BYTE] is [Byte.byte] with the narrowing
    cast written out, [float] and [double] are IEEE-754 binary32 and binary64
    values computed with the parametric operations of [SpecFloat]. *)

From Stdlib Require Import ZArith List Bool Lia Strings.Byte Sorted Permutation.
From Stdlib Require Import Floats.SpecFloat.
From stdpp Require Import base list.

Local Open Scope Z_scope.

(* ===================================================================== *)
(** * Machine numbers *)
(* ===================================================================== *)

Definition INT_MIN : Z := -2147483648.
Definition INT_MAX : Z := 2147483647.

(** [typedef unsigned char BYTE] *)
Abbreviation BYTE := byte (only parsing).

(** integral promotion [BYTE -> int] *)
Definition byte_to_int (b : BYTE) : Z := Z.of_N (Byte.to_N b).

(** [static_cast<BYTE>(int)]: reduction modulo 256 *)
Definition int_to_BYTE (z : Z) : BYTE :=
  default x00 (Byte.of_N (Z.to_N (z mod 256))).

(** ** IEEE-754 formats *)

Abbreviation float := spec_float (only parsing).   (* binary32 *)
Abbreviation double := spec_float (only parsing).  (* binary64 *)

Definition f32_prec : Z := 24.
Definition f32_emax : Z := 128.
Definition f64_prec : Z := 53.
Definition f64_emax : Z := 1024.

(** A decimal literal [num/den], rounded to nearest in the given format. *)
Definition dec_literal (prec emax : Z) (num den : positive) : spec_float :=
  SFdiv prec emax (S754_finite false num 0) (S754_finite false den 0).

(** [fmod]: the exact remainder of [x / y] with the sign of [x]. *)
Definition SFfmod (prec emax : Z) (x y : spec_float) : spec_float :=
  match x, y with
  | S754_nan, _ | _, S754_nan => S754_nan
  | S754_infinity _, _ => S754_nan
  | _, S754_zero _ => S754_nan
  | S754_zero _, _ => x
  | _, S754_infinity _ => x
  | S754_finite sx mx ex, S754_finite _ my ey =>
      let ez := Z.min ex ey in
      let ax := Zpos (fst (shl_align mx ex ez)) in
      let ay := Zpos (fst (shl_align my ey ez)) in
      binary_normalize prec emax (cond_Zopp sx (Z.rem ax ay)) ez sx
  end.

(** The integer part of a finite value, rounded toward zero. *)
Definition SFtrunc (x : spec_float) : option Z :=
  match x with
  | S754_zero _ => Some 0
  | S754_finite s m e => Some (cond_Zopp s (Z.shiftl (Zpos m) e))
  | S754_infinity _ | S754_nan => None
  end.

(** [ceil]: the least integral value not below [x], in the same format. *)
Definition SFceil (prec emax : Z) (x : spec_float) : spec_float :=
  match x with
  | S754_finite s m e =>
      if 0 <=? e then x
      else
        let q := Z.shiftl (Zpos m) e in
        let exact := Z.shiftl q (- e) =? Zpos m in
        let c := if s then - q else if exact then q else q + 1 in
        if c =? 0 then S754_zero s else binary_normalize prec emax c 0 false
  | _ => x
  end.

(** ** binary32 *)

Definition f32_of_int (z : Z) : float := binary_normalize f32_prec f32_emax z 0 false.
Definition f32_add : float -> float -> float := SFadd f32_prec f32_emax.
Definition f32_sub : float -> float -> float := SFsub f32_prec f32_emax.
Definition f32_mul : float -> float -> float := SFmul f32_prec f32_emax.
Definition f32_div : float -> float -> float := SFdiv f32_prec f32_emax.
Definition f32_lt : float -> float -> bool := SFltb.
Definition f32_le : float -> float -> bool := SFleb.
Definition f32_eq : float -> float -> bool := SFeqb.
Definition f32_gt (x y : float) : bool := SFltb y x.
Definition f32_ge (x y : float) : bool := SFleb y x.
Definition fabsf : float -> float := SFabs.
Definition fmodf : float -> float -> float := SFfmod f32_prec f32_emax.
Definition f32_lit (num den : positive) : float := dec_literal f32_prec f32_emax num den.
Definition f32_zero : float := S754_zero false.

(** ** binary64 *)

Definition f64_of_int (z : Z) : double := binary_normalize f64_prec f64_emax z 0 false.
Definition f64_add : double -> double -> double := SFadd f64_prec f64_emax.
Definition f64_sub : double -> double -> double := SFsub f64_prec f64_emax.
Definition f64_mul : double -> double -> double := SFmul f64_prec f64_emax.
Definition f64_div : double -> double -> double := SFdiv f64_prec f64_emax.
Definition f64_lt : double -> double -> bool := SFltb.
Definition f64_sqrt : double -> double := SFsqrt f64_prec f64_emax.
Definition f64_opp : double -> double := SFopp.
Definition fabs : double -> double := SFabs.
Definition ceil : double -> double := SFceil f64_prec f64_emax.
Definition f64_lit (num den : positive) : double := dec_literal f64_prec f64_emax num den.
Definition f64_zero : double := S754_zero false.

(** conversions between the two formats: widening is exact, narrowing rounds *)
Definition SFconvert (prec emax : Z) (x : spec_float) : spec_float :=
  match x with
  | S754_finite s m e => binary_normalize prec emax (cond_Zopp s (Zpos m)) e s
  | _ => x
  end.
Definition float_to_double : float -> double := SFconvert f64_prec f64_emax.
Definition double_to_float : double -> float := SFconvert f32_prec f32_emax.

(** [static_cast<int>(double)]: truncation toward zero.  A value that does
    not fit an [int] has no defined result in C++; the conversion
    instruction of x86 delivers [INT_MIN], which is what is written here. *)
Definition double_to_int (x : double) : Z :=
  match SFtrunc x with
  | Some z => if (INT_MIN <=? z) && (z <=? INT_MAX) then z else INT_MIN
  | None => INT_MIN
  end.

(** [#define M_PI 3.14159265358979323846] *)
Definition M_PI : double := f64_lit 314159265358979323846 100000000000000000000.

(* ===================================================================== *)
(** * PIPixelSort.h: enumerations and parameters *)
(* ===================================================================== *)

Inductive SortDirection := kSortDirectionHorizontal | kSortDirectionVertical.

Inductive SortKey :=
| kSortKeyBrightness | kSortKeyHue | kSortKeySaturation | kSortKeyIntensity
| kSortKeyMinimum | kSortKeyRed | kSortKeyGreen | kSortKeyBlue.

Inductive IntervalMode :=
| kIntervalModeThreshold | kIntervalModeRandom | kIntervalModeEdges
| kIntervalModeWaves | kIntervalModeNone.

Record PixelSortParams := mkParams {
  direction : SortDirection;
  sortKey : SortKey;
  intervalMode : IntervalMode;
  lowerThreshold : Z;   (* 0-255 *)
  upperThreshold : Z;   (* 0-255 *)
  reverse : bool;
  jitter : Z;           (* 0-100 *)
  spanMin : Z;          (* 1-10000 *)
  spanMax : Z;          (* 0-10000, 0 = unlimited *)
  angle : Z;            (* 0-359 *)
  falloff : Z           (* 0-100 *)
}.

Definition MakeDefaultParams : PixelSortParams :=
  {| direction := kSortDirectionHorizontal;
     sortKey := kSortKeyBrightness;
     intervalMode := kIntervalModeThreshold;
     lowerThreshold := 64;
     upperThreshold := 204;
     reverse := false;
     jitter := 0;
     spanMin := 1;
     spanMax := 0;
     angle := 0;
     falloff := 0 |}.

(** [ClampParams] on parameters whose enumeration fields hold enumerators,
    as the fields of [currentParams] do in the pass: the three repairs of
    the enumeration fields find nothing to repair there, and the rest of
    the function is what follows.  [%] on [int] is the truncating
    remainder.  The function on the struct as it is stored, where an
    enumeration field may hold any [int], is [ClampParamsRaw] below. *)
Definition ClampParams (p : PixelSortParams) : PixelSortParams :=
  let lo := Z.max 0 (Z.min 255 (lowerThreshold p)) in
  let up := Z.max 0 (Z.min 255 (upperThreshold p)) in
  let up := if up <? lo then lo else up in
  let smin := Z.max 1 (Z.min 10000 (spanMin p)) in
  let smax := Z.max 0 (Z.min 10000 (spanMax p)) in
  let smax := if (0 <? smax) && (smax <? smin) then smin else smax in
  {| direction := direction p;
     sortKey := sortKey p;
     intervalMode := intervalMode p;
     lowerThreshold := lo;
     upperThreshold := up;
     reverse := reverse p;
     jitter := Z.max 0 (Z.min 100 (jitter p));
     spanMin := smin;
     spanMax := smax;
     angle := Z.rem (Z.rem (angle p) 360 + 360) 360;
     falloff := Z.max 0 (Z.min 100 (falloff p)) |}.

(** The ranges every component may assume (data model of the parameters). *)
Record valid_params (p : PixelSortParams) : Prop := {
  vp_lower : 0 <= lowerThreshold p <= 255;
  vp_upper : lowerThreshold p <= upperThreshold p <= 255;
  vp_jitter : 0 <= jitter p <= 100;
  vp_spanMin : 1 <= spanMin p <= 10000;
  vp_spanMax : spanMax p = 0 \/ spanMin p <= spanMax p <= 10000;
  vp_angle : 0 <= angle p <= 359;
  vp_falloff : 0 <= falloff p <= 100
}.

(** ** The struct as it is stored

    An enumeration field of [struct PixelSortParams] is an [int]
    underneath: [ReadAllProperties] stores there, by [static_cast],
    whatever value the host returns, and the three repairs at the head of
    [ClampParams] are what brings a value outside the enumeration back to
    the first enumerator.  [PixelSortParamsRaw] is the struct with the
    three enumeration fields as the integers they hold. *)
Record PixelSortParamsRaw := mkParamsRaw {
  raw_direction : Z;
  raw_sortKey : Z;
  raw_intervalMode : Z;
  raw_lowerThreshold : Z;
  raw_upperThreshold : Z;
  raw_reverse : bool;
  raw_jitter : Z;
  raw_spanMin : Z;
  raw_spanMax : Z;
  raw_angle : Z;
  raw_falloff : Z
}.

(** the values of the enumerators *)
Definition SortDirection_value (d : SortDirection) : Z :=
  match d with
  | kSortDirectionHorizontal => 0
  | kSortDirectionVertical => 1
  end.

Definition SortKey_value (k : SortKey) : Z :=
  match k with
  | kSortKeyBrightness => 0
  | kSortKeyHue => 1
  | kSortKeySaturation => 2
  | kSortKeyIntensity => 3
  | kSortKeyMinimum => 4
  | kSortKeyRed => 5
  | kSortKeyGreen => 6
  | kSortKeyBlue => 7
  end.

Definition IntervalMode_value (m : IntervalMode) : Z :=
  match m with
  | kIntervalModeThreshold => 0
  | kIntervalModeRandom => 1
  | kIntervalModeEdges => 2
  | kIntervalModeWaves => 3
  | kIntervalModeNone => 4
  end.

(** [ClampParams], every line of it. *)
Definition ClampParamsRaw (p : PixelSortParamsRaw) : PixelSortParamsRaw :=
  let dir :=
    if (raw_direction p <? 0) || (1 <? raw_direction p)
    then SortDirection_value kSortDirectionHorizontal else raw_direction p in
  let key :=
    if (raw_sortKey p <? 0) || (7 <? raw_sortKey p)
    then SortKey_value kSortKeyBrightness else raw_sortKey p in
  let mode :=
    if (raw_intervalMode p <? 0) || (4 <? raw_intervalMode p)
    then IntervalMode_value kIntervalModeThreshold else raw_intervalMode p in
  let lo := Z.max 0 (Z.min 255 (raw_lowerThreshold p)) in
  let up := Z.max 0 (Z.min 255 (raw_upperThreshold p)) in
  let up := if up <? lo then lo else up in
  let smin := Z.max 1 (Z.min 10000 (raw_spanMin p)) in
  let smax := Z.max 0 (Z.min 10000 (raw_spanMax p)) in
  let smax := if (0 <? smax) && (smax <? smin) then smin else smax in
  {| raw_direction := dir;
     raw_sortKey := key;
     raw_intervalMode := mode;
     raw_lowerThreshold := lo;
     raw_upperThreshold := up;
     raw_reverse := raw_reverse p;
     raw_jitter := Z.max 0 (Z.min 100 (raw_jitter p));
     raw_spanMin := smin;
     raw_spanMax := smax;
     raw_angle := Z.rem (Z.rem (raw_angle p) 360 + 360) 360;
     raw_falloff := Z.max 0 (Z.min 100 (raw_falloff p)) |}.

(** The enumerator an [int] of an enumeration field stands for.  A field
    holds a value of its enumeration once [ClampParams] has run; a value
    outside it is read here as the first enumerator, which is what
    [ClampParams] makes of it. *)
Definition SortDirection_of_int (val : Z) : SortDirection :=
  if (val <? 0) || (1 <? val) then kSortDirectionHorizontal
  else if val =? 1 then kSortDirectionVertical
  else kSortDirectionHorizontal.

Definition SortKey_of_int (val : Z) : SortKey :=
  if (val <? 0) || (7 <? val) then kSortKeyBrightness
  else if val =? 1 then kSortKeyHue
  else if val =? 2 then kSortKeySaturation
  else if val =? 3 then kSortKeyIntensity
  else if val =? 4 then kSortKeyMinimum
  else if val =? 5 then kSortKeyRed
  else if val =? 6 then kSortKeyGreen
  else if val =? 7 then kSortKeyBlue
  else kSortKeyBrightness.

Definition IntervalMode_of_int (val : Z) : IntervalMode :=
  if (val <? 0) || (4 <? val) then kIntervalModeThreshold
  else if val =? 1 then kIntervalModeRandom
  else if val =? 2 then kIntervalModeEdges
  else if val =? 3 then kIntervalModeWaves
  else if val =? 4 then kIntervalModeNone
  else kIntervalModeThreshold.

(** the stored struct read as parameters, and parameters as they are stored *)
Definition params_of_raw (p : PixelSortParamsRaw) : PixelSortParams :=
  {| direction := SortDirection_of_int (raw_direction p);
     sortKey := SortKey_of_int (raw_sortKey p);
     intervalMode := IntervalMode_of_int (raw_intervalMode p);
     lowerThreshold := raw_lowerThreshold p;
     upperThreshold := raw_upperThreshold p;
     reverse := raw_reverse p;
     jitter := raw_jitter p;
     spanMin := raw_spanMin p;
     spanMax := raw_spanMax p;
     angle := raw_angle p;
     falloff := raw_falloff p |}.

Definition raw_of_params (p : PixelSortParams) : PixelSortParamsRaw :=
  {| raw_direction := SortDirection_value (direction p);
     raw_sortKey := SortKey_value (sortKey p);
     raw_intervalMode := IntervalMode_value (intervalMode p);
     raw_lowerThreshold := lowerThreshold p;
     raw_upperThreshold := upperThreshold p;
     raw_reverse := reverse p;
     raw_jitter := jitter p;
     raw_spanMin := spanMin p;
     raw_spanMax := spanMax p;
     raw_angle := angle p;
     raw_falloff := falloff p |}.

(** The ranges of the stored struct: every enumeration field holds a value
    of its enumeration, every numeric field is in the range of
    [valid_params]. *)
Record valid_params_raw (p : PixelSortParamsRaw) : Prop := {
  vr_direction : 0 <= raw_direction p <= 1;
  vr_sortKey : 0 <= raw_sortKey p <= 7;
  vr_intervalMode : 0 <= raw_intervalMode p <= 4;
  vr_lower : 0 <= raw_lowerThreshold p <= 255;
  vr_upper : raw_lowerThreshold p <= raw_upperThreshold p <= 255;
  vr_jitter : 0 <= raw_jitter p <= 100;
  vr_spanMin : 1 <= raw_spanMin p <= 10000;
  vr_spanMax : raw_spanMax p = 0 \/ raw_spanMin p <= raw_spanMax p <= 10000;
  vr_angle : 0 <= raw_angle p <= 359;
  vr_falloff : 0 <= raw_falloff p <= 100
}.

(** [struct PixelData] *)
Record PixelData := mkPixelData {
  pd_r : BYTE;
  pd_g : BYTE;
  pd_b : BYTE;
  sortValue : float
}.

(* ===================================================================== *)
(** * PIPixelSort.h: sort-key functions *)
(* ===================================================================== *)

(** [static_cast<float>(BYTE)] *)
Definition byte_to_float (b : BYTE) : float := f32_of_int (byte_to_int b).

(** [(std::max)({a, b, c})] and [(std::min)({a, b, c})] on [float]: the
    first greatest (smallest) element under [<]. *)
Definition f32_max3 (a b c : float) : float :=
  let m := if f32_lt a b then b else a in
  if f32_lt m c then c else m.

Definition f32_min3 (a b c : float) : float :=
  let m := if f32_lt b a then b else a in
  if f32_lt c m then c else m.

Definition GetBrightness (r g b : BYTE) : float :=
  f32_add
    (f32_add (f32_mul (f32_lit 299 1000) (byte_to_float r))
             (f32_mul (f32_lit 587 1000) (byte_to_float g)))
    (f32_mul (f32_lit 114 1000) (byte_to_float b)).

Definition GetIntensity (r g b : BYTE) : float :=
  f32_div (f32_of_int (byte_to_int r + byte_to_int g + byte_to_int b))
          (f32_of_int 3).

Definition GetMinimum (r g b : BYTE) : float :=
  f32_of_int (Z.min (Z.min (byte_to_int r) (byte_to_int g)) (byte_to_int b)).

Definition GetHue (rv gv bv : BYTE) : float :=
  let r := byte_to_float rv in
  let g := byte_to_float gv in
  let b := byte_to_float bv in
  let maxC := f32_max3 r g b in
  let minC := f32_min3 r g b in
  let delta := f32_sub maxC minC in
  if f32_le delta f32_zero then f32_zero
  else
    let hue :=
      if f32_eq maxC r then
        f32_mul (f32_of_int 60) (fmodf (f32_div (f32_sub g b) delta) (f32_of_int 6))
      else if f32_eq maxC g then
        f32_mul (f32_of_int 60) (f32_add (f32_div (f32_sub b r) delta) (f32_of_int 2))
      else
        f32_mul (f32_of_int 60) (f32_add (f32_div (f32_sub r g) delta) (f32_of_int 4)) in
    if f32_lt hue f32_zero then f32_add hue (f32_of_int 360) else hue.

Definition GetSaturation (rv gv bv : BYTE) : float :=
  let r := byte_to_float rv in
  let g := byte_to_float gv in
  let b := byte_to_float bv in
  let maxC := f32_max3 r g b in
  if f32_le maxC f32_zero then f32_zero
  else
    let minC := f32_min3 r g b in
    f32_div (f32_sub maxC minC) maxC.

Definition GetSortValue (r g b : BYTE) (key : SortKey) : float :=
  match key with
  | kSortKeyBrightness => GetBrightness r g b
  | kSortKeyHue => GetHue r g b
  | kSortKeySaturation => GetSaturation r g b
  | kSortKeyIntensity => GetIntensity r g b
  | kSortKeyMinimum => GetMinimum r g b
  | kSortKeyRed => byte_to_float r
  | kSortKeyGreen => byte_to_float g
  | kSortKeyBlue => byte_to_float b
  end.

Definition GetBrightnessNorm (r g b : BYTE) : float :=
  f32_div (GetBrightness r g b) (f32_of_int 255).

Definition GetSortValueNorm (r g b : BYTE) (key : SortKey) : float :=
  match key with
  | kSortKeyBrightness => f32_div (GetBrightness r g b) (f32_of_int 255)
  | kSortKeyHue => f32_div (GetHue r g b) (f32_of_int 360)
  | kSortKeySaturation => GetSaturation r g b
  | kSortKeyIntensity => f32_div (GetIntensity r g b) (f32_of_int 255)
  | kSortKeyMinimum => f32_div (GetMinimum r g b) (f32_of_int 255)
  | kSortKeyRed => f32_div (byte_to_float r) (f32_of_int 255)
  | kSortKeyGreen => f32_div (byte_to_float g) (f32_of_int 255)
  | kSortKeyBlue => f32_div (byte_to_float b) (f32_of_int 255)
  end.

(* ===================================================================== *)
(** * The C++ standard library and libm, as far as the plug-in uses them *)
(* ===================================================================== *)

(** A comparator is a strict weak ordering on the elements of [l]; this is
    the precondition of [std::sort]. *)
Record strict_weak_on {A : Type} (comp : A -> A -> bool) (l : list A) : Prop := {
  swo_irrefl : forall x, In x l -> comp x x = false;
  swo_trans : forall x y z, In x l -> In y l -> In z l ->
    comp x y = true -> comp y z = true -> comp x z = true;
  swo_incomp : forall x y z, In x l -> In y l -> In z l ->
    comp x y = false -> comp y x = false ->
    comp y z = false -> comp z y = false ->
    comp x z = false /\ comp z x = false
}.

(** Sorted with respect to [comp]: no element is less than an earlier one. *)
Definition sorted_wrt {A : Type} (comp : A -> A -> bool) (l : list A) : Prop :=
  StronglySorted (fun a b => comp b a = false) l.

(** [std::mt19937] with [std::uniform_int_distribution<int>], [std::sort],
    and [sin]/[cos] of libm.  None of them belongs to the repository; each
    is taken with the contract the C++ and C standards give it:
    a distribution over [a, b] returns a value of [a, b]; [std::sort]
    leaves the number of elements unchanged and, for a strict weak
    ordering, returns a permutation sorted with respect to it (the order of
    equivalent elements is not specified); [sin] maps [+0] to [+0]. *)
Class StdLib := {
  mt19937 : Type;
  mt19937_seed : Z -> mt19937;
  uniform_int_distribution : Z -> Z -> mt19937 -> Z * mt19937;
  uniform_int_distribution_range : forall a b g,
    a <= b -> a <= fst (uniform_int_distribution a b g) <= b;
  std_sort : forall A : Type, (A -> A -> bool) -> list A -> list A;
  std_sort_length : forall A comp (l : list A),
    length (std_sort A comp l) = length l;
  std_sort_spec : forall A comp (l : list A),
    strict_weak_on comp l ->
    Permutation l (std_sort A comp l) /\ sorted_wrt comp (std_sort A comp l);
  sin : double -> double;
  cos : double -> double;
  sin_zero : sin f64_zero = f64_zero
}.

Arguments std_sort {_ _} _ _.

(* ===================================================================== *)
(** * PISpanDetector.h *)
(* ===================================================================== *)

(** [struct Span]: [start] inclusive, [end] exclusive. *)
Record Span := mkSpan { span_start : Z; span_end : Z }.

(** ** Memory: byte vectors addressed by [int] offsets

    A read outside the vector is undefined in the source; it yields 0
    here, and a write outside the vector changes nothing. *)

Definition buf_get (m : list BYTE) (i : Z) : BYTE :=
  if i <? 0 then x00 else default x00 (m !! Z.to_nat i).

Definition buf_set (m : list BYTE) (i : Z) (v : BYTE) : list BYTE :=
  if i <? 0 then m else <[Z.to_nat i := v]> m.

(** [v[i]] on a [std::vector] *)
Definition vec_get {A : Type} (d : A) (v : list A) (i : Z) : A :=
  if i <? 0 then d else default d (v !! Z.to_nat i).

Definition vec_set {A : Type} (v : list A) (i : Z) (x : A) : list A :=
  if i <? 0 then v else <[Z.to_nat i := x]> v.

(** ** Row accessor

    [imageBase] is the offset of the first pixel of the line inside the
    image vector the pointer of the source points into. *)
Record RowAccessor := mkRow {
  imageBase : Z;
  imagePixelBytes : Z;
  imageRowBytes : Z;
  rIdx : Z;
  gIdx : Z;
  bIdx : Z;
  row_length : Z;
  vertical : bool
}.

Definition pixelStride (row : RowAccessor) : Z :=
  if vertical row then imageRowBytes row else imagePixelBytes row.

Definition pixelAt (row : RowAccessor) (i : Z) : Z :=
  imageBase row + i * pixelStride row.

Definition getRGB (row : RowAccessor) (img : list BYTE) (i : Z) : BYTE * BYTE * BYTE :=
  let p := pixelAt row i in
  (buf_get img (p + rIdx row), buf_get img (p + gIdx row), buf_get img (p + bIdx row)).

Definition setRGB (row : RowAccessor) (i : Z) (r g b : BYTE) (img : list BYTE) : list BYTE :=
  let p := pixelAt row i in
  buf_set (buf_set (buf_set img (p + rIdx row) r) (p + gIdx row) g) (p + bIdx row) b.

(** ** Threshold spans *)

(** The body of [for (int i = 0; i <= n; ++i)]; [k] counts the iterations
    that remain. *)
Fixpoint threshold_loop (inRangeAt : Z -> bool) (n : Z) (k : nat) (i : Z)
    (spanStart : Z) (outSpans : list Span) : list Span :=
  match k with
  | O => outSpans
  | S k' =>
      let inRange := if i <? n then inRangeAt i else false in
      if inRange && (spanStart <? 0) then
        threshold_loop inRangeAt n k' (i + 1) i outSpans
      else if negb inRange && (0 <=? spanStart) then
        threshold_loop inRangeAt n k' (i + 1) (-1) (outSpans ++ [mkSpan spanStart i])
      else
        threshold_loop inRangeAt n k' (i + 1) spanStart outSpans
  end.

(** [val >= lowerNorm && val <= upperNorm] at pixel [i] *)
Definition threshold_in_range (row : RowAccessor) (img : list BYTE)
    (lowerNorm upperNorm : float) (sortKey : SortKey) (i : Z) : bool :=
  let '(r, g, b) := getRGB row img i in
  let val := GetSortValueNorm r g b sortKey in
  f32_ge val lowerNorm && f32_le val upperNorm.

Definition DetectSpansThreshold (row : RowAccessor) (img : list BYTE)
    (lowerNorm upperNorm : float) (sortKey : SortKey)
    (outSpans : list Span) : list Span :=
  let outSpans : list Span := [] in
  let n := row_length row in
  if n <=? 0 then outSpans
  else
    threshold_loop (threshold_in_range row img lowerNorm upperNorm sortKey)
      n (Z.to_nat (n + 1)) 0 (-1) outSpans.

(** ** Random spans *)

(** [while (i < n)]; each iteration moves [i] forward, so [n] iterations
    are never exceeded (see [random_loop_fuel]). *)
Fixpoint random_loop `{StdLib} (fuel : nat) (n maxLen i : Z) (rng : mt19937)
    (outSpans : list Span) : mt19937 * list Span :=
  match fuel with
  | O => (rng, outSpans)
  | S fuel' =>
      if i <? n then
        let '(length, rng) := uniform_int_distribution 10 maxLen rng in
        let end_ := Z.min (i + length) n in
        let outSpans := outSpans ++ [mkSpan i end_] in
        let '(gap, rng) := uniform_int_distribution 1 20 rng in
        random_loop fuel' n maxLen (end_ + gap) rng outSpans
      else (rng, outSpans)
  end.

Definition DetectSpansRandom `{StdLib} (n : Z) (rng : mt19937)
    (outSpans : list Span) : mt19937 * list Span :=
  let outSpans : list Span := [] in
  if n <=? 0 then (rng, outSpans)
  else
    let maxLen := Z.max 11 (Z.quot n 4) in
    random_loop (Z.to_nat n) n maxLen 0 rng outSpans.

(** ** Edge spans *)

(** [for (i < n) brightnessWork[i] = GetBrightnessNorm(...)] *)
Fixpoint edges_brightness_loop (row : RowAccessor) (img : list BYTE) (k : nat)
    (i : Z) (brightnessWork : list float) : list float :=
  match k with
  | O => brightnessWork
  | S k' =>
      let '(r, g, b) := getRGB row img i in
      edges_brightness_loop row img k' (i + 1)
        (vec_set brightnessWork i (GetBrightnessNorm r g b))
  end.

(** [for (i < nEdges)]: edge magnitudes and their running sums *)
Fixpoint edges_stat_loop (brightnessWork : list float) (k : nat) (i : Z)
    (edges : list float) (edgeSum edgeSumSq : double)
    : list float * double * double :=
  match k with
  | O => (edges, edgeSum, edgeSumSq)
  | S k' =>
      let e := fabsf (f32_sub (vec_get f32_zero brightnessWork (i + 1))
                              (vec_get f32_zero brightnessWork i)) in
      let edges := vec_set edges i e in
      let edgeSum := f64_add edgeSum (float_to_double e) in
      let edgeSumSq := f64_add edgeSumSq (float_to_double (f32_mul e e)) in
      edges_stat_loop brightnessWork k' (i + 1) edges edgeSum edgeSumSq
  end.

(** [for (i < nEdges)]: one span per split point *)
Fixpoint edges_split_loop (edges : list float) (threshold : float) (k : nat)
    (i : Z) (prevPos : Z) (outSpans : list Span) : Z * list Span :=
  match k with
  | O => (prevPos, outSpans)
  | S k' =>
      if f32_gt (vec_get f32_zero edges i) threshold then
        let splitPos := i + 1 in
        let outSpans :=
          if prevPos <? splitPos then outSpans ++ [mkSpan prevPos splitPos]
          else outSpans in
        edges_split_loop edges threshold k' (i + 1) splitPos outSpans
      else
        edges_split_loop edges threshold k' (i + 1) prevPos outSpans
  end.

Definition DetectSpansEdges (row : RowAccessor) (img : list BYTE)
    (outSpans : list Span) (brightnessWork : list float)
    : list Span * list float :=
  let outSpans : list Span := [] in
  let n := row_length row in
  if n <=? 0 then (outSpans, brightnessWork)
  else if n =? 1 then (outSpans ++ [mkSpan 0 1], brightnessWork)
  else
    let brightnessWork := resize (Z.to_nat n) f32_zero brightnessWork in
    let brightnessWork :=
      edges_brightness_loop row img (Z.to_nat n) 0 brightnessWork in
    let nEdges := n - 1 in
    let '(edges, edgeSum, edgeSumSq) :=
      edges_stat_loop brightnessWork (Z.to_nat nEdges) 0
        (replicate (Z.to_nat nEdges) f32_zero) f64_zero f64_zero in
    let mean := f64_div edgeSum (f64_of_int nEdges) in
    let variance :=
      f64_sub (f64_div edgeSumSq (f64_of_int nEdges)) (f64_mul mean mean) in
    let variance := if f64_lt variance f64_zero then f64_zero else variance in
    let stddev := f64_sqrt variance in
    let threshold := double_to_float (f64_add mean stddev) in
    let '(prevPos, outSpans) :=
      edges_split_loop edges threshold (Z.to_nat nEdges) 0 0 outSpans in
    let outSpans :=
      if prevPos <? n then outSpans ++ [mkSpan prevPos n] else outSpans in
    (outSpans, brightnessWork).

(** ** Wave spans *)

(** [static_cast<int>(waveLen * (0.5 + 0.5 * sin(phase)))] *)
Definition wave_length `{StdLib} (waveLen : Z) (phase : double) : Z :=
  double_to_int
    (f64_mul (f64_of_int waveLen)
       (f64_add (f64_lit 5 10) (f64_mul (f64_lit 5 10) (sin phase)))).

(** [while (i < n)]; a span has at least one pixel, so [n] iterations are
    never exceeded (see [waves_loop_fuel]). *)
Fixpoint waves_loop `{StdLib} (fuel : nat) (n waveLen i : Z) (phase : double)
    (outSpans : list Span) : list Span :=
  match fuel with
  | O => outSpans
  | S fuel' =>
      if i <? n then
        let length := wave_length waveLen phase in
        let length := Z.max 2 length in
        let end_ := Z.min (i + length) n in
        waves_loop fuel' n waveLen end_ (f64_add phase (f64_lit 5 10))
          (outSpans ++ [mkSpan i end_])
      else outSpans
  end.

Definition DetectSpansWaves `{StdLib} (n rowIndex : Z) (outSpans : list Span)
    : list Span :=
  let outSpans : list Span := [] in
  if n <=? 0 then outSpans
  else
    let waveLen := Z.max 10 (Z.quot n 8) in
    let phase := f64_mul (f64_of_int rowIndex) (f64_lit 1 10) in
    waves_loop (Z.to_nat n) n waveLen 0 phase outSpans.

(** ** None: a single span covering the full row *)

Definition DetectSpansNone (n : Z) (outSpans : list Span) : list Span :=
  let outSpans : list Span := [] in
  if n <=? 0 then outSpans else outSpans ++ [mkSpan 0 n].

(** ** Dispatch and filter *)

(** The strategy [switch] of [DetectSpans]. *)
Definition detect_dispatch `{StdLib} (row : RowAccessor) (img : list BYTE)
    (params : PixelSortParams) (rowIndex : Z) (rng : mt19937)
    (outSpans : list Span) (brightnessWork : list float)
    : mt19937 * list Span * list float :=
  let lowerNorm := f32_div (f32_of_int (lowerThreshold params)) (f32_of_int 255) in
  let upperNorm := f32_div (f32_of_int (upperThreshold params)) (f32_of_int 255) in
  match intervalMode params with
  | kIntervalModeThreshold =>
      (rng,
       DetectSpansThreshold row img lowerNorm upperNorm (sortKey params) outSpans,
       brightnessWork)
  | kIntervalModeRandom =>
      let '(rng, outSpans) := DetectSpansRandom (row_length row) rng outSpans in
      (rng, outSpans, brightnessWork)
  | kIntervalModeEdges =>
      let '(outSpans, brightnessWork) :=
        DetectSpansEdges row img outSpans brightnessWork in
      (rng, outSpans, brightnessWork)
  | kIntervalModeWaves =>
      (rng, DetectSpansWaves (row_length row) rowIndex outSpans, brightnessWork)
  | kIntervalModeNone =>
      (rng, DetectSpansNone (row_length row) outSpans, brightnessWork)
  end.

(** [// Filter by span_min]: the in-place compaction
    [outSpans[writeIdx++] = outSpans[i]]. *)
Fixpoint span_min_loop (spanMin : Z) (k : nat) (i : nat) (writeIdx : nat)
    (outSpans : list Span) : nat * list Span :=
  match k with
  | O => (writeIdx, outSpans)
  | S k' =>
      let s := default (mkSpan 0 0) (outSpans !! i) in
      if spanMin <=? span_end s - span_start s then
        span_min_loop spanMin k' (S i) (S writeIdx) (<[writeIdx := s]> outSpans)
      else
        span_min_loop spanMin k' (S i) writeIdx outSpans
  end.

Definition filter_span_min (spanMin : Z) (outSpans : list Span) : list Span :=
  if 1 <? spanMin then
    let '(writeIdx, outSpans) :=
      span_min_loop spanMin (length outSpans) 0 0 outSpans in
    take writeIdx outSpans
  else outSpans.

(** [// Cap by span_max]: [while (s < e)] on one span; the span has [e - s]
    pixels and every iteration consumes at least one of them. *)
Fixpoint span_max_loop (fuel : nat) (spanMax s e : Z) (capped : list Span)
    : list Span :=
  match fuel with
  | O => capped
  | S fuel' =>
      if s <? e then
        let end_ := Z.min (s + spanMax) e in
        span_max_loop fuel' spanMax end_ e (capped ++ [mkSpan s end_])
      else capped
  end.

Fixpoint span_max_spans (spanMax : Z) (outSpans : list Span)
    (capped : list Span) : list Span :=
  match outSpans with
  | [] => capped
  | sp :: rest =>
      let s := span_start sp in
      let e := span_end sp in
      span_max_spans spanMax rest
        (span_max_loop (Z.to_nat (e - s)) spanMax s e capped)
  end.

Definition cap_span_max (spanMax : Z) (outSpans : list Span) : list Span :=
  if 0 <? spanMax then span_max_spans spanMax outSpans [] else outSpans.

(** The post-filter of [DetectSpans]. *)
Definition post_filter (params : PixelSortParams) (outSpans : list Span)
    : list Span :=
  cap_span_max (spanMax params) (filter_span_min (spanMin params) outSpans).

Definition DetectSpans `{StdLib} (row : RowAccessor) (img : list BYTE)
    (params : PixelSortParams) (rowIndex : Z) (rng : mt19937)
    (outSpans : list Span) (brightnessWork : list float)
    : mt19937 * list Span * list float :=
  let '(rng, outSpans, brightnessWork) :=
    detect_dispatch row img params rowIndex rng outSpans brightnessWork in
  (rng, post_filter params outSpans, brightnessWork).

(* ===================================================================== *)
(** * PIPixelSortMain.cpp: SortLine *)
(* ===================================================================== *)

(** The reusable work vectors of [FilterRun], passed by reference to every
    call of [SortLine]. *)
Record Work := mkWork {
  spansWork : list Span;
  brightnessWork : list float;
  pixelsWork : list PixelData;
  includedIndices : list Z
}.

(** [const BYTE* selectArea]: a pointer into the selection vector, or NULL
    ([None]). *)
Record SelectArea := mkSelectArea {
  sel_mem : list BYTE;
  sel_base : Z
}.

Definition select_at (sa : SelectArea) (off : Z) : BYTE :=
  buf_get (sel_mem sa) (sel_base sa + off).

Definition PixelData_zero : PixelData := mkPixelData x00 x00 x00 f32_zero.

(** the comparator of the [std::sort] call *)
Definition sortValue_less (a b : PixelData) : bool :=
  f32_lt (sortValue a) (sortValue b).

(** [std::swap(v[i], v[j])] *)
Definition vec_swap {A : Type} (d : A) (v : list A) (i j : Z) : list A :=
  let a := vec_get d v i in
  let b := vec_get d v j in
  vec_set (vec_set v i b) j a.

(** [// Collect pixels in span, respecting selection mask] *)
Fixpoint collect_loop (row : RowAccessor) (img : list BYTE)
    (selectArea : option SelectArea) (selectPixelStride : Z) (key : SortKey)
    (n spanStart : Z) (k : nat) (i : Z)
    (pixelsWork : list PixelData) (includedIndices : list Z)
    : list PixelData * list Z :=
  match k with
  | O => (pixelsWork, includedIndices)
  | S k' =>
      let pixelIdx := spanStart + i in
      if n <=? pixelIdx then (pixelsWork, includedIndices)
      else
        let unselected :=
          match selectArea with
          | Some sa => byte_to_int (select_at sa (pixelIdx * selectPixelStride)) =? 0
          | None => false
          end in
        if unselected then
          collect_loop row img selectArea selectPixelStride key n spanStart k'
            (i + 1) pixelsWork includedIndices
        else
          let '(r, g, b) := getRGB row img pixelIdx in
          let pd := mkPixelData r g b (GetSortValue r g b key) in
          collect_loop row img selectArea selectPixelStride key n spanStart k'
            (i + 1) (pixelsWork ++ [pd]) (includedIndices ++ [i])
  end.

(** [// Apply jitter if requested] *)
Fixpoint jitter_loop `{StdLib} (jitter count : Z) (k : nat) (i : Z)
    (rng : mt19937) (pixelsWork : list PixelData) : mt19937 * list PixelData :=
  match k with
  | O => (rng, pixelsWork)
  | S k' =>
      let '(offset, rng) := uniform_int_distribution (- jitter) jitter rng in
      let j := Z.max 0 (Z.min (count - 1) (i + offset)) in
      jitter_loop jitter count k' (i + 1) rng
        (vec_swap PixelData_zero pixelsWork i j)
  end.

(** [((sorted - orig) * alpha / 255) + orig], narrowed to [BYTE]; [/] on
    [int] truncates toward zero. *)
Definition blend_channel (sorted orig : BYTE) (alpha : Z) : BYTE :=
  int_to_BYTE
    (Z.quot ((byte_to_int sorted - byte_to_int orig) * alpha) 255 + byte_to_int orig).

(** [// Write sorted pixels back], with a selection *)
Fixpoint write_selected_loop (row : RowAccessor) (sa : SelectArea)
    (selectPixelStride spanStart : Z) (pixelsWork : list PixelData)
    (includedIndices : list Z) (k : nat) (i : Z) (img : list BYTE) : list BYTE :=
  match k with
  | O => img
  | S k' =>
      let pixelIdx := spanStart + vec_get 0 includedIndices i in
      let sel := byte_to_int (select_at sa (pixelIdx * selectPixelStride)) in
      let pd := vec_get PixelData_zero pixelsWork i in
      let img :=
        if sel =? 255 then setRGB row pixelIdx (pd_r pd) (pd_g pd) (pd_b pd) img
        else if 0 <? sel then
          let '(origR, origG, origB) := getRGB row img pixelIdx in
          let alpha := sel in
          let finalR := blend_channel (pd_r pd) origR alpha in
          let finalG := blend_channel (pd_g pd) origG alpha in
          let finalB := blend_channel (pd_b pd) origB alpha in
          setRGB row pixelIdx finalR finalG finalB img
        else img in
      write_selected_loop row sa selectPixelStride spanStart pixelsWork
        includedIndices k' (i + 1) img
  end.

(** [// Write sorted pixels back], without a selection *)
Fixpoint write_plain_loop (row : RowAccessor) (spanStart : Z)
    (pixelsWork : list PixelData) (includedIndices : list Z) (k : nat) (i : Z)
    (img : list BYTE) : list BYTE :=
  match k with
  | O => img
  | S k' =>
      let pixelIdx := spanStart + vec_get 0 includedIndices i in
      let pd := vec_get PixelData_zero pixelsWork i in
      write_plain_loop row spanStart pixelsWork includedIndices k' (i + 1)
        (setRGB row pixelIdx (pd_r pd) (pd_g pd) (pd_b pd) img)
  end.

Definition write_back (row : RowAccessor) (selectArea : option SelectArea)
    (selectPixelStride spanStart : Z) (pixelsWork : list PixelData)
    (includedIndices : list Z) (img : list BYTE) : list BYTE :=
  let count := length pixelsWork in
  match selectArea with
  | Some sa =>
      write_selected_loop row sa selectPixelStride spanStart pixelsWork
        includedIndices count 0 img
  | None =>
      write_plain_loop row spanStart pixelsWork includedIndices count 0 img
  end.

(** What one iteration of the span loop does to the random generator, the
    two per-span work vectors and the image. *)
Record SpanState `{StdLib} := mkSpanState {
  ss_rng : mt19937;
  ss_pixels : list PixelData;
  ss_included : list Z;
  ss_image : list BYTE
}.

Arguments mkSpanState {_} _ _ _ _.
Arguments ss_rng {_} _.
Arguments ss_pixels {_} _.
Arguments ss_included {_} _.
Arguments ss_image {_} _.

(** [// Falloff: randomly skip this span]: the draw and its outcome *)
Definition falloff_draw `{StdLib} (params : PixelSortParams) (rng : mt19937)
    : bool * mt19937 :=
  if 0 <? falloff params then
    let '(d, rng) := uniform_int_distribution 0 99 rng in
    (d <? falloff params, rng)
  else (false, rng).

(** The sorted sequence of a span: [std::sort], then the optional
    [std::reverse]. *)
Definition sort_pixels `{StdLib} (params : PixelSortParams)
    (pixelsWork : list PixelData) : list PixelData :=
  let pixelsWork := std_sort sortValue_less pixelsWork in
  if reverse params then rev pixelsWork else pixelsWork.

(** The body of [for (si < spansWork.size())]. *)
Definition sort_span `{StdLib} (row : RowAccessor) (params : PixelSortParams)
    (selectArea : option SelectArea) (selectPixelStride : Z) (n : Z)
    (sp : Span) (st : SpanState) : SpanState :=
  let spanStart := span_start sp in
  let spanEnd := span_end sp in
  let spanLen := spanEnd - spanStart in
  if spanLen <? 2 then st
  else
    let '(skip, rng) := falloff_draw params (ss_rng st) in
    if skip then mkSpanState rng (ss_pixels st) (ss_included st) (ss_image st)
    else
      let img := ss_image st in
      let '(pixelsWork, includedIndices) :=
        collect_loop row img selectArea selectPixelStride (sortKey params)
          n spanStart (Z.to_nat spanLen) 0 [] [] in
      let count := Z.of_nat (length pixelsWork) in
      if count <? 2 then mkSpanState rng pixelsWork includedIndices img
      else
        let pixelsWork := sort_pixels params pixelsWork in
        let '(rng, pixelsWork) :=
          if (0 <? jitter params) && (1 <? count) then
            jitter_loop (jitter params) count (Z.to_nat count) 0 rng pixelsWork
          else (rng, pixelsWork) in
        let img :=
          write_back row selectArea selectPixelStride spanStart pixelsWork
            includedIndices img in
        mkSpanState rng pixelsWork includedIndices img.

Definition sort_spans `{StdLib} (row : RowAccessor) (params : PixelSortParams)
    (selectArea : option SelectArea) (selectPixelStride : Z) (n : Z)
    (spans : list Span) (st : SpanState) : SpanState :=
  fold_left (fun st sp => sort_span row params selectArea selectPixelStride n sp st)
    spans st.

Definition SortLine `{StdLib} (row : RowAccessor) (params : PixelSortParams)
    (selectArea : option SelectArea) (selectPixelStride : Z) (rowIndex : Z)
    (rng : mt19937) (work : Work) (img : list BYTE)
    : mt19937 * Work * list BYTE :=
  let n := row_length row in
  if n <=? 0 then (rng, work, img)
  else
    let '(rng, spans, brightness) :=
      DetectSpans row img params rowIndex rng (spansWork work)
        (brightnessWork work) in
    let st :=
      sort_spans row params selectArea selectPixelStride n spans
        (mkSpanState rng (pixelsWork work) (includedIndices work) img) in
    (ss_rng st,
     mkWork spans brightness (ss_pixels st) (ss_included st),
     ss_image st).

(* ===================================================================== *)
(** * PIPixelSortMain.cpp: the full-image pass of FilterRun *)
(* ===================================================================== *)

(** The local variables of the pass that describe the rotated canvas. *)
Record Rotation := mkRotation {
  fullW : Z;
  fullH : Z;
  sortW : Z;
  sortH : Z;
  cosA : double;
  sinA : double;
  cx : double;
  cy : double;
  rcx : double;
  rcy : double
}.

Definition f64_half : double := f64_lit 5 10.

(** The values the variables hold when [useAngle] is false. *)
Definition no_rotation (w h : Z) : Rotation :=
  mkRotation w h w h (f64_of_int 1) f64_zero f64_zero f64_zero f64_zero f64_zero.

(** The assignments at the head of [if (useAngle)]. *)
Definition make_rotation `{StdLib} (angle_ w h : Z) : Rotation :=
  let rad := f64_div (f64_mul (f64_of_int angle_) M_PI) (f64_of_int 180) in
  let cosA := cos rad in
  let sinA := sin rad in
  let sortW :=
    double_to_int (ceil (f64_add (fabs (f64_mul (f64_of_int w) cosA))
                                 (fabs (f64_mul (f64_of_int h) sinA)))) in
  let sortH :=
    double_to_int (ceil (f64_add (fabs (f64_mul (f64_of_int w) sinA))
                                 (fabs (f64_mul (f64_of_int h) cosA)))) in
  let sortW := if sortW <? 1 then 1 else sortW in
  let sortH := if sortH <? 1 then 1 else sortH in
  mkRotation w h sortW sortH cosA sinA
    (f64_div (f64_of_int (w - 1)) (f64_of_int 2))
    (f64_div (f64_of_int (h - 1)) (f64_of_int 2))
    (f64_div (f64_of_int (sortW - 1)) (f64_of_int 2))
    (f64_div (f64_of_int (sortH - 1)) (f64_of_int 2)).

(** copy of one RGB triple between two vectors *)
Definition copy_rgb (src : list BYTE) (si : Z) (dst : list BYTE) (di : Z)
    : list BYTE :=
  buf_set (buf_set (buf_set dst di (buf_get src si))
             (di + 1) (buf_get src (si + 1)))
    (di + 2) (buf_get src (si + 2)).

(** ** Rotation into the working buffer *)

(** source coordinate of the rotated pixel [(rx, ry)] *)
Definition rotate_source (rot : Rotation) (rx ry : Z) : Z * Z :=
  let dx := f64_sub (f64_of_int rx) (rcx rot) in
  let dy := f64_sub (f64_of_int ry) (rcy rot) in
  let sx :=
    double_to_int
      (f64_add (f64_add (f64_sub (f64_mul dx (cosA rot)) (f64_mul dy (sinA rot)))
                        (cx rot)) f64_half) in
  let sy :=
    double_to_int
      (f64_add (f64_add (f64_add (f64_mul dx (sinA rot)) (f64_mul dy (cosA rot)))
                        (cy rot)) f64_half) in
  (sx, sy).

Fixpoint rotate_row (rot : Rotation) (fullImage : list BYTE) (ry : Z) (k : nat)
    (rx : Z) (rotImage : list BYTE) : list BYTE :=
  match k with
  | O => rotImage
  | S k' =>
      let '(sx, sy) := rotate_source rot rx ry in
      let rotImage :=
        if (0 <=? sx) && (sx <? fullW rot) && (0 <=? sy) && (sy <? fullH rot) then
          let si := (sy * fullW rot + sx) * 3 in
          let di := (ry * sortW rot + rx) * 3 in
          copy_rgb fullImage si rotImage di
        else rotImage in
      rotate_row rot fullImage ry k' (rx + 1) rotImage
  end.

Fixpoint rotate_rows (rot : Rotation) (fullImage : list BYTE) (k : nat) (ry : Z)
    (rotImage : list BYTE) : list BYTE :=
  match k with
  | O => rotImage
  | S k' =>
      rotate_rows rot fullImage k' (ry + 1)
        (rotate_row rot fullImage ry (Z.to_nat (sortW rot)) 0 rotImage)
  end.

(** [rotImage.resize(sortW * sortH * 3, 0)] on the empty vector, then the
    two loops. *)
Definition rotate (rot : Rotation) (fullImage : list BYTE) : list BYTE :=
  let rotImage := replicate (Z.to_nat (sortW rot * sortH rot * 3)) x00 in
  rotate_rows rot fullImage (Z.to_nat (sortH rot)) 0 rotImage.

(** ** Rotation back *)

(** rotated-canvas coordinate of the image pixel [(fx, fy)] *)
Definition unrotate_source (rot : Rotation) (fx fy : Z) : Z * Z :=
  let dx := f64_sub (f64_of_int fx) (cx rot) in
  let dy := f64_sub (f64_of_int fy) (cy rot) in
  let rx :=
    double_to_int
      (f64_add (f64_add (f64_add (f64_mul dx (cosA rot)) (f64_mul dy (sinA rot)))
                        (rcx rot)) f64_half) in
  let ry :=
    double_to_int
      (f64_add (f64_add (f64_add (f64_mul (f64_opp dx) (sinA rot))
                                 (f64_mul dy (cosA rot)))
                        (rcy rot)) f64_half) in
  (rx, ry).

(** [rx >= 0 && rx < sortW && ry >= 0 && ry < sortH] *)
Definition in_canvas (rot : Rotation) (rx ry : Z) : bool :=
  (0 <=? rx) && (rx <? sortW rot) && (0 <=? ry) && (ry <? sortH rot).

Fixpoint unrotate_row (rot : Rotation) (rotImage : list BYTE) (fy : Z) (k : nat)
    (fx : Z) (fullImage : list BYTE) : list BYTE :=
  match k with
  | O => fullImage
  | S k' =>
      let '(rx, ry) := unrotate_source rot fx fy in
      let fullImage :=
        if in_canvas rot rx ry then
          let si := (ry * sortW rot + rx) * 3 in
          let di := (fy * fullW rot + fx) * 3 in
          copy_rgb rotImage si fullImage di
        else fullImage in
      unrotate_row rot rotImage fy k' (fx + 1) fullImage
  end.

Fixpoint unrotate_rows (rot : Rotation) (rotImage : list BYTE) (k : nat) (fy : Z)
    (fullImage : list BYTE) : list BYTE :=
  match k with
  | O => fullImage
  | S k' =>
      unrotate_rows rot rotImage k' (fy + 1)
        (unrotate_row rot rotImage fy (Z.to_nat (fullW rot)) 0 fullImage)
  end.

(** the two resampling loops of [// Unrotate if needed] *)
Definition unrotate_loops (rot : Rotation) (rotImage fullImage : list BYTE)
    : list BYTE :=
  unrotate_rows rot rotImage (Z.to_nat (fullH rot)) 0 fullImage.

(** [// Unrotate if needed]: [std::fill(..., 0)], then the two loops *)
Definition unrotate (rot : Rotation) (rotImage fullImage : list BYTE)
    : list BYTE :=
  let fullImage := replicate (length fullImage) x00 in
  unrotate_loops rot rotImage fullImage.

(** ** Selection blending after the rotation back *)

Fixpoint blend_channels_loop (origImage : list BYTE) (sel : Z) (i : Z) (k : nat)
    (c : Z) (fullImage : list BYTE) : list BYTE :=
  match k with
  | O => fullImage
  | S k' =>
      let idx := i * 3 + c in
      blend_channels_loop origImage sel i k' (c + 1)
        (buf_set fullImage idx
           (blend_channel (buf_get fullImage idx) (buf_get origImage idx) sel))
  end.

Fixpoint blend_selection_loop (origImage fullSelect : list BYTE) (k : nat)
    (i : Z) (fullImage : list BYTE) : list BYTE :=
  match k with
  | O => fullImage
  | S k' =>
      let sel := byte_to_int (buf_get fullSelect i) in
      let fullImage :=
        if sel =? 0 then copy_rgb origImage (i * 3) fullImage (i * 3)
        else if sel <? 255 then blend_channels_loop origImage sel i 3 0 fullImage
        else fullImage in
      blend_selection_loop origImage fullSelect k' (i + 1) fullImage
  end.

(** ** Sorting the rows or the columns of the sort buffer *)

Definition is_empty {A : Type} (v : list A) : bool :=
  match v with [] => true | _ => false end.

Fixpoint sort_rows_loop `{StdLib} (params : PixelSortParams) (useAngle : bool)
    (rot : Rotation) (fullSelect : list BYTE) (k : nat) (y : Z)
    (rng : mt19937) (work : Work) (sortBuf : list BYTE)
    : mt19937 * Work * list BYTE :=
  match k with
  | O => (rng, work, sortBuf)
  | S k' =>
      let row := mkRow (y * sortW rot * 3) 3 (sortW rot * 3) 0 1 2 (sortW rot) false in
      let '(selRow, selStride) :=
        if negb useAngle && negb (is_empty fullSelect) then
          (Some (mkSelectArea fullSelect (y * fullW rot)), 1)
        else (None, 0) in
      let '(rng, work, sortBuf) :=
        SortLine row params selRow selStride y rng work sortBuf in
      sort_rows_loop params useAngle rot fullSelect k' (y + 1) rng work sortBuf
  end.

Fixpoint sort_columns_loop `{StdLib} (params : PixelSortParams)
    (rot : Rotation) (fullSelect : list BYTE) (k : nat) (x : Z)
    (rng : mt19937) (work : Work) (sortBuf : list BYTE)
    : mt19937 * Work * list BYTE :=
  match k with
  | O => (rng, work, sortBuf)
  | S k' =>
      let col := mkRow (x * 3) 3 (sortW rot * 3) 0 1 2 (sortH rot) true in
      let '(selCol, selStride) :=
        if negb (is_empty fullSelect) then
          (Some (mkSelectArea fullSelect x), fullW rot)
        else (None, 0) in
      let '(rng, work, sortBuf) :=
        SortLine col params selCol selStride x rng work sortBuf in
      sort_columns_loop params rot fullSelect k' (x + 1) rng work sortBuf
  end.

(** ** The pass

    [fullImage] and [fullSelect] are the vectors gathered from the host
    blocks ([fullSelect] stays empty when the host delivers no selection
    block); the result is the image that is scattered back. *)
Definition full_image_pass `{StdLib} (currentParams : PixelSortParams)
    (w h : Z) (fullImage fullSelect : list BYTE) (hasSelection : bool)
    (rng : mt19937) (work : Work) : mt19937 * Work * list BYTE :=
  let useAngle :=
    negb (angle currentParams =? 0) &&
    match direction currentParams with
    | kSortDirectionHorizontal => true
    | kSortDirectionVertical => false
    end in
  let rot := if useAngle then make_rotation (angle currentParams) w h
             else no_rotation w h in
  let sortBuf := if useAngle then rotate rot fullImage else fullImage in
  let origImage :=
    if hasSelection && negb (is_empty fullSelect) then fullImage else [] in
  let '(rng, work, sortBuf) :=
    match direction currentParams with
    | kSortDirectionHorizontal =>
        sort_rows_loop currentParams useAngle rot fullSelect
          (Z.to_nat (sortH rot)) 0 rng work sortBuf
    | kSortDirectionVertical =>
        sort_columns_loop currentParams rot fullSelect
          (Z.to_nat (sortW rot)) 0 rng work sortBuf
    end in
  let fullImage := if useAngle then unrotate rot sortBuf fullImage else sortBuf in
  let fullImage :=
    if useAngle && hasSelection && negb (is_empty fullSelect) then
      blend_selection_loop origImage fullSelect (Z.to_nat (w * h)) 0 fullImage
    else fullImage in
  (rng, work, fullImage).

(** One turn of the [restart] branch of [FilterRun]: the properties are read
    and clamped, the generator is re-seeded, the image is processed.  The
    generator and the work vectors are those left by the previous turn. *)
Definition run_pass `{StdLib} (seed : Z) (properties : PixelSortParams)
    (w h : Z) (fullImage fullSelect : list BYTE) (hasSelection : bool)
    (rng : mt19937) (work : Work) : mt19937 * Work * list BYTE :=
  let currentParams := ClampParams properties in
  let rng := mt19937_seed seed in
  if (0 <? w) && (0 <? h) then
    full_image_pass currentParams w h fullImage fullSelect hasSelection rng work
  else (rng, work, fullImage).

(** [rng.seed(42); // re-seed for consistent preview] *)
Definition filter_run_restart `{StdLib} :=
  run_pass 42.

(* ===================================================================== *)
(** * Properties *)
(* ===================================================================== *)

(** ** Lists and sortedness *)

Lemma StronglySorted_snoc {A : Type} (R : A -> A -> Prop) (l : list A) (x : A) :
  StronglySorted R l -> Forall (fun a => R a x) l -> StronglySorted R (l ++ [x]).
Proof.
  induction 1 as [|a l Hl IH Ha]; intros Hx; simpl.
  - constructor; constructor.
  - inversion Hx; subst. constructor.
    + apply IH. assumption.
    + apply Forall_app. split; [assumption | constructor; [assumption | constructor]].
Qed.

Lemma StronglySorted_weaken {A : Type} (R S : A -> A -> Prop) (l : list A) :
  (forall a b, R a b -> S a b) -> StronglySorted R l -> StronglySorted S l.
Proof.
  intros HRS. induction 1 as [|a l Hl IH Ha]; constructor; [assumption|].
  eapply Forall_impl; [exact Ha|]. intros b. apply HRS.
Qed.

(** ** Threshold detection: the spans are the maximal in-range runs *)

(** [s, e) is a maximal run of positions of [0, n) that satisfy [inR]. *)
Definition maximal_run (inR : Z -> bool) (n s e : Z) : Prop :=
  0 <= s < e /\ e <= n /\
  (forall i, s <= i < e -> inR i = true) /\
  (s = 0 \/ inR (s - 1) = false) /\
  (e = n \/ inR e = false).

(** spans in ascending order with a gap between neighbours *)
Definition spans_separated (l : list Span) : Prop :=
  StronglySorted (fun a b => span_end a < span_start b) l.

Section ThresholdLoop.
Variable inR : Z -> bool.
Variable n : Z.
Hypothesis n_pos : 0 < n.

(** State of the scan before iteration [i]. *)
Record thr_inv (i spanStart : Z) (out : list Span) : Prop := {
  thr_i : 0 <= i <= n + 1;
  thr_open :
    (spanStart = -1 /\ (i = 0 \/ i - 1 = n \/ inR (i - 1) = false)) \/
    (0 <= spanStart < i /\ i <= n /\
     (forall j, spanStart <= j < i -> inR j = true) /\
     (spanStart = 0 \/ inR (spanStart - 1) = false));
  thr_closed : forall s e,
    In (mkSpan s e) out <-> maximal_run inR n s e /\ e < i;
  thr_sorted : spans_separated out
}.

Lemma thr_inv_init : thr_inv 0 (-1) [].
Proof.
  constructor; [lia | left; auto | | constructor].
  intros s e; split; [intros [] | intros [(H & _) H']; lia].
Qed.

Lemma thr_inv_span_shape i ss out sp :
  thr_inv i ss out -> In sp out ->
  maximal_run inR n (span_start sp) (span_end sp) /\ span_end sp < i.
Proof.
  intros Hinv Hin. destruct sp as [s e]. apply (thr_closed _ _ _ Hinv). exact Hin.
Qed.

Lemma thr_inv_step i ss out :
  thr_inv i ss out -> i <= n ->
  let inRange := if i <? n then inR i else false in
  if inRange && (ss <? 0) then thr_inv (i + 1) i out
  else if negb inRange && (0 <=? ss) then thr_inv (i + 1) (-1) (out ++ [mkSpan ss i])
  else thr_inv (i + 1) ss out.
Proof.
  intros [Hi Hopen Hclosed Hsorted] Hle inRange.
  assert (HinR : inRange = true -> i < n /\ inR i = true).
  { unfold inRange. destruct (Z.ltb_spec i n); [auto | discriminate]. }
  assert (HinR' : inRange = false -> i = n \/ inR i = false).
  { unfold inRange. destruct (Z.ltb_spec i n); [auto | intros _; left; lia]. }
  (* a closed run never reaches the current position *)
  assert (Hold : forall s e, maximal_run inR n s e -> e < i + 1 -> e = i \/ e < i) by (intros; lia).
  destruct inRange eqn:E; simpl.
  - destruct (HinR eq_refl) as [Hlt Hin].
    destruct (Z.ltb_spec ss 0) as [Hss|Hss].
    + (* a run opens at i *)
      destruct Hopen as [[-> Hprev]|[? _]]; [|lia].
      constructor; [lia | | | assumption].
      * right. repeat split; try lia.
        -- intros j Hj. replace j with i by lia. assumption.
        -- destruct Hprev as [?|[?|?]]; [left; assumption | lia | right; assumption].
      * intros s e. rewrite Hclosed. split; intros [Hrun He]; split; auto; try lia.
        destruct (Z.eq_dec e i) as [->|]; [|lia].
        destruct Hrun as (_ & _ & _ & _ & [?|Hf]); [lia | congruence].
    + (* the run goes on *)
      destruct Hopen as [[-> _]|(Hs & _ & Hall & Hstart)]; [lia|].
      constructor; [lia | | | assumption].
      * right. repeat split; try lia; [|assumption].
        intros j Hj. destruct (Z.eq_dec j i) as [->|]; [assumption | apply Hall; lia].
      * intros s e. rewrite Hclosed. split; intros [Hrun He]; split; auto; try lia.
        destruct (Z.eq_dec e i) as [->|]; [|lia].
        destruct Hrun as (_ & _ & _ & _ & [?|Hf]); [lia | congruence].
  - destruct (Z.leb_spec 0 ss) as [Hss|Hss].
    + (* the open run closes at i *)
      destruct Hopen as [[-> _]|(Hs & _ & Hall & Hstart)]; [lia|].
      assert (Hrun : maximal_run inR n ss i).
      { repeat split; try lia; try assumption.
        destruct (HinR' eq_refl); [left | right]; assumption. }
      constructor; [lia | | | ].
      * left. split; [reflexivity|]. right.
        replace (i + 1 - 1) with i by lia.
        destruct (HinR' eq_refl); [left | right]; assumption.
      * intros s e. rewrite in_app_iff, Hclosed. simpl. split.
        -- intros [[Hr He]|[Heq|[]]]; [split; [assumption | lia]|].
           inversion Heq; subst. split; [assumption | lia].
        -- intros [Hr He]. destruct (Z.eq_dec e i) as [->|]; [|left; split; [assumption | lia]].
           right. left. f_equal.
           destruct Hr as (Hs' & _ & Hall' & Hstart' & _).
           destruct (Z.lt_trichotomy s ss) as [Hlt|[Heq|Hgt]]; [| congruence |].
           ++ destruct Hstart as [?|Hf]; [lia|].
              rewrite Hall' in Hf by lia. discriminate.
           ++ destruct Hstart' as [?|Hf]; [lia|].
              rewrite Hall in Hf by lia. discriminate.
      * apply StronglySorted_snoc; [assumption|].
        apply Forall_forall. intros [s e] Hin. simpl.
        apply list_elem_of_In, Hclosed in Hin. destruct Hin as [(Hs' & _ & _ & _ & Hend) He].
        destruct (Z.lt_ge_cases e ss) as [|Hge]; [assumption|].
        destruct Hend as [?|Hf]; [lia|].
        rewrite Hall in Hf by lia. discriminate.
    + (* still outside a run *)
      destruct Hopen as [[-> Hprev]|(Hs & _)]; [|lia].
      constructor; [lia | | | assumption].
      * left. split; [reflexivity|]. right.
        replace (i + 1 - 1) with i by lia.
        destruct (HinR' eq_refl); [left | right]; assumption.
      * intros s e. rewrite Hclosed. split; intros [Hrun He]; split; auto; try lia.
        destruct (Z.eq_dec e i) as [->|]; [|lia].
        destruct Hrun as (Hs' & _ & Hall' & _).
        (* position i - 1 would be in range, so a run would be open *)
        exfalso. destruct Hprev as [?|[?|Hf]]; [lia | lia |].
        rewrite Hall' in Hf by lia. discriminate.
Qed.

Lemma thr_inv_loop k : forall i ss out,
  thr_inv i ss out -> Z.of_nat k = n + 1 - i ->
  exists ss', thr_inv (n + 1) ss' (threshold_loop inR n k i ss out).
Proof.
  induction k as [|k IH]; intros i ss out Hinv Hk.
  - exists ss. simpl. replace (n + 1) with i by lia. exact Hinv.
  - pose proof (thr_inv_step i ss out Hinv ltac:(lia)) as Hstep.
    simpl in Hstep. simpl threshold_loop.
    destruct ((if i <? n then inR i else false) && (ss <? 0)).
    + apply IH; [assumption | lia].
    + destruct (negb (if i <? n then inR i else false) && (0 <=? ss));
        (apply IH; [assumption | lia]).
Qed.

Lemma threshold_loop_runs :
  let out := threshold_loop inR n (Z.to_nat (n + 1)) 0 (-1) [] in
  (forall s e, In (mkSpan s e) out <-> maximal_run inR n s e) /\
  spans_separated out.
Proof.
  destruct (thr_inv_loop (Z.to_nat (n + 1)) 0 (-1) [] thr_inv_init ltac:(lia))
    as [ss' [_ _ Hclosed Hsorted]].
  split; [|exact Hsorted].
  intros s e. rewrite Hclosed. split; [intros [? _]; assumption|].
  intros Hrun. split; [assumption|]. destruct Hrun as (? & ? & _). lia.
Qed.

End ThresholdLoop.

(** ** A reference instance of the library interface

    Used to evaluate the embedding on concrete inputs: an insertion sort,
    a linear congruential generator, and the Taylor polynomials of sine and
    cosine.  The theorems below hold for every instance. *)

Section InsertionSort.
Context {A : Type}.
Variable comp : A -> A -> bool.

(** [ties_first = true] puts a new element in front of its equivalents. *)
Fixpoint insert_sorted (ties_first : bool) (x : A) (l : list A) : list A :=
  match l with
  | [] => [x]
  | y :: l' =>
      if (if ties_first then negb (comp y x) else comp x y) then x :: y :: l'
      else y :: insert_sorted ties_first x l'
  end.

Definition insertion_sort (ties_first : bool) (l : list A) : list A :=
  fold_right (insert_sorted ties_first) [] l.

Lemma insert_sorted_perm b x l : Permutation (x :: l) (insert_sorted b x l).
Proof.
  induction l as [|y l IH]; simpl; [reflexivity|].
  destruct (if b then negb (comp y x) else comp x y); [reflexivity|].
  rewrite perm_swap. apply perm_skip. exact IH.
Qed.

Lemma insertion_sort_perm b l : Permutation l (insertion_sort b l).
Proof.
  induction l as [|x l IH]; simpl; [reflexivity|].
  rewrite <- insert_sorted_perm. apply perm_skip. exact IH.
Qed.

Lemma insertion_sort_length b l : length (insertion_sort b l) = length l.
Proof. symmetry. apply Permutation_length, insertion_sort_perm. Qed.

Variable dom : list A.
Hypothesis comp_swo : strict_weak_on comp dom.

Lemma swo_asym x y : In x dom -> In y dom -> comp x y = true -> comp y x = false.
Proof.
  intros Hx Hy Hxy. destruct (comp y x) eqn:E; [|reflexivity].
  rewrite <- (swo_irrefl _ _ comp_swo x Hx).
  symmetry. exact (swo_trans _ _ comp_swo x y x Hx Hy Hx Hxy E).
Qed.

(** "not less" is transitive *)
Lemma swo_not_less_trans x y z :
  In x dom -> In y dom -> In z dom ->
  comp y x = false -> comp z y = false -> comp z x = false.
Proof.
  intros Hx Hy Hz Hyx Hzy. destruct (comp z x) eqn:Hzx; [|reflexivity].
  destruct (comp x y) eqn:Hxy.
  { rewrite <- Hzy. symmetry. exact (swo_trans _ _ comp_swo z x y Hz Hx Hy Hzx Hxy). }
  destruct (comp y z) eqn:Hyz.
  { rewrite <- Hyx. symmetry. exact (swo_trans _ _ comp_swo y z x Hy Hz Hx Hyz Hzx). }
  destruct (swo_incomp _ _ comp_swo x y z Hx Hy Hz Hxy Hyx Hyz Hzy) as [_ H].
  congruence.
Qed.

Lemma insert_sorted_sorted b x l :
  In x dom -> (forall y, In y l -> In y dom) ->
  sorted_wrt comp l -> sorted_wrt comp (insert_sorted b x l).
Proof.
  unfold sorted_wrt. intros Hx Hl Hs. induction Hs as [|y l Hs IH Hy]; simpl.
  - constructor; constructor.
  - assert (Hyd : In y dom) by (apply Hl; left; reflexivity).
    assert (Hld : forall z, In z l -> In z dom) by (intros z Hz; apply Hl; right; exact Hz).
    destruct (if b then negb (comp y x) else comp x y) eqn:E.
    + assert (Hyx : comp y x = false).
      { destruct b; [apply negb_true_iff in E; exact E | apply swo_asym; assumption]. }
      constructor; [constructor; assumption|].
      constructor; [exact Hyx|].
      rewrite List.Forall_forall in Hy |- *. intros z Hz.
      apply (swo_not_less_trans x y z); auto.
    + assert (Hxy : comp x y = false).
      { destruct b; [|exact E]. apply negb_false_iff in E. apply swo_asym; assumption. }
      constructor; [apply IH; assumption|].
      rewrite List.Forall_forall in Hy |- *. intros z Hz.
      apply (Permutation_in _ (Permutation_sym (insert_sorted_perm b x l))) in Hz.
      destruct Hz as [<-|Hz]; [exact Hxy | apply Hy; exact Hz].
Qed.

Lemma insertion_sort_sorted b l :
  (forall y, In y l -> In y dom) -> sorted_wrt comp (insertion_sort b l).
Proof.
  induction l as [|x l IH]; intros Hl; simpl.
  - constructor.
  - apply insert_sorted_sorted.
    + apply Hl. left. reflexivity.
    + intros y Hy. apply Hl. right.
      apply (Permutation_in _ (Permutation_sym (insertion_sort_perm b l))). exact Hy.
    + apply IH. intros y Hy. apply Hl. right. exact Hy.
Qed.

End InsertionSort.

(** a linear congruential generator *)
Definition lcg_next (g : Z) : Z := (g * 1103515245 + 12345) mod 2147483648.

Definition lcg_uniform (a b : Z) (g : Z) : Z * Z :=
  let g := lcg_next g in (a + g mod (b - a + 1), g).

Lemma lcg_uniform_range a b g : a <= b -> a <= fst (lcg_uniform a b g) <= b.
Proof.
  intros Hab. unfold lcg_uniform. simpl.
  pose proof (Z.mod_pos_bound (lcg_next g) (b - a + 1) ltac:(lia)). lia.
Qed.

(** [x * (1 - x^2/d1 * (1 - x^2/d2 * ...))] *)
Fixpoint taylor_horner (x2 : double) (ds : list Z) : double :=
  match ds with
  | [] => f64_of_int 1
  | d :: ds' =>
      f64_sub (f64_of_int 1)
        (f64_mul (f64_div x2 (f64_of_int d)) (taylor_horner x2 ds'))
  end.

Definition taylor_sin (x : double) : double :=
  f64_mul x (taylor_horner (f64_mul x x)
    [6; 20; 42; 72; 110; 156; 210; 272; 342; 420; 506; 600; 702; 812; 930]).

Definition taylor_cos (x : double) : double :=
  taylor_horner (f64_mul x x)
    [2; 12; 30; 56; 90; 132; 182; 240; 306; 380; 462; 552; 650; 756; 870].

Definition reference_stdlib : StdLib := {|
  mt19937 := Z;
  mt19937_seed := fun s => s;
  uniform_int_distribution := lcg_uniform;
  uniform_int_distribution_range := lcg_uniform_range;
  std_sort := fun A comp l => insertion_sort comp true l;
  std_sort_length := fun A comp l => insertion_sort_length comp true l;
  std_sort_spec := fun A comp l Hswo =>
    conj (insertion_sort_perm comp true l)
         (insertion_sort_sorted comp l Hswo true l (fun y Hy => Hy));
  sin := taylor_sin;
  cos := taylor_cos;
  sin_zero := eq_refl
|}.

(** ** Vectors and orders *)

Lemma insert_move_perm {A : Type} (v : list A) (j : nat) (x b : A) :
  v !! j = Some b -> Permutation (b :: <[j := x]> v) (x :: v).
Proof.
  revert j. induction v as [|y t IH]; intros j Hj; [discriminate|].
  destruct j as [|k]; simpl in *.
  - injection Hj as ->. apply perm_swap.
  - eapply Permutation_trans; [apply perm_swap|].
    eapply Permutation_trans; [apply perm_skip, IH, Hj|].
    apply perm_swap.
Qed.

(** Exchanging two elements of a vector permutes it. *)
Lemma insert_swap_perm {A : Type} (v : list A) (i j : nat) (a b : A) :
  v !! i = Some a -> v !! j = Some b ->
  Permutation (<[j := a]> (<[i := b]> v)) v.
Proof.
  revert i j. induction v as [|x t IH]; intros i j Hi Hj; [discriminate|].
  destruct i as [|i], j as [|j]; simpl in *.
  - injection Hi as ->. injection Hj as ->. reflexivity.
  - injection Hi as ->. apply insert_move_perm, Hj.
  - injection Hj as ->. apply insert_move_perm, Hi.
  - apply perm_skip, IH; assumption.
Qed.

Lemma StronglySorted_map {A B : Type} (R : B -> B -> Prop) (f : A -> B) l :
  StronglySorted (fun a b => R (f a) (f b)) l -> StronglySorted R (map f l).
Proof.
  induction 1 as [|a l Hl IH Ha]; simpl; constructor; [exact IH|].
  rewrite List.Forall_forall in Ha |- *. intros y Hy.
  apply in_map_iff in Hy. destruct Hy as (x & <- & Hx). apply Ha, Hx.
Qed.

Lemma StronglySorted_rev {A : Type} (R : A -> A -> Prop) l :
  StronglySorted R l -> StronglySorted (fun a b => R b a) (rev l).
Proof.
  induction 1 as [|a l Hl IH Ha]; simpl; [constructor|].
  apply StronglySorted_snoc; [exact IH|].
  rewrite List.Forall_forall in Ha |- *. intros x Hx.
  apply Ha. apply in_rev. exact Hx.
Qed.

(** ** std::sort of the GNU C++ library *)

(** [std::sort] as libstdc++ implements it ([bits/stl_algo.h],
    [bits/stl_heap.h]): an introsort that partitions ranges of more than 16
    elements around a median of three, falls back to a heap sort when the
    depth limit is used up, and finishes with an insertion sort.  An
    iterator is the offset of its element from the front of the vector.
    The routines whose loops have no bound check of their own
    ([__unguarded_partition], [__unguarded_linear_insert]) stay inside the
    vector when the comparator is a strict weak ordering; what the source
    does outside the vector is undefined, and here a comparison with an
    element outside the vector is false and a move from one is left out. *)
Section Libstdcxx.
Context {A : Type} (comp : A -> A -> bool).
Local Open Scope nat_scope.

(** [comp(i, j)] on two iterators *)
Definition comp_iter (v : list A) (i j : nat) : bool :=
  match v !! i, v !! j with
  | Some x, Some y => comp x y
  | _, _ => false
  end.

(** [std::iter_swap(a, b)] *)
Definition iter_swap (v : list A) (a b : nat) : list A :=
  match v !! a, v !! b with
  | Some x, Some y => <[b := x]> (<[a := y]> v)
  | _, _ => v
  end.

(** [__move_median_to_first(result, a, b, c, comp)] *)
Definition move_median_to_first (v : list A) (result a b c : nat) : list A :=
  if comp_iter v a b then
    if comp_iter v b c then iter_swap v result b
    else if comp_iter v a c then iter_swap v result c
    else iter_swap v result a
  else if comp_iter v a c then iter_swap v result a
  else if comp_iter v b c then iter_swap v result c
  else iter_swap v result b.

(** [while (comp(first, pivot)) ++first;] *)
Fixpoint partition_up (v : list A) (pivot : nat) (fuel : nat) (first : nat) : nat :=
  match fuel with
  | O => first
  | S fuel' =>
      if comp_iter v first pivot then partition_up v pivot fuel' (S first)
      else first
  end.

(** [while (comp(pivot, last)) --last;] *)
Fixpoint partition_down (v : list A) (pivot : nat) (last : nat) : nat :=
  match last with
  | O => O
  | S last' =>
      if comp_iter v pivot last then partition_down v pivot last' else last
  end.

(** [__unguarded_partition(first, last, pivot, comp)]; every round moves
    [first] up by one at least, so that the length of the vector bounds the
    number of rounds. *)
Fixpoint unguarded_partition (fuel : nat) (v : list A) (first last pivot : nat)
    : list A * nat :=
  match fuel with
  | O => (v, first)
  | S fuel' =>
      let first := partition_up v pivot (length v) first in
      let last := partition_down v pivot (last - 1) in
      if negb (first <? last) then (v, first)
      else unguarded_partition fuel' (iter_swap v first last) (S first) last pivot
  end.

(** [__unguarded_partition_pivot(first, last, comp)] *)
Definition unguarded_partition_pivot (v : list A) (first last : nat)
    : list A * nat :=
  let mid := first + (last - first) / 2 in
  let v := move_median_to_first v first (first + 1) mid (last - 1) in
  unguarded_partition (length v) v (first + 1) last first.

(** [__push_heap(first, holeIndex, topIndex, value, comp)]: the hole moves
    to its parent while the parent is less than [value]. *)
Fixpoint push_heap (fuel : nat) (v : list A) (first holeIndex topIndex : nat)
    (value : A) : list A :=
  match fuel with
  | O => <[first + holeIndex := value]> v
  | S fuel' =>
      let parent := (holeIndex - 1) / 2 in
      match v !! (first + parent) with
      | Some p =>
          if (topIndex <? holeIndex) && comp p value then
            push_heap fuel' (<[first + holeIndex := p]> v) first parent topIndex
              value
          else <[first + holeIndex := value]> v
      | None => <[first + holeIndex := value]> v
      end
  end.

(** the first loop of [__adjust_heap]: the hole moves to its larger child *)
Fixpoint adjust_heap_loop (fuel : nat) (v : list A) (first len : nat)
    (holeIndex secondChild : nat) : list A * nat * nat :=
  match fuel with
  | O => (v, holeIndex, secondChild)
  | S fuel' =>
      if secondChild <? (len - 1) / 2 then
        let secondChild := 2 * (secondChild + 1) in
        let secondChild :=
          if comp_iter v (first + secondChild) (first + (secondChild - 1))
          then secondChild - 1 else secondChild in
        match v !! (first + secondChild) with
        | Some x =>
            adjust_heap_loop fuel' (<[first + holeIndex := x]> v) first len
              secondChild secondChild
        | None => (v, holeIndex, secondChild)
        end
      else (v, holeIndex, secondChild)
  end.

(** [__adjust_heap(first, holeIndex, len, value, comp)] *)
Definition adjust_heap (v : list A) (first holeIndex len : nat) (value : A)
    : list A :=
  let topIndex := holeIndex in
  let '(v, holeIndex, secondChild) :=
    adjust_heap_loop (length v) v first len holeIndex holeIndex in
  let '(v, holeIndex) :=
    if Nat.even len && (Z.of_nat secondChild =? (Z.of_nat len - 2) / 2)%Z then
      let secondChild := 2 * (secondChild + 1) in
      match v !! (first + (secondChild - 1)) with
      | Some x => (<[first + holeIndex := x]> v, secondChild - 1)
      | None => (v, holeIndex)
      end
    else (v, holeIndex) in
  push_heap (length v) v first holeIndex topIndex value.

(** [__pop_heap(first, last, result, comp)] *)
Definition pop_heap (v : list A) (first last result : nat) : list A :=
  match v !! result, v !! first with
  | Some value, Some top =>
      adjust_heap (<[result := top]> v) first 0 (last - first) value
  | _, _ => v
  end.

(** the loop of [__make_heap], from [parent] down to 0 *)
Fixpoint make_heap_loop (v : list A) (first len parent : nat) : list A :=
  let v :=
    match v !! (first + parent) with
    | Some value => adjust_heap v first parent len value
    | None => v
    end in
  match parent with
  | O => v
  | S parent' => make_heap_loop v first len parent'
  end.

(** [__make_heap(first, last, comp)] *)
Definition make_heap (v : list A) (first last : nat) : list A :=
  if last - first <? 2 then v
  else
    let len := last - first in
    make_heap_loop v first len ((len - 2) / 2).

(** [for (i = middle; i < last; ++i) if (comp(i, first)) __pop_heap(...)] *)
Fixpoint heap_select_loop (k : nat) (v : list A) (first middle i : nat)
    : list A :=
  match k with
  | O => v
  | S k' =>
      let v := if comp_iter v i first then pop_heap v first middle i else v in
      heap_select_loop k' v first middle (S i)
  end.

(** [__heap_select(first, middle, last, comp)] *)
Definition heap_select (v : list A) (first middle last : nat) : list A :=
  heap_select_loop (last - middle) (make_heap v first middle) first middle middle.

(** [__sort_heap(first, last, comp)] *)
Fixpoint sort_heap (fuel : nat) (v : list A) (first last : nat) : list A :=
  match fuel with
  | O => v
  | S fuel' =>
      if 1 <? last - first then
        let last := last - 1 in
        sort_heap fuel' (pop_heap v first last last) first last
      else v
  end.

(** [__partial_sort(first, middle, last, comp)] *)
Definition partial_sort (v : list A) (first middle last : nat) : list A :=
  let v := heap_select v first middle last in
  sort_heap (middle - first) v first middle.

(** [__introsort_loop(first, last, depth_limit, comp)]: a round of the
    [while] loop takes one from [depth_limit], calls the routine on
    [cut, last) and goes on with [first, cut). *)
Fixpoint introsort_loop (depth_limit : nat) (v : list A) (first last : nat)
    : list A :=
  if 16 <? last - first then
    match depth_limit with
    | O => partial_sort v first last last
    | S depth_limit' =>
        let '(v, cut) := unguarded_partition_pivot v first last in
        let v := introsort_loop depth_limit' v cut last in
        introsort_loop depth_limit' v first cut
    end
  else v.

(** the loop of [__unguarded_linear_insert(last, comp)], with [val] taken
    out of the vector; at the front of the vector the walk ends *)
Fixpoint linear_insert_loop (val : A) (v : list A) (last : nat) : list A :=
  match last with
  | O => <[last := val]> v
  | S next =>
      match v !! next with
      | Some y =>
          if comp val y then linear_insert_loop val (<[last := y]> v) next
          else <[last := val]> v
      | None => <[last := val]> v
      end
  end.

Definition unguarded_linear_insert (v : list A) (last : nat) : list A :=
  match v !! last with
  | Some val => linear_insert_loop val v last
  | None => v
  end.

(** [_GLIBCXX_MOVE_BACKWARD3(first, last, last + 1)]: the elements of
    [first, last) move up by one, the last one first *)
Fixpoint move_backward (v : list A) (first last : nat) : list A :=
  match last with
  | O => v
  | S last' =>
      if first <=? last' then
        match v !! last' with
        | Some x => move_backward (<[last := x]> v) first last'
        | None => v
        end
      else v
  end.

(** the loop of [__insertion_sort(first, last, comp)] *)
Fixpoint insertion_sort_loop (k : nat) (v : list A) (first i : nat) : list A :=
  match k with
  | O => v
  | S k' =>
      let v :=
        if comp_iter v i first then
          match v !! i with
          | Some val => <[first := val]> (move_backward v first i)
          | None => v
          end
        else unguarded_linear_insert v i in
      insertion_sort_loop k' v first (S i)
  end.

(** [__insertion_sort(first, last, comp)] *)
Definition gnu_insertion_sort (v : list A) (first last : nat) : list A :=
  if first =? last then v
  else insertion_sort_loop (last - (first + 1)) v first (first + 1).

(** [__unguarded_insertion_sort(first, last, comp)] *)
Fixpoint unguarded_insertion_sort (k : nat) (v : list A) (i : nat) : list A :=
  match k with
  | O => v
  | S k' => unguarded_insertion_sort k' (unguarded_linear_insert v i) (S i)
  end.

(** [__final_insertion_sort(first, last, comp)] *)
Definition final_insertion_sort (v : list A) (first last : nat) : list A :=
  if 16 <? last - first then
    let v := gnu_insertion_sort v first (first + 16) in
    unguarded_insertion_sort (last - (first + 16)) v (first + 16)
  else gnu_insertion_sort v first last.

(** [std::sort(v.begin(), v.end(), comp)]; [std::__lg] is the binary
    logarithm rounded down. *)
Definition gnu_sort (v : list A) : list A :=
  let first := 0 in
  let last := length v in
  if first =? last then v
  else
    let v := introsort_loop (Nat.log2 (last - first) * 2) v first last in
    final_insertion_sort v first last.

End Libstdcxx.

(** ** What [gnu_sort] keeps and what it establishes *)

(** Filling a hole from another place and the place with [a] permutes the
    vector in which the hole holds [a]. *)
Lemma hole_step {A : Type} (v : list A) (i j : nat) (a b : A) :
  (i < length v)%nat -> v !! j = Some b ->
  Permutation (<[j := a]> (<[i := b]> v)) (<[i := a]> v).
Proof.
  intros Hi Hj. destruct (decide (i = j)) as [->|Hne].
  - rewrite list_insert_insert_eq. reflexivity.
  - replace (<[i := b]> v) with (<[i := b]> (<[i := a]> v))
      by apply list_insert_insert_eq.
    apply insert_swap_perm.
    + apply list_lookup_insert_eq, Hi.
    + rewrite list_lookup_insert_ne by exact Hne. exact Hj.
Qed.

Lemma lookup_Some_In {A : Type} (v : list A) (i : nat) (x : A) :
  v !! i = Some x -> In x v.
Proof. intros H. apply list_elem_of_In. eapply list_elem_of_lookup_2, H. Qed.

Lemma In_take {A : Type} (v : list A) (i : nat) (x : A) :
  In x (take i v) -> In x v.
Proof.
  intros H. rewrite <- (take_drop i v). apply in_or_app. left. exact H.
Qed.

Section LibstdcxxPermutation.
Context {A : Type} (comp : A -> A -> bool).
Local Open Scope nat_scope.

Lemma iter_swap_perm (v : list A) a b : Permutation (iter_swap v a b) v.
Proof.
  unfold iter_swap. destruct (v !! a) as [x|] eqn:Ea; [|reflexivity].
  destruct (v !! b) as [y|] eqn:Eb; [|reflexivity].
  apply insert_swap_perm; assumption.
Qed.

Lemma move_median_to_first_perm (v : list A) result a b c :
  Permutation (move_median_to_first comp v result a b c) v.
Proof.
  unfold move_median_to_first.
  repeat match goal with |- context [if ?t then _ else _] => destruct t end;
    apply iter_swap_perm.
Qed.

Lemma unguarded_partition_perm fuel : forall (v : list A) first last pivot,
  Permutation (fst (unguarded_partition comp fuel v first last pivot)) v.
Proof.
  induction fuel as [|fuel IH]; intros v first last pivot;
    cbn [unguarded_partition fst]; [reflexivity|].
  destruct (negb _); [reflexivity|].
  rewrite IH. apply iter_swap_perm.
Qed.

Lemma unguarded_partition_pivot_perm (v : list A) first last :
  Permutation (fst (unguarded_partition_pivot comp v first last)) v.
Proof.
  unfold unguarded_partition_pivot. rewrite unguarded_partition_perm.
  apply move_median_to_first_perm.
Qed.

Lemma push_heap_perm first topIndex value fuel : forall (v : list A) holeIndex,
  first + holeIndex < length v ->
  Permutation (push_heap comp fuel v first holeIndex topIndex value)
    (<[first + holeIndex := value]> v).
Proof.
  induction fuel as [|fuel IH]; intros v holeIndex Hh; cbn [push_heap];
    [reflexivity|].
  destruct (v !! (first + (holeIndex - 1) / 2)) as [p|] eqn:Ep; [|reflexivity].
  destruct ((topIndex <? holeIndex) && comp p value); [|reflexivity].
  rewrite IH.
  - apply hole_step; assumption.
  - rewrite length_insert. eapply lookup_lt_Some, Ep.
Qed.

Lemma adjust_heap_loop_perm first len value fuel :
  forall (v : list A) holeIndex secondChild,
  first + holeIndex < length v ->
  let r := adjust_heap_loop comp fuel v first len holeIndex secondChild in
  first + snd (fst r) < length (fst (fst r)) /\
  Permutation (<[first + snd (fst r) := value]> (fst (fst r)))
    (<[first + holeIndex := value]> v).
Proof.
  induction fuel as [|fuel IH]; intros v holeIndex secondChild Hh;
    cbn [adjust_heap_loop fst snd].
  - split; [exact Hh | reflexivity].
  - destruct (secondChild <? (len - 1) / 2); [|split; [exact Hh | reflexivity]].
    set (sc := if comp_iter comp v _ _ then _ else _).
    destruct (v !! (first + sc)) as [x|] eqn:Ex; [|split; [exact Hh | reflexivity]].
    assert (Hsc : first + sc < length (<[first + holeIndex := x]> v)).
    { rewrite length_insert. eapply lookup_lt_Some, Ex. }
    destruct (IH (<[first + holeIndex := x]> v) sc sc Hsc) as [Hlen Hperm].
    split; [exact Hlen|].
    rewrite Hperm. apply hole_step; assumption.
Qed.

Lemma adjust_heap_perm (v : list A) first holeIndex len value :
  first + holeIndex < length v ->
  Permutation (adjust_heap comp v first holeIndex len value)
    (<[first + holeIndex := value]> v).
Proof.
  intros Hh. unfold adjust_heap.
  pose proof (adjust_heap_loop_perm first len value (length v) v holeIndex holeIndex Hh)
    as Hloop.
  destruct (adjust_heap_loop comp (length v) v first len holeIndex holeIndex)
    as [[v1 h1] sc1]. cbn [fst snd] in Hloop. destruct Hloop as [Hlen1 Hperm1].
  destruct (Nat.even len && _).
  - destruct (v1 !! (first + (2 * (sc1 + 1) - 1))) as [x|] eqn:Ex.
    + rewrite push_heap_perm.
      * rewrite <- Hperm1. apply hole_step; assumption.
      * rewrite length_insert. eapply lookup_lt_Some, Ex.
    + rewrite push_heap_perm by exact Hlen1. exact Hperm1.
  - rewrite push_heap_perm by exact Hlen1. exact Hperm1.
Qed.

Lemma pop_heap_perm (v : list A) first last result :
  Permutation (pop_heap comp v first last result) v.
Proof.
  unfold pop_heap. destruct (v !! result) as [value|] eqn:Er; [|reflexivity].
  destruct (v !! first) as [top|] eqn:Ef; [|reflexivity].
  rewrite adjust_heap_perm.
  - rewrite Nat.add_0_r. apply insert_swap_perm; assumption.
  - rewrite length_insert, Nat.add_0_r. eapply lookup_lt_Some, Ef.
Qed.

Lemma make_heap_loop_perm first len parent : forall v : list A,
  Permutation (make_heap_loop comp v first len parent) v.
Proof.
  induction parent as [|parent IH]; intros v; cbn [make_heap_loop].
  - destruct (v !! (first + 0)) as [value|] eqn:E; [|reflexivity].
    rewrite adjust_heap_perm by (eapply lookup_lt_Some, E).
    rewrite list_insert_id by exact E. reflexivity.
  - rewrite IH.
    destruct (v !! (first + S parent)) as [value|] eqn:E; [|reflexivity].
    rewrite adjust_heap_perm by (eapply lookup_lt_Some, E).
    rewrite list_insert_id by exact E. reflexivity.
Qed.

Lemma make_heap_perm (v : list A) first last :
  Permutation (make_heap comp v first last) v.
Proof.
  unfold make_heap. destruct (last - first <? 2); [reflexivity|].
  apply make_heap_loop_perm.
Qed.

Lemma heap_select_loop_perm first middle k : forall (v : list A) i,
  Permutation (heap_select_loop comp k v first middle i) v.
Proof.
  induction k as [|k IH]; intros v i; cbn [heap_select_loop]; [reflexivity|].
  rewrite IH. destruct (comp_iter comp v i first); [|reflexivity].
  apply pop_heap_perm.
Qed.

Lemma sort_heap_perm first fuel : forall (v : list A) last,
  Permutation (sort_heap comp fuel v first last) v.
Proof.
  induction fuel as [|fuel IH]; intros v last; cbn [sort_heap]; [reflexivity|].
  destruct (1 <? last - first); [|reflexivity].
  rewrite IH. apply pop_heap_perm.
Qed.

Lemma partial_sort_perm (v : list A) first middle last :
  Permutation (partial_sort comp v first middle last) v.
Proof.
  unfold partial_sort, heap_select.
  rewrite sort_heap_perm, heap_select_loop_perm. apply make_heap_perm.
Qed.

Lemma introsort_loop_perm depth_limit : forall (v : list A) first last,
  Permutation (introsort_loop comp depth_limit v first last) v.
Proof.
  induction depth_limit as [|d IH]; intros v first last; cbn [introsort_loop].
  - destruct (16 <? last - first); [apply partial_sort_perm | reflexivity].
  - destruct (16 <? last - first); [|reflexivity].
    pose proof (unguarded_partition_pivot_perm v first last) as Hp.
    destruct (unguarded_partition_pivot comp v first last) as [v1 cut].
    cbn [fst] in Hp. rewrite !IH. exact Hp.
Qed.

(** *** The insertion sort *)

(** [val] put into a descending list, behind the elements it is less than *)
Fixpoint insert_descending (val : A) (r : list A) : list A :=
  match r with
  | [] => [val]
  | y :: r' =>
      if comp val y then y :: insert_descending val r' else val :: r
  end.

Lemma insert_descending_perm val r :
  Permutation (insert_descending val r) (val :: r).
Proof.
  induction r as [|y r IH]; simpl; [reflexivity|].
  destruct (comp val y); [|reflexivity].
  rewrite IH. apply perm_swap.
Qed.

(** The walk of [__unguarded_linear_insert] over the elements in front of
    the hole, which are [rev r]. *)
Lemma linear_insert_loop_app val : forall (r post : list A) x,
  linear_insert_loop comp val (rev r ++ x :: post) (length r)
  = rev (insert_descending val r) ++ post.
Proof.
  induction r as [|y r IH]; intros post x; [reflexivity|].
  cbn [length linear_insert_loop rev insert_descending].
  assert (Hy : (rev r ++ [y]) ++ x :: post = rev r ++ y :: x :: post)
    by (rewrite <- app_assoc; reflexivity).
  assert (Hlen : length (rev r) = length r) by apply length_rev.
  rewrite Hy.
  rewrite (lookup_app_r (rev r)) by lia. rewrite Hlen, Nat.sub_diag. cbn [lookup list_lookup].
  replace (S (length r)) with (length (rev r) + 1) by lia.
  rewrite !insert_app_r. cbn [insert list_insert].
  destruct (comp val y).
  - rewrite <- Hlen at 1. rewrite Hlen. rewrite (IH (y :: post) y).
    cbn [rev]. rewrite <- app_assoc. reflexivity.
  - cbn [rev]. rewrite <- !app_assoc. reflexivity.
Qed.

Lemma unguarded_linear_insert_take (v : list A) i val :
  v !! i = Some val ->
  unguarded_linear_insert comp v i
  = rev (insert_descending val (rev (take i v))) ++ drop (S i) v.
Proof.
  intros Hi. unfold unguarded_linear_insert. rewrite Hi.
  set (r := rev (take i v)).
  assert (Hv : rev r ++ val :: drop (S i) v = v).
  { unfold r. rewrite rev_involutive. apply take_drop_middle, Hi. }
  assert (Hlen : length r = i).
  { unfold r. rewrite length_rev, length_take. apply lookup_lt_Some in Hi. lia. }
  rewrite <- (linear_insert_loop_app val r (drop (S i) v) val), Hv, Hlen.
  reflexivity.
Qed.

Lemma unguarded_linear_insert_perm (v : list A) i :
  Permutation (unguarded_linear_insert comp v i) v.
Proof.
  destruct (v !! i) as [val|] eqn:Hi.
  - rewrite (unguarded_linear_insert_take v i val Hi).
    transitivity (take i v ++ val :: drop (S i) v);
      [|rewrite take_drop_middle by exact Hi; reflexivity].
    change (val :: drop (S i) v) with ([val] ++ drop (S i) v).
    rewrite app_assoc. apply Permutation_app_tail.
    rewrite <- Permutation_rev, insert_descending_perm.
    rewrite <- Permutation_rev. apply Permutation_cons_append.
  - unfold unguarded_linear_insert. rewrite Hi. reflexivity.
Qed.

(** [_GLIBCXX_MOVE_BACKWARD3] from the front of the vector, and the
    assignment to the front that follows it *)
Lemma move_backward_app val : forall (r post : list A) x,
  <[0 := val]> (move_backward (rev r ++ x :: post) 0 (length r))
  = val :: rev r ++ post.
Proof.
  induction r as [|y r IH]; intros post x; [reflexivity|].
  cbn [length move_backward rev].
  assert (Hy : (rev r ++ [y]) ++ x :: post = rev r ++ y :: x :: post)
    by (rewrite <- app_assoc; reflexivity).
  assert (Hlen : length (rev r) = length r) by apply length_rev.
  rewrite Hy. cbn [Nat.leb].
  rewrite (lookup_app_r (rev r)) by lia. rewrite Hlen, Nat.sub_diag. cbn [lookup list_lookup].
  replace (S (length r)) with (length (rev r) + 1) by lia.
  rewrite insert_app_r. cbn [insert list_insert].
  rewrite (IH (y :: post) y). rewrite <- app_assoc. reflexivity.
Qed.

Lemma move_to_front_take (v : list A) i val :
  i < length v ->
  <[0 := val]> (move_backward v 0 i) = val :: take i v ++ drop (S i) v.
Proof.
  intros Hi. destruct (lookup_lt_is_Some_2 v i Hi) as [x Hx].
  set (r := rev (take i v)).
  assert (Hv : rev r ++ x :: drop (S i) v = v).
  { unfold r. rewrite rev_involutive. apply take_drop_middle, Hx. }
  assert (Hlen : length r = i).
  { unfold r. rewrite length_rev, length_take. lia. }
  rewrite <- (rev_involutive (take i v)). fold r.
  rewrite <- (move_backward_app val r (drop (S i) v) x), Hv, Hlen.
  reflexivity.
Qed.

(** one round of the loop of [__insertion_sort] with [first] the front *)
Definition insertion_round (v : list A) (i : nat) : list A :=
  if comp_iter comp v i 0 then
    match v !! i with
    | Some val => <[0 := val]> (move_backward v 0 i)
    | None => v
    end
  else unguarded_linear_insert comp v i.

Lemma insertion_round_perm (v : list A) i : Permutation (insertion_round v i) v.
Proof.
  unfold insertion_round. destruct (comp_iter comp v i 0).
  - destruct (v !! i) as [val|] eqn:Hi; [|reflexivity].
    rewrite move_to_front_take by (eapply lookup_lt_Some, Hi).
    transitivity (take i v ++ val :: drop (S i) v);
      [|rewrite take_drop_middle by exact Hi; reflexivity].
    apply Permutation_middle.
  - apply unguarded_linear_insert_perm.
Qed.

Lemma insertion_sort_loop_perm k : forall (v : list A) i,
  Permutation (insertion_sort_loop comp k v 0 i) v.
Proof.
  induction k as [|k IH]; intros v i; [reflexivity|].
  cbn [insertion_sort_loop]. fold (insertion_round v i).
  rewrite IH. apply insertion_round_perm.
Qed.

Lemma unguarded_insertion_sort_perm k : forall (v : list A) i,
  Permutation (unguarded_insertion_sort comp k v i) v.
Proof.
  induction k as [|k IH]; intros v i; [reflexivity|].
  cbn [unguarded_insertion_sort]. rewrite IH. apply unguarded_linear_insert_perm.
Qed.

Lemma gnu_insertion_sort_perm (v : list A) last :
  Permutation (gnu_insertion_sort comp v 0 last) v.
Proof.
  unfold gnu_insertion_sort. destruct (0 =? last); [reflexivity|].
  apply insertion_sort_loop_perm.
Qed.

Lemma final_insertion_sort_perm (v : list A) last :
  Permutation (final_insertion_sort comp v 0 last) v.
Proof.
  unfold final_insertion_sort. destruct (16 <? last - 0).
  - rewrite unguarded_insertion_sort_perm. apply gnu_insertion_sort_perm.
  - apply gnu_insertion_sort_perm.
Qed.

Lemma gnu_sort_perm (v : list A) : Permutation v (gnu_sort comp v).
Proof.
  unfold gnu_sort. destruct (0 =? length v); [reflexivity|].
  symmetry. rewrite final_insertion_sort_perm. apply introsort_loop_perm.
Qed.

Lemma gnu_sort_length (v : list A) : length (gnu_sort comp v) = length v.
Proof. symmetry. apply Permutation_length, gnu_sort_perm. Qed.

(** *** The order the insertion sort leaves *)

Variable dom : list A.
Hypothesis comp_swo : strict_weak_on comp dom.

(** descending: no element is less than a later one *)
Definition descending (l : list A) : Prop :=
  StronglySorted (fun a b => comp a b = false) l.

Lemma insert_descending_sorted val r :
  In val dom -> (forall y, In y r -> In y dom) ->
  descending r -> descending (insert_descending val r).
Proof.
  unfold descending. intros Hval Hr Hs.
  induction Hs as [|y r Hs IH Hy]; simpl.
  - constructor; constructor.
  - assert (Hyd : In y dom) by (apply Hr; left; reflexivity).
    assert (Hrd : forall z, In z r -> In z dom)
      by (intros z Hz; apply Hr; right; exact Hz).
    destruct (comp val y) eqn:E.
    + constructor; [apply IH, Hrd|].
      rewrite List.Forall_forall in Hy |- *. intros z Hz.
      apply (Permutation_in _ (insert_descending_perm val r)) in Hz.
      destruct Hz as [<-|Hz]; [|apply Hy, Hz].
      apply (swo_asym comp dom comp_swo); assumption.
    + constructor; [constructor; assumption|].
      constructor; [exact E|].
      rewrite List.Forall_forall in Hy |- *. intros z Hz.
      apply (swo_not_less_trans comp dom comp_swo z y val); auto.
Qed.

Lemma sorted_wrt_descending (l : list A) : sorted_wrt comp l -> descending (rev l).
Proof. apply StronglySorted_rev. Qed.

Lemma descending_sorted_wrt (l : list A) : descending l -> sorted_wrt comp (rev l).
Proof. apply (StronglySorted_rev (fun a b => comp a b = false)). Qed.

Lemma unguarded_linear_insert_sorted (v : list A) i :
  i < length v -> (forall y, In y v -> In y dom) ->
  sorted_wrt comp (take i v) ->
  sorted_wrt comp (take (S i) (unguarded_linear_insert comp v i)).
Proof.
  intros Hi Hv Hs. destruct (lookup_lt_is_Some_2 v i Hi) as [val Hval].
  rewrite (unguarded_linear_insert_take v i val Hval).
  rewrite take_app_length'.
  - apply descending_sorted_wrt, insert_descending_sorted.
    + eapply Hv, lookup_Some_In, Hval.
    + intros y Hy. apply in_rev in Hy. eapply Hv, In_take, Hy.
    + apply sorted_wrt_descending, Hs.
  - rewrite length_rev.
    rewrite (Permutation_length (insert_descending_perm val _)).
    cbn [length]. rewrite length_rev, length_take. lia.
Qed.

Lemma insertion_round_sorted (v : list A) i :
  0 < i < length v -> (forall y, In y v -> In y dom) ->
  sorted_wrt comp (take i v) ->
  sorted_wrt comp (take (S i) (insertion_round v i)).
Proof.
  intros Hi Hv Hs. unfold insertion_round.
  destruct (comp_iter comp v i 0) eqn:Ec;
    [|apply unguarded_linear_insert_sorted; [lia | assumption..]].
  unfold comp_iter in Ec.
  destruct (v !! i) as [val|] eqn:Hval; [|discriminate].
  destruct (v !! 0) as [front|] eqn:Hfront; [|discriminate].
  rewrite move_to_front_take by lia.
  assert (Hvald : In val dom).
  { eapply Hv, lookup_Some_In, Hval. }
  assert (Hfrontd : In front dom).
  { eapply Hv, lookup_Some_In, Hfront. }
  assert (Htake : forall y, In y (take i v) -> In y dom).
  { intros y Hy. eapply Hv, In_take, Hy. }
  cbn [take]. rewrite take_app_le by (rewrite length_take; lia).
  rewrite take_take, Nat.min_id.
  constructor; [exact Hs|].
  assert (Hhd : take i v = front :: tl (take i v)).
  { destruct i as [|i]; [lia|]. destruct v as [|a v]; [discriminate|].
    injection Hfront as ->. reflexivity. }
  rewrite Hhd in Hs, Htake |- *.
  apply StronglySorted_inv in Hs. destruct Hs as [_ Hs].
  rewrite List.Forall_forall in Hs |- *.
  intros y [<-|Hy].
  - apply (swo_asym comp dom comp_swo); assumption.
  - destruct (comp y val) eqn:E; [|reflexivity].
    rewrite <- (Hs y Hy). symmetry.
    apply (swo_trans _ _ comp_swo y val front); auto.
    apply Htake. right. exact Hy.
Qed.

Lemma insertion_sort_loop_sorted k : forall (v : list A) i,
  0 < i -> i + k <= length v -> (forall y, In y v -> In y dom) ->
  sorted_wrt comp (take i v) ->
  sorted_wrt comp (take (i + k) (insertion_sort_loop comp k v 0 i)).
Proof.
  induction k as [|k IH]; intros v i Hi Hk Hv Hs.
  - rewrite Nat.add_0_r. exact Hs.
  - cbn [insertion_sort_loop]. fold (insertion_round v i).
    replace (i + S k) with (S i + k) by lia.
    pose proof (insertion_round_perm v i) as Hp.
    apply IH.
    + lia.
    + rewrite (Permutation_length Hp). lia.
    + intros y Hy. apply Hv. eapply Permutation_in; [exact Hp | exact Hy].
    + apply insertion_round_sorted; [lia | assumption..].
Qed.

Lemma unguarded_insertion_sort_sorted k : forall (v : list A) i,
  i + k <= length v -> (forall y, In y v -> In y dom) ->
  sorted_wrt comp (take i v) ->
  sorted_wrt comp (take (i + k) (unguarded_insertion_sort comp k v i)).
Proof.
  induction k as [|k IH]; intros v i Hk Hv Hs.
  - rewrite Nat.add_0_r. exact Hs.
  - cbn [unguarded_insertion_sort].
    replace (i + S k) with (S i + k) by lia.
    pose proof (unguarded_linear_insert_perm v i) as Hp.
    apply IH.
    + rewrite (Permutation_length Hp). lia.
    + intros y Hy. apply Hv. eapply Permutation_in; [exact Hp | exact Hy].
    + apply unguarded_linear_insert_sorted; [lia | assumption..].
Qed.

Lemma gnu_insertion_sort_sorted (v : list A) last :
  last <= length v -> (forall y, In y v -> In y dom) ->
  sorted_wrt comp (take last (gnu_insertion_sort comp v 0 last)).
Proof.
  intros Hlast Hv. unfold gnu_insertion_sort.
  destruct last as [|last]; [constructor|].
  cbn [Nat.eqb]. replace (S last) with (1 + (S last - (0 + 1))) at 1 by lia.
  apply insertion_sort_loop_sorted; [lia | lia | exact Hv |].
  destruct v as [|a v]; [constructor|]. repeat constructor.
Qed.

Lemma final_insertion_sort_sorted (v : list A) :
  (forall y, In y v -> In y dom) ->
  sorted_wrt comp (final_insertion_sort comp v 0 (length v)).
Proof.
  intros Hv. unfold final_insertion_sort. rewrite Nat.sub_0_r.
  destruct (Nat.ltb_spec 16 (length v)) as [Hlong|Hshort].
  - pose proof (gnu_insertion_sort_perm v (0 + 16)) as Hp.
    set (v1 := gnu_insertion_sort comp v 0 (0 + 16)) in *.
    assert (Hall : sorted_wrt comp
              (take (16 + (length v - (0 + 16)))
                 (unguarded_insertion_sort comp (length v - (0 + 16)) v1 (0 + 16)))).
    { apply unguarded_insertion_sort_sorted.
      - rewrite (Permutation_length Hp). lia.
      - intros y Hy. apply Hv. eapply Permutation_in; [exact Hp | exact Hy].
      - apply gnu_insertion_sort_sorted; [lia | exact Hv]. }
    rewrite take_ge in Hall; [exact Hall|].
    rewrite (Permutation_length (unguarded_insertion_sort_perm _ _ _)).
    rewrite (Permutation_length Hp). lia.
  - pose proof (gnu_insertion_sort_sorted v (length v) (le_n _) Hv) as Hall.
    rewrite take_ge in Hall; [exact Hall|].
    rewrite (Permutation_length (gnu_insertion_sort_perm _ _)). lia.
Qed.

End LibstdcxxPermutation.

Lemma gnu_sort_sorted {A : Type} (comp : A -> A -> bool) (v : list A) :
  strict_weak_on comp v -> sorted_wrt comp (gnu_sort comp v).
Proof.
  intros Hswo. unfold gnu_sort.
  destruct (Nat.eqb_spec 0 (length v)) as [Hnil|Hne].
  - destruct v; [constructor | discriminate].
  - pose proof (introsort_loop_perm comp (Nat.log2 (length v - 0) * 2) v 0 (length v))
      as Hp.
    set (v1 := introsort_loop comp _ v 0 (length v)) in *. clearbody v1.
    rewrite <- (Permutation_length Hp).
    apply (final_insertion_sort_sorted comp v Hswo).
    intros y Hy. eapply Permutation_in; [exact Hp | exact Hy].
Qed.

(** The C++ library with the [std::sort] of libstdc++. *)
Definition libstdcxx_stdlib : StdLib := {|
  mt19937 := Z;
  mt19937_seed := fun s => s;
  uniform_int_distribution := lcg_uniform;
  uniform_int_distribution_range := lcg_uniform_range;
  std_sort := fun A comp l => gnu_sort comp l;
  std_sort_length := fun A comp l => gnu_sort_length comp l;
  std_sort_spec := fun A comp l Hswo =>
    conj (gnu_sort_perm comp l) (gnu_sort_sorted comp l Hswo);
  sin := taylor_sin;
  cos := taylor_cos;
  sin_zero := eq_refl
|}.

(** ** C3: threshold spans *)

(** normalized sort value of the pixel at position [i] of a line *)
Definition norm_value_at (row : RowAccessor) (img : list BYTE) (key : SortKey)
    (i : Z) : float :=
  let '(r, g, b) := getRGB row img i in GetSortValueNorm r g b key.

(** [lowerNorm <= v <= upperNorm], the thresholds divided by 255 *)
Definition in_threshold (row : RowAccessor) (img : list BYTE)
    (params : PixelSortParams) (i : Z) : bool :=
  let lowerNorm := f32_div (f32_of_int (lowerThreshold params)) (f32_of_int 255) in
  let upperNorm := f32_div (f32_of_int (upperThreshold params)) (f32_of_int 255) in
  let v := norm_value_at row img (sortKey params) i in
  f32_le lowerNorm v && f32_le v upperNorm.

(** a line of packed RGB pixels, and the accessor of its only row *)
Definition pixels_image (pixels : list (Z * Z * Z)) : list BYTE :=
  flat_map (fun '(r, g, b) => [int_to_BYTE r; int_to_BYTE g; int_to_BYTE b]) pixels.

Definition packed_row (n : Z) : RowAccessor := mkRow 0 3 (n * 3) 0 1 2 n false.

(** five pixels whose saturations are 0.1, 0.5, 0.5, 0.9 and 0.2 *)
Definition threshold_example_line : list BYTE :=
  pixels_image [(10, 9, 9); (2, 1, 1); (2, 1, 1); (10, 1, 1); (5, 4, 4)].

Lemma DetectSpansThreshold_runs row img lowerNorm upperNorm key outSpans :
  let out := DetectSpansThreshold row img lowerNorm upperNorm key outSpans in
  let inR := threshold_in_range row img lowerNorm upperNorm key in
  (forall s e, In (mkSpan s e) out <-> maximal_run inR (row_length row) s e) /\
  spans_separated out.
Proof.
  unfold DetectSpansThreshold. simpl.
  destruct (Z.leb_spec (row_length row) 0) as [Hn|Hn].
  - split; [|constructor]. intros s e. split; [intros []|].
    intros (? & ? & _). lia.
  - apply threshold_loop_runs. exact Hn.
Qed.

(** C3.  In Threshold mode the spans found by the dispatch of [DetectSpans]
    (before the post-filter) are exactly the maximal runs of positions
    whose normalized sort value lies between the two thresholds divided by
    255: a span is in the list iff it is such a run (a run that reaches the
    end of the line closes there), and the list is in ascending order
    without repetition.  For the line with normalized values
    0.1, 0.5, 0.5, 0.9, 0.2 and bounds 0.3 and 0.6 the list is [[1,3)]. *)
Theorem threshold_spans_are_maximal_runs `{StdLib} (row : RowAccessor)
    (img : list BYTE) (params : PixelSortParams) (rowIndex : Z) (rng : mt19937)
    (outSpans : list Span) (brightness : list float) :
  intervalMode params = kIntervalModeThreshold ->
  let spans := snd (fst (detect_dispatch row img params rowIndex rng outSpans brightness)) in
  (forall s e, In (mkSpan s e) spans <->
               maximal_run (in_threshold row img params) (row_length row) s e) /\
  spans_separated spans /\
  map (norm_value_at (packed_row 5) threshold_example_line kSortKeySaturation)
      [0; 1; 2; 3; 4]
    = [f32_lit 1 10; f32_lit 5 10; f32_lit 5 10; f32_lit 9 10; f32_lit 2 10] /\
  DetectSpansThreshold (packed_row 5) threshold_example_line
      (f32_lit 3 10) (f32_lit 6 10) kSortKeySaturation outSpans
    = [mkSpan 1 3].
Proof.
  intros Hmode spans. subst spans. unfold detect_dispatch. rewrite Hmode. simpl.
  split; [|split; [|split; vm_compute; reflexivity]];
    apply DetectSpansThreshold_runs.
Qed.

Lemma threshold_spans_are_maximal_runs_witness :
  intervalMode MakeDefaultParams = kIntervalModeThreshold /\
  forall s e,
    In (mkSpan s e)
       (snd (fst (detect_dispatch (H := reference_stdlib) (packed_row 5)
                    threshold_example_line MakeDefaultParams 0 42 [] []))) <->
    maximal_run (in_threshold (packed_row 5) threshold_example_line MakeDefaultParams) 5 s e.
Proof.
  split; [reflexivity|].
  exact (proj1 (threshold_spans_are_maximal_runs (H := reference_stdlib)
                  (packed_row 5) threshold_example_line MakeDefaultParams 0 42 [] []
                  eq_refl)).
Defined.

(** ** C4: the post-filter *)

Definition span_len (sp : Span) : Z := span_end sp - span_start sp.

(** [cs] cuts the span [s, e) into consecutive pieces of exactly [m]
    positions, except the last one, which has between 1 and [m]. *)
Inductive chunks_of (m : Z) : Z -> Z -> list Span -> Prop :=
| chunks_last s e :
    0 < e - s <= m -> chunks_of m s e [mkSpan s e]
| chunks_cons s e cs :
    m < e - s -> chunks_of m (s + m) e cs ->
    chunks_of m s e (mkSpan s (s + m) :: cs).

(** The post-filter in the words of the specification. *)
Definition keep_min (spanMin_ : Z) (l : list Span) : list Span :=
  List.filter (fun sp => spanMin_ <=? span_len sp) l.

Lemma span_min_loop_compacts spanMin_ todo : forall kept junk i w,
  i = (length kept + length junk)%nat -> w = length kept ->
  exists junk',
    span_min_loop spanMin_ (length todo) i w (kept ++ junk ++ todo)
    = (length (kept ++ keep_min spanMin_ todo),
       (kept ++ keep_min spanMin_ todo) ++ junk').
Proof.
  induction todo as [|s todo IH]; intros kept junk i w Hi Hw.
  - exists junk. simpl. rewrite !app_nil_r. subst w. reflexivity.
  - simpl span_min_loop.
    assert (Hget : (kept ++ junk ++ s :: todo) !! i = Some s).
    { subst i. rewrite app_assoc, lookup_app_r by (rewrite length_app; lia).
      rewrite length_app, Nat.sub_diag. reflexivity. }
    rewrite Hget. simpl default. unfold keep_min. simpl List.filter.
    fold (keep_min spanMin_ todo). unfold span_len.
    destruct (spanMin_ <=? span_end s - span_start s) eqn:E.
    + assert (Hins : exists junk0,
                 length junk0 = length junk /\
                 <[w := s]> (kept ++ junk ++ s :: todo) = (kept ++ [s]) ++ junk0 ++ todo).
      { subst w. destruct junk as [|j junk].
        - exists []. split; [reflexivity|].
          rewrite insert_app_r_alt by lia. rewrite Nat.sub_diag. simpl.
          rewrite <- app_assoc. reflexivity.
        - exists (junk ++ [s]). split; [rewrite length_app; simpl; lia|].
          rewrite insert_app_r_alt by lia. rewrite Nat.sub_diag. simpl.
          rewrite <- !app_assoc. reflexivity. }
      destruct Hins as (junk0 & Hlen & ->).
      destruct (IH (kept ++ [s]) junk0 (S i) (S w)) as [junk' IH'].
      { rewrite length_app. simpl. lia. }
      { rewrite length_app. simpl. lia. }
      exists junk'. rewrite IH', <- !app_assoc. reflexivity.
    + destruct (IH kept (junk ++ [s]) (S i) w) as [junk' IH'].
      { rewrite length_app. simpl. lia. }
      { exact Hw. }
      exists junk'. rewrite <- app_assoc in IH'. exact IH'.
Qed.

Lemma filter_span_min_keep spanMin_ l :
  1 <= spanMin_ -> Forall (fun sp => 0 < span_len sp) l ->
  filter_span_min spanMin_ l = keep_min spanMin_ l.
Proof.
  intros Hmin Hl. unfold filter_span_min.
  destruct (Z.ltb_spec 1 spanMin_) as [H1|H1].
  - destruct (span_min_loop_compacts spanMin_ l [] [] 0%nat 0%nat eq_refl eq_refl)
      as [junk' Heq].
    simpl in Heq. rewrite Heq. apply take_app_length.
  - assert (spanMin_ = 1) as -> by lia.
    unfold keep_min. induction Hl as [|sp l Hsp Hl IH]; simpl; [reflexivity|].
    destruct (Z.leb_spec 1 (span_len sp)); [|lia]. f_equal. exact IH.
Qed.

Lemma span_max_loop_chunks m fuel : forall s e capped,
  0 < m -> s < e -> (Z.to_nat (e - s) <= fuel)%nat ->
  exists cs, chunks_of m s e cs /\
             span_max_loop fuel m s e capped = capped ++ cs.
Proof.
  induction fuel as [|fuel IH]; intros s e capped Hm Hlt Hfuel; [lia|].
  simpl. destruct (Z.ltb_spec s e); [|lia].
  destruct (Z.le_gt_cases (e - s) m) as [Hshort|Hlong].
  - exists [mkSpan s e]. split; [constructor; lia|].
    replace (Z.min (s + m) e) with e by lia.
    destruct fuel; simpl; [reflexivity|].
    destruct (Z.ltb_spec e e); [lia | reflexivity].
  - replace (Z.min (s + m) e) with (s + m) by lia.
    destruct (IH (s + m) e (capped ++ [mkSpan s (s + m)]) Hm ltac:(lia) ltac:(lia))
      as (cs & Hcs & Heq).
    exists (mkSpan s (s + m) :: cs). split; [constructor; assumption|].
    rewrite Heq, <- app_assoc. reflexivity.
Qed.

Lemma span_max_spans_chunks m l : forall capped,
  0 < m -> Forall (fun sp => 0 < span_len sp) l ->
  exists css,
    Forall2 (fun sp cs => chunks_of m (span_start sp) (span_end sp) cs) l css /\
    span_max_spans m l capped = capped ++ concat css.
Proof.
  induction l as [|sp l IH]; intros capped Hm Hl.
  - exists []. split; [constructor|]. simpl. rewrite app_nil_r. reflexivity.
  - inversion Hl as [|? ? Hsp Hl']; subst. unfold span_len in Hsp. simpl.
    destruct (span_max_loop_chunks m (Z.to_nat (span_end sp - span_start sp))
                (span_start sp) (span_end sp) capped Hm ltac:(lia) ltac:(lia))
      as (cs & Hcs & Heq).
    rewrite Heq.
    destruct (IH (capped ++ cs) Hm Hl') as (css & Hcss & Heq').
    exists (cs :: css). split; [constructor; assumption|].
    rewrite Heq'. simpl. rewrite app_assoc. reflexivity.
Qed.

Lemma keep_min_nonempty spanMin_ l :
  Forall (fun sp => 0 < span_len sp) l ->
  Forall (fun sp => 0 < span_len sp) (keep_min spanMin_ l).
Proof.
  intros Hl. unfold keep_min. rewrite List.Forall_forall in Hl |- *.
  intros sp Hin. apply filter_In in Hin. apply Hl. tauto.
Qed.

(** C4.  On a list of non-empty spans and with valid parameters the
    post-filter first keeps exactly the spans of at least [spanMin]
    positions, in their order; for [spanMax = 0] that is the result, and
    for [spanMax > 0] the result is the concatenation, span by span, of a
    cut of each kept span into consecutive pieces of [spanMax] positions
    with a last piece of at most [spanMax].  [spanMin = 3] turns
    [[0,2), [2,7)] into [[2,7)], [spanMax = 2] turns [[2,7)] into
    [[2,4), [4,6), [6,7)]. *)
Theorem post_filter_drops_then_splits (params : PixelSortParams) (l : list Span) :
  valid_params params ->
  Forall (fun sp => span_start sp < span_end sp) l ->
  let kept := List.filter (fun sp => spanMin params <=? span_end sp - span_start sp) l in
  (spanMax params = 0 -> post_filter params l = kept) /\
  (0 < spanMax params ->
   exists pieces,
     Forall2 (fun sp cs => chunks_of (spanMax params) (span_start sp) (span_end sp) cs)
       kept pieces /\
     post_filter params l = concat pieces) /\
  post_filter (mkParams kSortDirectionHorizontal kSortKeyBrightness
                 kIntervalModeThreshold 64 204 false 0 3 0 0 0)
      [mkSpan 0 2; mkSpan 2 7]
    = [mkSpan 2 7] /\
  post_filter (mkParams kSortDirectionHorizontal kSortKeyBrightness
                 kIntervalModeThreshold 64 204 false 0 1 2 0 0)
      [mkSpan 2 7]
    = [mkSpan 2 4; mkSpan 4 6; mkSpan 6 7].
Proof.
  intros Hvalid Hl kept.
  assert (Hl' : Forall (fun sp => 0 < span_len sp) l).
  { eapply Forall_impl; [exact Hl|]. intros sp Hsp. unfold span_len. simpl in Hsp. lia. }
  assert (Hkept : filter_span_min (spanMin params) l = kept).
  { apply filter_span_min_keep; [|exact Hl']. destruct Hvalid. lia. }
  unfold post_filter. rewrite Hkept.
  split; [|split; [|split; reflexivity]].
  - intros H0. unfold cap_span_max. rewrite H0. reflexivity.
  - intros Hpos. unfold cap_span_max.
    destruct (Z.ltb_spec 0 (spanMax params)); [|lia].
    destruct (span_max_spans_chunks (spanMax params) kept [] Hpos
                (keep_min_nonempty _ _ Hl')) as (css & Hcss & Heq).
    exists css. split; assumption.
Qed.

Definition params_spanMin3 : PixelSortParams :=
  mkParams kSortDirectionHorizontal kSortKeyBrightness kIntervalModeThreshold
    64 204 false 0 3 0 0 0.

Definition params_spanMax2 : PixelSortParams :=
  mkParams kSortDirectionHorizontal kSortKeyBrightness kIntervalModeThreshold
    64 204 false 0 1 2 0 0.

Lemma params_spanMax2_valid : valid_params params_spanMax2.
Proof. constructor; simpl; lia. Defined.

Lemma post_filter_drops_then_splits_witness :
  valid_params params_spanMax2 /\
  Forall (fun sp => span_start sp < span_end sp) [mkSpan 2 7] /\
  exists pieces,
    Forall2 (fun sp cs => chunks_of 2 (span_start sp) (span_end sp) cs)
      [mkSpan 2 7] pieces /\
    post_filter params_spanMax2 [mkSpan 2 7] = concat pieces.
Proof.
  assert (Hl : Forall (fun sp => span_start sp < span_end sp) [mkSpan 2 7]).
  { constructor; [simpl; lia | constructor]. }
  split; [exact params_spanMax2_valid|]. split; [exact Hl|].
  apply (proj1 (proj2 (post_filter_drops_then_splits params_spanMax2 [mkSpan 2 7]
                         params_spanMax2_valid Hl))).
  simpl. lia.
Defined.

(** ** C6: wave spans *)

(** [l] tiles [lo, hi): non-empty spans, each starting where the previous
    one ends. *)
Inductive tiles : Z -> Z -> list Span -> Prop :=
| tiles_nil lo : tiles lo lo []
| tiles_cons lo e hi l : lo < e -> tiles e hi l -> tiles lo hi (mkSpan lo e :: l).

(** The spans the loop of [DetectSpansWaves] emits from position [i] and
    phase [phase] on: each has [max(2, wave_length)] positions, clipped to
    the end of the line, and the phase advances by 0.5 per span. *)
Inductive wave_chain `{StdLib} (n waveLen : Z) : Z -> double -> list Span -> Prop :=
| wave_chain_done i phase : n <= i -> wave_chain n waveLen i phase []
| wave_chain_next i phase cs :
    i < n ->
    wave_chain n waveLen (Z.min (i + Z.max 2 (wave_length waveLen phase)) n)
      (f64_add phase (f64_lit 5 10)) cs ->
    wave_chain n waveLen i phase
      (mkSpan i (Z.min (i + Z.max 2 (wave_length waveLen phase)) n) :: cs).

Lemma waves_loop_chain `{StdLib} n waveLen fuel : forall i phase out,
  (Z.to_nat (n - i) <= fuel)%nat ->
  exists cs, wave_chain n waveLen i phase cs /\
             waves_loop fuel n waveLen i phase out = out ++ cs.
Proof.
  induction fuel as [|fuel IH]; intros i phase out Hfuel.
  - exists []. split; [constructor; lia|]. simpl. rewrite app_nil_r. reflexivity.
  - simpl. destruct (Z.ltb_spec i n) as [Hlt|Hge].
    + destruct (IH (Z.min (i + Z.max 2 (wave_length waveLen phase)) n)
                  (f64_add phase (f64_lit 5 10))
                  (out ++ [mkSpan i (Z.min (i + Z.max 2 (wave_length waveLen phase)) n)])
                  ltac:(lia)) as (cs & Hcs & Heq).
      eexists. split; [constructor; [exact Hlt | exact Hcs]|].
      rewrite Heq, <- app_assoc. reflexivity.
    + exists []. split; [constructor; lia|]. rewrite app_nil_r. reflexivity.
Qed.

Lemma wave_chain_unique `{StdLib} n waveLen i phase cs1 cs2 :
  wave_chain n waveLen i phase cs1 -> wave_chain n waveLen i phase cs2 -> cs1 = cs2.
Proof.
  intros H1. revert cs2.
  induction H1 as [i phase Hge|i phase cs Hlt Hcs IH]; intros cs2 H2;
    inversion H2; subst; try lia; [reflexivity|].
  f_equal. apply IH. assumption.
Qed.

(** More iterations than [n - i] change nothing: the loop has ended. *)
Lemma waves_loop_fuel `{StdLib} n waveLen fuel i phase out :
  (Z.to_nat (n - i) <= fuel)%nat ->
  waves_loop fuel n waveLen i phase out
    = waves_loop (Z.to_nat (n - i)) n waveLen i phase out.
Proof.
  intros Hfuel.
  destruct (waves_loop_chain n waveLen fuel i phase out Hfuel) as (cs1 & H1 & ->).
  destruct (waves_loop_chain n waveLen (Z.to_nat (n - i)) i phase out (Nat.le_refl _))
    as (cs2 & H2 & ->).
  f_equal. eapply wave_chain_unique; eassumption.
Qed.

Lemma wave_chain_tiles `{StdLib} n waveLen i phase cs :
  i <= n -> wave_chain n waveLen i phase cs ->
  tiles i n cs \/ (cs = [] /\ i = n).
Proof.
  intros Hle Hc. induction Hc as [i phase Hge|i phase cs Hlt Hcs IH].
  - right. split; [reflexivity | lia].
  - left. constructor; [lia|].
    destruct IH as [Ht|[-> Heq]]; [lia | exact Ht |].
    rewrite Heq. constructor.
Qed.

(** [round]: the nearest integer, halves away from zero *)
Definition SFround (x : spec_float) : option Z :=
  match x with
  | S754_zero _ => Some 0
  | S754_finite s m e => Some (cond_Zopp s ((Z.shiftl (Zpos m) (e + 1) + 1) / 2))
  | S754_infinity _ | S754_nan => None
  end.

(** The length of a wave span in the words of the specification:
    [round(wavelength * (0.5 + 0.5 * sin(phase)))]. *)
Definition wave_length_rounded `{StdLib} (waveLen : Z) (phase : double) : Z :=
  default INT_MIN
    (SFround (f64_mul (f64_of_int waveLen)
                (f64_add (f64_lit 5 10) (f64_mul (f64_lit 5 10) (sin phase))))).

(** The value whose integer part is a wave length. *)
Definition wave_product `{StdLib} (waveLen : Z) (phase : double) : double :=
  f64_mul (f64_of_int waveLen)
    (f64_add (f64_lit 5 10) (f64_mul (f64_lit 5 10) (sin phase))).

(** C6, as the code has it.  For a line of [n > 0] positions the wave
    detector emits consecutive spans that start at 0 and tile the line; the
    span at phase [p] has [max(2, t)] positions, clipped to the end of the
    line, where [t] is [wavelength * (0.5 + 0.5 * sin p)] with its
    fractional part dropped (not rounded) and [wavelength = max(10, n/8)];
    the phase starts at [rowIndex * 0.1] and advances by 0.5 per span; the
    random generator is returned as it was received. *)
Theorem waves_spans_truncate `{StdLib} (row : RowAccessor) (img : list BYTE)
    (params : PixelSortParams) (rowIndex : Z) (rng : mt19937)
    (outSpans : list Span) (brightness : list float) :
  0 < row_length row ->
  intervalMode params = kIntervalModeWaves ->
  let n := row_length row in
  let waveLen := Z.max 10 (n / 8) in
  let result := detect_dispatch row img params rowIndex rng outSpans brightness in
  let spans := snd (fst result) in
  fst (fst result) = rng /\
  spans = DetectSpansWaves n rowIndex outSpans /\
  tiles 0 n spans /\
  wave_chain n waveLen 0 (f64_mul (f64_of_int rowIndex) (f64_lit 1 10)) spans /\
  (forall phase z,
     SFtrunc (wave_product waveLen phase) = Some z -> INT_MIN <= z <= INT_MAX ->
     wave_length waveLen phase = z).
Proof.
  intros Hn Hmode n waveLen result spans.
  subst result spans. unfold detect_dispatch. rewrite Hmode. simpl.
  split; [reflexivity|]. split; [reflexivity|].
  unfold DetectSpansWaves. fold n.
  destruct (Z.leb_spec n 0); [lia|].
  assert (Hq : Z.quot n 8 = n / 8) by (apply Z.quot_div_nonneg; lia).
  rewrite Hq. fold waveLen.
  destruct (waves_loop_chain n waveLen (Z.to_nat n) 0
              (f64_mul (f64_of_int rowIndex) (f64_lit 1 10)) []
              ltac:(lia)) as (cs & Hcs & ->).
  simpl. split; [|split; [exact Hcs|]].
  - destruct (wave_chain_tiles n waveLen 0 _ cs ltac:(lia) Hcs) as [Ht|[_ ?]];
      [exact Ht | lia].
  - intros phase z Hz Hrange. unfold wave_length, double_to_int.
    fold (wave_product waveLen phase). rewrite Hz.
    destruct (Z.leb_spec INT_MIN z); [|lia].
    destruct (Z.leb_spec z INT_MAX); [|lia]. reflexivity.
Qed.

Definition params_waves : PixelSortParams :=
  mkParams kSortDirectionHorizontal kSortKeyBrightness kIntervalModeWaves
    64 204 false 0 1 0 0 0.

Lemma waves_spans_truncate_witness :
  0 < row_length (packed_row 88) /\
  intervalMode params_waves = kIntervalModeWaves /\
  tiles 0 88
    (snd (fst (detect_dispatch (H := reference_stdlib) (packed_row 88) []
                 params_waves 0 42 [] []))).
Proof.
  split; [reflexivity|]. split; [reflexivity|].
  exact (proj1 (proj2 (proj2
    (waves_spans_truncate (H := reference_stdlib) (packed_row 88) []
       params_waves 0 42 [] [] eq_refl eq_refl)))).
Defined.

(** The claim with [round] fails on a line of 88 positions at row 0: the
    wavelength is 11 and the phase is 0, where [sin] is 0 in every libm, so
    the product is 5.5; the code emits the span [[0,5)], rounding would
    give 6 positions. *)
Lemma waves_round_counterexample :
  wave_product (H := reference_stdlib) 11
     (f64_mul (f64_of_int 0) (f64_lit 1 10)) = f64_lit 55 10 /\
  hd_error (DetectSpansWaves (H := reference_stdlib) 88 0 []) = Some (mkSpan 0 5) /\
  Z.max 2 (wave_length_rounded (H := reference_stdlib) (Z.max 10 (88 / 8))
             (f64_mul (f64_of_int 0) (f64_lit 1 10))) = 6.
Proof. vm_compute. repeat split; reflexivity. Qed.

(** ** C9: the invariant of the returned spans *)

(** [l] is a sequence of non-empty spans inside [lo, hi], each starting at
    or after the end of the previous one. *)
Inductive span_seq : Z -> Z -> list Span -> Prop :=
| span_seq_nil lo hi : lo <= hi -> span_seq lo hi []
| span_seq_cons lo hi s e l :
    lo <= s -> s < e -> e <= hi -> span_seq e hi l ->
    span_seq lo hi (mkSpan s e :: l).

Lemma span_seq_bounds lo hi l : span_seq lo hi l -> lo <= hi.
Proof. induction 1; lia. Qed.

Lemma span_seq_lower lo lo' hi l : span_seq lo hi l -> lo' <= lo -> span_seq lo' hi l.
Proof. destruct 1; intros; constructor; auto; lia. Qed.

Lemma span_seq_upper lo hi hi' l : span_seq lo hi l -> hi <= hi' -> span_seq lo hi' l.
Proof. induction 1; intros; constructor; auto; lia. Qed.

Lemma span_seq_app lo m hi l1 l2 :
  span_seq lo m l1 -> span_seq m hi l2 -> span_seq lo hi (l1 ++ l2).
Proof.
  induction 1 as [lo m Hle|lo m s e l Hs Hse He Hl IH]; intros H2; simpl.
  - apply span_seq_lower with (lo := m); assumption.
  - pose proof (span_seq_bounds _ _ _ H2). constructor; auto; lia.
Qed.

Lemma span_seq_snoc lo m hi l s e :
  span_seq lo m l -> m <= s -> s < e -> e <= hi ->
  span_seq lo hi (l ++ [mkSpan s e]).
Proof.
  intros Hl Hs Hse He. apply span_seq_app with (m := m); [assumption|].
  constructor; auto; try lia. constructor. lia.
Qed.

Lemma span_seq_filter (f : Span -> bool) lo hi l :
  span_seq lo hi l -> span_seq lo hi (List.filter f l).
Proof.
  induction 1 as [|lo hi s e l Hs Hse He Hl IH]; simpl; [constructor; assumption|].
  destruct (f (mkSpan s e)); [constructor; assumption|].
  apply span_seq_lower with (lo := e); [assumption | lia].
Qed.

Lemma span_seq_nonempty lo hi l :
  span_seq lo hi l -> Forall (fun sp => 0 < span_len sp) l.
Proof. induction 1; constructor; auto. unfold span_len. simpl. lia. Qed.

(** the form of the invariant in the data model: bounds, and order *)
Lemma span_seq_spec lo hi l :
  span_seq lo hi l ->
  Forall (fun sp => lo <= span_start sp /\ span_start sp < span_end sp /\ span_end sp <= hi) l /\
  StronglySorted (fun a b => span_end a <= span_start b) l.
Proof.
  induction 1 as [|lo hi s e l Hs Hse He Hl [IHb IHs]]; [split; constructor|].
  split.
  - constructor; [simpl; lia|].
    eapply Forall_impl; [exact IHb|]. simpl. intros sp. lia.
  - constructor; [assumption|].
    eapply Forall_impl; [exact IHb|]. simpl. intros sp. lia.
Qed.

Lemma span_seq_of_sorted lo hi l :
  lo <= hi ->
  Forall (fun sp => lo <= span_start sp /\ span_start sp < span_end sp /\ span_end sp <= hi) l ->
  StronglySorted (fun a b => span_end a <= span_start b) l ->
  span_seq lo hi l.
Proof.
  intros Hle Hb Hs. revert lo Hle Hb.
  induction Hs as [|[s e] l Hs IH Hall]; intros lo Hle Hb; [constructor; assumption|].
  inversion Hb as [|? ? Hsp Hb']; subst. simpl in Hsp.
  constructor; try lia. apply IH; [lia|].
  rewrite List.Forall_forall in Hall, Hb' |- *. intros sp Hin.
  specialize (Hall sp Hin). specialize (Hb' sp Hin). simpl in Hall. lia.
Qed.

Lemma tiles_span_seq lo hi l : tiles lo hi l -> span_seq lo hi l.
Proof.
  induction 1 as [|lo e hi l Hlt Ht IH]; [constructor; lia|].
  pose proof (span_seq_bounds _ _ _ IH). constructor; auto; lia.
Qed.

Lemma chunks_of_tiles m s e cs : 0 < m -> chunks_of m s e cs -> tiles s e cs.
Proof.
  intros Hm. induction 1; constructor; try lia; [constructor | assumption].
Qed.

(** *** the detectors *)

Lemma DetectSpansThreshold_seq row img lowerNorm upperNorm key outSpans :
  span_seq 0 (Z.max 0 (row_length row))
    (DetectSpansThreshold row img lowerNorm upperNorm key outSpans).
Proof.
  destruct (DetectSpansThreshold_runs row img lowerNorm upperNorm key outSpans)
    as [Hruns Hsep].
  apply span_seq_of_sorted; [lia | |].
  - apply List.Forall_forall. intros [s e] Hin. apply Hruns in Hin.
    destruct Hin as (? & ? & _). simpl. lia.
  - eapply StronglySorted_weaken; [| exact Hsep]. simpl. intros a b. lia.
Qed.

Lemma random_loop_seq `{StdLib} n maxLen fuel : forall i rng out m,
  10 <= maxLen -> 0 <= i -> m <= i -> m <= n -> span_seq 0 m out ->
  span_seq 0 n (snd (random_loop fuel n maxLen i rng out)).
Proof.
  induction fuel as [|fuel IH]; intros i rng out m Hmax Hi Hmi Hmn Hout; simpl.
  - apply span_seq_upper with (hi := m); assumption.
  - destruct (Z.ltb_spec i n) as [Hlt|Hge]; simpl;
      [|apply span_seq_upper with (hi := m); assumption].
    pose proof (uniform_int_distribution_range 10 maxLen rng Hmax) as Hlen.
    destruct (uniform_int_distribution 10 maxLen rng) as [len rng1]. simpl in Hlen.
    pose proof (uniform_int_distribution_range 1 20 rng1 ltac:(lia)) as Hgap.
    destruct (uniform_int_distribution 1 20 rng1) as [gap rng2]. simpl in Hgap.
    apply IH with (m := Z.min (i + len) n); try lia.
    apply span_seq_snoc with (m := m); try assumption; lia.
Qed.

(** With the generator delivering what was asked for, [n] iterations end
    the loop: the position has reached [n]. *)
Lemma random_loop_fuel `{StdLib} n maxLen fuel : forall i rng out,
  10 <= maxLen -> (Z.to_nat (n - i) <= fuel)%nat ->
  random_loop (S fuel) n maxLen i rng out = random_loop fuel n maxLen i rng out.
Proof.
  induction fuel as [|fuel IH]; intros i rng out Hmax Hfuel.
  - simpl. destruct (Z.ltb_spec i n); [lia | reflexivity].
  - cbn [random_loop]. destruct (Z.ltb_spec i n) as [Hlt|Hge]; [|reflexivity].
    pose proof (uniform_int_distribution_range 10 maxLen rng Hmax) as Hlen.
    destruct (uniform_int_distribution 10 maxLen rng) as [len rng1]. simpl in Hlen.
    pose proof (uniform_int_distribution_range 1 20 rng1 ltac:(lia)) as Hgap.
    destruct (uniform_int_distribution 1 20 rng1) as [gap rng2]. simpl in Hgap.
    apply IH; [assumption | lia].
Qed.

Lemma DetectSpansRandom_seq `{StdLib} n rng outSpans :
  span_seq 0 (Z.max 0 n) (snd (DetectSpansRandom n rng outSpans)).
Proof.
  unfold DetectSpansRandom. destruct (Z.leb_spec n 0) as [Hn|Hn]; simpl.
  - constructor. lia.
  - replace (Z.max 0 n) with n by lia.
    apply random_loop_seq with (m := 0); try lia. constructor. lia.
Qed.

Lemma edges_split_loop_seq edges threshold k : forall i prevPos out,
  0 <= prevPos <= i -> span_seq 0 prevPos out ->
  let r := edges_split_loop edges threshold k i prevPos out in
  0 <= fst r <= i + Z.of_nat k /\ span_seq 0 (fst r) (snd r).
Proof.
  induction k as [|k IH]; intros i prevPos out Hp Hout; simpl.
  - split; [lia | assumption].
  - destruct (f32_gt (vec_get f32_zero edges i) threshold).
    + destruct (Z.ltb_spec prevPos (i + 1)); [|lia].
      destruct (IH (i + 1) (i + 1) (out ++ [mkSpan prevPos (i + 1)]) ltac:(lia))
        as [Hr Hs].
      { apply span_seq_snoc with (m := prevPos); try assumption; lia. }
      split; [lia | assumption].
    + destruct (IH (i + 1) prevPos out ltac:(lia) Hout) as [Hr Hs].
      split; [lia | assumption].
Qed.

Lemma DetectSpansEdges_seq row img outSpans brightness :
  span_seq 0 (Z.max 0 (row_length row))
    (fst (DetectSpansEdges row img outSpans brightness)).
Proof.
  unfold DetectSpansEdges.
  destruct (Z.leb_spec (row_length row) 0) as [Hn|Hn]; simpl; [constructor; lia|].
  destruct (Z.eqb_spec (row_length row) 1) as [H1|H1]; simpl.
  { rewrite H1. constructor; try lia. constructor. lia. }
  destruct (edges_stat_loop _ _ _ _ _ _) as [[edges edgeSum] edgeSumSq].
  set (threshold := double_to_float _).
  pose proof (edges_split_loop_seq edges threshold (Z.to_nat (row_length row - 1))
                0 0 [] ltac:(lia) ltac:(constructor; lia)) as [Hr Hs].
  destruct (edges_split_loop _ _ _ _ _ _) as [prevPos out]. simpl in Hr, Hs |- *.
  replace (Z.max 0 (row_length row)) with (row_length row) by lia.
  destruct (Z.ltb_spec prevPos (row_length row)); [|lia].
  apply span_seq_snoc with (m := prevPos); try assumption; lia.
Qed.

Lemma DetectSpansWaves_seq `{StdLib} n rowIndex outSpans :
  span_seq 0 (Z.max 0 n) (DetectSpansWaves n rowIndex outSpans).
Proof.
  unfold DetectSpansWaves. destruct (Z.leb_spec n 0) as [Hn|Hn]; [constructor; lia|].
  destruct (waves_loop_chain n (Z.max 10 (Z.quot n 8)) (Z.to_nat n) 0
              (f64_mul (f64_of_int rowIndex) (f64_lit 1 10)) [] ltac:(lia))
    as (cs & Hcs & ->).
  simpl. replace (Z.max 0 n) with n by lia.
  destruct (wave_chain_tiles n _ 0 _ cs ltac:(lia) Hcs) as [Ht|[-> _]];
    [apply tiles_span_seq; exact Ht | constructor; lia].
Qed.

Lemma DetectSpansNone_seq n outSpans :
  span_seq 0 (Z.max 0 n) (DetectSpansNone n outSpans).
Proof.
  unfold DetectSpansNone. destruct (Z.leb_spec n 0); simpl; constructor; try lia.
  constructor. lia.
Qed.

Lemma detect_dispatch_seq `{StdLib} row img params rowIndex rng outSpans brightness :
  span_seq 0 (Z.max 0 (row_length row))
    (snd (fst (detect_dispatch row img params rowIndex rng outSpans brightness))).
Proof.
  unfold detect_dispatch. destruct (intervalMode params); simpl.
  - apply DetectSpansThreshold_seq.
  - pose proof (DetectSpansRandom_seq (row_length row) rng outSpans) as Hr.
    destruct (DetectSpansRandom _ _ _). exact Hr.
  - pose proof (DetectSpansEdges_seq row img outSpans brightness) as He.
    destruct (DetectSpansEdges _ _ _ _). exact He.
  - apply DetectSpansWaves_seq.
  - apply DetectSpansNone_seq.
Qed.

(** *** the post-filter *)

Lemma filter_span_min_seq spanMin_ lo hi l :
  span_seq lo hi l -> span_seq lo hi (filter_span_min spanMin_ l).
Proof.
  intros Hl. unfold filter_span_min.
  destruct (Z.ltb_spec 1 spanMin_) as [H1|H1]; [|exact Hl].
  destruct (span_min_loop_compacts spanMin_ l [] [] 0%nat 0%nat eq_refl eq_refl)
    as [junk' Heq].
  simpl in Heq. rewrite Heq, take_app_length. apply span_seq_filter. exact Hl.
Qed.

Lemma cap_span_max_seq spanMax_ lo hi l :
  span_seq lo hi l -> span_seq lo hi (cap_span_max spanMax_ l).
Proof.
  intros Hl. unfold cap_span_max.
  destruct (Z.ltb_spec 0 spanMax_) as [Hm|Hm]; [|exact Hl].
  destruct (span_max_spans_chunks spanMax_ l [] Hm (span_seq_nonempty _ _ _ Hl))
    as (css & Hcss & ->).
  simpl. clear -Hl Hcss Hm. revert css Hcss.
  induction Hl as [lo hi Hle|lo hi s e l Hs Hse He Hl IH]; intros css Hcss.
  - inversion Hcss; subst. constructor. exact Hle.
  - inversion Hcss as [|? cs ? css' Hcs Hcss']; subst. simpl in Hcs |- *.
    apply span_seq_app with (m := e); [|apply IH; exact Hcss'].
    apply span_seq_lower with (lo := s); [|exact Hs].
    apply tiles_span_seq. eapply chunks_of_tiles; eassumption.
Qed.

(** C9.  Whatever the line, the parameters, the line index and the state of
    the random generator, every span [DetectSpans] returns satisfies
    [0 <= start < end <= n], and every span ends at or before the start of
    each span listed after it: the spans are pairwise disjoint and in
    ascending order. *)
Theorem DetectSpans_spans_invariant `{StdLib} (row : RowAccessor)
    (img : list BYTE) (params : PixelSortParams) (rowIndex : Z) (rng : mt19937)
    (outSpans : list Span) (brightness : list float) :
  let n := Z.max 0 (row_length row) in
  let spans := snd (fst (DetectSpans row img params rowIndex rng outSpans brightness)) in
  Forall (fun sp => 0 <= span_start sp /\ span_start sp < span_end sp /\ span_end sp <= n)
    spans /\
  StronglySorted (fun a b => span_end a <= span_start b) spans.
Proof.
  intros n spans. apply span_seq_spec. subst spans n. unfold DetectSpans.
  pose proof (detect_dispatch_seq row img params rowIndex rng outSpans brightness) as Hd.
  destruct (detect_dispatch _ _ _ _ _ _ _) as [[rng' spans] brightness']. simpl in *.
  unfold post_filter. apply cap_span_max_seq, filter_span_min_seq. exact Hd.
Qed.

(** ** Floating-point facts used by the sort *)

Definition is_nan (x : spec_float) : bool :=
  match x with S754_nan => true | _ => false end.

(** finite, zero included *)
Definition SFfin (x : spec_float) : bool :=
  match x with S754_zero _ | S754_finite _ _ _ => true | _ => false end.

(** finite and different from zero *)
Definition SFnz (x : spec_float) : bool :=
  match x with S754_finite _ _ _ => true | _ => false end.

(** not a NaN and not below zero *)
Definition SFnonneg (x : spec_float) : bool :=
  match x with
  | S754_nan => false
  | S754_zero _ => true
  | S754_infinity s | S754_finite s _ _ => negb s
  end.

(** not a NaN, and with sign [sx] *)
Definition SFsigned (sx : bool) (x : spec_float) : Prop :=
  match x with
  | S754_nan => False
  | S754_zero s | S754_infinity s | S754_finite s _ _ => s = sx
  end.

Lemma SFsigned_not_nan sx x : SFsigned sx x -> is_nan x = false.
Proof. destruct x; simpl; tauto. Qed.

Lemma SFnonneg_not_nan x : SFnonneg x = true -> is_nan x = false.
Proof. destruct x; simpl; congruence. Qed.

Lemma SFsigned_nonneg x : SFsigned false x -> SFnonneg x = true.
Proof. destruct x; simpl; try tauto; intros ->; reflexivity. Qed.

Section Rounding.
Variables prec emax : Z.

Lemma shr_1_nonneg mrs : 0 <= shr_m mrs -> 0 <= shr_m (shr_1 mrs).
Proof.
  destruct mrs as [m r s]. destruct m as [|p|p]; simpl; intros; try lia;
    destruct p; simpl; lia.
Qed.

Lemma iter_shr_1_nonneg p : forall mrs,
  0 <= shr_m mrs -> 0 <= shr_m (SpecFloat.iter_pos shr_1 p mrs).
Proof.
  induction p as [p IH|p IH|]; simpl; intros mrs H.
  - apply IH, IH, shr_1_nonneg, H.
  - apply IH, IH, H.
  - apply shr_1_nonneg, H.
Qed.

Lemma shr_fexp_nonneg m e l :
  0 <= m -> 0 <= shr_m (fst (shr_fexp prec emax m e l)).
Proof.
  intros Hm. unfold shr_fexp, shr.
  assert (H0 : 0 <= shr_m (shr_record_of_loc m l)) by (destruct l as [|[]]; exact Hm).
  destruct (fexp prec emax (Zdigits2 m + e) - e); simpl; try exact H0.
  apply iter_shr_1_nonneg, H0.
Qed.

Lemma round_nearest_even_nonneg m l : 0 <= m -> 0 <= round_nearest_even m l.
Proof.
  intros Hm. destruct l as [|[]]; simpl; try lia. destruct (Z.even m); lia.
Qed.

Lemma binary_round_aux_signed sx mx ex lx :
  0 <= mx -> SFsigned sx (binary_round_aux prec emax sx mx ex lx).
Proof.
  intros Hm. unfold binary_round_aux.
  pose proof (shr_fexp_nonneg mx ex lx Hm) as H1.
  destruct (shr_fexp prec emax mx ex lx) as [mrs' e']. simpl in H1.
  pose proof (shr_fexp_nonneg _ e' loc_Exact
                (round_nearest_even_nonneg _ (loc_of_shr_record mrs') H1)) as H2.
  destruct (shr_fexp prec emax _ e' loc_Exact) as [mrs'' e'']. simpl in H2.
  destruct (shr_m mrs''); simpl; try lia; [reflexivity|].
  destruct (e'' <=? emax - prec); reflexivity.
Qed.

Lemma binary_round_signed sx mx ex : SFsigned sx (binary_round prec emax sx mx ex).
Proof.
  unfold binary_round. destruct (shl_align _ _ _) as [mz ez].
  apply binary_round_aux_signed. lia.
Qed.

Lemma binary_normalize_not_nan m e sz :
  is_nan (binary_normalize prec emax m e sz) = false.
Proof.
  destruct m; simpl; [reflexivity | |];
    eapply SFsigned_not_nan, binary_round_signed.
Qed.

Lemma binary_normalize_nonneg m e sz :
  0 <= m -> SFnonneg (binary_normalize prec emax m e sz) = true.
Proof.
  destruct m; simpl; intros; [reflexivity | | lia].
  apply SFsigned_nonneg, binary_round_signed.
Qed.

Lemma SFadd_nonneg x y :
  SFnonneg x = true -> SFnonneg y = true -> SFnonneg (SFadd prec emax x y) = true.
Proof.
  destruct x as [sx|sx| |sx mx ex], y as [sy|sy| |sy my ey]; simpl;
    try discriminate; try (destruct sx; simpl; try discriminate; reflexivity);
    try (destruct sy; simpl; try discriminate; reflexivity);
    try (destruct sx, sy; simpl; try discriminate; reflexivity).
  destruct sx, sy; simpl; try discriminate. intros _ _.
  apply SFsigned_nonneg, binary_round_signed.
Qed.

Lemma SFmul_nonneg x y :
  SFfin x = true -> SFfin y = true ->
  SFnonneg x = true -> SFnonneg y = true -> SFnonneg (SFmul prec emax x y) = true.
Proof.
  destruct x as [sx|sx| |sx mx ex], y as [sy|sy| |sy my ey]; simpl;
    try discriminate; try reflexivity.
  destruct sx, sy; simpl; try discriminate. intros _ _ _ _.
  apply SFsigned_nonneg, binary_round_aux_signed. lia.
Qed.

(** a product with a finite non-zero factor is a NaN only for a NaN *)
Lemma SFmul_not_nan x y :
  SFnz x = true -> is_nan y = false -> is_nan (SFmul prec emax x y) = false.
Proof.
  destruct x as [sx|sx| |sx mx ex], y as [sy|sy| |sy my ey]; simpl;
    try discriminate; try reflexivity.
  intros _ _. eapply SFsigned_not_nan, binary_round_aux_signed. lia.
Qed.

(** a sum with a finite term is a NaN only for a NaN *)
Lemma SFadd_not_nan x y :
  is_nan x = false -> SFfin y = true -> is_nan (SFadd prec emax x y) = false.
Proof.
  destruct x as [sx|sx| |sx mx ex], y as [sy|sy| |sy my ey]; simpl;
    try discriminate; try reflexivity;
    try (destruct sx, sy; reflexivity).
  intros _ _. apply binary_normalize_not_nan.
Qed.

Lemma SFsub_not_nan x y :
  SFfin x = true -> SFfin y = true -> is_nan (SFsub prec emax x y) = false.
Proof.
  destruct x as [sx|sx| |sx mx ex], y as [sy|sy| |sy my ey]; simpl;
    try discriminate; try reflexivity;
    try (destruct sx, sy; reflexivity).
  intros _ _. apply binary_normalize_not_nan.
Qed.

Lemma SFdiv_core_nonneg m1 e1 m2 e2 :
  0 <= fst (fst (SFdiv_core_binary prec emax (Zpos m1) e1 (Zpos m2) e2)).
Proof.
  unfold SFdiv_core_binary.
  set (e' := Z.min _ _). set (s := e1 - e2 - e').
  set (m' := match s with Zpos _ => Z.shiftl (Zpos m1) s | Z0 => Zpos m1 | Zneg _ => 0 end).
  assert (Hm' : 0 <= m').
  { subst m'. destruct s; try lia. apply Z.shiftl_nonneg. lia. }
  pose proof (Z.div_eucl_eq m' (Zpos m2) ltac:(lia)) as Heq.
  pose proof (Z.mod_pos_bound m' (Zpos m2) ltac:(lia)) as Hmod.
  pose proof (Z.div_pos m' (Zpos m2) Hm' ltac:(lia)) as Hdiv.
  unfold Z.modulo, Z.div in *.
  destruct (Z.div_eucl m' (Zpos m2)) as [q r]. simpl in *. exact Hdiv.
Qed.

(** a quotient by a finite non-zero divisor is a NaN only for a NaN *)
Lemma SFdiv_not_nan x y :
  is_nan x = false -> SFnz y = true -> is_nan (SFdiv prec emax x y) = false.
Proof.
  destruct x as [sx|sx| |sx mx ex], y as [sy|sy| |sy my ey]; simpl;
    try discriminate; try reflexivity.
  intros _ _.
  pose proof (SFdiv_core_nonneg mx ex my ey) as Hq.
  destruct (SFdiv_core_binary prec emax (Zpos mx) ex (Zpos my) ey) as [[mz ez] lz].
  simpl in Hq. eapply SFsigned_not_nan, binary_round_aux_signed. exact Hq.
Qed.

Lemma SFfmod_not_nan x y :
  SFfin x = true -> SFnz y = true -> is_nan (SFfmod prec emax x y) = false.
Proof.
  destruct x as [sx|sx| |sx mx ex], y as [sy|sy| |sy my ey]; simpl;
    try discriminate; try reflexivity.
  intros _ _. apply binary_normalize_not_nan.
Qed.

End Rounding.

(** *** the order of [<] *)

(** a key whose lexicographic order is the order of the non-NaN values *)
Definition SFkey (x : spec_float) : Z * Z * Z :=
  match x with
  | S754_nan => (0, 0, 0)
  | S754_zero _ => (0, 0, 0)
  | S754_infinity true => (-2, 0, 0)
  | S754_infinity false => (2, 0, 0)
  | S754_finite true m e => (-1, - e, - Zpos m)
  | S754_finite false m e => (1, e, Zpos m)
  end.

Definition lex_lt (a b : Z * Z * Z) : Prop :=
  let '(a1, a2, a3) := a in
  let '(b1, b2, b3) := b in
  a1 < b1 \/ (a1 = b1 /\ (a2 < b2 \/ (a2 = b2 /\ a3 < b3))).

Lemma SFltb_key x y :
  is_nan x = false -> is_nan y = false ->
  (SFltb x y = true <-> lex_lt (SFkey x) (SFkey y)).
Proof.
  unfold SFltb. intros Hx Hy.
  destruct x as [sx|sx| |sx mx ex], y as [sy|sy| |sy my ey]; try discriminate;
    try destruct sx; try destruct sy; simpl;
    try change (Pos.compare_cont Eq mx my) with (Pos.compare mx my);
    try (destruct (Z.compare_spec ex ey); destruct (Pos.compare_spec mx my); simpl);
    split; intros Hgoal; first [discriminate | reflexivity | lia | exfalso; lia].
Qed.

Lemma SFltb_not_nan x y : SFltb x y = true -> is_nan x = false /\ is_nan y = false.
Proof. destruct x, y; simpl; try discriminate; auto. Qed.

(** [<] is a strict weak ordering on every list without a NaN *)
Lemma SFltb_strict_weak {A : Type} (key : A -> spec_float) (l : list A) :
  (forall a, In a l -> is_nan (key a) = false) ->
  strict_weak_on (fun a b => SFltb (key a) (key b)) l.
Proof.
  intros Hl.
  assert (Hf : forall x y, is_nan x = false -> is_nan y = false ->
                 SFltb x y = false -> ~ lex_lt (SFkey x) (SFkey y)).
  { intros x y Hx Hy Hlt Hk. apply SFltb_key in Hk; congruence. }
  constructor.
  - intros x Hx. destruct (SFltb (key x) (key x)) eqn:E; [|reflexivity].
    apply SFltb_key in E; try (apply Hl; assumption).
    unfold lex_lt in E. destruct (SFkey (key x)) as [[? ?] ?]. lia.
  - intros x y z Hx Hy Hz Hxy Hyz.
    apply SFltb_key in Hxy, Hyz; try (apply Hl; assumption).
    apply SFltb_key; try (apply Hl; assumption).
    unfold lex_lt in *.
    destruct (SFkey (key x)) as [[? ?] ?], (SFkey (key y)) as [[? ?] ?],
      (SFkey (key z)) as [[? ?] ?]. lia.
  - intros x y z Hx Hy Hz Hxy Hyx Hyz Hzy.
    apply Hf in Hxy, Hyx, Hyz, Hzy; try (apply Hl; assumption).
    split.
    + destruct (SFltb (key x) (key z)) eqn:E; [|reflexivity].
      apply SFltb_key in E; try (apply Hl; assumption).
      unfold lex_lt in *.
      destruct (SFkey (key x)) as [[? ?] ?], (SFkey (key y)) as [[? ?] ?],
        (SFkey (key z)) as [[? ?] ?]. lia.
    + destruct (SFltb (key z) (key x)) eqn:E; [|reflexivity].
      apply SFltb_key in E; try (apply Hl; assumption).
      unfold lex_lt in *.
      destruct (SFkey (key x)) as [[? ?] ?], (SFkey (key y)) as [[? ?] ?],
        (SFkey (key z)) as [[? ?] ?]. lia.
Qed.

(** *** the sort values are never NaN *)

(** a property checked on every integer of [lo, lo + k) *)
Fixpoint Zrange_forallb (P : Z -> bool) (lo : Z) (k : nat) : bool :=
  match k with
  | O => true
  | S k' => P lo && Zrange_forallb P (lo + 1) k'
  end.

Lemma Zrange_forallb_spec P k : forall lo,
  Zrange_forallb P lo k = true ->
  forall z, lo <= z < lo + Z.of_nat k -> P z = true.
Proof.
  induction k as [|k IH]; intros lo H z Hz; [lia|].
  simpl in H. apply andb_true_iff in H. destruct H as [H0 H1].
  destruct (Z.eq_dec z lo) as [->|]; [exact H0|].
  apply (IH (lo + 1) H1). lia.
Qed.

Definition SFsame (x y : spec_float) : bool :=
  match x, y with
  | S754_zero a, S754_zero b => Bool.eqb a b
  | S754_infinity a, S754_infinity b => Bool.eqb a b
  | S754_nan, S754_nan => true
  | S754_finite a m e, S754_finite b m' e' =>
      Bool.eqb a b && (m =? m')%positive && (e =? e')
  | _, _ => false
  end.

Lemma SFsame_eq x y : SFsame x y = true -> x = y.
Proof.
  destruct x as [a|a| |a m e], y as [b|b| |b m' e']; simpl; try discriminate;
    try reflexivity.
  - intros H. apply Bool.eqb_prop in H. congruence.
  - intros H. apply Bool.eqb_prop in H. congruence.
  - intros H. apply andb_true_iff in H. destruct H as [H He].
    apply andb_true_iff in H. destruct H as [Hs Hm].
    apply Bool.eqb_prop in Hs. apply Pos.eqb_eq in Hm. apply Z.eqb_eq in He.
    congruence.
Qed.

Lemma byte_to_int_range (b : BYTE) : 0 <= byte_to_int b <= 255.
Proof.
  unfold byte_to_int. pose proof (Byte.to_N_bounded b) as H. lia.
Qed.

Lemma f32_of_int_fin_check :
  Zrange_forallb (fun z => SFfin (f32_of_int z)) (-255) 1021 = true.
Proof. vm_compute. reflexivity. Qed.

Lemma f32_of_int_fin z : -255 <= z <= 765 -> SFfin (f32_of_int z) = true.
Proof.
  intros Hz. apply (Zrange_forallb_spec _ _ _ f32_of_int_fin_check). lia.
Qed.

Lemma f32_of_int_not_nan z : is_nan (f32_of_int z) = false.
Proof. apply binary_normalize_not_nan. Qed.

Lemma f32_of_int_nonneg z : 0 <= z -> SFnonneg (f32_of_int z) = true.
Proof. apply binary_normalize_nonneg. Qed.

Lemma f32_sub_bytes_check :
  Zrange_forallb (fun x =>
    Zrange_forallb (fun y =>
      SFsame (f32_sub (f32_of_int x) (f32_of_int y)) (f32_of_int (x - y))) 0 256)
    0 256 = true.
Proof. vm_compute. reflexivity. Qed.

Lemma f32_sub_bytes x y :
  0 <= x <= 255 -> 0 <= y <= 255 ->
  f32_sub (f32_of_int x) (f32_of_int y) = f32_of_int (x - y).
Proof.
  intros Hx Hy. apply SFsame_eq.
  pose proof (Zrange_forallb_spec _ _ _ f32_sub_bytes_check x ltac:(lia)) as H.
  cbv beta in H. apply (Zrange_forallb_spec _ _ _ H). lia.
Qed.

Lemma f32_positive_check :
  Zrange_forallb (fun d => f32_le (f32_of_int d) f32_zero || (1 <=? d)) (-255) 511 = true.
Proof. vm_compute. reflexivity. Qed.

Lemma f32_positive d :
  -255 <= d <= 255 -> f32_le (f32_of_int d) f32_zero = false -> 1 <= d.
Proof.
  intros Hd Hle.
  pose proof (Zrange_forallb_spec _ _ _ f32_positive_check d ltac:(lia)) as H.
  cbv beta in H. rewrite Hle in H. cbn [orb] in H. lia.
Qed.

Lemma f32_nz_check :
  Zrange_forallb (fun d => SFnz (f32_of_int d)) 1 255 = true.
Proof. vm_compute. reflexivity. Qed.

Lemma f32_of_int_nz d : 1 <= d <= 255 -> SFnz (f32_of_int d) = true.
Proof.
  intros Hd. apply (Zrange_forallb_spec _ _ _ f32_nz_check). lia.
Qed.

Lemma hue_quotient_check :
  Zrange_forallb (fun d =>
    Zrange_forallb (fun delta =>
      SFfin (f32_div (f32_of_int d) (f32_of_int delta))) 1 255)
    (-255) 511 = true.
Proof. vm_compute. reflexivity. Qed.

Lemma hue_quotient_fin d delta :
  -255 <= d <= 255 -> 1 <= delta <= 255 ->
  SFfin (f32_div (f32_of_int d) (f32_of_int delta)) = true.
Proof.
  intros Hd Hdelta.
  pose proof (Zrange_forallb_spec _ _ _ hue_quotient_check d ltac:(lia)) as H.
  cbv beta in H. apply (Zrange_forallb_spec _ _ _ H). lia.
Qed.

Lemma SFfin_not_nan x : SFfin x = true -> is_nan x = false.
Proof. destruct x; simpl; congruence. Qed.

Lemma f32_max3_cases a b c :
  f32_max3 a b c = a \/ f32_max3 a b c = b \/ f32_max3 a b c = c.
Proof.
  unfold f32_max3. destruct (f32_lt a b);
    match goal with |- context [f32_lt ?m c] => destruct (f32_lt m c) end; auto.
Qed.

Lemma f32_min3_cases a b c :
  f32_min3 a b c = a \/ f32_min3 a b c = b \/ f32_min3 a b c = c.
Proof.
  unfold f32_min3. destruct (f32_lt b a);
    match goal with |- context [f32_lt c ?m] => destruct (f32_lt c m) end; auto.
Qed.

Lemma f32_max3_byte r g b :
  exists z, 0 <= z <= 255 /\
    f32_max3 (byte_to_float r) (byte_to_float g) (byte_to_float b) = f32_of_int z.
Proof.
  destruct (f32_max3_cases (byte_to_float r) (byte_to_float g) (byte_to_float b))
    as [-> | [-> | ->]]; eexists; (split; [apply byte_to_int_range | reflexivity]).
Qed.

Lemma f32_min3_byte r g b :
  exists z, 0 <= z <= 255 /\
    f32_min3 (byte_to_float r) (byte_to_float g) (byte_to_float b) = f32_of_int z.
Proof.
  destruct (f32_min3_cases (byte_to_float r) (byte_to_float g) (byte_to_float b))
    as [-> | [-> | ->]]; eexists; (split; [apply byte_to_int_range | reflexivity]).
Qed.

Lemma GetBrightness_not_nan r g b : is_nan (GetBrightness r g b) = false.
Proof.
  apply SFnonneg_not_nan. unfold GetBrightness, f32_add, f32_mul, byte_to_float.
  pose proof (byte_to_int_range r). pose proof (byte_to_int_range g).
  pose proof (byte_to_int_range b).
  repeat apply SFadd_nonneg; apply SFmul_nonneg;
    first [ reflexivity
          | apply f32_of_int_fin; lia
          | apply f32_of_int_nonneg; lia ].
Qed.

Lemma GetIntensity_not_nan r g b : is_nan (GetIntensity r g b) = false.
Proof.
  unfold GetIntensity, f32_div. apply SFdiv_not_nan;
    [apply f32_of_int_not_nan | reflexivity].
Qed.

Lemma GetSaturation_not_nan r g b : is_nan (GetSaturation r g b) = false.
Proof.
  unfold GetSaturation.
  destruct (f32_max3_byte r g b) as (x & Hx & ->).
  destruct (f32_min3_byte r g b) as (y & Hy & ->).
  destruct (f32_le (f32_of_int x) f32_zero) eqn:E; [reflexivity|].
  apply SFdiv_not_nan.
  - apply SFsub_not_nan; apply f32_of_int_fin; lia.
  - apply f32_of_int_nz. pose proof (f32_positive x ltac:(lia) E). lia.
Qed.

Lemma GetHue_not_nan r g b : is_nan (GetHue r g b) = false.
Proof.
  unfold GetHue.
  destruct (f32_max3_byte r g b) as (x & Hx & ->).
  destruct (f32_min3_byte r g b) as (y & Hy & ->).
  rewrite (f32_sub_bytes x y Hx Hy).
  destruct (f32_le (f32_of_int (x - y)) f32_zero) eqn:E; [reflexivity|].
  pose proof (f32_positive (x - y) ltac:(lia) E) as Hd.
  pose proof (byte_to_int_range r). pose proof (byte_to_int_range g).
  pose proof (byte_to_int_range b).
  unfold byte_to_float. rewrite !f32_sub_bytes by assumption.
  assert (Hq : forall d, -255 <= d <= 255 ->
            SFfin (f32_div (f32_of_int d) (f32_of_int (x - y))) = true).
  { intros d Hdr. apply hue_quotient_fin; lia. }
  set (hue := if f32_eq _ _ then _ else _).
  assert (Hhue : is_nan hue = false).
  { subst hue. destruct (f32_eq (f32_of_int x) (f32_of_int (byte_to_int r))).
    - apply SFmul_not_nan; [reflexivity|].
      apply SFfmod_not_nan; [apply Hq; lia | reflexivity].
    - destruct (f32_eq (f32_of_int x) (f32_of_int (byte_to_int g)));
        (apply SFmul_not_nan; [reflexivity|]);
        (apply SFadd_not_nan; [apply SFfin_not_nan, Hq; lia | reflexivity]). }
  destruct (f32_lt hue f32_zero); [|exact Hhue].
  apply SFadd_not_nan; [exact Hhue | reflexivity].
Qed.

Lemma GetSortValue_not_nan r g b key : is_nan (GetSortValue r g b key) = false.
Proof.
  destruct key; simpl;
    first [ apply GetBrightness_not_nan | apply GetHue_not_nan
          | apply GetSaturation_not_nan | apply GetIntensity_not_nan
          | apply f32_of_int_not_nan ].
Qed.

(** ** Memory: reads after writes *)

Lemma buf_get_set_same m i v :
  0 <= i < Z.of_nat (length m) -> buf_get (buf_set m i v) i = v.
Proof.
  intros Hi. unfold buf_get, buf_set. destruct (Z.ltb_spec i 0); [exfalso; lia|].
  rewrite list_lookup_insert_eq by lia. reflexivity.
Qed.

Lemma buf_get_set_other m i v a :
  a <> i -> buf_get (buf_set m i v) a = buf_get m a.
Proof.
  intros Hne. unfold buf_get, buf_set.
  destruct (Z.ltb_spec a 0); [reflexivity|].
  destruct (Z.ltb_spec i 0); [reflexivity|].
  rewrite list_lookup_insert_ne by lia. reflexivity.
Qed.

Lemma length_buf_set m i v : length (buf_set m i v) = length m.
Proof. unfold buf_set. destruct (i <? 0); [reflexivity | apply length_insert]. Qed.

(** two vectors with the same bytes are the same vector *)
Lemma buf_ext (m1 m2 : list BYTE) :
  length m1 = length m2 -> (forall a, buf_get m1 a = buf_get m2 a) -> m1 = m2.
Proof.
  intros Hlen Hget. apply list_eq. intros k.
  specialize (Hget (Z.of_nat k)). unfold buf_get in Hget.
  destruct (Z.ltb_spec (Z.of_nat k) 0); [exfalso; lia|]. rewrite Nat2Z.id in Hget.
  destruct (m1 !! k) eqn:E1, (m2 !! k) eqn:E2; simpl in Hget.
  - congruence.
  - apply lookup_lt_Some in E1. apply lookup_ge_None in E2. lia.
  - apply lookup_lt_Some in E2. apply lookup_ge_None in E1. lia.
  - reflexivity.
Qed.

(** byte [a] of the image belongs to the pixel at position [p] of the line *)
Definition touches (row : RowAccessor) (p a : Z) : Prop :=
  a = pixelAt row p + rIdx row \/
  a = pixelAt row p + gIdx row \/
  a = pixelAt row p + bIdx row.

(** the three channels of a pixel lie inside the stride of the line *)
Definition row_layout_ok (row : RowAccessor) : Prop :=
  0 <= rIdx row < pixelStride row /\
  0 <= gIdx row < pixelStride row /\
  0 <= bIdx row < pixelStride row.

Definition channels_distinct (row : RowAccessor) : Prop :=
  rIdx row <> gIdx row /\ rIdx row <> bIdx row /\ gIdx row <> bIdx row.

(** the bytes of the pixel at position [p] lie inside the image *)
Definition pixel_in_bounds (row : RowAccessor) (img : list BYTE) (p : Z) : Prop :=
  0 <= pixelAt row p + rIdx row < Z.of_nat (length img) /\
  0 <= pixelAt row p + gIdx row < Z.of_nat (length img) /\
  0 <= pixelAt row p + bIdx row < Z.of_nat (length img).

(** A line that lies inside its image, as the pass builds them. *)
Record row_ok (row : RowAccessor) (img : list BYTE) : Prop := {
  rok_layout : row_layout_ok row;
  rok_channels : channels_distinct row;
  rok_bounds : forall p, 0 <= p < row_length row -> pixel_in_bounds row img p
}.

Lemma touches_same_pixel row p q a :
  row_layout_ok row -> touches row p a -> touches row q a -> p = q.
Proof.
  unfold row_layout_ok, touches, pixelAt. intros (Hr & Hg & Hb) Hp Hq.
  set (s := pixelStride row) in *.
  assert (Hdiv : forall c1 c2, 0 <= c1 < s -> 0 <= c2 < s ->
            p * s + c1 = q * s + c2 -> p = q).
  { intros c1 c2 H1 H2 Heq. nia. }
  destruct Hp as [Hp|[Hp|Hp]], Hq as [Hq|[Hq|Hq]]; rewrite Hp in Hq;
    match type of Hq with
    | _ + _ + ?c1 = _ + _ + ?c2 => apply (Hdiv c1 c2); [assumption | assumption | lia]
    end.
Qed.

Lemma buf_get_setRGB_other row p r g b img a :
  ~ touches row p a -> buf_get (setRGB row p r g b img) a = buf_get img a.
Proof.
  unfold touches, setRGB. intros Hn.
  rewrite !buf_get_set_other by tauto. reflexivity.
Qed.

Lemma length_setRGB row p r g b img : length (setRGB row p r g b img) = length img.
Proof. unfold setRGB. rewrite !length_buf_set. reflexivity. Qed.

Lemma getRGB_setRGB_same row p r g b img :
  channels_distinct row -> pixel_in_bounds row img p ->
  getRGB row (setRGB row p r g b img) p = (r, g, b).
Proof.
  unfold channels_distinct, pixel_in_bounds, getRGB, setRGB.
  intros (Hrg & Hrb & Hgb) (Hr & Hg & Hb).
  rewrite buf_get_set_same by (rewrite !length_buf_set; lia).
  rewrite (buf_get_set_other _ _ _ (pixelAt row p + gIdx row)) by lia.
  rewrite buf_get_set_same by (rewrite !length_buf_set; lia).
  rewrite (buf_get_set_other _ _ _ (pixelAt row p + rIdx row)) by lia.
  rewrite (buf_get_set_other _ _ _ (pixelAt row p + rIdx row)) by lia.
  rewrite buf_get_set_same by lia. reflexivity.
Qed.

(** a pixel whose bytes are the same reads the same *)
Lemma getRGB_frame row img img' p :
  (forall a, touches row p a -> buf_get img' a = buf_get img a) ->
  getRGB row img' p = getRGB row img p.
Proof.
  intros H. unfold getRGB. rewrite !H by (unfold touches; auto). reflexivity.
Qed.

Lemma getRGB_setRGB_other row p q r g b img :
  row_layout_ok row -> p <> q ->
  getRGB row (setRGB row q r g b img) p = getRGB row img p.
Proof.
  intros Hl Hne. apply getRGB_frame. intros a Ha.
  apply buf_get_setRGB_other. intros Hq. apply Hne.
  eapply touches_same_pixel; eassumption.
Qed.

Lemma pixel_in_bounds_length row img img' p :
  length img' = length img -> pixel_in_bounds row img p -> pixel_in_bounds row img' p.
Proof. unfold pixel_in_bounds. intros ->. tauto. Qed.

(** ** The collected pixels of a span *)

(** [lo; lo + 1; ...], [k] integers *)
Fixpoint Zseq (lo : Z) (k : nat) : list Z :=
  match k with
  | O => []
  | S k' => lo :: Zseq (lo + 1) k'
  end.

Lemma Zseq_In lo k z : In z (Zseq lo k) <-> lo <= z < lo + Z.of_nat k.
Proof.
  revert lo. induction k as [|k IH]; intros lo; simpl; [lia|].
  rewrite IH. lia.
Qed.

Lemma Zseq_sorted lo k : StronglySorted Z.lt (Zseq lo k).
Proof.
  revert lo. induction k as [|k IH]; intros lo; simpl; constructor; [apply IH|].
  apply List.Forall_forall. intros z Hz. apply Zseq_In in Hz. lia.
Qed.

(** the position takes part in the sort: no selection, or a non-zero mask *)
Definition qualifies (selectArea : option SelectArea) (selectPixelStride p : Z) : bool :=
  match selectArea with
  | Some sa => negb (byte_to_int (select_at sa (p * selectPixelStride)) =? 0)
  | None => true
  end.

Definition pixel_data_at (row : RowAccessor) (img : list BYTE) (key : SortKey)
    (p : Z) : PixelData :=
  let '(r, g, b) := getRGB row img p in mkPixelData r g b (GetSortValue r g b key).

(** indices, relative to the start of the span, of the qualifying positions *)
Definition included_of (selectArea : option SelectArea) (selectPixelStride : Z)
    (spanStart : Z) (i : Z) (k : nat) : list Z :=
  List.filter (fun j => qualifies selectArea selectPixelStride (spanStart + j))
    (Zseq i k).

Lemma included_of_step selectArea stride spanStart i k :
  included_of selectArea stride spanStart i (S k)
  = if qualifies selectArea stride (spanStart + i)
    then i :: included_of selectArea stride spanStart (i + 1) k
    else included_of selectArea stride spanStart (i + 1) k.
Proof. reflexivity. Qed.

Lemma collect_loop_spec row img selectArea stride key n spanStart k :
  forall i pw inc,
  spanStart + i + Z.of_nat k <= n ->
  collect_loop row img selectArea stride key n spanStart k i pw inc
  = (pw ++ map (fun j => pixel_data_at row img key (spanStart + j))
             (included_of selectArea stride spanStart i k),
     inc ++ included_of selectArea stride spanStart i k).
Proof.
  induction k as [|k IH]; intros i pw inc Hn.
  - unfold included_of. simpl. rewrite !app_nil_r. reflexivity.
  - cbn [collect_loop]. destruct (Z.leb_spec n (spanStart + i)); [exfalso; lia|].
    rewrite included_of_step.
    assert (Hq : match selectArea with
                 | Some sa => byte_to_int (select_at sa ((spanStart + i) * stride)) =? 0
                 | None => false
                 end = negb (qualifies selectArea stride (spanStart + i))).
    { destruct selectArea; simpl; [rewrite negb_involutive|]; reflexivity. }
    rewrite Hq. destruct (qualifies selectArea stride (spanStart + i)); simpl negb; cbv iota.
    + destruct (getRGB row img (spanStart + i)) as [[r g] b] eqn:Ergb.
      rewrite IH by lia. cbn [map].
      assert (pixel_data_at row img key (spanStart + i)
              = mkPixelData r g b (GetSortValue r g b key)) as ->.
      { unfold pixel_data_at. rewrite Ergb. reflexivity. }
      rewrite <- !app_assoc. reflexivity.
    + apply IH. lia.
Qed.

Lemma included_of_In selectArea stride spanStart i k j :
  In j (included_of selectArea stride spanStart i k) <->
  i <= j < i + Z.of_nat k /\ qualifies selectArea stride (spanStart + j) = true.
Proof. unfold included_of. rewrite filter_In, Zseq_In. tauto. Qed.

Lemma StronglySorted_filter {A : Type} (R : A -> A -> Prop) (f : A -> bool) l :
  StronglySorted R l -> StronglySorted R (List.filter f l).
Proof.
  induction 1 as [|a l Hl IH Ha]; simpl; [constructor|].
  destruct (f a); [|exact IH]. constructor; [exact IH|].
  rewrite List.Forall_forall in Ha |- *. intros x Hx.
  apply filter_In in Hx. apply Ha. tauto.
Qed.

Lemma included_of_sorted selectArea stride spanStart i k :
  StronglySorted Z.lt (included_of selectArea stride spanStart i k).
Proof. apply StronglySorted_filter, Zseq_sorted. Qed.

(** ** Writing a span back *)

Definition rgb_of (pd : PixelData) : BYTE * BYTE * BYTE :=
  (pd_r pd, pd_g pd, pd_b pd).

(** the blend of the three channels *)
Definition blend_pixel (pd : PixelData) (orig : BYTE * BYTE * BYTE) (alpha : Z)
    : BYTE * BYTE * BYTE :=
  let '(origR, origG, origB) := orig in
  (blend_channel (pd_r pd) origR alpha,
   blend_channel (pd_g pd) origG alpha,
   blend_channel (pd_b pd) origB alpha).

(** what a position with mask value [sel] holds after the write *)
Definition selected_pixel (sel : Z) (pd : PixelData) (orig : BYTE * BYTE * BYTE)
    : BYTE * BYTE * BYTE :=
  if sel =? 255 then rgb_of pd
  else if 0 <? sel then blend_pixel pd orig sel
  else orig.

Definition mask_at (sa : SelectArea) (stride p : Z) : Z :=
  byte_to_int (select_at sa (p * stride)).

Lemma vec_get_lookup {A : Type} (d : A) (v : list A) (i : nat) (x : A) :
  v !! i = Some x -> vec_get d v (Z.of_nat i) = x.
Proof.
  intros H. unfold vec_get. destruct (Z.ltb_spec (Z.of_nat i) 0); [exfalso; lia|].
  rewrite Nat2Z.id, H. reflexivity.
Qed.

Lemma byte_int_roundtrip z : 0 <= z <= 255 -> byte_to_int (int_to_BYTE z) = z.
Proof.
  intros Hz. unfold int_to_BYTE, byte_to_int.
  rewrite Z.mod_small by lia.
  destruct (Byte.of_N (Z.to_N z)) as [b|] eqn:E.
  - simpl. apply Byte.to_of_N in E. rewrite E. lia.
  - apply Byte.of_N_None_iff in E. lia.
Qed.

(** The blend stays between the two values it mixes, so the narrowing cast
    changes nothing: the result is [orig + (sorted - orig) * m / 255] with
    the quotient truncated toward zero. *)
Lemma blend_channel_value sorted orig m :
  0 <= m <= 255 ->
  byte_to_int (blend_channel sorted orig m)
  = byte_to_int orig + Z.quot ((byte_to_int sorted - byte_to_int orig) * m) 255.
Proof.
  intros Hm. unfold blend_channel.
  pose proof (byte_to_int_range sorted) as Hs.
  pose proof (byte_to_int_range orig) as Ho.
  set (s := byte_to_int sorted) in *. set (o := byte_to_int orig) in *.
  assert (Hq : 0 <= Z.quot ((s - o) * m) 255 + o <= 255).
  { destruct (Z.le_gt_cases o s) as [Hle|Hgt].
    - rewrite Z.quot_div_nonneg by nia.
      pose proof (Z.div_pos ((s - o) * m) 255 ltac:(nia) ltac:(lia)).
      assert ((s - o) * m / 255 <= s - o).
      { apply Z.div_le_upper_bound; nia. }
      lia.
    - replace ((s - o) * m) with (- ((o - s) * m)) by ring.
      rewrite Z.quot_opp_l by lia.
      rewrite Z.quot_div_nonneg by nia.
      pose proof (Z.div_pos ((o - s) * m) 255 ltac:(nia) ltac:(lia)).
      assert ((o - s) * m / 255 <= o - s).
      { apply Z.div_le_upper_bound; nia. }
      lia. }
  rewrite byte_int_roundtrip by exact Hq. lia.
Qed.

Section WriteLoops.
Variable row : RowAccessor.
Variable spanStart : Z.
Variable pixelsWork : list PixelData.
Variable includedIndices : list Z.

(** the line position written by iteration [j] *)
Definition pos_at (j : Z) : Z := spanStart + vec_get 0 includedIndices j.

(** one iteration of the loop without a selection *)
Definition plain_step (i : Z) (img : list BYTE) : list BYTE :=
  let pd := vec_get PixelData_zero pixelsWork i in
  setRGB row (pos_at i) (pd_r pd) (pd_g pd) (pd_b pd) img.

Lemma write_plain_loop_step k i img :
  write_plain_loop row spanStart pixelsWork includedIndices (S k) i img
  = write_plain_loop row spanStart pixelsWork includedIndices k (i + 1)
      (plain_step i img).
Proof. reflexivity. Qed.

Lemma write_plain_loop_length k : forall i img,
  length (write_plain_loop row spanStart pixelsWork includedIndices k i img)
  = length img.
Proof.
  induction k as [|k IH]; intros i img; simpl; [reflexivity|].
  rewrite IH. apply length_setRGB.
Qed.

Lemma write_plain_loop_frame k : forall i img a,
  (forall j, i <= j < i + Z.of_nat k -> ~ touches row (pos_at j) a) ->
  buf_get (write_plain_loop row spanStart pixelsWork includedIndices k i img) a
  = buf_get img a.
Proof.
  induction k as [|k IH]; intros i img a Hframe; simpl; [reflexivity|].
  rewrite IH by (intros j Hj; apply Hframe; lia).
  apply buf_get_setRGB_other. apply (Hframe i). lia.
Qed.

Variable sa : SelectArea.
Variable stride : Z.

(** one iteration of the loop with a selection *)
Definition selected_step (i : Z) (img : list BYTE) : list BYTE :=
  let sel := mask_at sa stride (pos_at i) in
  let pd := vec_get PixelData_zero pixelsWork i in
  if sel =? 255 then setRGB row (pos_at i) (pd_r pd) (pd_g pd) (pd_b pd) img
  else if 0 <? sel then
    let '(origR, origG, origB) := getRGB row img (pos_at i) in
    setRGB row (pos_at i) (blend_channel (pd_r pd) origR sel)
      (blend_channel (pd_g pd) origG sel) (blend_channel (pd_b pd) origB sel) img
  else img.

Lemma write_selected_loop_step k i img :
  write_selected_loop row sa stride spanStart pixelsWork includedIndices (S k) i img
  = write_selected_loop row sa stride spanStart pixelsWork includedIndices k (i + 1)
      (selected_step i img).
Proof. reflexivity. Qed.

Lemma selected_step_length i img : length (selected_step i img) = length img.
Proof.
  unfold selected_step. destruct (mask_at sa stride (pos_at i) =? 255);
    [apply length_setRGB|].
  destruct (0 <? mask_at sa stride (pos_at i)); [|reflexivity].
  destruct (getRGB row img (pos_at i)) as [[? ?] ?]. apply length_setRGB.
Qed.

Lemma selected_step_frame i img a :
  (mask_at sa stride (pos_at i) <> 0 -> ~ touches row (pos_at i) a) ->
  buf_get (selected_step i img) a = buf_get img a.
Proof.
  intros Hframe. unfold selected_step.
  destruct (Z.eqb_spec (mask_at sa stride (pos_at i)) 255) as [E|E].
  - apply buf_get_setRGB_other. apply Hframe. lia.
  - destruct (Z.ltb_spec 0 (mask_at sa stride (pos_at i))); [|reflexivity].
    destruct (getRGB row img (pos_at i)) as [[? ?] ?].
    apply buf_get_setRGB_other. apply Hframe. lia.
Qed.

Lemma selected_step_value i img :
  channels_distinct row -> pixel_in_bounds row img (pos_at i) ->
  getRGB row (selected_step i img) (pos_at i)
  = selected_pixel (mask_at sa stride (pos_at i))
      (vec_get PixelData_zero pixelsWork i) (getRGB row img (pos_at i)).
Proof.
  intros Hc Hb. unfold selected_step, selected_pixel.
  destruct (mask_at sa stride (pos_at i) =? 255);
    [apply getRGB_setRGB_same; assumption|].
  destruct (0 <? mask_at sa stride (pos_at i)); [|reflexivity].
  unfold blend_pixel.
  destruct (getRGB row img (pos_at i)) as [[oR oG] oB].
  apply getRGB_setRGB_same; assumption.
Qed.

Lemma write_selected_loop_length k : forall i img,
  length (write_selected_loop row sa stride spanStart pixelsWork includedIndices k i img)
  = length img.
Proof.
  induction k as [|k IH]; intros i img; [reflexivity|].
  rewrite write_selected_loop_step, IH. apply selected_step_length.
Qed.

Lemma write_selected_loop_frame k : forall i img a,
  (forall j, i <= j < i + Z.of_nat k ->
     mask_at sa stride (pos_at j) <> 0 -> ~ touches row (pos_at j) a) ->
  buf_get (write_selected_loop row sa stride spanStart pixelsWork includedIndices k i img) a
  = buf_get img a.
Proof.
  induction k as [|k IH]; intros i img a Hframe; [reflexivity|].
  rewrite write_selected_loop_step.
  rewrite IH by (intros j Hj; apply Hframe; lia).
  apply selected_step_frame. apply Hframe. lia.
Qed.

Hypothesis layout : row_layout_ok row.
Hypothesis channels : channels_distinct row.

Lemma write_plain_loop_value k : forall i img j,
  (forall j, i <= j < i + Z.of_nat k -> pixel_in_bounds row img (pos_at j)) ->
  (forall j j', i <= j < i + Z.of_nat k -> i <= j' < i + Z.of_nat k ->
     j <> j' -> pos_at j <> pos_at j') ->
  i <= j < i + Z.of_nat k ->
  getRGB row (write_plain_loop row spanStart pixelsWork includedIndices k i img) (pos_at j)
  = rgb_of (vec_get PixelData_zero pixelsWork j).
Proof.
  induction k as [|k IH]; intros i img j Hb Hd Hj; [lia|].
  rewrite write_plain_loop_step.
  destruct (Z.eq_dec j i) as [->|Hne].
  - rewrite getRGB_frame with (img := plain_step i img).
    + apply getRGB_setRGB_same; [exact channels | apply Hb; lia].
    + intros a Ha. apply write_plain_loop_frame. intros j' Hj' Ht.
      apply (Hd i j'); [lia | lia | lia |].
      eapply touches_same_pixel; eassumption.
  - apply IH; [| |lia].
    + intros j' Hj'. eapply pixel_in_bounds_length; [apply length_setRGB|].
      apply Hb. lia.
    + intros j1 j2 H1 H2. apply Hd; lia.
Qed.

Lemma write_selected_loop_value k : forall i img j,
  (forall j, i <= j < i + Z.of_nat k -> pixel_in_bounds row img (pos_at j)) ->
  (forall j j', i <= j < i + Z.of_nat k -> i <= j' < i + Z.of_nat k ->
     j <> j' -> pos_at j <> pos_at j') ->
  i <= j < i + Z.of_nat k ->
  getRGB row (write_selected_loop row sa stride spanStart pixelsWork includedIndices k i img)
    (pos_at j)
  = selected_pixel (mask_at sa stride (pos_at j))
      (vec_get PixelData_zero pixelsWork j) (getRGB row img (pos_at j)).
Proof.
  induction k as [|k IH]; intros i img j Hb Hd Hj; [lia|].
  rewrite write_selected_loop_step.
  destruct (Z.eq_dec j i) as [->|Hne].
  - rewrite getRGB_frame with (img := selected_step i img).
    + apply selected_step_value; [exact channels | apply Hb; lia].
    + intros a Ha. apply write_selected_loop_frame. intros j' Hj' _ Ht.
      apply (Hd i j'); [lia | lia | lia |].
      eapply touches_same_pixel; eassumption.
  - rewrite IH; [| | |lia].
    + f_equal. apply getRGB_frame. intros a Ha. apply selected_step_frame.
      intros _ Ht. apply (Hd j i); [lia | lia | exact Hne |].
      eapply touches_same_pixel; eassumption.
    + intros j' Hj'. eapply pixel_in_bounds_length; [apply selected_step_length|].
      apply Hb. lia.
    + intros j1 j2 H1 H2. apply Hd; lia.
Qed.

End WriteLoops.

Lemma StronglySorted_lookup_lt (l : list Z) (i j : nat) (x y : Z) :
  StronglySorted Z.lt l -> (i < j)%nat ->
  l !! i = Some x -> l !! j = Some y -> x < y.
Proof.
  intros Hs. revert i j. induction Hs as [|a l Hl IH Ha]; intros i j Hij Hi Hj.
  - rewrite lookup_nil in Hi. discriminate.
  - destruct j as [|j]; [lia|]. simpl in Hj. destruct i as [|i].
    + simpl in Hi. injection Hi as <-.
      rewrite List.Forall_forall in Ha. apply Ha.
      apply list_elem_of_In. eapply list_elem_of_lookup_2. exact Hj.
    + simpl in Hi. apply (IH i j); [lia | assumption | assumption].
Qed.

Lemma vec_get_in_range {A : Type} (d : A) (v : list A) (j : Z) :
  0 <= j < Z.of_nat (length v) -> v !! Z.to_nat j = Some (vec_get d v j).
Proof.
  intros Hj. unfold vec_get. destruct (Z.ltb_spec j 0); [exfalso; lia|].
  destruct (v !! Z.to_nat j) eqn:E; [reflexivity|].
  apply lookup_ge_None in E. lia.
Qed.

Section WriteBack.
Variable row : RowAccessor.
Variable spanStart : Z.
Variable pixelsWork : list PixelData.
Variable includedIndices : list Z.
Hypothesis included_sorted : StronglySorted Z.lt includedIndices.
Hypothesis same_length : length pixelsWork = length includedIndices.

Lemma pos_at_In j :
  0 <= j < Z.of_nat (length pixelsWork) ->
  In (vec_get 0 includedIndices j) includedIndices.
Proof.
  intros Hj. apply list_elem_of_In. eapply list_elem_of_lookup_2.
  apply vec_get_in_range. lia.
Qed.

Lemma pos_at_distinct j j' :
  0 <= j < Z.of_nat (length pixelsWork) ->
  0 <= j' < Z.of_nat (length pixelsWork) ->
  j <> j' -> pos_at spanStart includedIndices j <> pos_at spanStart includedIndices j'.
Proof.
  intros Hj Hj' Hne. unfold pos_at.
  pose proof (vec_get_in_range 0 includedIndices j ltac:(lia)) as E.
  pose proof (vec_get_in_range 0 includedIndices j' ltac:(lia)) as E'.
  destruct (Z.lt_ge_cases j j').
  - assert (Hlt : (Z.to_nat j < Z.to_nat j')%nat) by lia.
    pose proof (StronglySorted_lookup_lt _ _ _ _ _ included_sorted Hlt E E'). lia.
  - assert (Hlt : (Z.to_nat j' < Z.to_nat j)%nat) by lia.
    pose proof (StronglySorted_lookup_lt _ _ _ _ _ included_sorted Hlt E' E). lia.
Qed.

End WriteBack.

(** C5.  The write-back of a span, for strictly increasing included indices
    whose pixels lie inside the image.  At the position of the [i]-th
    included index: without a selection, or with the mask value 255, the
    pixel is the [i]-th sorted pixel; with a mask value [m] strictly between
    0 and 255 every channel is the blend of the sorted and the original
    channel, and the blend is [orig + (sorted - orig) * m / 255] with the
    quotient truncated toward zero; with the mask value 0 the pixel is the
    original one.  Every position that is not the position of an included
    index, and every position whose mask value is 0, holds its original
    pixel. *)
Theorem write_back_rule (row : RowAccessor) (selectArea : option SelectArea)
    (selectPixelStride spanStart : Z) (pixelsWork : list PixelData)
    (includedIndices : list Z) (img : list BYTE) :
  row_layout_ok row -> channels_distinct row ->
  length pixelsWork = length includedIndices ->
  StronglySorted Z.lt includedIndices ->
  (forall j, In j includedIndices -> pixel_in_bounds row img (spanStart + j)) ->
  let img' :=
    write_back row selectArea selectPixelStride spanStart pixelsWork
      includedIndices img in
  (forall (i : nat) (j : Z) (pd : PixelData),
     includedIndices !! i = Some j -> pixelsWork !! i = Some pd ->
     let p := spanStart + j in
     match selectArea with
     | None => getRGB row img' p = rgb_of pd
     | Some sa =>
         let m := mask_at sa selectPixelStride p in
         (m = 255 -> getRGB row img' p = rgb_of pd) /\
         (0 < m < 255 -> getRGB row img' p = blend_pixel pd (getRGB row img p) m) /\
         (m = 0 -> getRGB row img' p = getRGB row img p)
     end) /\
  (forall sorted orig m, 0 < m < 255 ->
     byte_to_int (blend_channel sorted orig m)
     = byte_to_int orig + Z.quot ((byte_to_int sorted - byte_to_int orig) * m) 255) /\
  (forall p, (forall j, In j includedIndices -> p <> spanStart + j) ->
     getRGB row img' p = getRGB row img p) /\
  (forall sa p, selectArea = Some sa -> mask_at sa selectPixelStride p = 0 ->
     getRGB row img' p = getRGB row img p).
Proof.
  intros Hlayout Hchannels Hlen Hsorted Hbounds img'.
  assert (Hb : forall j, 0 <= j < 0 + Z.of_nat (length pixelsWork) ->
             pixel_in_bounds row img (pos_at spanStart includedIndices j)).
  { intros j Hj. apply Hbounds. apply (pos_at_In pixelsWork includedIndices Hlen). lia. }
  assert (Hd : forall j j', 0 <= j < 0 + Z.of_nat (length pixelsWork) ->
             0 <= j' < 0 + Z.of_nat (length pixelsWork) -> j <> j' ->
             pos_at spanStart includedIndices j <> pos_at spanStart includedIndices j').
  { intros j j' Hj Hj'.
    apply (pos_at_distinct spanStart pixelsWork includedIndices Hsorted Hlen); lia. }
  assert (Hpos : forall (i : nat) j, includedIndices !! i = Some j ->
             0 <= Z.of_nat i < 0 + Z.of_nat (length pixelsWork) /\
             pos_at spanStart includedIndices (Z.of_nat i) = spanStart + j).
  { intros i j Hi. split.
    - apply lookup_lt_Some in Hi. lia.
    - unfold pos_at. rewrite (vec_get_lookup _ _ _ _ Hi). reflexivity. }
  split; [|split; [|split]].
  - intros i j pd Hi Hpd p. destruct (Hpos i j Hi) as [Hrange Hp].
    subst img' p. unfold write_back. rewrite <- Hp.
    destruct selectArea as [sa|].
    + rewrite write_selected_loop_value by assumption.
      rewrite (vec_get_lookup _ _ _ _ Hpd). unfold selected_pixel.
      repeat split.
      * intros ->. reflexivity.
      * intros Hm. destruct (Z.eqb_spec (mask_at sa selectPixelStride
                                (pos_at spanStart includedIndices (Z.of_nat i))) 255);
          [lia|].
        destruct (Z.ltb_spec 0 (mask_at sa selectPixelStride
                    (pos_at spanStart includedIndices (Z.of_nat i)))); [reflexivity | lia].
      * intros ->. reflexivity.
    + rewrite write_plain_loop_value by assumption.
      rewrite (vec_get_lookup _ _ _ _ Hpd). reflexivity.
  - intros sorted orig m Hm. apply blend_channel_value. lia.
  - intros p Hp. subst img'. apply getRGB_frame. intros a Ha.
    assert (Hnt : forall j, 0 <= j < 0 + Z.of_nat (length pixelsWork) ->
              ~ touches row (pos_at spanStart includedIndices j) a).
    { intros j Hj Ht. apply (Hp (vec_get 0 includedIndices j)).
      - apply (pos_at_In pixelsWork includedIndices Hlen). lia.
      - eapply touches_same_pixel; eassumption. }
    unfold write_back. destruct selectArea as [sa|].
    + apply write_selected_loop_frame. intros j Hj _. apply Hnt, Hj.
    + apply write_plain_loop_frame. exact Hnt.
  - intros sa p -> Hm. subst img'. apply getRGB_frame. intros a Ha.
    unfold write_back. apply write_selected_loop_frame. intros j Hj Hmj Ht.
    apply Hmj. replace (pos_at spanStart includedIndices j) with p; [exact Hm|].
    eapply touches_same_pixel; eassumption.
Qed.

(** ** One span of [SortLine] *)

Lemma length_vec_set {A : Type} (v : list A) i x : length (vec_set v i x) = length v.
Proof. unfold vec_set. destruct (i <? 0); [reflexivity | apply length_insert]. Qed.

Lemma length_vec_swap {A : Type} (d : A) (v : list A) i j :
  length (vec_swap d v i j) = length v.
Proof. unfold vec_swap. rewrite !length_vec_set. reflexivity. Qed.

Lemma jitter_loop_length `{StdLib} jitter_ count k : forall i rng pw,
  length (snd (jitter_loop jitter_ count k i rng pw)) = length pw.
Proof.
  induction k as [|k IH]; intros i rng pw; simpl; [reflexivity|].
  destruct (uniform_int_distribution (- jitter_) jitter_ rng) as [offset rng'].
  rewrite IH. apply length_vec_swap.
Qed.

Lemma sort_pixels_length `{StdLib} params pw :
  length (sort_pixels params pw) = length pw.
Proof.
  unfold sort_pixels. destruct (reverse params);
    [rewrite length_rev|]; apply std_sort_length.
Qed.

(** the qualifying positions of a span, as indices relative to its start *)
Definition span_included (selectArea : option SelectArea) (selectPixelStride : Z)
    (sp : Span) : list Z :=
  included_of selectArea selectPixelStride (span_start sp) 0
    (Z.to_nat (span_len sp)).

(** the pixels [SortLine] collects from a span of the image *)
Definition span_pixels (row : RowAccessor) (img : list BYTE)
    (selectArea : option SelectArea) (selectPixelStride : Z) (key : SortKey)
    (sp : Span) : list PixelData :=
  map (fun j => pixel_data_at row img key (span_start sp + j))
    (span_included selectArea selectPixelStride sp).

(** The span is left alone: it is too short, the falloff draw hits, or
    fewer than two of its positions qualify. *)
Definition span_skipped `{StdLib} (params : PixelSortParams)
    (selectArea : option SelectArea) (selectPixelStride : Z) (sp : Span)
    (st : SpanState) : Prop :=
  span_len sp < 2 \/
  fst (falloff_draw params (ss_rng st)) = true \/
  Z.of_nat (length (span_included selectArea selectPixelStride sp)) < 2.

(** the pixel order that is written back: sort, reverse, jitter *)
Definition span_arranged `{StdLib} (params : PixelSortParams) (rng : mt19937)
    (pw : list PixelData) : mt19937 * list PixelData :=
  let count := Z.of_nat (length pw) in
  let sorted := sort_pixels params pw in
  if (0 <? jitter params) && (1 <? count) then
    jitter_loop (jitter params) count (Z.to_nat count) 0 rng sorted
  else (rng, sorted).

Lemma span_arranged_length `{StdLib} params rng pw :
  length (snd (span_arranged params rng pw)) = length pw.
Proof.
  unfold span_arranged.
  destruct ((0 <? jitter params) && (1 <? Z.of_nat (length pw)));
    [rewrite jitter_loop_length|]; apply sort_pixels_length.
Qed.

Section SortSpan.
Context `{StdLib}.
Variable row : RowAccessor.
Variable params : PixelSortParams.
Variable selectArea : option SelectArea.
Variable selectPixelStride : Z.
Variable n : Z.

(** [sort_span] on a span that ends inside the line *)
Lemma sort_span_inside sp st :
  span_end sp <= n ->
  sort_span row params selectArea selectPixelStride n sp st
  = if span_len sp <? 2 then st
    else
      let '(skip, rng) := falloff_draw params (ss_rng st) in
      if skip then mkSpanState rng (ss_pixels st) (ss_included st) (ss_image st)
      else
        let inc := span_included selectArea selectPixelStride sp in
        let pw := span_pixels row (ss_image st) selectArea selectPixelStride
                    (sortKey params) sp in
        if Z.of_nat (length pw) <? 2 then mkSpanState rng pw inc (ss_image st)
        else
          let '(rng, arranged) := span_arranged params rng pw in
          mkSpanState rng arranged inc
            (write_back row selectArea selectPixelStride (span_start sp)
               arranged inc (ss_image st)).
Proof.
  intros Hend. unfold sort_span, span_len.
  destruct (Z.ltb_spec (span_end sp - span_start sp) 2) as [Hlen|Hlen]; [reflexivity|].
  destruct (falloff_draw params (ss_rng st)) as [skip rng].
  destruct skip; [reflexivity|].
  rewrite collect_loop_spec; [|lia]. simpl app.
  fold (span_len sp). fold (span_included selectArea selectPixelStride sp).
  fold (span_pixels row (ss_image st) selectArea selectPixelStride (sortKey params) sp).
  set (pw := span_pixels _ _ _ _ _ _).
  destruct (Z.of_nat (length pw) <? 2); [reflexivity|].
  unfold span_arranged.
  destruct ((0 <? jitter params) && (1 <? Z.of_nat (length pw)));
    [destruct (jitter_loop _ _ _ _ _ _)|]; reflexivity.
Qed.

Lemma span_pixels_length img key sp :
  length (span_pixels row img selectArea selectPixelStride key sp)
  = length (span_included selectArea selectPixelStride sp).
Proof. unfold span_pixels. apply length_map. Qed.

Lemma span_included_In sp j :
  In j (span_included selectArea selectPixelStride sp) ->
  span_start sp <= span_start sp + j < span_end sp /\
  qualifies selectArea selectPixelStride (span_start sp + j) = true.
Proof.
  unfold span_included. rewrite included_of_In. unfold span_len.
  intros [Hr Hq]. split; [lia | exact Hq].
Qed.

Lemma sort_span_skipped sp st :
  span_end sp <= n ->
  span_skipped params selectArea selectPixelStride sp st ->
  ss_image (sort_span row params selectArea selectPixelStride n sp st) = ss_image st.
Proof.
  intros Hend Hskip. rewrite sort_span_inside by exact Hend.
  destruct (Z.ltb_spec (span_len sp) 2) as [Hlen|Hlen]; [reflexivity|].
  destruct (falloff_draw params (ss_rng st)) as [skip rng] eqn:Ef.
  destruct skip; [reflexivity|]. cbv zeta. rewrite span_pixels_length.
  destruct Hskip as [Hs|[Hs|Hs]]; [lia | rewrite Ef in Hs; discriminate |].
  destruct (Z.ltb_spec (Z.of_nat (length (span_included selectArea selectPixelStride sp))) 2);
    [reflexivity | lia].
Qed.

Lemma write_back_length spanStart pw inc img :
  length (write_back row selectArea selectPixelStride spanStart pw inc img)
  = length img.
Proof.
  unfold write_back. destruct selectArea;
    [apply write_selected_loop_length | apply write_plain_loop_length].
Qed.

Lemma sort_span_length sp st :
  length (ss_image (sort_span row params selectArea selectPixelStride n sp st))
  = length (ss_image st).
Proof.
  unfold sort_span. destruct (_ - _ <? 2); [reflexivity|].
  destruct (falloff_draw params (ss_rng st)) as [skip rng].
  destruct skip; [reflexivity|].
  destruct (collect_loop _ _ _ _ _ _ _ _ _ _ _) as [pw inc].
  destruct (Z.of_nat (length pw) <? 2); [reflexivity|].
  destruct (if _ && _ then _ else _) as [rng' pw'].
  apply write_back_length.
Qed.

(** the bytes a span can change belong to its qualifying positions *)
Lemma sort_span_frame sp st a :
  span_end sp <= n ->
  (forall p, span_start sp <= p < span_end sp ->
     qualifies selectArea selectPixelStride p = true -> ~ touches row p a) ->
  buf_get (ss_image (sort_span row params selectArea selectPixelStride n sp st)) a
  = buf_get (ss_image st) a.
Proof.
  intros Hend Hframe. rewrite sort_span_inside by exact Hend.
  destruct (span_len sp <? 2); [reflexivity|].
  destruct (falloff_draw params (ss_rng st)) as [skip rng].
  destruct skip; [reflexivity|]. cbv zeta.
  set (inc := span_included selectArea selectPixelStride sp).
  set (pw := span_pixels _ _ _ _ _ _).
  destruct (Z.of_nat (length pw) <? 2); [reflexivity|].
  pose proof (span_arranged_length params rng pw) as Hlen.
  destruct (span_arranged params rng pw) as [rng' arranged]. simpl in Hlen |- *.
  assert (Hlen' : length arranged = length inc).
  { rewrite Hlen. apply span_pixels_length. }
  assert (Hnt : forall j, 0 <= j < 0 + Z.of_nat (length arranged) ->
            ~ touches row (pos_at (span_start sp) inc j) a).
  { intros j Hj. unfold pos_at.
    destruct (span_included_In sp (vec_get 0 inc j)) as [Hp Hq].
    { apply (pos_at_In arranged inc Hlen'). lia. }
    apply Hframe; assumption. }
  unfold write_back. destruct selectArea as [sa|].
  - apply write_selected_loop_frame. intros j Hj _. apply Hnt, Hj.
  - apply write_plain_loop_frame. exact Hnt.
Qed.

(** *** the loop over the spans *)

(** the state in which each span of the list is reached *)
Fixpoint states_before (spans : list Span) (st : SpanState) : list SpanState :=
  match spans with
  | [] => []
  | sp :: rest =>
      st :: states_before rest
              (sort_span row params selectArea selectPixelStride n sp st)
  end.

Lemma sort_spans_cons sp rest st :
  sort_spans row params selectArea selectPixelStride n (sp :: rest) st
  = sort_spans row params selectArea selectPixelStride n rest
      (sort_span row params selectArea selectPixelStride n sp st).
Proof. reflexivity. Qed.

Lemma sort_spans_length spans : forall st,
  length (ss_image (sort_spans row params selectArea selectPixelStride n spans st))
  = length (ss_image st).
Proof.
  induction spans as [|sp rest IH]; intros st; [reflexivity|].
  rewrite sort_spans_cons, IH. apply sort_span_length.
Qed.

Lemma sort_spans_frame spans : forall st a,
  (forall sp, In sp spans -> span_end sp <= n) ->
  (forall sp p, In sp spans -> span_start sp <= p < span_end sp ->
     qualifies selectArea selectPixelStride p = true -> ~ touches row p a) ->
  buf_get (ss_image (sort_spans row params selectArea selectPixelStride n spans st)) a
  = buf_get (ss_image st) a.
Proof.
  induction spans as [|sp rest IH]; intros st a Hend Hframe; [reflexivity|].
  rewrite sort_spans_cons, IH.
  - apply sort_span_frame; [apply Hend; left; reflexivity|].
    intros p. apply Hframe. left. reflexivity.
  - intros sp' Hin. apply Hend. right. exact Hin.
  - intros sp' p Hin. apply Hframe. right. exact Hin.
Qed.

(** A pixel keeps its value when every span that holds it as a qualifying
    position is skipped. *)
Lemma sort_spans_pixel_frame spans : forall st p,
  row_layout_ok row ->
  (forall sp, In sp spans -> span_end sp <= n) ->
  (forall (k : nat) sp st_k,
     spans !! k = Some sp -> states_before spans st !! k = Some st_k ->
     span_start sp <= p < span_end sp ->
     qualifies selectArea selectPixelStride p = true ->
     span_skipped params selectArea selectPixelStride sp st_k) ->
  getRGB row (ss_image (sort_spans row params selectArea selectPixelStride n spans st)) p
  = getRGB row (ss_image st) p.
Proof.
  induction spans as [|sp rest IH]; intros st p Hlayout Hend Hskip; [reflexivity|].
  rewrite sort_spans_cons, IH; [| exact Hlayout | |].
  - destruct (Z.le_gt_cases (span_start sp) p) as [H1|H1];
      [destruct (Z.lt_ge_cases p (span_end sp)) as [H2|H2];
         [destruct (qualifies selectArea selectPixelStride p) eqn:Hq|]|].
    + rewrite sort_span_skipped; [reflexivity | apply Hend; left; reflexivity |].
      apply (Hskip 0%nat sp st); [reflexivity | reflexivity | lia | reflexivity].
    + apply getRGB_frame. intros a Ha. apply sort_span_frame;
        [apply Hend; left; reflexivity|].
      intros q Hq' Hqq Ht.
      assert (q = p) by (eapply touches_same_pixel; eassumption). congruence.
    + apply getRGB_frame. intros a Ha. apply sort_span_frame;
        [apply Hend; left; reflexivity|].
      intros q Hq' Hqq Ht.
      assert (q = p) by (eapply touches_same_pixel; eassumption). lia.
    + apply getRGB_frame. intros a Ha. apply sort_span_frame;
        [apply Hend; left; reflexivity|].
      intros q Hq' Hqq Ht.
      assert (q = p) by (eapply touches_same_pixel; eassumption). lia.
  - intros sp' Hin. apply Hend. right. exact Hin.
  - intros k sp' st_k Hsp Hst. apply (Hskip (S k) sp' st_k); assumption.
Qed.

End SortSpan.

(** ** C10: what [SortLine] leaves alone *)

Lemma StronglySorted_lookup {A : Type} (R : A -> A -> Prop) (l : list A)
    (i j : nat) (x y : A) :
  StronglySorted R l -> (i < j)%nat ->
  l !! i = Some x -> l !! j = Some y -> R x y.
Proof.
  intros Hs. revert i j. induction Hs as [|a l Hl IH Ha]; intros i j Hij Hi Hj.
  - rewrite lookup_nil in Hi. discriminate.
  - destruct j as [|j]; [lia|]. simpl in Hj. destruct i as [|i].
    + simpl in Hi. injection Hi as <-.
      rewrite List.Forall_forall in Ha. apply Ha.
      apply list_elem_of_In. eapply list_elem_of_lookup_2. exact Hj.
    + simpl in Hi. apply (IH i j); [lia | assumption | assumption].
Qed.

(** two spans of the sequence that share a position are the same entry *)
Lemma span_seq_disjoint lo hi l (i j : nat) a b p :
  span_seq lo hi l -> l !! i = Some a -> l !! j = Some b ->
  span_start a <= p < span_end a -> span_start b <= p < span_end b -> i = j.
Proof.
  intros Hseq Hi Hj Ha Hb. apply span_seq_spec in Hseq. destruct Hseq as [_ Hs].
  destruct (Nat.lt_trichotomy i j) as [Hlt|[Heq|Hgt]]; [|exact Heq|].
  - pose proof (StronglySorted_lookup _ _ _ _ _ _ Hs Hlt Hi Hj). simpl in *. lia.
  - pose proof (StronglySorted_lookup _ _ _ _ _ _ Hs Hgt Hj Hi). simpl in *. lia.
Qed.

Lemma span_seq_In lo hi l sp :
  span_seq lo hi l -> In sp l ->
  lo <= span_start sp /\ span_start sp < span_end sp /\ span_end sp <= hi.
Proof.
  intros Hseq Hin. apply span_seq_spec in Hseq. destruct Hseq as [Hb _].
  rewrite List.Forall_forall in Hb. apply Hb, Hin.
Qed.

Lemma sort_span_short `{StdLib} row params selectArea stride n sp st :
  span_len sp < 2 ->
  sort_span row params selectArea stride n sp st = st.
Proof.
  intros Hlen. unfold sort_span. unfold span_len in Hlen.
  destruct (Z.ltb_spec (span_end sp - span_start sp) 2); [reflexivity | lia].
Qed.

Lemma sort_spans_short `{StdLib} row params selectArea stride n spans : forall st,
  (forall sp, In sp spans -> span_len sp < 2) ->
  sort_spans row params selectArea stride n spans st = st.
Proof.
  induction spans as [|sp rest IH]; intros st Hshort; [reflexivity|].
  rewrite sort_spans_cons, sort_span_short by (apply Hshort; left; reflexivity).
  apply IH. intros sp' Hin. apply Hshort. right. exact Hin.
Qed.

Lemma DetectSpans_seq `{StdLib} row img params rowIndex rng outSpans brightness :
  span_seq 0 (Z.max 0 (row_length row))
    (snd (fst (DetectSpans row img params rowIndex rng outSpans brightness))).
Proof.
  unfold DetectSpans.
  pose proof (detect_dispatch_seq row img params rowIndex rng outSpans brightness) as Hd.
  destruct (detect_dispatch _ _ _ _ _ _ _) as [[rng' spans] brightness']. simpl in *.
  unfold post_filter. apply cap_span_max_seq, filter_span_min_seq. exact Hd.
Qed.

(** C10.  [spans] are the spans [DetectSpans] returns for the line.
    (1) A byte of the image is the same after [SortLine] unless it belongs
    to a position that lies in one of these spans and qualifies (no
    selection, or a non-zero mask value); the image keeps its size.
    (2) With the channels inside the pixel stride, every position that is in
    no span, or whose mask value is zero, holds the pixel it held before.
    (3) A line of at most one position is unchanged.
    (4) Every position of a span that is skipped (too short, falloff, or
    fewer than two qualifying positions) holds the pixel it held before. *)
Theorem SortLine_frame `{StdLib} (row : RowAccessor) (params : PixelSortParams)
    (selectArea : option SelectArea) (selectPixelStride rowIndex : Z)
    (rng : mt19937) (work : Work) (img : list BYTE) :
  let detected :=
    DetectSpans row img params rowIndex rng (spansWork work) (brightnessWork work) in
  let spans := snd (fst detected) in
  let st0 :=
    mkSpanState (fst (fst detected)) (pixelsWork work) (includedIndices work) img in
  let img' :=
    snd (SortLine row params selectArea selectPixelStride rowIndex rng work img) in
  (forall a,
     (forall sp p, In sp spans -> span_start sp <= p < span_end sp ->
        qualifies selectArea selectPixelStride p = true -> ~ touches row p a) ->
     buf_get img' a = buf_get img a) /\
  length img' = length img /\
  (row_layout_ok row ->
   forall p,
     (forall sp, In sp spans -> span_start sp <= p < span_end sp ->
        qualifies selectArea selectPixelStride p = false) ->
     getRGB row img' p = getRGB row img p) /\
  (row_length row <= 1 -> img' = img) /\
  (row_layout_ok row ->
   forall (k : nat) sp st_k,
     spans !! k = Some sp ->
     states_before row params selectArea selectPixelStride (row_length row)
       spans st0 !! k = Some st_k ->
     span_skipped params selectArea selectPixelStride sp st_k ->
     forall p, span_start sp <= p < span_end sp ->
       getRGB row img' p = getRGB row img p).
Proof.
  intros detected spans st0 img'.
  pose proof (DetectSpans_seq row img params rowIndex rng (spansWork work)
                (brightnessWork work)) as Hseq.
  fold detected in Hseq. fold spans in Hseq.
  assert (Himg : img' = if row_length row <=? 0 then img
                         else ss_image (sort_spans row params selectArea selectPixelStride
                                          (row_length row) spans st0)).
  { subst img' st0 spans. unfold SortLine.
    destruct (row_length row <=? 0); [reflexivity|].
    fold detected. destruct detected as [[rng1 spans1] br1]. reflexivity. }
  assert (Hst0 : ss_image st0 = img) by reflexivity.
  clearbody img' st0 spans detected. subst img'.
  destruct (Z.leb_spec (row_length row) 0) as [Hn|Hn].
  { (* an empty line *)
    repeat split; reflexivity. }
  replace (Z.max 0 (row_length row)) with (row_length row) in Hseq by lia.
  assert (Hend : forall sp, In sp spans -> span_end sp <= row_length row).
  { intros sp Hin. apply (span_seq_In _ _ _ _ Hseq Hin). }
  rewrite <- Hst0. clear Hst0.
  split; [|split; [|split; [|split]]].
  - intros a Hframe. apply sort_spans_frame; assumption.
  - apply sort_spans_length.
  - intros Hlayout p Hp.
    rewrite sort_spans_pixel_frame; [reflexivity | exact Hlayout | exact Hend |].
    intros k sp st_k Hk _ Hrange Hq. exfalso.
    rewrite (Hp sp) in Hq; [discriminate | | exact Hrange].
    apply list_elem_of_In. eapply list_elem_of_lookup_2. exact Hk.
  - intros H1. rewrite sort_spans_short; [reflexivity|].
    intros sp Hin. pose proof (span_seq_In _ _ _ _ Hseq Hin). unfold span_len. lia.
  - intros Hlayout k sp st_k Hk Hst Hskip p Hrange.
    rewrite sort_spans_pixel_frame; [reflexivity | exact Hlayout | exact Hend |].
    intros k' sp' st' Hk' Hst' Hrange' _.
    assert (k' = k) as -> by (eapply span_seq_disjoint; eassumption).
    rewrite Hk in Hk'. injection Hk' as <-.
    rewrite Hst in Hst'. injection Hst' as <-. exact Hskip.
Qed.

(** ** C2: the sort of a span *)

(** every collected pixel carries the sort value of its own colour *)
Definition keyed (key : SortKey) (pd : PixelData) : Prop :=
  sortValue pd = GetSortValue (pd_r pd) (pd_g pd) (pd_b pd) key.

Lemma collect_loop_keyed row img selectArea stride key n spanStart k :
  forall i pw inc,
  Forall (keyed key) pw ->
  Forall (keyed key)
    (fst (collect_loop row img selectArea stride key n spanStart k i pw inc)).
Proof.
  induction k as [|k IH]; intros i pw inc Hpw; simpl; [exact Hpw|].
  destruct (n <=? spanStart + i); [exact Hpw|].
  destruct (match selectArea with Some _ => _ | None => _ end); [apply IH, Hpw|].
  destruct (getRGB row img (spanStart + i)) as [[r g] b].
  apply IH. apply Forall_app. split; [exact Hpw|].
  constructor; [reflexivity | constructor].
Qed.

Lemma keyed_not_nan key pd : keyed key pd -> is_nan (sortValue pd) = false.
Proof. unfold keyed. intros ->. apply GetSortValue_not_nan. Qed.

Lemma sortValue_less_strict_weak key (l : list PixelData) :
  Forall (keyed key) l -> strict_weak_on sortValue_less l.
Proof.
  intros Hl. apply (SFltb_strict_weak sortValue l).
  intros a Ha. rewrite List.Forall_forall in Hl.
  eapply keyed_not_nan, Hl, Ha.
Qed.

(** C2, as the code has it.  The pixels collected from a span are handed to
    [std::sort] and, with [reverse] set, to [std::reverse].  What the code
    arranges is a permutation of the collected pixels.  The result of
    [std::sort] is in ascending order: no pixel has a smaller sort value
    than a pixel before it.  Without [reverse] that is the arrangement;
    with [reverse] the arrangement is this result reversed, and so in
    descending order: no pixel has a smaller sort value than a pixel behind
    it.  The order of pixels with equal sort values is whatever
    [std::sort] makes it. *)
Theorem span_sort_ascending_permutation `{StdLib} (row : RowAccessor)
    (img : list BYTE) (selectArea : option SelectArea)
    (selectPixelStride : Z) (params : PixelSortParams) (n spanStart : Z)
    (k : nat) :
  let qualifying :=
    fst (collect_loop row img selectArea selectPixelStride (sortKey params)
           n spanStart k 0 [] []) in
  let sorted := std_sort sortValue_less qualifying in
  let arranged := sort_pixels params qualifying in
  Permutation qualifying arranged /\
  sorted_wrt sortValue_less sorted /\
  (if reverse params
   then StronglySorted (fun a b => sortValue_less a b = false) arranged
   else sorted_wrt sortValue_less arranged) /\
  arranged = (if reverse params then rev sorted else sorted).
Proof.
  intros qualifying sorted arranged.
  assert (Hk : Forall (keyed (sortKey params)) qualifying).
  { apply collect_loop_keyed. constructor. }
  destruct (std_sort_spec _ sortValue_less qualifying
              (sortValue_less_strict_weak _ _ Hk)) as [Hperm Hsorted].
  fold sorted in Hperm, Hsorted.
  assert (Harr : arranged = (if reverse params then rev sorted else sorted))
    by reflexivity.
  rewrite Harr. destruct (reverse params).
  - split; [|split; [exact Hsorted | split; [|reflexivity]]].
    + eapply Permutation_trans; [exact Hperm | apply Permutation_rev].
    + apply (StronglySorted_rev (fun a b => sortValue_less b a = false)).
      exact Hsorted.
  - split; [exact Hperm|]. split; [exact Hsorted|].
    split; [exact Hsorted | reflexivity].
Qed.

(** The stable sort of the claim: equal sort values keep their order. *)
Definition stable_sort_pixels (pw : list PixelData) : list PixelData :=
  insertion_sort sortValue_less true pw.

Definition params_red : PixelSortParams :=
  mkParams kSortDirectionHorizontal kSortKeyRed kIntervalModeNone
    0 255 false 0 1 0 0 0.

(** seventeen pixels with the same red value, numbered by their green
    value *)
Definition tie_line : list BYTE :=
  pixels_image
    [(5, 1, 0); (5, 2, 0); (5, 3, 0); (5, 4, 0); (5, 5, 0); (5, 6, 0);
     (5, 7, 0); (5, 8, 0); (5, 9, 0); (5, 10, 0); (5, 11, 0); (5, 12, 0);
     (5, 13, 0); (5, 14, 0); (5, 15, 0); (5, 16, 0); (5, 17, 0)].

Definition green_of (pd : PixelData) : Z := byte_to_int (pd_g pd).

(** Stability is not what [std::sort] gives.  The line [tie_line] is one
    span of seventeen pixels whose sort values are all equal, so that a
    stable sort leaves them as they are.  The [std::sort] of libstdc++
    partitions a range of more than sixteen elements around a pivot and
    exchanges equal elements as it does: the pixels come out in another
    order, and that is the order [SortLine] writes to the line. *)
Lemma stable_sort_counterexample :
  let qualifying :=
    fst (collect_loop (packed_row 17) tie_line None 0 kSortKeyRed 17 0 17 0 [] []) in
  let written :=
    snd (SortLine (H := libstdcxx_stdlib) (packed_row 17) params_red None 0 0 42
           (mkWork [] [] [] []) tie_line) in
  map sortValue qualifying = repeat (f32_of_int 5) 17 /\
  map green_of (stable_sort_pixels qualifying)
    = [1; 2; 3; 4; 5; 6; 7; 8; 9; 10; 11; 12; 13; 14; 15; 16; 17] /\
  map green_of (sort_pixels (H := libstdcxx_stdlib) params_red qualifying)
    = [9; 17; 16; 15; 14; 13; 12; 11; 10; 1; 8; 7; 6; 5; 4; 3; 2] /\
  written
    = pixels_image
        [(5, 9, 0); (5, 17, 0); (5, 16, 0); (5, 15, 0); (5, 14, 0); (5, 13, 0);
         (5, 12, 0); (5, 11, 0); (5, 10, 0); (5, 1, 0); (5, 8, 0); (5, 7, 0);
         (5, 6, 0); (5, 5, 0); (5, 4, 0); (5, 3, 0); (5, 2, 0)] /\
  written <> tie_line.
Proof. vm_compute. repeat split; try reflexivity. discriminate. Qed.

(** ** C8: the order of the sort values that are written back *)

Lemma Forall2_map_eq {A B C : Type} (f : A -> C) (g : B -> C) l1 l2 :
  Forall2 (fun a b => f a = g b) l1 l2 -> map f l1 = map g l2.
Proof. induction 1; simpl; congruence. Qed.

Lemma Permutation_keyed key l l' :
  Permutation l l' -> Forall (keyed key) l -> Forall (keyed key) l'.
Proof.
  intros Hp Hl. rewrite List.Forall_forall in Hl |- *. intros x Hx.
  apply Hl. eapply Permutation_in; [symmetry; exact Hp | exact Hx].
Qed.

Lemma span_pixels_keyed row img selectArea stride key sp :
  Forall (keyed key) (span_pixels row img selectArea stride key sp).
Proof.
  unfold span_pixels. apply List.Forall_forall. intros pd Hpd.
  apply in_map_iff in Hpd. destruct Hpd as (j & <- & _).
  unfold pixel_data_at, keyed. destruct (getRGB row img _) as [[r g] b]. reflexivity.
Qed.

Lemma sort_pixels_keyed `{StdLib} params key pw :
  Forall (keyed key) pw -> Forall (keyed key) (sort_pixels params pw).
Proof.
  intros Hpw. unfold sort_pixels.
  destruct (std_sort_spec _ sortValue_less pw (sortValue_less_strict_weak _ _ Hpw))
    as [Hperm _].
  destruct (reverse params).
  - eapply Permutation_keyed; [|exact Hpw].
    eapply Permutation_trans; [exact Hperm | apply Permutation_rev].
  - eapply Permutation_keyed; eassumption.
Qed.

(** the order of the sort values of the sequence that is written back *)
Lemma sort_pixels_monotone `{StdLib} params key pw :
  Forall (keyed key) pw ->
  let values := map sortValue (sort_pixels params pw) in
  (reverse params = false -> StronglySorted (fun a b => f32_lt b a = false) values) /\
  (reverse params = true -> StronglySorted (fun a b => f32_lt a b = false) values).
Proof.
  intros Hpw values. subst values. unfold sort_pixels.
  destruct (std_sort_spec _ sortValue_less pw (sortValue_less_strict_weak _ _ Hpw))
    as [_ Hsorted].
  split; intros ->; apply StronglySorted_map.
  - exact Hsorted.
  - apply (StronglySorted_rev _ _ Hsorted).
Qed.

(** The span is sorted: long enough, not hit by the falloff draw, with at
    least two qualifying positions. *)
Definition span_processed `{StdLib} (params : PixelSortParams)
    (selectArea : option SelectArea) (selectPixelStride : Z) (sp : Span)
    (st : SpanState) : Prop :=
  2 <= span_len sp /\
  fst (falloff_draw params (ss_rng st)) = false /\
  2 <= Z.of_nat (length (span_included selectArea selectPixelStride sp)).

(** no position of the span is partially selected *)
Definition fully_selected (selectArea : option SelectArea)
    (selectPixelStride : Z) (sp : Span) : Prop :=
  match selectArea with
  | None => True
  | Some sa =>
      forall p, span_start sp <= p < span_end sp ->
        mask_at sa selectPixelStride p = 0 \/ mask_at sa selectPixelStride p = 255
  end.

(** the sort values of the pixels at the qualifying positions of a span, in
    position order *)
Definition span_keys (row : RowAccessor) (img : list BYTE)
    (selectArea : option SelectArea) (selectPixelStride : Z) (key : SortKey)
    (sp : Span) : list float :=
  map (fun j => let '(r, g, b) := getRGB row img (span_start sp + j) in
                GetSortValue r g b key)
    (span_included selectArea selectPixelStride sp).

Section SpanTrace.
Context `{StdLib}.
Variable row : RowAccessor.
Variable params : PixelSortParams.
Variable selectArea : option SelectArea.
Variable selectPixelStride : Z.
Variable n : Z.

Let step := sort_span row params selectArea selectPixelStride n.
Let run := sort_spans row params selectArea selectPixelStride n.
Let trace := states_before row params selectArea selectPixelStride n.

Lemma sort_spans_split spans : forall st (k : nat) sp st_k,
  spans !! k = Some sp -> trace spans st !! k = Some st_k ->
  run spans st = run (drop (S k) spans) (step sp st_k).
Proof.
  induction spans as [|sp0 rest IH]; intros st k sp st_k Hk Hst.
  - rewrite lookup_nil in Hk. discriminate.
  - destruct k as [|k]; simpl in Hk, Hst.
    + injection Hk as <-. injection Hst as <-. reflexivity.
    + unfold run. rewrite sort_spans_cons. apply (IH _ k sp st_k Hk Hst).
Qed.

Lemma states_before_length spans : forall st (k : nat) st_k,
  trace spans st !! k = Some st_k ->
  length (ss_image st_k) = length (ss_image st).
Proof.
  induction spans as [|sp0 rest IH]; intros st k st_k Hst.
  - simpl in Hst. rewrite lookup_nil in Hst. discriminate.
  - destruct k as [|k]; simpl in Hst.
    + injection Hst as <-. reflexivity.
    + rewrite (IH _ k st_k Hst). apply sort_span_length.
Qed.

(** the pixels of a processed span right after its iteration *)
Lemma sort_span_processed sp st :
  span_end sp <= n -> jitter params = 0 ->
  span_processed params selectArea selectPixelStride sp st ->
  ss_image (step sp st)
  = write_back row selectArea selectPixelStride (span_start sp)
      (sort_pixels params
         (span_pixels row (ss_image st) selectArea selectPixelStride
            (sortKey params) sp))
      (span_included selectArea selectPixelStride sp) (ss_image st).
Proof.
  intros Hend Hj (Hlen & Hfall & Hcount). unfold step.
  rewrite sort_span_inside by exact Hend.
  destruct (Z.ltb_spec (span_len sp) 2); [lia|].
  destruct (falloff_draw params (ss_rng st)) as [skip rng]. simpl in Hfall.
  subst skip. cbv zeta. rewrite span_pixels_length.
  destruct (Z.ltb_spec (Z.of_nat (length (span_included selectArea selectPixelStride sp))) 2);
    [lia|].
  unfold span_arranged. rewrite Hj. reflexivity.
Qed.

End SpanTrace.

Lemma In_drop {A : Type} (k : nat) (l : list A) (x : A) : In x (drop k l) -> In x l.
Proof.
  intros Hin. apply list_elem_of_In in Hin.
  apply list_elem_of_lookup_1 in Hin. destruct Hin as [i Hi].
  rewrite lookup_drop in Hi.
  apply list_elem_of_In. eapply list_elem_of_lookup_2. exact Hi.
Qed.

Lemma In_lookup {A : Type} (l : list A) (i : nat) (x : A) : l !! i = Some x -> In x l.
Proof. intros Hi. apply list_elem_of_In. eapply list_elem_of_lookup_2. exact Hi. Qed.

(** C8, as the code has it.  [spans] are the spans of the line and [st_k]
    is the state in which the loop of [SortLine] reaches the span [sp].
    When there is no jitter, the span is processed, and none of its
    positions is partially selected (no selection, or mask values 0 and 255
    only), the sort values of the pixels that the line holds at the
    qualifying positions of the span after [SortLine], in position order,
    are non-decreasing for [reverse = false] (no value is less than an
    earlier one) and non-increasing for [reverse = true]. *)
Theorem written_keys_monotone `{StdLib} (row : RowAccessor)
    (params : PixelSortParams) (selectArea : option SelectArea)
    (selectPixelStride rowIndex : Z) (rng : mt19937) (work : Work)
    (img : list BYTE) :
  row_ok row img ->
  jitter params = 0 ->
  let detected :=
    DetectSpans row img params rowIndex rng (spansWork work) (brightnessWork work) in
  let spans := snd (fst detected) in
  let st0 :=
    mkSpanState (fst (fst detected)) (pixelsWork work) (includedIndices work) img in
  let img' :=
    snd (SortLine row params selectArea selectPixelStride rowIndex rng work img) in
  forall (k : nat) sp st_k,
    spans !! k = Some sp ->
    states_before row params selectArea selectPixelStride (row_length row)
      spans st0 !! k = Some st_k ->
    span_processed params selectArea selectPixelStride sp st_k ->
    fully_selected selectArea selectPixelStride sp ->
    let keys := span_keys row img' selectArea selectPixelStride (sortKey params) sp in
    (reverse params = false -> StronglySorted (fun a b => f32_lt b a = false) keys) /\
    (reverse params = true -> StronglySorted (fun a b => f32_lt a b = false) keys).
Proof.
  intros [Hlayout Hchannels Hbounds] Hjit detected spans st0 img' k sp st_k
    Hk Hst Hproc Hfull keys.
  pose proof (DetectSpans_seq row img params rowIndex rng (spansWork work)
                (brightnessWork work)) as Hseq.
  fold detected in Hseq. fold spans in Hseq.
  pose proof (span_seq_In _ _ _ sp Hseq (In_lookup _ _ _ Hk)) as (Hs0 & Hse & Hen).
  assert (Hn : 0 < row_length row) by lia.
  replace (Z.max 0 (row_length row)) with (row_length row) in Hseq, Hen by lia.
  assert (Himg : img' = ss_image (sort_spans row params selectArea selectPixelStride
                                    (row_length row) spans st0)).
  { subst img' st0 spans. unfold SortLine.
    destruct (Z.leb_spec (row_length row) 0); [lia|].
    fold detected. destruct detected as [[rng1 spans1] br1]. reflexivity. }
  assert (Hst0 : ss_image st0 = img) by reflexivity.
  clearbody img' st0 spans detected. subst img'.
  set (inc := span_included selectArea selectPixelStride sp).
  set (pw := span_pixels row (ss_image st_k) selectArea selectPixelStride
               (sortKey params) sp).
  set (arranged := sort_pixels params pw).
  assert (Hkeyed : Forall (keyed (sortKey params)) arranged).
  { apply sort_pixels_keyed, span_pixels_keyed. }
  assert (Hlen : length arranged = length inc).
  { subst arranged pw inc. rewrite sort_pixels_length. apply span_pixels_length. }
  assert (Hlen_k : length (ss_image st_k) = length img).
  { rewrite <- Hst0. eapply states_before_length. exact Hst. }
  assert (Hpix : forall (i : nat) j pd,
            inc !! i = Some j -> arranged !! i = Some pd ->
            getRGB row (ss_image (sort_spans row params selectArea selectPixelStride
                                    (row_length row) spans st0))
              (span_start sp + j) = rgb_of pd).
  { intros i j pd Hi Hpd.
    destruct (span_included_In selectArea selectPixelStride sp j (In_lookup _ _ _ Hi))
      as [Hrange Hq].
    rewrite (sort_spans_split row params selectArea selectPixelStride (row_length row)
               spans st0 k sp st_k Hk Hst).
    rewrite sort_spans_pixel_frame; [| exact Hlayout | |].
    - rewrite sort_span_processed by assumption. fold inc pw arranged.
      destruct (write_back_rule row selectArea selectPixelStride (span_start sp)
                  arranged inc (ss_image st_k) Hlayout Hchannels Hlen
                  (included_of_sorted _ _ _ _ _)) as [Hw _].
      { intros j' Hj'. eapply pixel_in_bounds_length; [exact Hlen_k|].
        apply Hbounds.
        destruct (span_included_In selectArea selectPixelStride sp j' Hj') as [? _]. lia. }
      specialize (Hw i j pd Hi Hpd). simpl in Hw.
      destruct selectArea as [sa|]; [|exact Hw].
      destruct Hw as [H255 _]. apply H255.
      destruct (Hfull (span_start sp + j) Hrange) as [H0|H255']; [|exact H255'].
      unfold qualifies, mask_at in Hq, H0. rewrite H0 in Hq. discriminate.
    - intros sp' Hin. apply In_drop in Hin.
      apply (span_seq_In _ _ _ _ Hseq Hin).
    - intros k' sp' st' Hk' _ Hrange' _. exfalso.
      rewrite lookup_drop in Hk'.
      pose proof (span_seq_disjoint _ _ _ _ _ _ _ _ Hseq Hk Hk' Hrange Hrange'). lia. }
  assert (Hkeys : keys = map sortValue arranged).
  { subst keys. unfold span_keys. fold inc. apply Forall2_map_eq.
    apply Forall2_same_length_lookup_2; [symmetry; exact Hlen|].
    intros i j pd Hi Hpd. rewrite (Hpix i j pd Hi Hpd). unfold rgb_of.
    rewrite List.Forall_forall in Hkeyed. symmetry.
    apply (Hkeyed pd (In_lookup _ _ _ Hpd)). }
  rewrite Hkeys. apply (sort_pixels_monotone params (sortKey params) pw).
  apply span_pixels_keyed.
Qed.

(** ** Concrete lines *)

Lemma packed_row_ok (n : Z) (img : list BYTE) :
  Z.of_nat (length img) = n * 3 -> row_ok (packed_row n) img.
Proof.
  intros Hlen. constructor.
  - unfold row_layout_ok, pixelStride. simpl. lia.
  - unfold channels_distinct. simpl. lia.
  - intros p Hp. unfold pixel_in_bounds, pixelAt, pixelStride. simpl in *. lia.
Qed.

(** three pixels with red values 150, 200, 100; the mask selects the first
    two fully and the third with weight 1/255 *)
Definition line3 : list BYTE :=
  pixels_image [(150, 0, 0); (200, 0, 0); (100, 0, 0)].

Definition mask3 : SelectArea := mkSelectArea (map int_to_BYTE [255; 255; 1]) 0.

Definition empty_work : Work := mkWork [] [] [] [].

(** the three pixels in ascending order of red *)
Definition sorted3 : list PixelData :=
  [mkPixelData (int_to_BYTE 100) x00 x00 (f32_of_int 100);
   mkPixelData (int_to_BYTE 150) x00 x00 (f32_of_int 150);
   mkPixelData (int_to_BYTE 200) x00 x00 (f32_of_int 200)].

Lemma write_back_rule_witness :
  row_layout_ok (packed_row 3) /\ channels_distinct (packed_row 3) /\
  length sorted3 = length [0; 1; 2] /\
  StronglySorted Z.lt [0; 1; 2] /\
  (forall j, In j [0; 1; 2] -> pixel_in_bounds (packed_row 3) line3 (0 + j)) /\
  mask_at mask3 1 (0 + 2) = 1 /\
  getRGB (packed_row 3)
    (write_back (packed_row 3) (Some mask3) 1 0 sorted3 [0; 1; 2] line3) (0 + 2)
  = blend_pixel (mkPixelData (int_to_BYTE 200) x00 x00 (f32_of_int 200))
      (getRGB (packed_row 3) line3 (0 + 2)) (mask_at mask3 1 (0 + 2)).
Proof.
  pose proof (packed_row_ok 3 line3 eq_refl) as [Hlayout Hchannels Hbounds].
  assert (Hsorted : StronglySorted Z.lt [0; 1; 2]).
  { repeat constructor; lia. }
  assert (Hb : forall j, In j [0; 1; 2] -> pixel_in_bounds (packed_row 3) line3 (0 + j)).
  { intros j Hj. apply Hbounds. simpl in Hj. simpl. lia. }
  split; [exact Hlayout|]. split; [exact Hchannels|]. split; [reflexivity|].
  split; [exact Hsorted|]. split; [exact Hb|]. split; [reflexivity|].
  pose proof (proj1 (write_back_rule (packed_row 3) (Some mask3) 1 0 sorted3
                       [0; 1; 2] line3 Hlayout Hchannels eq_refl Hsorted Hb)
                2%nat 2 _ eq_refl eq_refl) as Hw.
  cbv beta iota zeta in Hw. apply (proj1 (proj2 Hw)). vm_compute. split; reflexivity.
Defined.

Lemma written_keys_monotone_witness :
  row_ok (packed_row 3) line3 /\
  jitter params_red = 0 /\
  StronglySorted (fun a b => f32_lt b a = false)
    (span_keys (packed_row 3)
       (snd (SortLine (H := reference_stdlib) (packed_row 3) params_red None 0 0 42
               empty_work line3))
       None 0 kSortKeyRed (mkSpan 0 3)).
Proof.
  split; [apply packed_row_ok; reflexivity|]. split; [reflexivity|].
  refine (proj1 (written_keys_monotone (H := reference_stdlib) (packed_row 3)
                   params_red None 0 0 42 empty_work line3
                   (packed_row_ok 3 line3 eq_refl) eq_refl
                   0%nat (mkSpan 0 3) _ eq_refl eq_refl _ I) eq_refl).
  repeat split; vm_compute; discriminate.
Defined.

(** With a partially selected position the values written back are blends
    and need not be in order: the line with red values 150, 200, 100 and
    mask values 255, 255, 1 is one processed span (no jitter, no reverse,
    three qualifying positions) and holds the red values 100, 150, 100
    afterwards. *)
Lemma partial_mask_counterexample :
  let img' :=
    snd (SortLine (H := reference_stdlib) (packed_row 3) params_red (Some mask3)
           1 0 42 empty_work line3) in
  let keys := span_keys (packed_row 3) img' (Some mask3) 1 kSortKeyRed (mkSpan 0 3) in
  jitter params_red = 0 /\ reverse params_red = false /\
  snd (fst (DetectSpans (H := reference_stdlib) (packed_row 3) line3 params_red
              0 42 [] [])) = [mkSpan 0 3] /\
  span_included (Some mask3) 1 (mkSpan 0 3) = [0; 1; 2] /\
  map byte_to_int img' = [100; 0; 0; 150; 0; 0; 100; 0; 0] /\
  keys = [f32_of_int 100; f32_of_int 150; f32_of_int 100] /\
  ~ StronglySorted (fun a b => f32_lt b a = false) keys.
Proof.
  intros img' keys.
  assert (Hkeys : keys = [f32_of_int 100; f32_of_int 150; f32_of_int 100]).
  { vm_compute. reflexivity. }
  repeat split; try (vm_compute; reflexivity).
  rewrite Hkeys. intros Hs.
  apply StronglySorted_inv in Hs. destruct Hs as [Hs _].
  apply StronglySorted_inv in Hs. destruct Hs as [_ Hb].
  apply Forall_inv in Hb. vm_compute in Hb. discriminate.
Qed.

Definition params_falloff_all : PixelSortParams :=
  mkParams kSortDirectionHorizontal kSortKeyRed kIntervalModeNone
    0 255 false 0 1 0 0 100.

Lemma SortLine_frame_witness :
  row_layout_ok (packed_row 3) /\
  span_skipped (H := reference_stdlib) params_falloff_all None 0 (mkSpan 0 3)
    (mkSpanState (H := reference_stdlib) 42 [] [] line3) /\
  forall p, 0 <= p < 3 ->
    getRGB (packed_row 3)
      (snd (SortLine (H := reference_stdlib) (packed_row 3) params_falloff_all
              None 0 0 42 empty_work line3)) p
    = getRGB (packed_row 3) line3 p.
Proof.
  assert (Hlayout : row_layout_ok (packed_row 3)).
  { apply (rok_layout _ _ (packed_row_ok 3 line3 eq_refl)). }
  assert (Hskip : span_skipped (H := reference_stdlib) params_falloff_all None 0
                    (mkSpan 0 3) (mkSpanState (H := reference_stdlib) 42 [] [] line3)).
  { right. left. vm_compute. reflexivity. }
  split; [exact Hlayout|]. split; [exact Hskip|].
  exact (proj2 (proj2 (proj2 (proj2
    (SortLine_frame (H := reference_stdlib) (packed_row 3) params_falloff_all
       None 0 0 42 empty_work line3)))) Hlayout 0%nat (mkSpan 0 3) _
    eq_refl eq_refl Hskip).
Defined.

(** ** The rotation back *)

Lemma length_copy_rgb src si dst di :
  length (copy_rgb src si dst di) = length dst.
Proof. unfold copy_rgb. rewrite !length_buf_set. reflexivity. Qed.

Lemma buf_get_copy_rgb_other src si dst di a :
  a <> di -> a <> di + 1 -> a <> di + 2 ->
  buf_get (copy_rgb src si dst di) a = buf_get dst a.
Proof.
  intros H0 H1 H2. unfold copy_rgb.
  rewrite !buf_get_set_other by assumption. reflexivity.
Qed.

Lemma buf_get_copy_rgb_same src si dst di c :
  0 <= di -> di + 2 < Z.of_nat (length dst) -> 0 <= c < 3 ->
  buf_get (copy_rgb src si dst di) (di + c) = buf_get src (si + c).
Proof.
  intros Hdi Hlen Hc. unfold copy_rgb.
  assert (c = 0 \/ c = 1 \/ c = 2) as [-> | [-> | ->]] by lia.
  - rewrite !Z.add_0_r.
    rewrite !buf_get_set_other by lia. apply buf_get_set_same. lia.
  - rewrite buf_get_set_other by lia.
    apply buf_get_set_same. rewrite length_buf_set. lia.
  - apply buf_get_set_same. rewrite !length_buf_set. lia.
Qed.

(** offset of the first byte of the image pixel [(fx, fy)] *)
Definition image_offset (rot : Rotation) (fx fy : Z) : Z :=
  (fy * fullW rot + fx) * 3.

(** offset of the first byte of the canvas pixel [(rx, ry)] *)
Definition canvas_offset (rot : Rotation) (rx ry : Z) : Z :=
  (ry * sortW rot + rx) * 3.

(** the image pixel [(fx, fy)] has a source inside the rotated canvas *)
Definition mapped (rot : Rotation) (fx fy : Z) : bool :=
  in_canvas rot (fst (unrotate_source rot fx fy)) (snd (unrotate_source rot fx fy)).

Lemma image_offset_inj rot fx fy fx' fy' c c' :
  0 <= fx < fullW rot -> 0 <= fx' < fullW rot -> 0 <= c < 3 -> 0 <= c' < 3 ->
  image_offset rot fx fy + c = image_offset rot fx' fy' + c' ->
  fx = fx' /\ fy = fy' /\ c = c'.
Proof.
  unfold image_offset. intros Hx Hx' Hc Hc' Heq.
  assert (Hpix : fy * fullW rot + fx = fy' * fullW rot + fx' /\ c = c') by lia.
  destruct Hpix as [Hpix ->].
  assert (fy = fy') as ->.
  { destruct (Z.lt_trichotomy fy fy') as [Hlt|[Heq'|Hgt]]; [exfalso | exact Heq' | exfalso].
    - assert (fullW rot <= (fy' - fy) * fullW rot) by nia. lia.
    - assert (fullW rot <= (fy - fy') * fullW rot) by nia. lia. }
  repeat split. lia.
Qed.

Section Unrotate.
Variable rot : Rotation.
Variable rotImage : list BYTE.

Lemma unrotate_row_step fy k fx dst :
  unrotate_row rot rotImage fy (S k) fx dst
  = unrotate_row rot rotImage fy k (fx + 1)
      (if mapped rot fx fy then
         copy_rgb rotImage
           (canvas_offset rot (fst (unrotate_source rot fx fy))
              (snd (unrotate_source rot fx fy)))
           dst (image_offset rot fx fy)
       else dst).
Proof.
  cbn [unrotate_row]. unfold mapped.
  destruct (unrotate_source rot fx fy) as [rx ry]. reflexivity.
Qed.

Lemma unrotate_row_length fy k : forall fx dst,
  length (unrotate_row rot rotImage fy k fx dst) = length dst.
Proof.
  induction k as [|k IH]; intros fx dst; [reflexivity|].
  rewrite unrotate_row_step, IH.
  destruct (mapped rot fx fy); [apply length_copy_rgb | reflexivity].
Qed.

(** a row of the loop changes only bytes of mapped pixels of that row *)
Lemma unrotate_row_frame fy k : forall fx dst a,
  (forall x c, fx <= x < fx + Z.of_nat k -> 0 <= c < 3 ->
     mapped rot x fy = true -> a <> image_offset rot x fy + c) ->
  buf_get (unrotate_row rot rotImage fy k fx dst) a = buf_get dst a.
Proof.
  induction k as [|k IH]; intros fx dst a Hframe; [reflexivity|].
  rewrite unrotate_row_step, IH by (intros x c Hx; apply Hframe; lia).
  destruct (mapped rot fx fy) eqn:Em; [|reflexivity].
  apply buf_get_copy_rgb_other.
  - rewrite <- (Z.add_0_r (image_offset rot fx fy)). apply Hframe; (lia || assumption).
  - apply Hframe; (lia || assumption).
  - apply Hframe; (lia || assumption).
Qed.

Lemma unrotate_row_value fy k : forall fx dst x c,
  0 <= fx -> fx + Z.of_nat k <= fullW rot -> fx <= x < fx + Z.of_nat k ->
  0 <= c < 3 -> mapped rot x fy = true ->
  0 <= image_offset rot x fy ->
  image_offset rot x fy + 2 < Z.of_nat (length dst) ->
  buf_get (unrotate_row rot rotImage fy k fx dst) (image_offset rot x fy + c)
  = buf_get rotImage
      (canvas_offset rot (fst (unrotate_source rot x fy))
         (snd (unrotate_source rot x fy)) + c).
Proof.
  induction k as [|k IH]; intros fx dst x c Hfx Hk Hx Hc Hm H0 Hlen; [lia|].
  rewrite unrotate_row_step.
  destruct (Z.eq_dec x fx) as [->|Hne].
  - rewrite Hm. rewrite unrotate_row_frame.
    + apply buf_get_copy_rgb_same; assumption.
    + intros x' c' Hx' Hc' _ Heq.
      apply image_offset_inj in Heq; try lia.
  - apply IH; try lia; try assumption.
    destruct (mapped rot fx fy); [rewrite length_copy_rgb|]; exact Hlen.
Qed.

Lemma unrotate_rows_step k fy dst :
  unrotate_rows rot rotImage (S k) fy dst
  = unrotate_rows rot rotImage k (fy + 1)
      (unrotate_row rot rotImage fy (Z.to_nat (fullW rot)) 0 dst).
Proof. reflexivity. Qed.

Lemma unrotate_rows_length k : forall fy dst,
  length (unrotate_rows rot rotImage k fy dst) = length dst.
Proof.
  induction k as [|k IH]; intros fy dst; [reflexivity|].
  rewrite unrotate_rows_step, IH. apply unrotate_row_length.
Qed.

Lemma unrotate_rows_frame k : forall fy dst a,
  (forall x y c, 0 <= x < fullW rot -> fy <= y < fy + Z.of_nat k -> 0 <= c < 3 ->
     mapped rot x y = true -> a <> image_offset rot x y + c) ->
  buf_get (unrotate_rows rot rotImage k fy dst) a = buf_get dst a.
Proof.
  induction k as [|k IH]; intros fy dst a Hframe; [reflexivity|].
  rewrite unrotate_rows_step, IH by (intros x y c Hx Hy; apply Hframe; lia).
  apply unrotate_row_frame. intros x c Hx. apply Hframe; lia.
Qed.

Lemma unrotate_rows_value k : forall fy dst x y c,
  0 <= x < fullW rot -> fy <= y < fy + Z.of_nat k ->
  0 <= c < 3 -> mapped rot x y = true ->
  0 <= image_offset rot x y ->
  image_offset rot x y + 2 < Z.of_nat (length dst) ->
  buf_get (unrotate_rows rot rotImage k fy dst) (image_offset rot x y + c)
  = buf_get rotImage
      (canvas_offset rot (fst (unrotate_source rot x y))
         (snd (unrotate_source rot x y)) + c).
Proof.
  induction k as [|k IH]; intros fy dst x y c Hx Hy Hc Hm H0 Hlen; [lia|].
  rewrite unrotate_rows_step.
  destruct (Z.eq_dec y fy) as [->|Hne].
  - rewrite unrotate_rows_frame.
    + apply unrotate_row_value; try lia; assumption.
    + intros x' y' c' Hx' Hy' Hc' _ Heq.
      apply image_offset_inj in Heq; try lia.
  - apply IH; try lia; try assumption.
    rewrite unrotate_row_length. exact Hlen.
Qed.

End Unrotate.

Lemma buf_get_replicate_zero k a : buf_get (replicate k x00) a = x00.
Proof.
  unfold buf_get. destruct (a <? 0); [reflexivity|].
  destruct (replicate k x00 !! Z.to_nat a) eqn:E; [|reflexivity].
  apply lookup_replicate in E. destruct E as [-> _]. reflexivity.
Qed.

(** X23.  The rotation back.  [(fx, fy)] is a pixel of the image that lies
    inside the image vector and [c] one of its three channels.  The step
    fills the image with zeros and then resamples: after it the byte is
    the byte of the rotated buffer at the source coordinate of the pixel
    when that coordinate lies inside the rotated canvas, and zero when it
    does not.  Nothing of what the image held before the step is left. *)
Theorem unrotate_samples_or_zero (rot : Rotation) (rotImage fullImage : list BYTE)
    (fx fy c : Z) :
  0 <= fx < fullW rot -> 0 <= fy < fullH rot -> 0 <= c < 3 ->
  image_offset rot fx fy + 2 < Z.of_nat (length fullImage) ->
  let rx := fst (unrotate_source rot fx fy) in
  let ry := snd (unrotate_source rot fx fy) in
  buf_get (unrotate rot rotImage fullImage) (image_offset rot fx fy + c)
  = (if in_canvas rot rx ry then buf_get rotImage (canvas_offset rot rx ry + c)
     else x00).
Proof.
  intros Hx Hy Hc Hlen rx ry. subst rx ry. fold (mapped rot fx fy).
  unfold unrotate, unrotate_loops.
  destruct (mapped rot fx fy) eqn:Hm.
  - apply unrotate_rows_value; try lia; try assumption.
    + unfold image_offset. nia.
    + rewrite length_replicate. exact Hlen.
  - rewrite unrotate_rows_frame; [apply buf_get_replicate_zero|].
    intros x y c' Hx' Hy' Hc' Hm' Heq.
    apply image_offset_inj in Heq; try lia.
    destruct Heq as (-> & -> & _). congruence.
Qed.

(** the canvas of an image of two by two pixels turned by 45 degrees, which
    has three by three pixels *)
Definition rotation_45 : Rotation := make_rotation (H := reference_stdlib) 45 2 2.

Definition image4 : list BYTE :=
  pixels_image [(1, 1, 1); (2, 2, 2); (3, 3, 3); (4, 4, 4)].

(** what the image holds when the step begins *)
Definition image4_before : list BYTE :=
  pixels_image [(50, 50, 50); (60, 60, 60); (70, 70, 70); (80, 80, 80)].

Lemma unrotate_samples_or_zero_witness :
  0 <= 1 < fullW rotation_45 /\ 0 <= 1 < fullH rotation_45 /\ 0 <= 0 < 3 /\
  image_offset rotation_45 1 1 + 2 < Z.of_nat (length image4_before) /\
  unrotate_source rotation_45 1 1 = (2, 1) /\
  buf_get (unrotate rotation_45 (rotate rotation_45 image4) image4_before)
    (image_offset rotation_45 1 1 + 0) = int_to_BYTE 4.
Proof.
  assert (Hx : 0 <= 1 < fullW rotation_45) by (change (0 <= 1 < 2); lia).
  assert (Hy : 0 <= 1 < fullH rotation_45) by (change (0 <= 1 < 2); lia).
  assert (Hc : 0 <= 0 < 3) by lia.
  assert (Hlen : image_offset rotation_45 1 1 + 2 < Z.of_nat (length image4_before))
    by (vm_compute; reflexivity).
  split; [exact Hx|]. split; [exact Hy|]. split; [exact Hc|].
  split; [exact Hlen|]. split; [vm_compute; reflexivity|].
  rewrite (unrotate_samples_or_zero rotation_45 (rotate rotation_45 image4)
             image4_before 1 1 0 Hx Hy Hc Hlen).
  vm_compute. reflexivity.
Defined.

(** a canvas of one pixel for an image of three: the pixels 0 and 1 of the
    image have their source at the canvas pixel, the pixel 2 has none *)
Definition narrow_canvas : Rotation :=
  mkRotation 3 1 1 1 (f64_of_int 1) f64_zero (f64_of_int 1) f64_zero
    f64_zero f64_zero.

Definition image3 : list BYTE :=
  pixels_image [(7, 7, 7); (8, 8, 8); (9, 9, 9)].

(** ** C1: two runs of the pass *)

(** normalized brightness of the pixel at position [i] of a line *)
Definition brightness_at (row : RowAccessor) (img : list BYTE) (i : Z) : float :=
  let '(r, g, b) := getRGB row img i in GetBrightnessNorm r g b.

(** The fill loop overwrites the entries [i0 .. i0 + k) of the vector. *)
Lemma edges_brightness_loop_spec row img k : forall (i0 : nat) bw,
  (i0 + k <= length bw)%nat ->
  edges_brightness_loop row img k (Z.of_nat i0) bw
  = take i0 bw ++ map (brightness_at row img) (Zseq (Z.of_nat i0) k)
      ++ drop (i0 + k) bw.
Proof.
  induction k as [|k IH]; intros i0 bw Hlen.
  - simpl. rewrite Nat.add_0_r. symmetry. apply take_drop.
  - cbn [edges_brightness_loop Zseq map].
    fold (brightness_at row img (Z.of_nat i0)).
    assert (Hstep : edges_brightness_loop row img (S k) (Z.of_nat i0) bw
                    = edges_brightness_loop row img k (Z.of_nat (S i0))
                        (<[i0 := brightness_at row img (Z.of_nat i0)]> bw)).
    { cbn [edges_brightness_loop]. unfold brightness_at.
      destruct (getRGB row img (Z.of_nat i0)) as [[r g] b].
      unfold vec_set. destruct (Z.ltb_spec (Z.of_nat i0) 0); [exfalso; lia|].
      rewrite Nat2Z.id. f_equal. lia. }
    cbn [edges_brightness_loop] in Hstep. rewrite Hstep.
    rewrite IH by (rewrite length_insert; lia).
    replace (Z.of_nat (S i0)) with (Z.of_nat i0 + 1) by lia.
    rewrite (take_S_r _ i0 (brightness_at row img (Z.of_nat i0)))
      by (apply list_lookup_insert_eq; lia).
    rewrite take_insert_ge by lia.
    rewrite drop_insert_lt by lia.
    rewrite <- app_assoc. simpl.
    replace (S (i0 + k))%nat with (i0 + S k)%nat by lia. reflexivity.
Qed.

Lemma edges_brightness_fill row img (n : nat) bw :
  edges_brightness_loop row img n 0 (resize n f32_zero bw)
  = map (brightness_at row img) (Zseq 0 n).
Proof.
  rewrite (edges_brightness_loop_spec row img n 0%nat)
    by (rewrite length_resize; lia).
  simpl. rewrite drop_ge by (rewrite length_resize; lia).
  apply app_nil_r.
Qed.

(** The spans and the generator do not depend on what the work vectors
    held. *)
Lemma DetectSpans_work `{StdLib} row img params rowIndex rng out1 bw1 out2 bw2 :
  fst (DetectSpans row img params rowIndex rng out1 bw1)
  = fst (DetectSpans row img params rowIndex rng out2 bw2).
Proof.
  unfold DetectSpans, detect_dispatch.
  destruct (intervalMode params); try reflexivity.
  - destruct (DetectSpansRandom (row_length row) rng out1) as [rng1 spans1] eqn:E1.
    destruct (DetectSpansRandom (row_length row) rng out2) as [rng2 spans2] eqn:E2.
    unfold DetectSpansRandom in E1, E2. rewrite E1 in E2. injection E2 as -> ->.
    reflexivity.
  - unfold DetectSpansEdges.
    destruct (row_length row <=? 0); [reflexivity|].
    destruct (row_length row =? 1); [reflexivity|].
    rewrite !edges_brightness_fill.
    destruct (edges_stat_loop _ _ _ _ _ _) as [[edges edgeSum] edgeSumSq].
    destruct (edges_split_loop _ _ _ _ _ _) as [prevPos outSpans].
    reflexivity.
Qed.

(** two states of the span loop with the same generator and image *)
Definition state_eq `{StdLib} (st st' : SpanState) : Prop :=
  ss_rng st = ss_rng st' /\ ss_image st = ss_image st'.

Lemma sort_span_state_eq `{StdLib} row params selectArea stride n sp st st' :
  state_eq st st' ->
  state_eq (sort_span row params selectArea stride n sp st)
           (sort_span row params selectArea stride n sp st').
Proof.
  intros [Hrng Himg]. unfold sort_span.
  destruct (span_end sp - span_start sp <? 2); [split; assumption|].
  rewrite Hrng, Himg.
  destruct (falloff_draw params (ss_rng st')) as [skip rng].
  destruct skip; [split; reflexivity|].
  destruct (collect_loop _ _ _ _ _ _ _ _ _ _ _) as [pw inc].
  destruct (Z.of_nat (length pw) <? 2); [split; reflexivity|].
  destruct (if _ && _ then _ else _) as [rng' pw'].
  split; reflexivity.
Qed.

Lemma sort_spans_state_eq `{StdLib} row params selectArea stride n spans :
  forall st st', state_eq st st' ->
  state_eq (sort_spans row params selectArea stride n spans st)
           (sort_spans row params selectArea stride n spans st').
Proof.
  induction spans as [|sp rest IH]; intros st st' Heq; [exact Heq|].
  rewrite !sort_spans_cons. apply IH, sort_span_state_eq, Heq.
Qed.

(** the generator and the image that a call leaves *)
Definition outcome `{StdLib} (r : mt19937 * Work * list BYTE) : mt19937 * list BYTE :=
  (fst (fst r), snd r).

Lemma SortLine_work `{StdLib} row params selectArea stride rowIndex rng
    work1 work2 img :
  outcome (SortLine row params selectArea stride rowIndex rng work1 img)
  = outcome (SortLine row params selectArea stride rowIndex rng work2 img).
Proof.
  unfold SortLine. destruct (row_length row <=? 0); [reflexivity|].
  pose proof (DetectSpans_work row img params rowIndex rng
                (spansWork work1) (brightnessWork work1)
                (spansWork work2) (brightnessWork work2)) as Hd.
  destruct (DetectSpans row img params rowIndex rng (spansWork work1) _)
    as [[rng1 spans1] br1].
  destruct (DetectSpans row img params rowIndex rng (spansWork work2) _)
    as [[rng2 spans2] br2].
  simpl in Hd. injection Hd as -> ->.
  destruct (sort_spans_state_eq row params selectArea stride (row_length row) spans2
              (mkSpanState rng2 (pixelsWork work1) (includedIndices work1) img)
              (mkSpanState rng2 (pixelsWork work2) (includedIndices work2) img))
    as [Hrng Himg]; [split; reflexivity|].
  unfold outcome. simpl. rewrite Hrng, Himg. reflexivity.
Qed.

Lemma sort_rows_loop_work `{StdLib} params useAngle rot fullSelect k :
  forall y rng work1 work2 sortBuf,
  outcome (sort_rows_loop params useAngle rot fullSelect k y rng work1 sortBuf)
  = outcome (sort_rows_loop params useAngle rot fullSelect k y rng work2 sortBuf).
Proof.
  induction k as [|k IH]; intros y rng work1 work2 sortBuf; [reflexivity|].
  cbn [sort_rows_loop].
  destruct (if negb useAngle && negb (is_empty fullSelect) then _ else _)
    as [selRow selStride].
  pose proof (SortLine_work (mkRow (y * sortW rot * 3) 3 (sortW rot * 3) 0 1 2
                               (sortW rot) false)
                params selRow selStride y rng work1 work2 sortBuf) as Hline.
  destruct (SortLine _ params selRow selStride y rng work1 sortBuf)
    as [[rng1 w1] buf1].
  destruct (SortLine _ params selRow selStride y rng work2 sortBuf)
    as [[rng2 w2] buf2].
  unfold outcome in Hline. simpl in Hline. injection Hline as -> ->.
  apply IH.
Qed.

Lemma sort_columns_loop_work `{StdLib} params rot fullSelect k :
  forall x rng work1 work2 sortBuf,
  outcome (sort_columns_loop params rot fullSelect k x rng work1 sortBuf)
  = outcome (sort_columns_loop params rot fullSelect k x rng work2 sortBuf).
Proof.
  induction k as [|k IH]; intros x rng work1 work2 sortBuf; [reflexivity|].
  cbn [sort_columns_loop].
  destruct (if negb (is_empty fullSelect) then _ else _) as [selCol selStride].
  pose proof (SortLine_work (mkRow (x * 3) 3 (sortW rot * 3) 0 1 2 (sortH rot) true)
                params selCol selStride x rng work1 work2 sortBuf) as Hline.
  destruct (SortLine _ params selCol selStride x rng work1 sortBuf)
    as [[rng1 w1] buf1].
  destruct (SortLine _ params selCol selStride x rng work2 sortBuf)
    as [[rng2 w2] buf2].
  unfold outcome in Hline. simpl in Hline. injection Hline as -> ->.
  apply IH.
Qed.

Lemma full_image_pass_work `{StdLib} params w h fullImage fullSelect hasSelection
    rng work1 work2 :
  outcome (full_image_pass params w h fullImage fullSelect hasSelection rng work1)
  = outcome (full_image_pass params w h fullImage fullSelect hasSelection rng work2).
Proof.
  unfold full_image_pass. cbv zeta.
  destruct (direction params).
  - set (useAngle := negb (angle params =? 0) && true).
    set (rot := if useAngle then _ else _).
    set (sortBuf := if useAngle then rotate rot fullImage else fullImage).
    pose proof (sort_rows_loop_work params useAngle rot fullSelect
                  (Z.to_nat (sortH rot)) 0 rng work1 work2 sortBuf) as Hs.
    destruct (sort_rows_loop params useAngle rot fullSelect _ 0 rng work1 sortBuf)
      as [[rng1 w1] buf1].
    destruct (sort_rows_loop params useAngle rot fullSelect _ 0 rng work2 sortBuf)
      as [[rng2 w2] buf2].
    unfold outcome in Hs. simpl in Hs. injection Hs as -> ->. reflexivity.
  - set (useAngle := negb (angle params =? 0) && false).
    set (rot := if useAngle then _ else _).
    set (sortBuf := if useAngle then rotate rot fullImage else fullImage).
    pose proof (sort_columns_loop_work params rot fullSelect
                  (Z.to_nat (sortW rot)) 0 rng work1 work2 sortBuf) as Hs.
    destruct (sort_columns_loop params rot fullSelect _ 0 rng work1 sortBuf)
      as [[rng1 w1] buf1].
    destruct (sort_columns_loop params rot fullSelect _ 0 rng work2 sortBuf)
      as [[rng2 w2] buf2].
    unfold outcome in Hs. simpl in Hs. injection Hs as -> ->. reflexivity.
Qed.

(** C1.  For one seed, one record of properties (clamped by the pass), one
    gathered image and one selection, two runs of the pass deliver the same
    image and leave the generator in the same state, whatever state the
    generator and the work vectors were left in by earlier runs. *)
Theorem run_pass_deterministic `{StdLib} (seed : Z) (properties : PixelSortParams)
    (w h : Z) (fullImage fullSelect : list BYTE) (hasSelection : bool)
    (rng1 rng2 : mt19937) (work1 work2 : Work) :
  let run1 :=
    run_pass seed properties w h fullImage fullSelect hasSelection rng1 work1 in
  let run2 :=
    run_pass seed properties w h fullImage fullSelect hasSelection rng2 work2 in
  snd run1 = snd run2 /\ fst (fst run1) = fst (fst run2).
Proof.
  intros run1 run2. subst run1 run2. unfold run_pass.
  destruct ((0 <? w) && (0 <? h)); [|split; reflexivity].
  pose proof (full_image_pass_work (ClampParams properties) w h fullImage
                fullSelect hasSelection (mt19937_seed seed) work1 work2) as Hp.
  split; [exact (f_equal snd Hp) | exact (f_equal fst Hp)].
Qed.

(* ===================================================================== *)
(** * Further properties of the code *)
(* ===================================================================== *)

(** ** ClampParams *)

(** [((a % 360) + 360) % 360] with the truncating [%] of C++ is the
    remainder of the floored division. *)
Lemma wrap_angle_mod (a : Z) : Z.rem (Z.rem a 360 + 360) 360 = a mod 360.
Proof.
  pose proof (Z.quot_rem' a 360) as Ha.
  assert (Hr : -360 < Z.rem a 360 < 360).
  { assert (H360 : 360 <> 0) by lia.
    pose proof (Z.rem_bound_abs a 360 H360). lia. }
  set (r := Z.rem a 360) in *.
  assert (Hrr : Z.rem (r + 360) 360 = (r + 360) mod 360)
    by (apply Z.rem_mod_nonneg; lia).
  rewrite Hrr.
  rewrite Ha at 1.
  replace (360 * (a ÷ 360) + r) with (r + 360 + (a ÷ 360 - 1) * 360) by lia.
  rewrite Z.mod_add by lia. reflexivity.
Qed.

Lemma ClampParams_valid_aux (p : PixelSortParams) : valid_params (ClampParams p).
Proof.
  assert (H360 : 0 < 360) by lia.
  pose proof (Z.mod_pos_bound (angle p) 360 H360) as Hang.
  constructor; unfold ClampParams; cbn [lowerThreshold upperThreshold jitter
    spanMin spanMax angle falloff].
  - lia.
  - destruct (Z.ltb_spec (Z.max 0 (Z.min 255 (upperThreshold p)))
                (Z.max 0 (Z.min 255 (lowerThreshold p)))); lia.
  - lia.
  - lia.
  - destruct (Z.ltb_spec 0 (Z.max 0 (Z.min 10000 (spanMax p))));
      destruct (Z.ltb_spec (Z.max 0 (Z.min 10000 (spanMax p)))
                  (Z.max 1 (Z.min 10000 (spanMin p)))); cbn [andb]; lia.
  - rewrite wrap_angle_mod. lia.
  - lia.
Qed.

Lemma ClampParamsRaw_valid (p : PixelSortParamsRaw) :
  valid_params_raw (ClampParamsRaw p).
Proof.
  assert (H360 : 0 < 360) by lia.
  pose proof (Z.mod_pos_bound (raw_angle p) 360 H360) as Hang.
  constructor; unfold ClampParamsRaw; cbn [raw_direction raw_sortKey
    raw_intervalMode raw_lowerThreshold raw_upperThreshold raw_jitter
    raw_spanMin raw_spanMax raw_angle raw_falloff SortDirection_value
    SortKey_value IntervalMode_value].
  - destruct (Z.ltb_spec (raw_direction p) 0), (Z.ltb_spec 1 (raw_direction p));
      cbn [orb]; lia.
  - destruct (Z.ltb_spec (raw_sortKey p) 0), (Z.ltb_spec 7 (raw_sortKey p));
      cbn [orb]; lia.
  - destruct (Z.ltb_spec (raw_intervalMode p) 0),
      (Z.ltb_spec 4 (raw_intervalMode p)); cbn [orb]; lia.
  - lia.
  - destruct (Z.ltb_spec (Z.max 0 (Z.min 255 (raw_upperThreshold p)))
                (Z.max 0 (Z.min 255 (raw_lowerThreshold p)))); lia.
  - lia.
  - lia.
  - destruct (Z.ltb_spec 0 (Z.max 0 (Z.min 10000 (raw_spanMax p))));
      destruct (Z.ltb_spec (Z.max 0 (Z.min 10000 (raw_spanMax p)))
                  (Z.max 1 (Z.min 10000 (raw_spanMin p)))); cbn [andb]; lia.
  - rewrite wrap_angle_mod. lia.
  - lia.
Qed.

Lemma ClampParamsRaw_fixes (q : PixelSortParamsRaw) :
  valid_params_raw q -> ClampParamsRaw q = q.
Proof.
  intros [Hdir Hkey Hmode Hlo Hup Hjit Hmin Hmax Hang Hfall].
  destruct q as [dir key mode lo up rev_ jit smin smax ang fall].
  cbn [raw_direction raw_sortKey raw_intervalMode raw_lowerThreshold
       raw_upperThreshold raw_jitter raw_spanMin raw_spanMax raw_angle
       raw_falloff] in *.
  unfold ClampParamsRaw.
  cbn [raw_direction raw_sortKey raw_intervalMode raw_lowerThreshold
       raw_upperThreshold raw_reverse raw_jitter raw_spanMin raw_spanMax
       raw_angle raw_falloff].
  rewrite wrap_angle_mod, (Z.mod_small ang 360) by lia.
  replace (Z.max 0 (Z.min 255 lo)) with lo by lia.
  replace (Z.max 0 (Z.min 255 up)) with up by lia.
  replace (Z.max 0 (Z.min 100 jit)) with jit by lia.
  replace (Z.max 0 (Z.min 100 fall)) with fall by lia.
  replace (Z.max 1 (Z.min 10000 smin)) with smin by lia.
  replace (Z.max 0 (Z.min 10000 smax)) with smax by lia.
  destruct (Z.ltb_spec dir 0); [lia|]. destruct (Z.ltb_spec 1 dir); [lia|].
  destruct (Z.ltb_spec key 0); [lia|]. destruct (Z.ltb_spec 7 key); [lia|].
  destruct (Z.ltb_spec mode 0); [lia|]. destruct (Z.ltb_spec 4 mode); [lia|].
  destruct (Z.ltb_spec up lo); [lia|].
  destruct (Z.ltb_spec 0 smax); destruct (Z.ltb_spec smax smin);
    cbn [andb orb]; try reflexivity; lia.
Qed.

(** Read as parameters, the clamped struct is [ClampParams] of the struct
    read as parameters. *)
Lemma ClampParams_of_raw (p : PixelSortParamsRaw) :
  params_of_raw (ClampParamsRaw p) = ClampParams (params_of_raw p).
Proof.
  unfold ClampParamsRaw, ClampParams, params_of_raw.
  cbn [raw_direction raw_sortKey raw_intervalMode raw_lowerThreshold
       raw_upperThreshold raw_reverse raw_jitter raw_spanMin raw_spanMax
       raw_angle raw_falloff direction sortKey intervalMode lowerThreshold
       upperThreshold reverse jitter spanMin spanMax angle falloff].
  f_equal.
  - destruct ((raw_direction p <? 0) || (1 <? raw_direction p)) eqn:E;
      [|reflexivity].
    unfold SortDirection_of_int at 2. rewrite E. reflexivity.
  - destruct ((raw_sortKey p <? 0) || (7 <? raw_sortKey p)) eqn:E;
      [|reflexivity].
    unfold SortKey_of_int at 2. rewrite E. reflexivity.
  - destruct ((raw_intervalMode p <? 0) || (4 <? raw_intervalMode p)) eqn:E;
      [|reflexivity].
    unfold IntervalMode_of_int at 2. rewrite E. reflexivity.
Qed.

(** X1.  Whatever the struct holds, [ClampParams] leaves every field in its
    range: the three enumeration fields hold a value of their enumeration
    (a value outside it becomes the first enumerator), the thresholds are
    in [0, 255] with the upper one not below the lower one, [jitter] and
    [falloff] are in [0, 100], [spanMin] is in [1, 10000], [spanMax] is
    either 0 or between [spanMin] and 10000, and [angle] is in [0, 359].
    It changes a struct exactly when one of these fails, clamping twice is
    clamping once, and on the struct read as parameters it is the
    [ClampParams] of the pass. *)
Theorem ClampParams_normalizes (p : PixelSortParamsRaw) :
  valid_params_raw (ClampParamsRaw p) /\
  (ClampParamsRaw p = p <-> valid_params_raw p) /\
  ClampParamsRaw (ClampParamsRaw p) = ClampParamsRaw p /\
  params_of_raw (ClampParamsRaw p) = ClampParams (params_of_raw p).
Proof.
  split; [apply ClampParamsRaw_valid|]. split; [split|split].
  - intros Heq. rewrite <- Heq. apply ClampParamsRaw_valid.
  - apply ClampParamsRaw_fixes.
  - apply ClampParamsRaw_fixes, ClampParamsRaw_valid.
  - apply ClampParams_of_raw.
Qed.

(** X2.  The clamped angle is the angle modulo 360 (floored): a negative
    angle wraps around to [0, 359]. *)
Theorem ClampParams_angle_wraps (p : PixelSortParams) :
  angle (ClampParams p) = angle p mod 360 /\
  angle (ClampParams (mkParams (direction p) (sortKey p) (intervalMode p)
                        (lowerThreshold p) (upperThreshold p) (reverse p)
                        (jitter p) (spanMin p) (spanMax p) (angle p + 360)
                        (falloff p)))
  = angle (ClampParams p).
Proof.
  unfold ClampParams. cbn [angle]. rewrite !wrap_angle_mod. split; [reflexivity|].
  replace (angle p + 360) with (angle p + 1 * 360) by lia.
  apply Z.mod_add. lia.
Qed.

(** ** Span detectors: coverage of the line *)

Lemma tiles_snoc lo m e l :
  tiles lo m l -> m < e -> tiles lo e (l ++ [mkSpan m e]).
Proof.
  induction 1 as [lo | lo e' hi l Hlt Ht IH]; intros Hme; simpl.
  - constructor; [exact Hme | constructor].
  - constructor; [exact Hlt | apply IH, Hme].
Qed.

Lemma tiles_le lo hi l : tiles lo hi l -> lo <= hi.
Proof. induction 1; lia. Qed.

(** Every position between the two ends of a tiling lies in one of its
    spans. *)
Lemma tiles_cover lo hi l p :
  tiles lo hi l -> lo <= p < hi ->
  exists sp, In sp l /\ span_start sp <= p < span_end sp.
Proof.
  induction 1 as [lo | lo e hi l Hlt Ht IH]; intros Hp; [lia|].
  destruct (Z_lt_ge_dec p e) as [Hin | Hout].
  - exists (mkSpan lo e). split; [left; reflexivity | simpl; lia].
  - destruct IH as [sp [Hsp Hr]]; [lia|].
    exists sp. split; [right; exact Hsp | exact Hr].
Qed.

Lemma edges_split_loop_tiles edges threshold k : forall i prevPos out,
  0 <= prevPos <= i -> tiles 0 prevPos out ->
  let r := edges_split_loop edges threshold k i prevPos out in
  0 <= fst r <= i + Z.of_nat k /\ tiles 0 (fst r) (snd r).
Proof.
  induction k as [|k IH]; intros i prevPos out Hp Ht; simpl.
  - split; [lia | exact Ht].
  - destruct (f32_gt (vec_get f32_zero edges i) threshold).
    + destruct (Z.ltb_spec prevPos (i + 1)) as [Hlt | Hge]; [|lia].
      specialize (IH (i + 1) (i + 1) (out ++ [mkSpan prevPos (i + 1)])).
      destruct IH as [Hr Htr]; [lia | apply tiles_snoc; [exact Ht | lia] |].
      split; [lia | exact Htr].
    + specialize (IH (i + 1) prevPos out).
      destruct IH as [Hr Htr]; [lia | exact Ht |].
      split; [lia | exact Htr].
Qed.

Lemma DetectSpansEdges_tiles row img outSpans brightness :
  0 < row_length row ->
  tiles 0 (row_length row) (fst (DetectSpansEdges row img outSpans brightness)).
Proof.
  intros Hn. unfold DetectSpansEdges.
  destruct (Z.leb_spec (row_length row) 0) as [Hle | _]; [lia|].
  destruct (Z.eqb_spec (row_length row) 1) as [H1 | Hne].
  - simpl. rewrite H1. constructor; [lia | constructor].
  - destruct (edges_stat_loop _ _ _ _ _ _) as [[edges edgeSum] edgeSumSq].
    match goal with
    | |- context [edges_split_loop ?e ?t ?k 0 0 []] =>
        pose proof (edges_split_loop_tiles e t k 0 0 []) as Hloop;
        destruct (edges_split_loop e t k 0 0 []) as [prevPos spans]
    end.
    destruct Hloop as [Hr Ht]; [lia | constructor |].
    simpl in Hr, Ht. rewrite Z2Nat.id in Hr by lia.
    destruct (Z.ltb_spec prevPos (row_length row)) as [Hlt | Hge]; [|lia].
    simpl. apply tiles_snoc; [exact Ht | exact Hlt].
Qed.

(** X3.  On a line of at least one pixel the Edges and None detectors
    return spans that partition the line: the first starts at 0, each next
    one starts where the previous one ends, the last ends at the line
    length, so every position lies in a span; None returns the single span
    [0, n).  Neither draws from the generator. *)
Theorem edges_and_none_spans_tile `{StdLib} (row : RowAccessor) (img : list BYTE)
    (params : PixelSortParams) (rowIndex : Z) (rng : mt19937)
    (outSpans : list Span) (brightness : list float) :
  0 < row_length row ->
  intervalMode params = kIntervalModeEdges \/
  intervalMode params = kIntervalModeNone ->
  let n := row_length row in
  let result := detect_dispatch row img params rowIndex rng outSpans brightness in
  let spans := snd (fst result) in
  fst (fst result) = rng /\
  tiles 0 n spans /\
  (forall p, 0 <= p < n ->
     exists sp, In sp spans /\ span_start sp <= p < span_end sp) /\
  (intervalMode params = kIntervalModeNone -> spans = [mkSpan 0 n]).
Proof.
  intros Hn Hmode n result spans.
  assert (Hres : fst (fst result) = rng /\ tiles 0 n spans /\
                 (intervalMode params = kIntervalModeNone -> spans = [mkSpan 0 n])).
  { subst spans result n. unfold detect_dispatch.
    destruct Hmode as [Hm | Hm]; rewrite Hm.
    - pose proof (DetectSpansEdges_tiles row img outSpans brightness Hn) as Ht.
      destruct (DetectSpansEdges row img outSpans brightness) as [out bw].
      split; [reflexivity|]. split; [exact Ht | discriminate].
    - unfold DetectSpansNone.
      destruct (Z.leb_spec (row_length row) 0) as [Hle | _]; [lia|].
      split; [reflexivity|]. split; [|reflexivity].
      simpl. constructor; [exact Hn | constructor]. }
  destruct Hres as [Hrng [Ht Hnone]].
  split; [exact Hrng|]. split; [exact Ht|]. split; [|exact Hnone].
  intros p Hp. apply (tiles_cover 0 n); assumption.
Qed.

Definition params_edges : PixelSortParams :=
  mkParams kSortDirectionHorizontal kSortKeyBrightness kIntervalModeEdges
    64 204 false 0 1 0 0 0.

Lemma edges_and_none_spans_tile_witness :
  0 < row_length (packed_row 5) /\
  tiles 0 5
    (snd (fst (detect_dispatch (H := reference_stdlib) (packed_row 5)
                 threshold_example_line params_edges 0 42 [] []))).
Proof.
  assert (Hn : 0 < row_length (packed_row 5)) by (simpl; lia).
  split; [exact Hn|].
  apply (edges_and_none_spans_tile (H := reference_stdlib) (packed_row 5)
           threshold_example_line params_edges 0 42 [] [] Hn).
  left. reflexivity.
Defined.

(** ** Random spans *)

(** The spans of Random mode from position [i] on: a span of [len] pixels
    (cut at the end of the line), then [gap] pixels that belong to no
    span. *)
Inductive random_chain (n maxLen : Z) : Z -> list Span -> Prop :=
| random_chain_done i : n <= i -> random_chain n maxLen i []
| random_chain_next i len gap l :
    i < n -> 10 <= len <= maxLen -> 1 <= gap <= 20 ->
    random_chain n maxLen (Z.min (i + len) n + gap) l ->
    random_chain n maxLen i (mkSpan i (Z.min (i + len) n) :: l).

Lemma random_loop_chain `{StdLib} n maxLen fuel : forall i rng out,
  10 <= maxLen -> 0 <= i -> (Z.to_nat (n - i) <= fuel)%nat ->
  exists cs, random_chain n maxLen i cs /\
             snd (random_loop fuel n maxLen i rng out) = out ++ cs.
Proof.
  induction fuel as [|fuel IH]; intros i rng out Hmax Hi Hfuel.
  - exists []. split; [constructor; lia | simpl; symmetry; apply app_nil_r].
  - simpl. destruct (Z.ltb_spec i n) as [Hlt | Hge].
    + pose proof (uniform_int_distribution_range 10 maxLen rng Hmax) as Hlen.
      destruct (uniform_int_distribution 10 maxLen rng) as [len rng1].
      assert (H120 : 1 <= 20) by lia.
      pose proof (uniform_int_distribution_range 1 20 rng1 H120) as Hgap.
      destruct (uniform_int_distribution 1 20 rng1) as [gap rng2].
      simpl in Hlen, Hgap.
      destruct (IH (Z.min (i + len) n + gap) rng2
                  (out ++ [mkSpan i (Z.min (i + len) n)])) as [cs [Hcs Heq]];
        [exact Hmax | lia | lia |].
      exists (mkSpan i (Z.min (i + len) n) :: cs). split.
      * econstructor; eassumption.
      * rewrite Heq, <- app_assoc. reflexivity.
    + exists []. split; [constructor; lia | simpl; symmetry; apply app_nil_r].
Qed.

Lemma random_chain_lengths n maxLen i cs :
  random_chain n maxLen i cs ->
  Forall (fun sp => 1 <= span_len sp <= maxLen /\
                    (10 <= span_len sp \/ span_end sp = n)) cs.
Proof.
  induction 1 as [i Hi | i len gap l Hi Hlen Hgap Hc IH]; constructor.
  - unfold span_len. simpl. lia.
  - exact IH.
Qed.

Lemma random_chain_gaps n maxLen i cs :
  random_chain n maxLen i cs ->
  forall (k : nat) a b, cs !! k = Some a -> cs !! S k = Some b ->
    1 <= span_start b - span_end a <= 20.
Proof.
  induction 1 as [i Hi | i len gap l Hi Hlen Hgap Hc IH]; intros k a b Ha Hb.
  - discriminate.
  - destruct k as [|k].
    + simpl in Ha, Hb. injection Ha as <-.
      inversion Hc as [i' Hi' | i' len' gap' l' Hi' Hlen' Hgap' Hc']; subst.
      * discriminate.
      * simpl in Hb. injection Hb as <-. simpl. lia.
    + simpl in Ha, Hb. exact (IH k a b Ha Hb).
Qed.

(** X4.  On a line of [n > 0] pixels Random mode returns a first span that
    starts at 0; every span has between 1 and [max(11, n / 4)] pixels, and at
    least 10 unless it is cut at the end of the line; between the end of a
    span and the start of the next lie 1 to 20 pixels that belong to no
    span. *)
Theorem random_spans_shape `{StdLib} (n : Z) (rng : mt19937) (outSpans : list Span) :
  0 < n ->
  let maxLen := Z.max 11 (Z.quot n 4) in
  let spans := snd (DetectSpansRandom n rng outSpans) in
  random_chain n maxLen 0 spans /\
  (exists e rest, spans = mkSpan 0 e :: rest) /\
  Forall (fun sp => 1 <= span_len sp <= maxLen /\
                    (10 <= span_len sp \/ span_end sp = n)) spans /\
  (forall (k : nat) a b, spans !! k = Some a -> spans !! S k = Some b ->
     1 <= span_start b - span_end a <= 20).
Proof.
  intros Hn maxLen spans.
  assert (Hchain : random_chain n maxLen 0 spans).
  { subst spans. unfold DetectSpansRandom.
    destruct (Z.leb_spec n 0) as [Hle | _]; [lia|].
    destruct (random_loop_chain n maxLen (Z.to_nat n) 0 rng [])
      as [cs [Hcs Heq]]; [subst maxLen; lia | lia | lia |].
    fold maxLen. rewrite Heq. exact Hcs. }
  split; [exact Hchain|]. split; [|split].
  - inversion Hchain as [i Hi | i len gap l Hi Hlen Hgap Hc]; [lia|].
    eexists. eexists. reflexivity.
  - eapply random_chain_lengths, Hchain.
  - eapply random_chain_gaps, Hchain.
Qed.

Lemma random_spans_shape_witness :
  0 < 40 /\
  random_chain 40 (Z.max 11 (Z.quot 40 4)) 0
    (snd (DetectSpansRandom (H := reference_stdlib) 40 42 [])).
Proof.
  assert (Hn : 0 < 40) by lia.
  split; [exact Hn|].
  apply (random_spans_shape (H := reference_stdlib) 40 42 [] Hn).
Defined.

(** ** SortLine and the two line loops of the pass *)

(** The image [SortLine] leaves, in terms of the span loop. *)
Lemma SortLine_image `{StdLib} row params selectArea stride rowIndex rng work img :
  snd (SortLine row params selectArea stride rowIndex rng work img)
  = if row_length row <=? 0 then img
    else
      let detected :=
        DetectSpans row img params rowIndex rng (spansWork work)
          (brightnessWork work) in
      ss_image
        (sort_spans row params selectArea stride (row_length row)
           (snd (fst detected))
           (mkSpanState (fst (fst detected)) (pixelsWork work)
              (includedIndices work) img)).
Proof.
  unfold SortLine. destruct (row_length row <=? 0); [reflexivity|].
  cbv zeta.
  destruct (DetectSpans row img params rowIndex rng (spansWork work)
              (brightnessWork work)) as [[rng1 spans1] br1].
  reflexivity.
Qed.

Lemma DetectSpans_in_line `{StdLib} row img params rowIndex rng outSpans brightness sp :
  In sp (snd (fst (DetectSpans row img params rowIndex rng outSpans brightness))) ->
  0 <= span_start sp /\ span_start sp < span_end sp /\
  span_end sp <= Z.max 0 (row_length row).
Proof.
  intros Hin.
  exact (span_seq_In _ _ _ _
           (DetectSpans_seq row img params rowIndex rng outSpans brightness) Hin).
Qed.

Lemma SortLine_length `{StdLib} row params selectArea stride rowIndex rng work img :
  length (snd (SortLine row params selectArea stride rowIndex rng work img))
  = length img.
Proof.
  rewrite SortLine_image. destruct (row_length row <=? 0); [reflexivity|].
  cbv zeta. rewrite sort_spans_length. reflexivity.
Qed.

(** A byte that belongs to no qualifying position of the line is not
    written. *)
Lemma SortLine_byte_frame `{StdLib} row params selectArea stride rowIndex rng work
    img a :
  (forall p, 0 <= p < row_length row ->
     qualifies selectArea stride p = true -> ~ touches row p a) ->
  buf_get (snd (SortLine row params selectArea stride rowIndex rng work img)) a
  = buf_get img a.
Proof.
  intros Hframe. rewrite SortLine_image.
  destruct (Z.leb_spec (row_length row) 0) as [Hle | Hn]; [reflexivity|].
  cbv zeta. rewrite sort_spans_frame; [reflexivity | |].
  - intros sp Hin. apply DetectSpans_in_line in Hin. lia.
  - intros sp p Hin Hp Hq. apply DetectSpans_in_line in Hin.
    apply Hframe; [lia | exact Hq].
Qed.

(** the accessor and the selection pointer of row [y] of the sort buffer *)
Definition row_of (rot : Rotation) (y : Z) : RowAccessor :=
  mkRow (y * sortW rot * 3) 3 (sortW rot * 3) 0 1 2 (sortW rot) false.

Definition row_select (useAngle : bool) (rot : Rotation) (fullSelect : list BYTE)
    (y : Z) : option SelectArea * Z :=
  if negb useAngle && negb (is_empty fullSelect) then
    (Some (mkSelectArea fullSelect (y * fullW rot)), 1)
  else (None, 0).

(** the accessor and the selection pointer of column [x] *)
Definition column_of (rot : Rotation) (x : Z) : RowAccessor :=
  mkRow (x * 3) 3 (sortW rot * 3) 0 1 2 (sortH rot) true.

Definition column_select (rot : Rotation) (fullSelect : list BYTE) (x : Z)
    : option SelectArea * Z :=
  if negb (is_empty fullSelect) then
    (Some (mkSelectArea fullSelect x), fullW rot)
  else (None, 0).

Lemma sort_rows_loop_step `{StdLib} params useAngle rot fullSelect k y rng work buf :
  sort_rows_loop params useAngle rot fullSelect (S k) y rng work buf
  = let line :=
      SortLine (row_of rot y) params (fst (row_select useAngle rot fullSelect y))
        (snd (row_select useAngle rot fullSelect y)) y rng work buf in
    sort_rows_loop params useAngle rot fullSelect k (y + 1)
      (fst (fst line)) (snd (fst line)) (snd line).
Proof.
  cbn [sort_rows_loop]. unfold row_select, row_of.
  destruct (negb useAngle && negb (is_empty fullSelect)); cbn [fst snd];
    destruct (SortLine _ _ _ _ _ _ _ _) as [[rng1 w1] buf1]; reflexivity.
Qed.

Lemma sort_columns_loop_step `{StdLib} params rot fullSelect k x rng work buf :
  sort_columns_loop params rot fullSelect (S k) x rng work buf
  = let line :=
      SortLine (column_of rot x) params (fst (column_select rot fullSelect x))
        (snd (column_select rot fullSelect x)) x rng work buf in
    sort_columns_loop params rot fullSelect k (x + 1)
      (fst (fst line)) (snd (fst line)) (snd line).
Proof.
  cbn [sort_columns_loop]. unfold column_select, column_of.
  destruct (negb (is_empty fullSelect)); cbn [fst snd];
    destruct (SortLine _ _ _ _ _ _ _ _) as [[rng1 w1] buf1]; reflexivity.
Qed.

(** What every call of [SortLine] keeps, the loop keeps. *)
Lemma sort_rows_loop_inv `{StdLib} (I : list BYTE -> Prop) params useAngle rot
    fullSelect k : forall y rng work buf,
  (forall y' rng' work' buf', y <= y' < y + Z.of_nat k -> I buf' ->
     I (snd (SortLine (row_of rot y') params
               (fst (row_select useAngle rot fullSelect y'))
               (snd (row_select useAngle rot fullSelect y')) y' rng' work' buf'))) ->
  I buf ->
  I (snd (sort_rows_loop params useAngle rot fullSelect k y rng work buf)).
Proof.
  induction k as [|k IH]; intros y rng work buf Hstep Hbuf; [exact Hbuf|].
  rewrite sort_rows_loop_step. cbv zeta. apply IH.
  - intros y' rng' work' buf' Hy. apply Hstep. lia.
  - apply Hstep; [lia | exact Hbuf].
Qed.

Lemma sort_columns_loop_inv `{StdLib} (I : list BYTE -> Prop) params rot
    fullSelect k : forall x rng work buf,
  (forall x' rng' work' buf', x <= x' < x + Z.of_nat k -> I buf' ->
     I (snd (SortLine (column_of rot x') params
               (fst (column_select rot fullSelect x'))
               (snd (column_select rot fullSelect x')) x' rng' work' buf'))) ->
  I buf ->
  I (snd (sort_columns_loop params rot fullSelect k x rng work buf)).
Proof.
  induction k as [|k IH]; intros x rng work buf Hstep Hbuf; [exact Hbuf|].
  rewrite sort_columns_loop_step. cbv zeta. apply IH.
  - intros x' rng' work' buf' Hx. apply Hstep. lia.
  - apply Hstep; [lia | exact Hbuf].
Qed.

(** [useAngle] of the pass *)
Definition use_angle (params : PixelSortParams) : bool :=
  negb (angle params =? 0) &&
  match direction params with
  | kSortDirectionHorizontal => true
  | kSortDirectionVertical => false
  end.

(** The image of the pass when no rotation takes place: the image the line
    loop leaves. *)
Lemma full_image_pass_plain `{StdLib} params w h fullImage fullSelect hasSelection
    rng work :
  use_angle params = false ->
  snd (full_image_pass params w h fullImage fullSelect hasSelection rng work)
  = match direction params with
    | kSortDirectionHorizontal =>
        snd (sort_rows_loop params false (no_rotation w h) fullSelect
               (Z.to_nat h) 0 rng work fullImage)
    | kSortDirectionVertical =>
        snd (sort_columns_loop params (no_rotation w h) fullSelect
               (Z.to_nat w) 0 rng work fullImage)
    end.
Proof.
  unfold use_angle, full_image_pass. intros Hangle. cbv zeta. rewrite Hangle.
  cbn [andb sortH sortW no_rotation].
  destruct (direction params).
  - destruct (sort_rows_loop _ _ _ _ _ _ _ _ _) as [[rng1 w1] buf1]. reflexivity.
  - destruct (sort_columns_loop _ _ _ _ _ _ _ _) as [[rng1 w1] buf1]. reflexivity.
Qed.

(** The image of the pass when the sort buffer is the rotated canvas. *)
Lemma full_image_pass_rotated `{StdLib} params w h fullImage fullSelect hasSelection
    rng work :
  use_angle params = true ->
  let rot := make_rotation (angle params) w h in
  let sorted :=
    snd (sort_rows_loop params true rot fullSelect (Z.to_nat (sortH rot)) 0 rng
           work (rotate rot fullImage)) in
  let back := unrotate rot sorted fullImage in
  snd (full_image_pass params w h fullImage fullSelect hasSelection rng work)
  = if hasSelection && negb (is_empty fullSelect) then
      blend_selection_loop fullImage fullSelect (Z.to_nat (w * h)) 0 back
    else back.
Proof.
  unfold use_angle, full_image_pass. intros Hangle. cbv zeta. rewrite Hangle.
  assert (Hdir : direction params = kSortDirectionHorizontal).
  { destruct (direction params); [reflexivity|].
    rewrite andb_false_r in Hangle. discriminate. }
  rewrite Hdir. cbn [andb].
  destruct (sort_rows_loop _ _ _ _ _ _ _ _ _) as [[rng1 w1] buf1]. cbn [snd].
  destruct (hasSelection && negb (is_empty fullSelect)); reflexivity.
Qed.

(** ** A falloff of 100 *)

Lemma falloff_draw_always `{StdLib} params rng :
  100 <= falloff params -> fst (falloff_draw params rng) = true.
Proof.
  intros Hf. unfold falloff_draw.
  destruct (Z.ltb_spec 0 (falloff params)) as [_ | Hle]; [|lia].
  assert (H099 : 0 <= 99) by lia.
  pose proof (uniform_int_distribution_range 0 99 rng H099) as Hd.
  destruct (uniform_int_distribution 0 99 rng) as [d rng1]. simpl in *.
  apply Z.ltb_lt. lia.
Qed.

Lemma sort_span_falloff_all `{StdLib} row params selectArea stride n sp st :
  100 <= falloff params ->
  ss_image (sort_span row params selectArea stride n sp st) = ss_image st.
Proof.
  intros Hf. unfold sort_span.
  destruct (span_end sp - span_start sp <? 2); [reflexivity|].
  pose proof (falloff_draw_always params (ss_rng st) Hf) as Hskip.
  destruct (falloff_draw params (ss_rng st)) as [skip rng1].
  simpl in Hskip. subst skip. reflexivity.
Qed.

Lemma sort_spans_falloff_all `{StdLib} row params selectArea stride n spans :
  forall st, 100 <= falloff params ->
  ss_image (sort_spans row params selectArea stride n spans st) = ss_image st.
Proof.
  induction spans as [|sp rest IH]; intros st Hf; [reflexivity|].
  rewrite sort_spans_cons, IH by exact Hf. apply sort_span_falloff_all, Hf.
Qed.

Lemma SortLine_falloff_all `{StdLib} row params selectArea stride rowIndex rng work img :
  100 <= falloff params ->
  snd (SortLine row params selectArea stride rowIndex rng work img) = img.
Proof.
  intros Hf. rewrite SortLine_image.
  destruct (row_length row <=? 0); [reflexivity|]. cbv zeta.
  rewrite sort_spans_falloff_all by exact Hf. reflexivity.
Qed.

Lemma full_image_pass_falloff_all `{StdLib} params w h fullImage fullSelect
    hasSelection rng work :
  100 <= falloff params -> use_angle params = false ->
  snd (full_image_pass params w h fullImage fullSelect hasSelection rng work)
  = fullImage.
Proof.
  intros Hf Hangle. rewrite full_image_pass_plain by exact Hangle.
  destruct (direction params).
  - apply (sort_rows_loop_inv (fun buf => buf = fullImage)); [|reflexivity].
    intros y' rng' work' buf' _ ->. apply SortLine_falloff_all, Hf.
  - apply (sort_columns_loop_inv (fun buf => buf = fullImage)); [|reflexivity].
    intros x' rng' work' buf' _ ->. apply SortLine_falloff_all, Hf.
Qed.

Lemma ClampParams_plain properties :
  angle properties mod 360 = 0 \/ direction properties = kSortDirectionVertical ->
  use_angle (ClampParams properties) = false.
Proof.
  intros Hplain. unfold use_angle, ClampParams. cbn [angle direction].
  rewrite wrap_angle_mod. destruct Hplain as [-> | ->];
    [reflexivity | apply andb_false_r].
Qed.

(** X5.  With a falloff of 100 or more (clamped to 100) every span is
    skipped: when the pass does not rotate (the clamped angle is 0, or the
    direction is vertical) it returns the image it was given. *)
Theorem falloff_100_returns_input `{StdLib} (seed : Z) (properties : PixelSortParams)
    (w h : Z) (fullImage fullSelect : list BYTE) (hasSelection : bool)
    (rng : mt19937) (work : Work) :
  100 <= falloff properties ->
  angle properties mod 360 = 0 \/ direction properties = kSortDirectionVertical ->
  snd (run_pass seed properties w h fullImage fullSelect hasSelection rng work)
  = fullImage.
Proof.
  intros Hf Hplain. unfold run_pass.
  destruct ((0 <? w) && (0 <? h)); [|reflexivity].
  apply full_image_pass_falloff_all.
  - unfold ClampParams. cbn [falloff]. lia.
  - apply ClampParams_plain, Hplain.
Qed.

Lemma falloff_100_returns_input_witness :
  100 <= falloff params_falloff_all /\
  angle params_falloff_all mod 360 = 0 /\
  snd (run_pass (H := reference_stdlib) 42 params_falloff_all 3 1 line3 [] false
         0 empty_work) = line3.
Proof.
  assert (Hf : 100 <= falloff params_falloff_all) by (simpl; lia).
  assert (Ha : angle params_falloff_all mod 360 = 0) by reflexivity.
  split; [exact Hf|]. split; [exact Ha|].
  apply (falloff_100_returns_input (H := reference_stdlib) 42 params_falloff_all
           3 1 line3 [] false 0 empty_work Hf).
  left. exact Ha.
Defined.

(** ** The size of the image *)

Lemma blend_channels_loop_length origImage sel i k : forall c img,
  length (blend_channels_loop origImage sel i k c img) = length img.
Proof.
  induction k as [|k IH]; intros c img; [reflexivity|].
  simpl. rewrite IH. apply length_buf_set.
Qed.

Lemma blend_selection_loop_length origImage fullSelect k : forall i img,
  length (blend_selection_loop origImage fullSelect k i img) = length img.
Proof.
  induction k as [|k IH]; intros i img; [reflexivity|].
  cbn [blend_selection_loop]. cbv zeta. rewrite IH.
  destruct (byte_to_int (buf_get fullSelect i) =? 0); [apply length_copy_rgb|].
  destruct (byte_to_int (buf_get fullSelect i) <? 255);
    [apply blend_channels_loop_length | reflexivity].
Qed.

Lemma unrotate_length rot rotImage fullImage :
  length (unrotate rot rotImage fullImage) = length fullImage.
Proof.
  unfold unrotate, unrotate_loops. rewrite unrotate_rows_length.
  apply length_replicate.
Qed.

(** X6.  Whatever the parameters, the selection and the size given for the
    image, the pass returns an image of as many bytes as the one it was
    given. *)
Theorem full_image_pass_keeps_size `{StdLib} (params : PixelSortParams) (w h : Z)
    (fullImage fullSelect : list BYTE) (hasSelection : bool) (rng : mt19937)
    (work : Work) :
  length (snd (full_image_pass params w h fullImage fullSelect hasSelection rng work))
  = length fullImage.
Proof.
  destruct (use_angle params) eqn:Hangle.
  - rewrite full_image_pass_rotated by exact Hangle. cbv zeta.
    destruct (hasSelection && negb (is_empty fullSelect)).
    + rewrite blend_selection_loop_length. apply unrotate_length.
    + apply unrotate_length.
  - rewrite full_image_pass_plain by exact Hangle.
    destruct (direction params).
    + apply (sort_rows_loop_inv (fun buf => length buf = length fullImage));
        [|reflexivity].
      intros y' rng' work' buf' _ Hlen. rewrite SortLine_length. exact Hlen.
    + apply (sort_columns_loop_inv (fun buf => length buf = length fullImage));
        [|reflexivity].
      intros x' rng' work' buf' _ Hlen. rewrite SortLine_length. exact Hlen.
Qed.

(** ** Parameters that never draw a random number *)

(** no Random spans, no jitter, no falloff *)
Definition quiet (params : PixelSortParams) : Prop :=
  intervalMode params <> kIntervalModeRandom /\
  jitter params <= 0 /\ falloff params <= 0.

Lemma DetectSpansEdges_spans_work row img out1 bw1 out2 bw2 :
  fst (DetectSpansEdges row img out1 bw1) = fst (DetectSpansEdges row img out2 bw2).
Proof.
  unfold DetectSpansEdges.
  destruct (row_length row <=? 0); [reflexivity|].
  destruct (row_length row =? 1); [reflexivity|].
  rewrite !edges_brightness_fill.
  destruct (edges_stat_loop _ _ _ _ _ _) as [[edges edgeSum] edgeSumSq].
  destruct (edges_split_loop _ _ _ _ _ _) as [prevPos outSpans].
  reflexivity.
Qed.

Lemma DetectSpans_quiet `{StdLib} row img params rowIndex rng out bw :
  intervalMode params <> kIntervalModeRandom ->
  fst (fst (DetectSpans row img params rowIndex rng out bw)) = rng /\
  forall rng' out' bw',
    snd (fst (DetectSpans row img params rowIndex rng' out' bw'))
    = snd (fst (DetectSpans row img params rowIndex rng out bw)).
Proof.
  intros Hmode. unfold DetectSpans, detect_dispatch.
  destruct (intervalMode params); try (split; reflexivity).
  - contradiction Hmode. reflexivity.
  - split.
    + destruct (DetectSpansEdges row img out bw). reflexivity.
    + intros rng' out' bw'.
      pose proof (DetectSpansEdges_spans_work row img out' bw' out bw) as Heq.
      destruct (DetectSpansEdges row img out' bw') as [s1 b1].
      destruct (DetectSpansEdges row img out bw) as [s2 b2].
      simpl in Heq. subst s1. reflexivity.
Qed.

Lemma sort_span_quiet `{StdLib} row params selectArea stride n sp st st' :
  jitter params <= 0 -> falloff params <= 0 -> ss_image st = ss_image st' ->
  ss_image (sort_span row params selectArea stride n sp st)
  = ss_image (sort_span row params selectArea stride n sp st') /\
  ss_rng (sort_span row params selectArea stride n sp st) = ss_rng st.
Proof.
  intros Hj Hf Himg. unfold sort_span, falloff_draw.
  destruct (span_end sp - span_start sp <? 2); [split; [exact Himg | reflexivity]|].
  destruct (Z.ltb_spec 0 (falloff params)) as [Hlt | _]; [lia|].
  rewrite Himg.
  destruct (collect_loop _ _ _ _ _ _ _ _ _ _ _) as [pw inc].
  destruct (Z.of_nat (length pw) <? 2); [split; reflexivity|].
  destruct (Z.ltb_spec 0 (jitter params)) as [Hlt | _]; [lia|].
  cbn [andb]. split; reflexivity.
Qed.

Lemma sort_spans_quiet `{StdLib} row params selectArea stride n spans :
  forall st st',
  jitter params <= 0 -> falloff params <= 0 -> ss_image st = ss_image st' ->
  ss_image (sort_spans row params selectArea stride n spans st)
  = ss_image (sort_spans row params selectArea stride n spans st') /\
  ss_rng (sort_spans row params selectArea stride n spans st) = ss_rng st.
Proof.
  induction spans as [|sp rest IH]; intros st st' Hj Hf Himg;
    [split; [exact Himg | reflexivity]|].
  rewrite !sort_spans_cons.
  destruct (sort_span_quiet row params selectArea stride n sp st st' Hj Hf Himg)
    as [Hi Hr].
  destruct (IH _ _ Hj Hf Hi) as [Hi' Hr'].
  split; [exact Hi' | rewrite Hr'; exact Hr].
Qed.

(** The generator [SortLine] leaves, in terms of the span loop. *)
Lemma SortLine_rng `{StdLib} row params selectArea stride rowIndex rng work img :
  fst (fst (SortLine row params selectArea stride rowIndex rng work img))
  = if row_length row <=? 0 then rng
    else
      let detected :=
        DetectSpans row img params rowIndex rng (spansWork work)
          (brightnessWork work) in
      ss_rng
        (sort_spans row params selectArea stride (row_length row)
           (snd (fst detected))
           (mkSpanState (fst (fst detected)) (pixelsWork work)
              (includedIndices work) img)).
Proof.
  unfold SortLine. destruct (row_length row <=? 0); [reflexivity|].
  cbv zeta.
  destruct (DetectSpans row img params rowIndex rng (spansWork work)
              (brightnessWork work)) as [[rng1 spans1] br1].
  reflexivity.
Qed.

Lemma SortLine_quiet `{StdLib} row params selectArea stride rowIndex rng rng'
    work work' img :
  quiet params ->
  snd (SortLine row params selectArea stride rowIndex rng work img)
  = snd (SortLine row params selectArea stride rowIndex rng' work' img) /\
  fst (fst (SortLine row params selectArea stride rowIndex rng work img)) = rng.
Proof.
  intros [Hmode [Hj Hf]]. rewrite !SortLine_image, SortLine_rng.
  destruct (row_length row <=? 0); [split; reflexivity|]. cbv zeta.
  destruct (DetectSpans_quiet row img params rowIndex rng (spansWork work)
              (brightnessWork work) Hmode) as [Hrng Hspans].
  rewrite (Hspans rng' (spansWork work') (brightnessWork work')).
  match goal with
  | |- ss_image (sort_spans _ _ _ _ _ ?spans ?st) =
       ss_image (sort_spans _ _ _ _ _ _ ?st') /\ _ =>
      destruct (sort_spans_quiet row params selectArea stride (row_length row)
                  spans st st' Hj Hf eq_refl) as [Hi Hr]
  end.
  split; [exact Hi | rewrite Hr; exact Hrng].
Qed.

Lemma sort_rows_loop_quiet `{StdLib} params useAngle rot fullSelect k :
  forall y rng rng' work work' buf,
  quiet params ->
  snd (sort_rows_loop params useAngle rot fullSelect k y rng work buf)
  = snd (sort_rows_loop params useAngle rot fullSelect k y rng' work' buf) /\
  fst (fst (sort_rows_loop params useAngle rot fullSelect k y rng work buf)) = rng.
Proof.
  induction k as [|k IH]; intros y rng rng' work work' buf Hq;
    [split; reflexivity|].
  rewrite !sort_rows_loop_step. cbv zeta.
  destruct (SortLine_quiet (row_of rot y) params
              (fst (row_select useAngle rot fullSelect y))
              (snd (row_select useAngle rot fullSelect y)) y rng rng' work work'
              buf Hq) as [Himg Hrng].
  rewrite <- Himg.
  destruct (IH (y + 1)
              (fst (fst (SortLine (row_of rot y) params
                           (fst (row_select useAngle rot fullSelect y))
                           (snd (row_select useAngle rot fullSelect y)) y rng work buf)))
              (fst (fst (SortLine (row_of rot y) params
                           (fst (row_select useAngle rot fullSelect y))
                           (snd (row_select useAngle rot fullSelect y)) y rng' work' buf)))
              (snd (fst (SortLine (row_of rot y) params
                           (fst (row_select useAngle rot fullSelect y))
                           (snd (row_select useAngle rot fullSelect y)) y rng work buf)))
              (snd (fst (SortLine (row_of rot y) params
                           (fst (row_select useAngle rot fullSelect y))
                           (snd (row_select useAngle rot fullSelect y)) y rng' work' buf)))
              (snd (SortLine (row_of rot y) params
                      (fst (row_select useAngle rot fullSelect y))
                      (snd (row_select useAngle rot fullSelect y)) y rng work buf))
              Hq) as [Hi Hr].
  split; [exact Hi | rewrite Hr; exact Hrng].
Qed.

Lemma sort_columns_loop_quiet `{StdLib} params rot fullSelect k :
  forall x rng rng' work work' buf,
  quiet params ->
  snd (sort_columns_loop params rot fullSelect k x rng work buf)
  = snd (sort_columns_loop params rot fullSelect k x rng' work' buf) /\
  fst (fst (sort_columns_loop params rot fullSelect k x rng work buf)) = rng.
Proof.
  induction k as [|k IH]; intros x rng rng' work work' buf Hq;
    [split; reflexivity|].
  rewrite !sort_columns_loop_step. cbv zeta.
  destruct (SortLine_quiet (column_of rot x) params
              (fst (column_select rot fullSelect x))
              (snd (column_select rot fullSelect x)) x rng rng' work work'
              buf Hq) as [Himg Hrng].
  rewrite <- Himg.
  destruct (IH (x + 1)
              (fst (fst (SortLine (column_of rot x) params
                           (fst (column_select rot fullSelect x))
                           (snd (column_select rot fullSelect x)) x rng work buf)))
              (fst (fst (SortLine (column_of rot x) params
                           (fst (column_select rot fullSelect x))
                           (snd (column_select rot fullSelect x)) x rng' work' buf)))
              (snd (fst (SortLine (column_of rot x) params
                           (fst (column_select rot fullSelect x))
                           (snd (column_select rot fullSelect x)) x rng work buf)))
              (snd (fst (SortLine (column_of rot x) params
                           (fst (column_select rot fullSelect x))
                           (snd (column_select rot fullSelect x)) x rng' work' buf)))
              (snd (SortLine (column_of rot x) params
                      (fst (column_select rot fullSelect x))
                      (snd (column_select rot fullSelect x)) x rng work buf))
              Hq) as [Hi Hr].
  split; [exact Hi | rewrite Hr; exact Hrng].
Qed.

(** The generator the pass leaves, in terms of the line loop. *)
Lemma full_image_pass_rng `{StdLib} params w h fullImage fullSelect hasSelection
    rng work :
  fst (fst (full_image_pass params w h fullImage fullSelect hasSelection rng work))
  = let rot := if use_angle params then make_rotation (angle params) w h
               else no_rotation w h in
    let sortBuf := if use_angle params then rotate rot fullImage else fullImage in
    match direction params with
    | kSortDirectionHorizontal =>
        fst (fst (sort_rows_loop params (use_angle params) rot fullSelect
                    (Z.to_nat (sortH rot)) 0 rng work sortBuf))
    | kSortDirectionVertical =>
        fst (fst (sort_columns_loop params rot fullSelect
                    (Z.to_nat (sortW rot)) 0 rng work sortBuf))
    end.
Proof.
  unfold use_angle, full_image_pass. cbv zeta.
  destruct (direction params).
  - destruct (sort_rows_loop _ _ _ _ _ _ _ _ _) as [[rng1 w1] buf1]. reflexivity.
  - destruct (sort_columns_loop _ _ _ _ _ _ _ _) as [[rng1 w1] buf1]. reflexivity.
Qed.

(** X7.  When the interval mode is not Random and neither jitter nor
    falloff is positive, no random number is drawn: the pass returns the
    same image for every seed (and every state of the generator and of the
    work vectors), and it leaves the generator as the seeding left it. *)
Theorem run_pass_seed_independent `{StdLib} (seed1 seed2 : Z)
    (properties : PixelSortParams) (w h : Z) (fullImage fullSelect : list BYTE)
    (hasSelection : bool) (rng1 rng2 : mt19937) (work1 work2 : Work) :
  intervalMode properties <> kIntervalModeRandom ->
  jitter properties <= 0 -> falloff properties <= 0 ->
  snd (run_pass seed1 properties w h fullImage fullSelect hasSelection rng1 work1)
  = snd (run_pass seed2 properties w h fullImage fullSelect hasSelection rng2 work2) /\
  fst (fst (run_pass seed1 properties w h fullImage fullSelect hasSelection rng1 work1))
  = mt19937_seed seed1.
Proof.
  intros Hmode Hj Hf. unfold run_pass.
  destruct ((0 <? w) && (0 <? h)); [|split; reflexivity].
  set (params := ClampParams properties).
  assert (Hq : quiet params).
  { subst params. unfold quiet, ClampParams.
    cbn [intervalMode jitter falloff]. split; [exact Hmode | lia]. }
  split.
  - destruct (use_angle params) eqn:Hangle.
    + rewrite !full_image_pass_rotated by exact Hangle. cbv zeta.
      rewrite (proj1 (sort_rows_loop_quiet params true _ fullSelect _ 0
                        (mt19937_seed seed1) (mt19937_seed seed2) work1 work2 _ Hq)).
      reflexivity.
    + rewrite !full_image_pass_plain by exact Hangle.
      destruct (direction params).
      * apply sort_rows_loop_quiet, Hq.
      * apply sort_columns_loop_quiet, Hq.
  - rewrite full_image_pass_rng. cbv zeta.
    destruct (direction params).
    + apply (sort_rows_loop_quiet params _ _ fullSelect _ 0 _ (mt19937_seed seed1)
               work1 work1 _ Hq).
    + apply (sort_columns_loop_quiet params _ fullSelect _ 0 _ (mt19937_seed seed1)
               work1 work1 _ Hq).
Qed.

Lemma run_pass_seed_independent_witness :
  intervalMode params_red <> kIntervalModeRandom /\
  jitter params_red <= 0 /\ falloff params_red <= 0 /\
  snd (run_pass (H := reference_stdlib) 42 params_red 3 1 line3 [] false 0 empty_work)
  = snd (run_pass (H := reference_stdlib) 7 params_red 3 1 line3 [] false 1 empty_work).
Proof.
  assert (Hm : intervalMode params_red <> kIntervalModeRandom) by discriminate.
  assert (Hj : jitter params_red <= 0) by (simpl; lia).
  assert (Hf : falloff params_red <= 0) by (simpl; lia).
  split; [exact Hm|]. split; [exact Hj|]. split; [exact Hf|].
  apply (run_pass_seed_independent (H := reference_stdlib) 42 7 params_red 3 1 line3
           [] false 0 1 empty_work empty_work Hm Hj Hf).
Defined.

(** ** Selection blending after the rotation back *)

Lemma blend_channels_loop_frame origImage sel i k : forall c img a,
  (forall c', c <= c' < c + Z.of_nat k -> a <> i * 3 + c') ->
  buf_get (blend_channels_loop origImage sel i k c img) a = buf_get img a.
Proof.
  induction k as [|k IH]; intros c img a Ha; [reflexivity|].
  cbn [blend_channels_loop]. cbv zeta.
  rewrite IH by (intros c' Hc'; apply Ha; lia).
  apply buf_get_set_other. apply Ha. lia.
Qed.

Lemma blend_channels_loop_value origImage sel i k : forall c0 img c,
  c0 <= c < c0 + Z.of_nat k ->
  0 <= i * 3 + c < Z.of_nat (length img) ->
  buf_get (blend_channels_loop origImage sel i k c0 img) (i * 3 + c)
  = blend_channel (buf_get img (i * 3 + c)) (buf_get origImage (i * 3 + c)) sel.
Proof.
  induction k as [|k IH]; intros c0 img c Hc Hlen; [lia|].
  cbn [blend_channels_loop]. cbv zeta.
  destruct (Z.eq_dec c c0) as [-> | Hne].
  - rewrite blend_channels_loop_frame by (intros c' Hc'; lia).
    apply buf_get_set_same. exact Hlen.
  - rewrite IH; [| lia | rewrite length_buf_set; exact Hlen].
    rewrite buf_get_set_other by lia. reflexivity.
Qed.

(** the body of [for (int i = 0; i < fullW * fullH; ++i)] *)
Definition blend_selection_step (origImage fullSelect : list BYTE) (i : Z)
    (fullImage : list BYTE) : list BYTE :=
  let sel := byte_to_int (buf_get fullSelect i) in
  if sel =? 0 then copy_rgb origImage (i * 3) fullImage (i * 3)
  else if sel <? 255 then blend_channels_loop origImage sel i 3 0 fullImage
  else fullImage.

(** what the blend leaves in a byte of pixel [i] *)
Definition blended_byte (origImage fullSelect fullImage : list BYTE) (i c : Z)
    : BYTE :=
  let sel := byte_to_int (buf_get fullSelect i) in
  if sel =? 0 then buf_get origImage (i * 3 + c)
  else if sel <? 255 then
    blend_channel (buf_get fullImage (i * 3 + c)) (buf_get origImage (i * 3 + c)) sel
  else buf_get fullImage (i * 3 + c).

Lemma blend_selection_loop_step origImage fullSelect k i img :
  blend_selection_loop origImage fullSelect (S k) i img
  = blend_selection_loop origImage fullSelect k (i + 1)
      (blend_selection_step origImage fullSelect i img).
Proof. reflexivity. Qed.

Lemma blend_selection_step_length origImage fullSelect i img :
  length (blend_selection_step origImage fullSelect i img) = length img.
Proof.
  unfold blend_selection_step. cbv zeta.
  destruct (_ =? 0); [apply length_copy_rgb|].
  destruct (_ <? 255); [apply blend_channels_loop_length | reflexivity].
Qed.

Lemma blend_selection_step_frame origImage fullSelect i img a :
  (forall c, 0 <= c < 3 -> a <> i * 3 + c) ->
  buf_get (blend_selection_step origImage fullSelect i img) a = buf_get img a.
Proof.
  intros Ha. unfold blend_selection_step. cbv zeta.
  destruct (_ =? 0).
  - pose proof (Ha 0). pose proof (Ha 1). pose proof (Ha 2).
    apply buf_get_copy_rgb_other; lia.
  - destruct (_ <? 255); [|reflexivity].
    apply blend_channels_loop_frame. intros c' Hc'. apply Ha. lia.
Qed.

Lemma blend_selection_step_value origImage fullSelect i img c :
  0 <= i -> i * 3 + 2 < Z.of_nat (length img) -> 0 <= c < 3 ->
  buf_get (blend_selection_step origImage fullSelect i img) (i * 3 + c)
  = blended_byte origImage fullSelect img i c.
Proof.
  intros Hi Hlen Hc. unfold blend_selection_step, blended_byte. cbv zeta.
  destruct (_ =? 0).
  - apply buf_get_copy_rgb_same; lia.
  - destruct (_ <? 255); [|reflexivity].
    apply blend_channels_loop_value; lia.
Qed.

Lemma blend_selection_loop_frame origImage fullSelect k : forall i img a,
  (forall j c, i <= j < i + Z.of_nat k -> 0 <= c < 3 -> a <> j * 3 + c) ->
  buf_get (blend_selection_loop origImage fullSelect k i img) a = buf_get img a.
Proof.
  induction k as [|k IH]; intros i img a Ha; [reflexivity|].
  rewrite blend_selection_loop_step.
  rewrite IH by (intros j c Hj Hc; apply Ha; lia).
  apply blend_selection_step_frame. intros c Hc. apply Ha; lia.
Qed.

Lemma blend_selection_loop_value origImage fullSelect k : forall i0 img i c,
  0 <= i0 -> i0 <= i < i0 + Z.of_nat k ->
  i * 3 + 2 < Z.of_nat (length img) -> 0 <= c < 3 ->
  buf_get (blend_selection_loop origImage fullSelect k i0 img) (i * 3 + c)
  = blended_byte origImage fullSelect img i c.
Proof.
  induction k as [|k IH]; intros i0 img i c Hi0 Hi Hlen Hc; [lia|].
  rewrite blend_selection_loop_step.
  destruct (Z.eq_dec i i0) as [-> | Hne].
  - rewrite blend_selection_loop_frame by (intros j c' Hj Hc'; lia).
    apply blend_selection_step_value; assumption.
  - rewrite IH;
      [| lia | lia | rewrite blend_selection_step_length; exact Hlen | exact Hc].
    unfold blended_byte. cbv zeta.
    rewrite blend_selection_step_frame by (intros c' Hc'; lia).
    reflexivity.
Qed.

(** X8.  The blend that follows the rotation back, for every pixel [i] of
    the image and each of its three bytes: with a mask value of 0 the byte
    of the original image is restored, with a mask value of 255 the byte of
    the processed image is kept, and with a mask value [m] in between the
    byte becomes [orig + (processed - orig) * m / 255] (the quotient
    truncated toward zero), which is a value of [0, 255]. *)
Theorem blend_selection_rule (origImage fullSelect fullImage : list BYTE)
    (w h i c : Z) :
  0 <= i < w * h -> i * 3 + 2 < Z.of_nat (length fullImage) -> 0 <= c < 3 ->
  let m := byte_to_int (buf_get fullSelect i) in
  let orig := buf_get origImage (i * 3 + c) in
  let processed := buf_get fullImage (i * 3 + c) in
  let result :=
    buf_get (blend_selection_loop origImage fullSelect (Z.to_nat (w * h)) 0 fullImage)
      (i * 3 + c) in
  (m = 0 -> result = orig) /\
  (m = 255 -> result = processed) /\
  (0 < m < 255 ->
   byte_to_int result
   = byte_to_int orig + Z.quot ((byte_to_int processed - byte_to_int orig) * m) 255).
Proof.
  intros Hi Hlen Hc m orig processed result.
  assert (Hres : result = blended_byte origImage fullSelect fullImage i c).
  { subst result. apply blend_selection_loop_value; lia. }
  rewrite Hres. unfold blended_byte. cbv zeta. fold m orig processed.
  split; [|split].
  - intros ->. reflexivity.
  - intros ->. reflexivity.
  - intros Hm.
    destruct (Z.eqb_spec m 0) as [H0 | _]; [lia|].
    destruct (Z.ltb_spec m 255) as [_ | Hge]; [|lia].
    apply blend_channel_value. lia.
Qed.

Lemma blend_selection_rule_witness :
  0 <= 0 < 1 * 1 /\ 0 * 3 + 2 < Z.of_nat (length (pixels_image [(200, 10, 10)])) /\
  0 <= 0 < 3 /\
  0 < byte_to_int (buf_get [int_to_BYTE 128] 0) < 255 /\
  byte_to_int
    (buf_get (blend_selection_loop (pixels_image [(100, 20, 20)]) [int_to_BYTE 128]
                (Z.to_nat (1 * 1)) 0 (pixels_image [(200, 10, 10)])) (0 * 3 + 0))
  = byte_to_int (buf_get (pixels_image [(100, 20, 20)]) (0 * 3 + 0))
    + Z.quot ((byte_to_int (buf_get (pixels_image [(200, 10, 10)]) (0 * 3 + 0))
               - byte_to_int (buf_get (pixels_image [(100, 20, 20)]) (0 * 3 + 0)))
              * byte_to_int (buf_get [int_to_BYTE 128] 0)) 255.
Proof.
  assert (Hi : 0 <= 0 < 1 * 1) by lia.
  assert (Hlen : 0 * 3 + 2 < Z.of_nat (length (pixels_image [(200, 10, 10)])))
    by (vm_compute; reflexivity).
  assert (Hc : 0 <= 0 < 3) by lia.
  assert (Hm : 0 < byte_to_int (buf_get [int_to_BYTE 128] 0) < 255)
    by (vm_compute; split; reflexivity).
  split; [exact Hi|]. split; [exact Hlen|]. split; [exact Hc|]. split; [exact Hm|].
  exact (proj2 (proj2 (blend_selection_rule (pixels_image [(100, 20, 20)])
                         [int_to_BYTE 128] (pixels_image [(200, 10, 10)])
                         1 1 0 0 Hi Hlen Hc)) Hm).
Defined.

(** ** Pixels outside the selection *)

(** the byte offset of channel [c] of the pixel [(x, y)] of a packed RGB
    image of width [w] *)
Definition rgb_offset (w x y c : Z) : Z := (y * w + x) * 3 + c.

Lemma rgb_offset_inj w x y c x' y' c' :
  0 <= x < w -> 0 <= x' < w -> 0 <= c < 3 -> 0 <= c' < 3 ->
  rgb_offset w x y c = rgb_offset w x' y' c' -> x = x' /\ y = y' /\ c = c'.
Proof.
  unfold rgb_offset. intros Hx Hx' Hc Hc' Heq.
  assert (Hp : y * w + x = y' * w + x' /\ c = c') by lia.
  destruct Hp as [Hp ->].
  destruct (Z.lt_trichotomy y y') as [Hlt | [-> | Hgt]].
  - exfalso. nia.
  - split; [lia | split; reflexivity].
  - exfalso. nia.
Qed.

Lemma is_empty_length {A : Type} (v : list A) :
  (0 < length v)%nat -> is_empty v = false.
Proof. destruct v; simpl; [lia | reflexivity]. Qed.

Lemma full_image_pass_unselected `{StdLib} (params : PixelSortParams) (w h : Z)
    (fullImage fullSelect : list BYTE) (rng : mt19937) (work : Work)
    (x y c : Z) :
  Z.of_nat (length fullImage) = w * h * 3 ->
  Z.of_nat (length fullSelect) = w * h ->
  0 <= x < w -> 0 <= y < h -> 0 <= c < 3 ->
  buf_get fullSelect (y * w + x) = x00 ->
  buf_get (snd (full_image_pass params w h fullImage fullSelect true rng work))
    (rgb_offset w x y c)
  = buf_get fullImage (rgb_offset w x y c).
Proof.
  intros Hlen Hsel Hx Hy Hc Hmask.
  assert (Hne : is_empty fullSelect = false) by (apply is_empty_length; nia).
  destruct (use_angle params) eqn:Hangle.
  - (* rotated: the blend restores the pixel *)
    rewrite full_image_pass_rotated by exact Hangle. cbv zeta.
    rewrite Hne. cbn [andb negb]. unfold rgb_offset.
    rewrite blend_selection_loop_value;
      [| lia | nia | rewrite unrotate_length; nia | exact Hc].
    unfold blended_byte. cbv zeta. rewrite Hmask. reflexivity.
  - rewrite full_image_pass_plain by exact Hangle.
    destruct (direction params).
    + apply (sort_rows_loop_inv
               (fun buf => buf_get buf (rgb_offset w x y c)
                           = buf_get fullImage (rgb_offset w x y c)));
        [|reflexivity].
      intros y' rng' work' buf' _ Hbuf. rewrite <- Hbuf.
      apply SortLine_byte_frame.
      unfold row_select, row_of, no_rotation. rewrite Hne.
      cbn [negb andb fst snd row_length fullW sortW].
      intros p Hp Hq Ht.
      assert (Hpos : p = x /\ y' = y).
      { unfold touches, pixelAt, pixelStride in Ht.
        cbn [imageBase vertical imagePixelBytes rIdx gIdx bIdx] in Ht.
        destruct Ht as [Ht | [Ht | Ht]].
        - destruct (rgb_offset_inj w x y c p y' 0) as [? [? ?]];
            [lia | lia | lia | lia | unfold rgb_offset in *; lia | lia].
        - destruct (rgb_offset_inj w x y c p y' 1) as [? [? ?]];
            [lia | lia | lia | lia | unfold rgb_offset in *; lia | lia].
        - destruct (rgb_offset_inj w x y c p y' 2) as [? [? ?]];
            [lia | lia | lia | lia | unfold rgb_offset in *; lia | lia]. }
      destruct Hpos as [-> ->].
      unfold qualifies, select_at in Hq. cbn [sel_mem sel_base] in Hq.
      replace (y * w + x * 1) with (y * w + x) in Hq by lia.
      rewrite Hmask in Hq. discriminate.
    + apply (sort_columns_loop_inv
               (fun buf => buf_get buf (rgb_offset w x y c)
                           = buf_get fullImage (rgb_offset w x y c)));
        [|reflexivity].
      intros x' rng' work' buf' Hx' Hbuf. rewrite <- Hbuf.
      apply SortLine_byte_frame.
      unfold column_select, column_of, no_rotation. rewrite Hne.
      cbn [negb fst snd row_length fullW sortW sortH].
      intros p Hp Hq Ht.
      rewrite Z2Nat.id in Hx' by lia.
      assert (Hpos : x' = x /\ p = y).
      { unfold touches, pixelAt, pixelStride in Ht.
        cbn [imageBase vertical imageRowBytes rIdx gIdx bIdx] in Ht.
        destruct Ht as [Ht | [Ht | Ht]].
        - destruct (rgb_offset_inj w x y c x' p 0) as [? [? ?]];
            [lia | lia | lia | lia | unfold rgb_offset in *; lia | lia].
        - destruct (rgb_offset_inj w x y c x' p 1) as [? [? ?]];
            [lia | lia | lia | lia | unfold rgb_offset in *; lia | lia].
        - destruct (rgb_offset_inj w x y c x' p 2) as [? [? ?]];
            [lia | lia | lia | lia | unfold rgb_offset in *; lia | lia]. }
      destruct Hpos as [-> ->].
      unfold qualifies, select_at in Hq. cbn [sel_mem sel_base] in Hq.
      replace (x + y * w) with (y * w + x) in Hq by lia.
      rewrite Hmask in Hq. discriminate.
Qed.

(** X9.  A pixel whose selection value is 0 leaves the pass as it entered
    it, in every direction, interval mode and angle: the line sort never
    writes it, and after a rotation the blend restores it from the
    original. *)
Theorem unselected_pixels_are_kept `{StdLib} (params : PixelSortParams) (w h : Z)
    (fullImage fullSelect : list BYTE) (rng : mt19937) (work : Work)
    (x y : Z) :
  Z.of_nat (length fullImage) = w * h * 3 ->
  Z.of_nat (length fullSelect) = w * h ->
  0 <= x < w -> 0 <= y < h ->
  buf_get fullSelect (y * w + x) = x00 ->
  forall c, 0 <= c < 3 ->
    buf_get (snd (full_image_pass params w h fullImage fullSelect true rng work))
      (rgb_offset w x y c)
    = buf_get fullImage (rgb_offset w x y c).
Proof.
  intros Hlen Hsel Hx Hy Hmask c Hc.
  apply full_image_pass_unselected; assumption.
Qed.

Definition select3 : list BYTE := map int_to_BYTE [0; 255; 255].

Lemma unselected_pixels_are_kept_witness :
  Z.of_nat (length line3) = 3 * 1 * 3 /\
  Z.of_nat (length select3) = 3 * 1 /\
  0 <= 0 < 3 /\ 0 <= 0 < 1 /\
  buf_get select3 (0 * 3 + 0) = x00 /\
  buf_get (snd (full_image_pass (H := reference_stdlib) params_red 3 1 line3 select3
                  true 42 empty_work)) (rgb_offset 3 0 0 0)
  = buf_get line3 (rgb_offset 3 0 0 0).
Proof.
  assert (Hlen : Z.of_nat (length line3) = 3 * 1 * 3) by reflexivity.
  assert (Hsel : Z.of_nat (length select3) = 3 * 1) by reflexivity.
  assert (Hx : 0 <= 0 < 3) by lia.
  assert (Hy : 0 <= 0 < 1) by lia.
  assert (Hm : buf_get select3 (0 * 3 + 0) = x00) by reflexivity.
  split; [exact Hlen|]. split; [exact Hsel|]. split; [exact Hx|].
  split; [exact Hy|]. split; [exact Hm|].
  exact (unselected_pixels_are_kept (H := reference_stdlib) params_red 3 1 line3
           select3 42 empty_work 0 0 Hlen Hsel Hx Hy Hm 0 Hx).
Defined.

(** ** Sorting rearranges pixels *)

Lemma vec_swap_perm {A : Type} (d : A) (v : list A) (i j : Z) :
  0 <= i < Z.of_nat (length v) -> 0 <= j < Z.of_nat (length v) ->
  Permutation (vec_swap d v i j) v.
Proof.
  intros Hi Hj. unfold vec_swap, vec_set.
  destruct (Z.ltb_spec i 0); [lia|]. destruct (Z.ltb_spec j 0); [lia|].
  apply insert_swap_perm; apply vec_get_in_range; assumption.
Qed.

Lemma jitter_loop_perm `{StdLib} jitter_ k : forall i rng pw,
  0 <= jitter_ -> 0 <= i -> i + Z.of_nat k <= Z.of_nat (length pw) ->
  Permutation (snd (jitter_loop jitter_ (Z.of_nat (length pw)) k i rng pw)) pw.
Proof.
  induction k as [|k IH]; intros i rng pw Hj Hi Hk; [reflexivity|].
  cbn [jitter_loop].
  destruct (uniform_int_distribution (- jitter_) jitter_ rng) as [offset rng1].
  set (j := Z.max 0 (Z.min (Z.of_nat (length pw) - 1) (i + offset))).
  assert (Hswap : Permutation (vec_swap PixelData_zero pw i j) pw)
    by (apply vec_swap_perm; subst j; lia).
  assert (Hlen : length (vec_swap PixelData_zero pw i j) = length pw)
    by apply length_vec_swap.
  eapply Permutation_trans; [|exact Hswap].
  rewrite <- Hlen. apply IH; [exact Hj | lia | rewrite Hlen; lia].
Qed.

Lemma sort_pixels_perm `{StdLib} params key pw :
  Forall (keyed key) pw -> Permutation (sort_pixels params pw) pw.
Proof.
  intros Hk. unfold sort_pixels.
  destruct (std_sort_spec _ sortValue_less pw (sortValue_less_strict_weak key pw Hk))
    as [Hperm _].
  destruct (reverse params).
  - eapply Permutation_trans; [apply Permutation_sym, Permutation_rev|].
    apply Permutation_sym, Hperm.
  - apply Permutation_sym, Hperm.
Qed.

Lemma span_arranged_perm `{StdLib} params key rng pw :
  Forall (keyed key) pw -> Permutation (snd (span_arranged params rng pw)) pw.
Proof.
  intros Hk. unfold span_arranged.
  pose proof (sort_pixels_perm params key pw Hk) as Hsort.
  pose proof (sort_pixels_length params pw) as Hlen.
  destruct (Z.ltb_spec 0 (jitter params)) as [Hj | _]; [|exact Hsort].
  destruct (1 <? Z.of_nat (length pw)); [|exact Hsort].
  cbn [andb]. eapply Permutation_trans; [|exact Hsort].
  rewrite <- Hlen. apply jitter_loop_perm; rewrite ?Nat2Z.id; lia.
Qed.

(** positions of [D] outside [P] *)
Definition positions_outside (P D : list Z) : list Z :=
  List.filter (fun d => negb (existsb (Z.eqb d) P)) D.

Lemma positions_outside_In P D d :
  In d (positions_outside P D) <-> In d D /\ ~ In d P.
Proof.
  unfold positions_outside. rewrite List.filter_In, negb_true_iff.
  split; intros [Hd Hp]; (split; [exact Hd|]).
  - intros Hin. assert (Hex : existsb (Z.eqb d) P = true).
    { apply existsb_exists. exists d. split; [exact Hin | apply Z.eqb_refl]. }
    congruence.
  - destruct (existsb (Z.eqb d) P) eqn:Hex; [|reflexivity].
    apply existsb_exists in Hex. destruct Hex as [d' [Hin Heq]].
    apply Z.eqb_eq in Heq. subst d'. contradiction.
Qed.

Lemma positions_split (P D : list Z) :
  List.NoDup D -> List.NoDup P -> (forall d, In d P -> In d D) ->
  Permutation D (P ++ positions_outside P D).
Proof.
  intros HD HP Hincl. apply Permutation.NoDup_Permutation.
  - exact HD.
  - apply List.NoDup_app; [exact HP | apply List.NoDup_filter, HD |].
    intros d Hd Hout. apply positions_outside_In in Hout. tauto.
  - intros d. rewrite in_app_iff, positions_outside_In.
    split.
    + intros Hd. destruct (in_dec Z.eq_dec d P); [left | right]; tauto.
    + intros [Hd | [Hd _]]; [apply Hincl|]; exact Hd.
Qed.

(** If the values at the positions [P] are permuted among themselves and
    the values at the other positions of [D] stay, the values at [D] are
    permuted. *)
Lemma perm_update {A : Type} (f f' : Z -> A) (P D : list Z) :
  List.NoDup D -> List.NoDup P -> (forall d, In d P -> In d D) ->
  Permutation (map f' P) (map f P) ->
  (forall d, In d D -> ~ In d P -> f' d = f d) ->
  Permutation (map f' D) (map f D).
Proof.
  intros HD HP Hincl Hperm Hrest.
  pose proof (positions_split P D HD HP Hincl) as Hsplit.
  eapply Permutation_trans; [apply Permutation_map, Hsplit|].
  eapply Permutation_trans; [|apply Permutation_sym, Permutation_map, Hsplit].
  rewrite !map_app. apply Permutation_app; [exact Hperm|].
  rewrite (map_ext_in f' f); [reflexivity|].
  intros d Hd. apply positions_outside_In in Hd. apply Hrest; tauto.
Qed.

Lemma StronglySorted_lt_NoDup (l : list Z) : StronglySorted Z.lt l -> List.NoDup l.
Proof.
  induction 1 as [|x l Hs IH Hx]; constructor; [|exact IH].
  intros Hin. rewrite List.Forall_forall in Hx. specialize (Hx x Hin). lia.
Qed.

Lemma NoDup_map_on {A B : Type} (f : A -> B) (l : list A) :
  List.NoDup l -> (forall x y, In x l -> In y l -> f x = f y -> x = y) ->
  List.NoDup (map f l).
Proof.
  induction 1 as [|x l Hx Hl IH]; intros Hinj; simpl; constructor.
  - intros Hin. apply in_map_iff in Hin. destruct Hin as [y [Hy Hin]].
    apply Hx. rewrite (Hinj x y); [exact Hin | left; reflexivity | right; exact Hin |].
    symmetry. exact Hy.
  - apply IH. intros a b Ha Hb. apply Hinj; right; assumption.
Qed.

Lemma Zseq_NoDup lo k : List.NoDup (Zseq lo k).
Proof. apply StronglySorted_lt_NoDup, Zseq_sorted. Qed.

(** [obs] reads at position [emb p] the pixel that the line accessor
    [row] reads at [p], for the [n] positions of the line; [D] lists
    positions of [obs] without repetition and holds those of the line. *)
Record observed (row obs : RowAccessor) (emb : Z -> Z) (n : Z) (D : list Z)
    : Prop := {
  ob_r : rIdx row = rIdx obs;
  ob_g : gIdx row = gIdx obs;
  ob_b : bIdx row = bIdx obs;
  ob_at : forall p, pixelAt row p = pixelAt obs (emb p);
  ob_layout_row : row_layout_ok row;
  ob_channels : channels_distinct row;
  ob_layout_obs : row_layout_ok obs;
  ob_nodup : List.NoDup D;
  ob_in : forall p, 0 <= p < n -> In (emb p) D;
  ob_inj : forall p q, 0 <= p < n -> 0 <= q < n -> emb p = emb q -> p = q
}.

Lemma observed_getRGB row obs emb n D img p :
  observed row obs emb n D -> getRGB row img p = getRGB obs img (emb p).
Proof.
  intros Hobs. unfold getRGB.
  rewrite (ob_at _ _ _ _ _ Hobs), (ob_r _ _ _ _ _ Hobs), (ob_g _ _ _ _ _ Hobs),
    (ob_b _ _ _ _ _ Hobs).
  reflexivity.
Qed.

Lemma observed_touches row obs emb n D p a :
  observed row obs emb n D -> touches row p a -> touches obs (emb p) a.
Proof.
  intros Hobs. unfold touches.
  rewrite (ob_at _ _ _ _ _ Hobs), (ob_r _ _ _ _ _ Hobs), (ob_g _ _ _ _ _ Hobs),
    (ob_b _ _ _ _ _ Hobs).
  tauto.
Qed.

(** only 0 and 255 occur in the selection along the line *)
Definition binary_mask (selectArea : option SelectArea) (stride n : Z) : Prop :=
  forall sa p, selectArea = Some sa -> 0 <= p < n ->
    mask_at sa stride p = 0 \/ mask_at sa stride p = 255.

Lemma rgb_of_pixel_data_at row img key p :
  rgb_of (pixel_data_at row img key p) = getRGB row img p.
Proof.
  unfold pixel_data_at. destruct (getRGB row img p) as [[r g] b]. reflexivity.
Qed.

(** What [write_back] leaves at the included positions when each of them
    is fully selected. *)
Lemma write_back_writes row selectArea stride spanStart pw inc img :
  row_layout_ok row -> channels_distinct row ->
  length pw = length inc -> StronglySorted Z.lt inc ->
  (forall j, In j inc -> pixel_in_bounds row img (spanStart + j)) ->
  (forall sa j, selectArea = Some sa -> In j inc ->
     mask_at sa stride (spanStart + j) = 255) ->
  map (fun j => getRGB row (write_back row selectArea stride spanStart pw inc img)
                  (spanStart + j)) inc
  = map rgb_of pw.
Proof.
  intros Hlayout Hchannels Hlen Hsorted Hbounds Hmask.
  apply Forall2_map_eq.
  apply Forall2_same_length_lookup_2; [symmetry; exact Hlen|].
  intros i j pd Hi Hpd.
  assert (Hrange : 0 <= Z.of_nat i < 0 + Z.of_nat (length pw)).
  { apply lookup_lt_Some in Hpd. lia. }
  assert (Hpos : pos_at spanStart inc (Z.of_nat i) = spanStart + j).
  { unfold pos_at. rewrite (vec_get_lookup _ _ _ _ Hi). reflexivity. }
  assert (Hb : forall j', 0 <= j' < 0 + Z.of_nat (length pw) ->
             pixel_in_bounds row img (pos_at spanStart inc j')).
  { intros j' Hj'. apply Hbounds. apply (pos_at_In pw inc Hlen). lia. }
  assert (Hd : forall j1 j2, 0 <= j1 < 0 + Z.of_nat (length pw) ->
             0 <= j2 < 0 + Z.of_nat (length pw) -> j1 <> j2 ->
             pos_at spanStart inc j1 <> pos_at spanStart inc j2).
  { intros j1 j2 Hj1 Hj2.
    apply (pos_at_distinct spanStart pw inc Hsorted Hlen); lia. }
  rewrite <- Hpos. unfold write_back. destruct selectArea as [sa|].
  - rewrite write_selected_loop_value by assumption.
    rewrite (vec_get_lookup _ _ _ _ Hpd). rewrite Hpos.
    rewrite (Hmask sa j eq_refl); [reflexivity|].
    apply list_elem_of_In. eapply list_elem_of_lookup_2. exact Hi.
  - rewrite write_plain_loop_value by assumption.
    rewrite (vec_get_lookup _ _ _ _ Hpd). reflexivity.
Qed.

(** A byte of no included position is not written. *)
Lemma write_back_frame row selectArea stride spanStart pw inc img a :
  length pw = length inc ->
  (forall j, In j inc -> ~ touches row (spanStart + j) a) ->
  buf_get (write_back row selectArea stride spanStart pw inc img) a = buf_get img a.
Proof.
  intros Hlen Hnt.
  assert (Hj : forall j, 0 <= j < 0 + Z.of_nat (length pw) ->
             ~ touches row (pos_at spanStart inc j) a).
  { intros j Hj. apply Hnt. apply (pos_at_In pw inc Hlen). lia. }
  unfold write_back. destruct selectArea as [sa|].
  - apply write_selected_loop_frame. intros j Hr _. apply Hj, Hr.
  - apply write_plain_loop_frame. exact Hj.
Qed.

Section Rearrange.
Context `{StdLib}.
Variables row obs : RowAccessor.
Variable emb : Z -> Z.
Variable D : list Z.
Variable params : PixelSortParams.
Variable selectArea : option SelectArea.
Variable stride : Z.
Variable n : Z.
Hypothesis Hobs : observed row obs emb n D.
Hypothesis Hmask : binary_mask selectArea stride n.

Lemma sort_span_perm sp st :
  0 <= span_start sp -> span_end sp <= n ->
  (forall p, 0 <= p < n -> pixel_in_bounds row (ss_image st) p) ->
  Permutation
    (map (getRGB obs (ss_image (sort_span row params selectArea stride n sp st))) D)
    (map (getRGB obs (ss_image st)) D).
Proof.
  intros Hstart Hend Hbounds. rewrite sort_span_inside by exact Hend.
  destruct (span_len sp <? 2); [reflexivity|].
  destruct (falloff_draw params (ss_rng st)) as [skip rng1].
  destruct skip; [reflexivity|]. cbv zeta.
  set (inc := span_included selectArea stride sp).
  set (pw := span_pixels row (ss_image st) selectArea stride (sortKey params) sp).
  destruct (Z.of_nat (length pw) <? 2); [reflexivity|].
  pose proof (span_arranged_perm params (sortKey params) rng1 pw
                (span_pixels_keyed _ _ _ _ _ _)) as Hperm.
  pose proof (span_arranged_length params rng1 pw) as Hlen.
  destruct (span_arranged params rng1 pw) as [rng2 arranged].
  cbn [snd ss_image] in *.
  assert (Hinc : forall j, In j inc ->
            0 <= span_start sp + j < n /\
            qualifies selectArea stride (span_start sp + j) = true).
  { intros j Hj. apply span_included_In in Hj. destruct Hj as [Hj Hq].
    split; [lia | exact Hq]. }
  assert (Hlen' : length arranged = length inc).
  { rewrite Hlen. apply span_pixels_length. }
  apply (perm_update _ _ (map (fun j => emb (span_start sp + j)) inc)).
  - exact (ob_nodup _ _ _ _ _ Hobs).
  - apply NoDup_map_on.
    + apply StronglySorted_lt_NoDup, included_of_sorted.
    + intros j1 j2 H1 H2 Heq.
      apply (ob_inj _ _ _ _ _ Hobs) in Heq;
        [lia | apply Hinc, H1 | apply Hinc, H2].
  - intros d Hd. apply in_map_iff in Hd. destruct Hd as [j [<- Hj]].
    apply (ob_in _ _ _ _ _ Hobs), Hinc, Hj.
  - rewrite !map_map.
    rewrite (map_ext _ (fun j => getRGB row
               (write_back row selectArea stride (span_start sp) arranged inc
                  (ss_image st)) (span_start sp + j)))
      by (intros j; symmetry; apply (observed_getRGB _ _ _ _ _ _ _ Hobs)).
    rewrite (map_ext (fun j => getRGB obs (ss_image st) (emb (span_start sp + j)))
               (fun j => rgb_of (pixel_data_at row (ss_image st) (sortKey params)
                                   (span_start sp + j))))
      by (intros j; rewrite rgb_of_pixel_data_at; symmetry;
          apply (observed_getRGB _ _ _ _ _ _ _ Hobs)).
    rewrite write_back_writes.
    + rewrite <- (map_map (fun j => pixel_data_at row (ss_image st) (sortKey params)
                                      (span_start sp + j)) rgb_of).
      apply Permutation_map. exact Hperm.
    + exact (ob_layout_row _ _ _ _ _ Hobs).
    + exact (ob_channels _ _ _ _ _ Hobs).
    + exact Hlen'.
    + apply included_of_sorted.
    + intros j Hj. apply Hbounds, Hinc, Hj.
    + intros sa j Hsa Hj. destruct (Hinc j Hj) as [Hr Hq].
      destruct (Hmask sa (span_start sp + j) Hsa Hr) as [H0 | H255];
        [|exact H255].
      subst selectArea. unfold qualifies in Hq. unfold mask_at in H0.
      rewrite H0 in Hq. discriminate.
  - intros d Hd Hout. apply getRGB_frame. intros a Ha.
    apply write_back_frame; [exact Hlen'|].
    intros j Hj Ht. apply Hout. apply in_map_iff. exists j. split; [|exact Hj].
    apply (observed_touches _ _ _ _ _ _ _ Hobs) in Ht.
    exact (touches_same_pixel _ _ _ _ (ob_layout_obs _ _ _ _ _ Hobs) Ht Ha).
Qed.

Lemma sort_spans_perm spans : forall st,
  (forall sp, In sp spans -> 0 <= span_start sp /\ span_end sp <= n) ->
  (forall p, 0 <= p < n -> pixel_in_bounds row (ss_image st) p) ->
  Permutation
    (map (getRGB obs (ss_image (sort_spans row params selectArea stride n spans st))) D)
    (map (getRGB obs (ss_image st)) D).
Proof.
  induction spans as [|sp rest IH]; intros st Hspans Hbounds; [reflexivity|].
  rewrite sort_spans_cons.
  destruct (Hspans sp (or_introl eq_refl)) as [Hs He].
  eapply Permutation_trans; [apply IH|].
  - intros sp' Hin. apply Hspans. right. exact Hin.
  - intros p Hp. eapply pixel_in_bounds_length; [apply sort_span_length|].
    apply Hbounds, Hp.
  - apply sort_span_perm; assumption.
Qed.

End Rearrange.

(** The pixels [obs] reads at [D] after a call of [SortLine] on [row] are
    those it read before, rearranged. *)
Lemma SortLine_perm `{StdLib} row obs emb D params selectArea stride rowIndex rng
    work img :
  observed row obs emb (row_length row) D ->
  binary_mask selectArea stride (row_length row) ->
  (forall p, 0 <= p < row_length row -> pixel_in_bounds row img p) ->
  Permutation
    (map (getRGB obs (snd (SortLine row params selectArea stride rowIndex rng work img))) D)
    (map (getRGB obs img) D).
Proof.
  intros Hobs Hmask Hbounds. rewrite SortLine_image.
  destruct (Z.leb_spec (row_length row) 0) as [Hle | Hn]; [reflexivity|].
  cbv zeta.
  match goal with
  | |- Permutation (map (getRGB obs (ss_image (sort_spans _ _ _ _ _ ?spans ?st))) D) _ =>
      apply (sort_spans_perm row obs emb D params selectArea stride (row_length row)
               Hobs Hmask spans st)
  end.
  - intros sp Hin. apply DetectSpans_in_line in Hin. lia.
  - exact Hbounds.
Qed.

Lemma observed_self row img :
  row_ok row img ->
  observed row row (fun p => p) (row_length row) (Zseq 0 (Z.to_nat (row_length row))).
Proof.
  intros [Hlayout Hchannels Hbounds]. constructor; try reflexivity; try assumption.
  - apply Zseq_NoDup.
  - intros p Hp. apply Zseq_In. lia.
  - intros p q _ _ Heq. exact Heq.
Qed.

(** X10.  On a line whose selection is absent or holds only the values 0
    and 255, [SortLine] rearranges pixels: the pixels of the line after the
    call are a permutation of the pixels of the line before it, whatever
    the interval mode, the sort key, the jitter and the falloff.  No colour
    is invented and none is lost. *)
Theorem SortLine_permutes_pixels `{StdLib} (row : RowAccessor)
    (params : PixelSortParams) (selectArea : option SelectArea)
    (selectPixelStride rowIndex : Z) (rng : mt19937) (work : Work)
    (img : list BYTE) :
  row_ok row img ->
  (forall sa p, selectArea = Some sa -> 0 <= p < row_length row ->
     mask_at sa selectPixelStride p = 0 \/ mask_at sa selectPixelStride p = 255) ->
  let img' :=
    snd (SortLine row params selectArea selectPixelStride rowIndex rng work img) in
  let positions := Zseq 0 (Z.to_nat (row_length row)) in
  Permutation (map (getRGB row img') positions) (map (getRGB row img) positions).
Proof.
  intros Hrow Hmask img' positions. subst img' positions.
  apply (SortLine_perm row row (fun p => p)).
  - apply (observed_self row img Hrow).
  - exact Hmask.
  - apply (rok_bounds _ _ Hrow).
Qed.

Lemma SortLine_permutes_pixels_witness :
  row_ok (packed_row 3) line3 /\
  Permutation
    (map (getRGB (packed_row 3)
            (snd (SortLine (H := reference_stdlib) (packed_row 3) params_red None 0 0
                    42 empty_work line3)))
       (Zseq 0 (Z.to_nat (row_length (packed_row 3)))))
    (map (getRGB (packed_row 3) line3) (Zseq 0 (Z.to_nat (row_length (packed_row 3))))).
Proof.
  assert (Hrow : row_ok (packed_row 3) line3) by (apply packed_row_ok; reflexivity).
  split; [exact Hrow|].
  apply (SortLine_permutes_pixels (H := reference_stdlib) (packed_row 3) params_red
           None 0 0 42 empty_work line3 Hrow).
  intros sa p Hsa. discriminate.
Defined.

(** ** The pass without rotation rearranges pixels *)

(** the packed RGB image of [count] pixels, read pixel by pixel *)
Definition whole_image (count : Z) : RowAccessor := mkRow 0 3 0 0 1 2 count false.

Definition image_pixels (w h : Z) (img : list BYTE) : list (BYTE * BYTE * BYTE) :=
  map (getRGB (whole_image (w * h)) img) (Zseq 0 (Z.to_nat (w * h))).

Lemma observed_row w h y :
  0 < w -> 0 <= y < h ->
  observed (row_of (no_rotation w h) y) (whole_image (w * h))
    (fun p => y * w + p) w (Zseq 0 (Z.to_nat (w * h))).
Proof.
  intros Hw Hy. constructor; try reflexivity.
  - intros p. unfold pixelAt, pixelStride. simpl. lia.
  - unfold row_layout_ok, pixelStride. simpl. lia.
  - unfold channels_distinct. simpl. lia.
  - unfold row_layout_ok, pixelStride. simpl. lia.
  - apply Zseq_NoDup.
  - intros p Hp. apply Zseq_In. nia.
  - intros p q _ _ Heq. lia.
Qed.

Lemma observed_column w h x :
  0 <= x < w -> 0 < h ->
  observed (column_of (no_rotation w h) x) (whole_image (w * h))
    (fun p => p * w + x) h (Zseq 0 (Z.to_nat (w * h))).
Proof.
  intros Hx Hh. constructor; try reflexivity.
  - intros p. unfold pixelAt, pixelStride. simpl. lia.
  - unfold row_layout_ok, pixelStride. simpl. lia.
  - unfold channels_distinct. simpl. lia.
  - unfold row_layout_ok, pixelStride. simpl. lia.
  - apply Zseq_NoDup.
  - intros p Hp. apply Zseq_In. nia.
  - intros p q _ _ Heq. nia.
Qed.

(** X11.  When the pass does not rotate and the selection is absent or
    holds only the values 0 and 255, the image it returns has the pixels of
    the image it was given, rearranged: as a list of RGB triples the result
    is a permutation of the input, in both directions and every interval
    mode. *)
Theorem plain_pass_permutes_pixels `{StdLib} (params : PixelSortParams) (w h : Z)
    (fullImage fullSelect : list BYTE) (hasSelection : bool) (rng : mt19937)
    (work : Work) :
  use_angle params = false ->
  0 < w -> 0 < h ->
  Z.of_nat (length fullImage) = w * h * 3 ->
  fullSelect = [] \/ Z.of_nat (length fullSelect) = w * h ->
  (forall i, 0 <= i < w * h ->
     byte_to_int (buf_get fullSelect i) = 0 \/
     byte_to_int (buf_get fullSelect i) = 255) ->
  Permutation
    (image_pixels w h
       (snd (full_image_pass params w h fullImage fullSelect hasSelection rng work)))
    (image_pixels w h fullImage).
Proof.
  intros Hangle Hw Hh Hlen _ Hmask.
  rewrite full_image_pass_plain by exact Hangle.
  set (I := fun buf : list BYTE =>
              length buf = length fullImage /\
              Permutation (image_pixels w h buf) (image_pixels w h fullImage)).
  assert (Hgoal : I (match direction params with
                     | kSortDirectionHorizontal =>
                         snd (sort_rows_loop params false (no_rotation w h) fullSelect
                                (Z.to_nat h) 0 rng work fullImage)
                     | kSortDirectionVertical =>
                         snd (sort_columns_loop params (no_rotation w h) fullSelect
                                (Z.to_nat w) 0 rng work fullImage)
                     end)); [|exact (proj2 Hgoal)].
  destruct (direction params).
  - apply (sort_rows_loop_inv I); [|split; reflexivity].
    intros y' rng' work' buf' Hy' [Hl Hp]. rewrite Z2Nat.id in Hy' by lia.
    split; [rewrite SortLine_length; exact Hl|].
    eapply Permutation_trans; [|exact Hp].
    apply (SortLine_perm _ _ (fun p => y' * w + p)).
    + apply observed_row; lia.
    + unfold row_select, no_rotation. cbn [negb andb fullW row_of row_length sortW].
      destruct (is_empty fullSelect); cbn [negb fst snd];
        [intros sa p Hsa; discriminate|].
      intros sa p Hsa Hp'. injection Hsa as <-.
      unfold mask_at, select_at. cbn [sel_mem sel_base].
      apply Hmask. nia.
    + intros p Hp'. unfold pixel_in_bounds, pixelAt, pixelStride. simpl in *.
      rewrite Hl. nia.
  - apply (sort_columns_loop_inv I); [|split; reflexivity].
    intros x' rng' work' buf' Hx' [Hl Hp]. rewrite Z2Nat.id in Hx' by lia.
    split; [rewrite SortLine_length; exact Hl|].
    eapply Permutation_trans; [|exact Hp].
    apply (SortLine_perm _ _ (fun p => p * w + x')).
    + apply observed_column; lia.
    + unfold column_select, no_rotation. cbn [negb fullW column_of row_length sortH].
      destruct (is_empty fullSelect); cbn [negb fst snd];
        [intros sa p Hsa; discriminate|].
      intros sa p Hsa Hp'. injection Hsa as <-.
      unfold mask_at, select_at. cbn [sel_mem sel_base].
      replace (x' + p * w) with (p * w + x') by lia.
      apply Hmask. nia.
    + intros p Hp'. unfold pixel_in_bounds, pixelAt, pixelStride. simpl in *.
      rewrite Hl. nia.
Qed.

Lemma plain_pass_permutes_pixels_witness :
  use_angle params_red = false /\ 0 < 3 /\ 0 < 1 /\
  Z.of_nat (length line3) = 3 * 1 * 3 /\
  Permutation
    (image_pixels 3 1
       (snd (full_image_pass (H := reference_stdlib) params_red 3 1 line3 select3
               true 42 empty_work)))
    (image_pixels 3 1 line3).
Proof.
  assert (Ha : use_angle params_red = false) by reflexivity.
  assert (Hw : 0 < 3) by lia.
  assert (Hh : 0 < 1) by lia.
  assert (Hlen : Z.of_nat (length line3) = 3 * 1 * 3) by reflexivity.
  assert (Hsel : select3 = [] \/ Z.of_nat (length select3) = 3 * 1)
    by (right; reflexivity).
  split; [exact Ha|]. split; [exact Hw|]. split; [exact Hh|]. split; [exact Hlen|].
  apply (plain_pass_permutes_pixels (H := reference_stdlib) params_red 3 1 line3
           select3 true 42 empty_work Ha Hw Hh Hlen Hsel).
  intros i Hi.
  assert (Hcases : i = 0 \/ i = 1 \/ i = 2) by lia.
  destruct Hcases as [-> | [-> | ->]]; vm_compute; auto.
Defined.

(** ** Rotation into the working buffer *)

(** the source coordinate of the canvas pixel lies inside the image *)
Definition sampled (rot : Rotation) (rx ry : Z) : bool :=
  let sx := fst (rotate_source rot rx ry) in
  let sy := snd (rotate_source rot rx ry) in
  (0 <=? sx) && (sx <? fullW rot) && (0 <=? sy) && (sy <? fullH rot).

Lemma canvas_offset_inj rot rx ry rx' ry' c c' :
  0 <= rx < sortW rot -> 0 <= rx' < sortW rot -> 0 <= c < 3 -> 0 <= c' < 3 ->
  canvas_offset rot rx ry + c = canvas_offset rot rx' ry' + c' ->
  rx = rx' /\ ry = ry' /\ c = c'.
Proof.
  intros Hx Hx' Hc Hc' Heq.
  apply (rgb_offset_inj (sortW rot) rx ry c rx' ry' c'); assumption.
Qed.

Section Rotate.
Variable rot : Rotation.
Variable fullImage : list BYTE.

Lemma rotate_row_step ry k rx dst :
  rotate_row rot fullImage ry (S k) rx dst
  = rotate_row rot fullImage ry k (rx + 1)
      (if sampled rot rx ry then
         copy_rgb fullImage
           (image_offset rot (fst (rotate_source rot rx ry))
              (snd (rotate_source rot rx ry)))
           dst (canvas_offset rot rx ry)
       else dst).
Proof.
  cbn [rotate_row]. unfold sampled.
  destruct (rotate_source rot rx ry) as [sx sy]. reflexivity.
Qed.

Lemma rotate_row_length ry k : forall rx dst,
  length (rotate_row rot fullImage ry k rx dst) = length dst.
Proof.
  induction k as [|k IH]; intros rx dst; [reflexivity|].
  rewrite rotate_row_step, IH.
  destruct (sampled rot rx ry); [apply length_copy_rgb | reflexivity].
Qed.

Lemma rotate_row_frame ry k : forall rx dst a,
  (forall x c, rx <= x < rx + Z.of_nat k -> 0 <= c < 3 ->
     sampled rot x ry = true -> a <> canvas_offset rot x ry + c) ->
  buf_get (rotate_row rot fullImage ry k rx dst) a = buf_get dst a.
Proof.
  induction k as [|k IH]; intros rx dst a Hframe; [reflexivity|].
  rewrite rotate_row_step, IH by (intros x c Hx; apply Hframe; lia).
  destruct (sampled rot rx ry) eqn:Es; [|reflexivity].
  pose proof (Hframe rx 0) as H0. pose proof (Hframe rx 1) as H1.
  pose proof (Hframe rx 2) as H2.
  apply buf_get_copy_rgb_other; [rewrite <- (Z.add_0_r (canvas_offset rot rx ry))| |];
    [apply H0 | apply H1 | apply H2]; (lia || exact Es).
Qed.

Lemma rotate_row_value ry k : forall rx dst x c,
  0 <= rx -> rx + Z.of_nat k <= sortW rot -> rx <= x < rx + Z.of_nat k ->
  0 <= c < 3 -> sampled rot x ry = true ->
  0 <= canvas_offset rot x ry ->
  canvas_offset rot x ry + 2 < Z.of_nat (length dst) ->
  buf_get (rotate_row rot fullImage ry k rx dst) (canvas_offset rot x ry + c)
  = buf_get fullImage
      (image_offset rot (fst (rotate_source rot x ry))
         (snd (rotate_source rot x ry)) + c).
Proof.
  induction k as [|k IH]; intros rx dst x c Hrx Hk Hx Hc Hs H0 Hlen; [lia|].
  rewrite rotate_row_step.
  destruct (Z.eq_dec x rx) as [-> | Hne].
  - rewrite Hs. rewrite rotate_row_frame.
    + apply buf_get_copy_rgb_same; assumption.
    + intros x' c' Hx' Hc' _ Heq.
      apply canvas_offset_inj in Heq; lia.
  - apply IH; try lia; try assumption.
    destruct (sampled rot rx ry); [rewrite length_copy_rgb|]; exact Hlen.
Qed.

Lemma rotate_rows_step k ry dst :
  rotate_rows rot fullImage (S k) ry dst
  = rotate_rows rot fullImage k (ry + 1)
      (rotate_row rot fullImage ry (Z.to_nat (sortW rot)) 0 dst).
Proof. reflexivity. Qed.

Lemma rotate_rows_length k : forall ry dst,
  length (rotate_rows rot fullImage k ry dst) = length dst.
Proof.
  induction k as [|k IH]; intros ry dst; [reflexivity|].
  rewrite rotate_rows_step, IH. apply rotate_row_length.
Qed.

Lemma rotate_rows_frame k : forall ry dst a,
  (forall x y c, 0 <= x < sortW rot -> ry <= y < ry + Z.of_nat k -> 0 <= c < 3 ->
     sampled rot x y = true -> a <> canvas_offset rot x y + c) ->
  buf_get (rotate_rows rot fullImage k ry dst) a = buf_get dst a.
Proof.
  induction k as [|k IH]; intros ry dst a Hframe; [reflexivity|].
  rewrite rotate_rows_step, IH by (intros x y c Hx Hy; apply Hframe; lia).
  apply rotate_row_frame. intros x c Hx. apply Hframe; lia.
Qed.

Lemma rotate_rows_value k : forall ry dst x y c,
  0 <= x < sortW rot -> ry <= y < ry + Z.of_nat k ->
  0 <= c < 3 -> sampled rot x y = true ->
  0 <= canvas_offset rot x y ->
  canvas_offset rot x y + 2 < Z.of_nat (length dst) ->
  buf_get (rotate_rows rot fullImage k ry dst) (canvas_offset rot x y + c)
  = buf_get fullImage
      (image_offset rot (fst (rotate_source rot x y))
         (snd (rotate_source rot x y)) + c).
Proof.
  induction k as [|k IH]; intros ry dst x y c Hx Hy Hc Hs H0 Hlen; [lia|].
  rewrite rotate_rows_step.
  destruct (Z.eq_dec y ry) as [-> | Hne].
  - rewrite rotate_rows_frame.
    + apply rotate_row_value; try lia; assumption.
    + intros x' y' c' Hx' Hy' Hc' _ Heq.
      apply canvas_offset_inj in Heq; lia.
  - apply IH; try lia; try assumption.
    rewrite rotate_row_length. exact Hlen.
Qed.

End Rotate.

(** X12.  The rotated working buffer has [sortW * sortH] RGB pixels.  A
    pixel of it whose source coordinate lies inside the image holds the
    image pixel at that coordinate (nearest-neighbour sampling); every other
    pixel of it is zero (background). *)
Theorem rotate_samples_or_zero (rot : Rotation) (fullImage : list BYTE)
    (rx ry c : Z) :
  0 <= rx < sortW rot -> 0 <= ry < sortH rot -> 0 <= c < 3 ->
  let sx := fst (rotate_source rot rx ry) in
  let sy := snd (rotate_source rot rx ry) in
  let inside := (0 <=? sx) && (sx <? fullW rot) && (0 <=? sy) && (sy <? fullH rot) in
  let byte := buf_get (rotate rot fullImage) (canvas_offset rot rx ry + c) in
  Z.of_nat (length (rotate rot fullImage)) = sortW rot * sortH rot * 3 /\
  (inside = true -> byte = buf_get fullImage (image_offset rot sx sy + c)) /\
  (inside = false -> byte = x00).
Proof.
  intros Hx Hy Hc sx sy inside byte. subst byte inside sx sy.
  fold (sampled rot rx ry).
  assert (Hlen : Z.of_nat (length (rotate rot fullImage)) = sortW rot * sortH rot * 3).
  { unfold rotate. rewrite rotate_rows_length, length_replicate. nia. }
  split; [exact Hlen|]. split.
  - intros Hs. unfold rotate.
    apply rotate_rows_value; try lia; try assumption.
    + unfold canvas_offset. nia.
    + rewrite length_replicate. unfold canvas_offset. nia.
  - intros Hs. unfold rotate. rewrite rotate_rows_frame.
    + apply buf_get_replicate_zero.
    + intros x y c' Hx' Hy' Hc' Hs' Heq.
      apply canvas_offset_inj in Heq; try lia.
      destruct Heq as (-> & -> & _). congruence.
Qed.

Lemma rotate_samples_or_zero_witness :
  0 <= 0 < sortW narrow_canvas /\ 0 <= 0 < sortH narrow_canvas /\ 0 <= 0 < 3 /\
  Z.of_nat (length (rotate narrow_canvas image3))
  = sortW narrow_canvas * sortH narrow_canvas * 3.
Proof.
  assert (Hx : 0 <= 0 < sortW narrow_canvas) by (simpl; lia).
  assert (Hy : 0 <= 0 < sortH narrow_canvas) by (simpl; lia).
  assert (Hc : 0 <= 0 < 3) by lia.
  split; [exact Hx|]. split; [exact Hy|]. split; [exact Hc|].
  exact (proj1 (rotate_samples_or_zero narrow_canvas image3 0 0 0 Hx Hy Hc)).
Defined.

(** ** Sort keys: comparisons and ranges *)

Lemma f32_cmp_bytes_check :
  Zrange_forallb (fun x =>
    Zrange_forallb (fun y =>
      Bool.eqb (f32_lt (f32_of_int x) (f32_of_int y)) (x <? y) &&
      Bool.eqb (f32_eq (f32_of_int x) (f32_of_int y)) (x =? y)) 0 256)
    0 256 = true.
Proof. vm_compute. reflexivity. Qed.

Lemma f32_cmp_bytes x y :
  0 <= x <= 255 -> 0 <= y <= 255 ->
  f32_lt (f32_of_int x) (f32_of_int y) = (x <? y) /\
  f32_eq (f32_of_int x) (f32_of_int y) = (x =? y).
Proof.
  intros Hx Hy.
  pose proof (Zrange_forallb_spec _ _ _ f32_cmp_bytes_check x ltac:(lia)) as H.
  cbv beta in H.
  pose proof (Zrange_forallb_spec _ _ _ H y ltac:(lia)) as H'.
  cbv beta in H'. apply andb_true_iff in H'. destruct H' as [Hlt Heq].
  split; apply Bool.eqb_prop; assumption.
Qed.

Lemma f32_max3_bytes r g b :
  f32_max3 (byte_to_float r) (byte_to_float g) (byte_to_float b)
  = f32_of_int (Z.max (Z.max (byte_to_int r) (byte_to_int g)) (byte_to_int b)).
Proof.
  pose proof (byte_to_int_range r) as Hr. pose proof (byte_to_int_range g) as Hg.
  pose proof (byte_to_int_range b) as Hb.
  unfold f32_max3, byte_to_float.
  rewrite (proj1 (f32_cmp_bytes _ _ Hr Hg)).
  destruct (Z.ltb_spec (byte_to_int r) (byte_to_int g)).
  - rewrite (proj1 (f32_cmp_bytes _ _ Hg Hb)).
    destruct (Z.ltb_spec (byte_to_int g) (byte_to_int b)); f_equal; lia.
  - rewrite (proj1 (f32_cmp_bytes _ _ Hr Hb)).
    destruct (Z.ltb_spec (byte_to_int r) (byte_to_int b)); f_equal; lia.
Qed.

Lemma f32_min3_bytes r g b :
  f32_min3 (byte_to_float r) (byte_to_float g) (byte_to_float b)
  = f32_of_int (Z.min (Z.min (byte_to_int r) (byte_to_int g)) (byte_to_int b)).
Proof.
  pose proof (byte_to_int_range r) as Hr. pose proof (byte_to_int_range g) as Hg.
  pose proof (byte_to_int_range b) as Hb.
  unfold f32_min3, byte_to_float.
  rewrite (proj1 (f32_cmp_bytes _ _ Hg Hr)).
  destruct (Z.ltb_spec (byte_to_int g) (byte_to_int r)).
  - rewrite (proj1 (f32_cmp_bytes _ _ Hb Hg)).
    destruct (Z.ltb_spec (byte_to_int b) (byte_to_int g)); f_equal; lia.
  - rewrite (proj1 (f32_cmp_bytes _ _ Hb Hr)).
    destruct (Z.ltb_spec (byte_to_int b) (byte_to_int r)); f_equal; lia.
Qed.

(** X13.  Under the keys Red, Green and Blue two pixels compare as the
    integer values of that channel, and under the key Minimum as the
    integer minima of their three channels: the conversion to [float]
    neither merges nor reorders byte values. *)
Theorem channel_keys_compare_as_integers (r g b r' g' b' : BYTE) :
  let less key := f32_lt (GetSortValue r g b key) (GetSortValue r' g' b' key) in
  less kSortKeyRed = (byte_to_int r <? byte_to_int r') /\
  less kSortKeyGreen = (byte_to_int g <? byte_to_int g') /\
  less kSortKeyBlue = (byte_to_int b <? byte_to_int b') /\
  less kSortKeyMinimum
  = (Z.min (Z.min (byte_to_int r) (byte_to_int g)) (byte_to_int b)
     <? Z.min (Z.min (byte_to_int r') (byte_to_int g')) (byte_to_int b')).
Proof.
  pose proof (byte_to_int_range r). pose proof (byte_to_int_range g).
  pose proof (byte_to_int_range b). pose proof (byte_to_int_range r').
  pose proof (byte_to_int_range g'). pose proof (byte_to_int_range b').
  cbv zeta. unfold GetSortValue, GetMinimum, byte_to_float.
  repeat split; apply f32_cmp_bytes; lia.
Qed.

(** [if (hue < 0.0f) hue += 360.0f] *)
Definition hue_wrap (hue : float) : float :=
  if f32_lt hue f32_zero then f32_add hue (f32_of_int 360) else hue.

Definition hue_ok (h : float) : bool :=
  f32_le f32_zero h && f32_lt h (f32_of_int 360).

(** the three branches of [GetHue] on the quotient [d / delta] *)
Definition hue_check_at (d delta : Z) : bool :=
  let q := f32_div (f32_of_int d) (f32_of_int delta) in
  hue_ok (hue_wrap (f32_mul (f32_of_int 60) (fmodf q (f32_of_int 6)))) &&
  hue_ok (hue_wrap (f32_mul (f32_of_int 60) (f32_add q (f32_of_int 2)))) &&
  hue_ok (hue_wrap (f32_mul (f32_of_int 60) (f32_add q (f32_of_int 4)))).

Lemma hue_check :
  Zrange_forallb (fun delta =>
    Zrange_forallb (fun d => (delta <? Z.abs d) || hue_check_at d delta)
      (-255) 511) 1 255 = true.
Proof. vm_compute. reflexivity. Qed.

Lemma hue_check_spec d delta :
  1 <= delta <= 255 -> - delta <= d <= delta -> hue_check_at d delta = true.
Proof.
  intros Hdelta Hd.
  pose proof (Zrange_forallb_spec _ _ _ hue_check delta ltac:(lia)) as H.
  cbv beta in H.
  pose proof (Zrange_forallb_spec _ _ _ H d ltac:(lia)) as H'.
  cbv beta in H'. apply orb_true_iff in H'. destruct H' as [Hout | Hok];
    [apply Z.ltb_lt in Hout; lia | exact Hok].
Qed.

Lemma GetHue_ok r g b : hue_ok (GetHue r g b) = true.
Proof.
  pose proof (byte_to_int_range r) as Hr. pose proof (byte_to_int_range g) as Hg.
  pose proof (byte_to_int_range b) as Hb.
  unfold GetHue. rewrite f32_max3_bytes, f32_min3_bytes.
  set (M := Z.max (Z.max (byte_to_int r) (byte_to_int g)) (byte_to_int b)).
  set (m := Z.min (Z.min (byte_to_int r) (byte_to_int g)) (byte_to_int b)).
  assert (HM : 0 <= M <= 255) by (subst M; lia).
  assert (Hm : 0 <= m <= 255) by (subst m; lia).
  rewrite (f32_sub_bytes M m HM Hm).
  destruct (f32_le (f32_of_int (M - m)) f32_zero) eqn:E; [reflexivity|].
  assert (Hlow : -255 <= M - m <= 255) by lia.
  pose proof (f32_positive (M - m) Hlow E) as Hd.
  unfold byte_to_float. rewrite !f32_sub_bytes by assumption.
  rewrite (proj2 (f32_cmp_bytes M _ HM Hr)), (proj2 (f32_cmp_bytes M _ HM Hg)).
  fold (hue_wrap (if M =? byte_to_int r
                  then f32_mul (f32_of_int 60)
                         (fmodf (f32_div (f32_of_int (byte_to_int g - byte_to_int b))
                                   (f32_of_int (M - m))) (f32_of_int 6))
                  else if M =? byte_to_int g
                  then f32_mul (f32_of_int 60)
                         (f32_add (f32_div (f32_of_int (byte_to_int b - byte_to_int r))
                                     (f32_of_int (M - m))) (f32_of_int 2))
                  else f32_mul (f32_of_int 60)
                         (f32_add (f32_div (f32_of_int (byte_to_int r - byte_to_int g))
                                     (f32_of_int (M - m))) (f32_of_int 4)))).
  destruct (Z.eqb_spec M (byte_to_int r)) as [HMr | HMr].
  - assert (Hc : hue_check_at (byte_to_int g - byte_to_int b) (M - m) = true)
      by (apply hue_check_spec; subst M m; lia).
    unfold hue_check_at in Hc. cbv zeta in Hc.
    apply andb_true_iff in Hc. destruct Hc as [Hc _].
    apply andb_true_iff in Hc. destruct Hc as [Hc _]. exact Hc.
  - destruct (Z.eqb_spec M (byte_to_int g)) as [HMg | HMg].
    + assert (Hc : hue_check_at (byte_to_int b - byte_to_int r) (M - m) = true)
        by (apply hue_check_spec; subst M m; lia).
      unfold hue_check_at in Hc. cbv zeta in Hc.
      apply andb_true_iff in Hc. destruct Hc as [Hc _].
      apply andb_true_iff in Hc. destruct Hc as [_ Hc]. exact Hc.
    + assert (Hc : hue_check_at (byte_to_int r - byte_to_int g) (M - m) = true)
        by (apply hue_check_spec; subst M m; lia).
      unfold hue_check_at in Hc. cbv zeta in Hc.
      apply andb_true_iff in Hc. destruct Hc as [_ Hc]. exact Hc.
Qed.

(** X14.  The hue of every pixel is a number of [0, 360): a negative
    angle is wrapped by adding 360 and the sum never rounds up to 360.  A
    pixel with three equal channels has hue 0 (no division by a zero
    delta takes place). *)
Theorem GetHue_range (r g b : BYTE) :
  f32_le f32_zero (GetHue r g b) = true /\
  f32_lt (GetHue r g b) (f32_of_int 360) = true /\
  (r = g -> g = b -> GetHue r g b = f32_zero).
Proof.
  pose proof (GetHue_ok r g b) as Hok. unfold hue_ok in Hok.
  apply andb_true_iff in Hok. destruct Hok as [Hlo Hhi].
  split; [exact Hlo|]. split; [exact Hhi|].
  intros -> ->. unfold GetHue. rewrite f32_max3_bytes, f32_min3_bytes.
  pose proof (byte_to_int_range b) as Hb.
  rewrite f32_sub_bytes by lia.
  replace (Z.max (Z.max (byte_to_int b) (byte_to_int b)) (byte_to_int b)
           - Z.min (Z.min (byte_to_int b) (byte_to_int b)) (byte_to_int b))
    with 0 by lia.
  reflexivity.
Qed.

Definition saturation_check_at (M m : Z) : bool :=
  let s := f32_div (f32_of_int (M - m)) (f32_of_int M) in
  f32_le f32_zero s && f32_le s (f32_of_int 1) &&
  Bool.eqb (SFsame s f32_zero) (M =? m) &&
  Bool.eqb (SFsame s (f32_of_int 1)) (m =? 0).

Lemma saturation_check :
  Zrange_forallb (fun M =>
    Zrange_forallb (fun m => (M <? m) || saturation_check_at M m) 0 256) 1 255
  = true.
Proof. vm_compute. reflexivity. Qed.

Lemma SFsame_refl x : SFsame x x = true.
Proof.
  destruct x as [s | s | | s m e]; simpl; rewrite ?Bool.eqb_reflx; try reflexivity.
  rewrite Pos.eqb_refl, Z.eqb_refl. reflexivity.
Qed.

Lemma SFsame_iff x y : SFsame x y = true <-> x = y.
Proof. split; [apply SFsame_eq | intros ->; apply SFsame_refl]. Qed.

(** X15.  The saturation of every pixel is a number of [0, 1].  It is 0
    exactly when the three channels are equal (black included: the division
    by a zero maximum is not reached), and 1 exactly when the smallest
    channel is 0 and the largest is not. *)
Theorem GetSaturation_range (r g b : BYTE) :
  let M := Z.max (Z.max (byte_to_int r) (byte_to_int g)) (byte_to_int b) in
  let m := Z.min (Z.min (byte_to_int r) (byte_to_int g)) (byte_to_int b) in
  let s := GetSaturation r g b in
  f32_le f32_zero s = true /\ f32_le s (f32_of_int 1) = true /\
  (s = f32_zero <-> M = m) /\
  (s = f32_of_int 1 <-> m = 0 /\ 0 < M).
Proof.
  intros M m s.
  pose proof (byte_to_int_range r) as Hr. pose proof (byte_to_int_range g) as Hg.
  pose proof (byte_to_int_range b) as Hb.
  assert (HM : 0 <= M <= 255) by (subst M; lia).
  assert (Hm : 0 <= m <= M) by (subst M m; lia).
  assert (Hs : s = if f32_le (f32_of_int M) f32_zero then f32_zero
                   else f32_div (f32_of_int (M - m)) (f32_of_int M)).
  { subst s. unfold GetSaturation. rewrite f32_max3_bytes, f32_min3_bytes.
    fold M m. rewrite f32_sub_bytes by lia. reflexivity. }
  rewrite Hs. clear Hs s.
  destruct (f32_le (f32_of_int M) f32_zero) eqn:E.
  - assert (HM0 : M = 0).
    { destruct (Z.eq_dec M 0) as [H0 | Hne]; [exact H0 | exfalso].
      assert (Hnz : SFnz (f32_of_int M) = true) by (apply f32_of_int_nz; lia).
      assert (Hnn : SFnonneg (f32_of_int M) = true) by (apply f32_of_int_nonneg; lia).
      destruct (f32_of_int M) as [sg | sg | | sg mm ee]; simpl in *; try discriminate.
      destruct sg; discriminate. }
    split; [reflexivity|]. split; [reflexivity|]. split.
    + split; [intros _; lia | reflexivity].
    + split; [intros Heq; vm_compute in Heq; discriminate | lia].
  - assert (Hlow : -255 <= M <= 255) by lia.
    pose proof (f32_positive M Hlow E) as HMpos.
    pose proof (Zrange_forallb_spec _ _ _ saturation_check M ltac:(lia)) as H.
    cbv beta in H.
    pose proof (Zrange_forallb_spec _ _ _ H m ltac:(lia)) as H'.
    cbv beta in H'. apply orb_true_iff in H'.
    destruct H' as [Hout | Hok]; [apply Z.ltb_lt in Hout; lia|].
    unfold saturation_check_at in Hok. cbv zeta in Hok.
    repeat (apply andb_true_iff in Hok; destruct Hok as [Hok ?]).
    match goal with
    | H0 : Bool.eqb (SFsame _ f32_zero) _ = true,
      H1 : Bool.eqb (SFsame _ (f32_of_int 1)) _ = true |- _ =>
        apply Bool.eqb_prop in H0; apply Bool.eqb_prop in H1;
        rename H0 into Hzero; rename H1 into Hone
    end.
    split; [exact Hok|]. split; [assumption|]. split.
    + rewrite <- SFsame_iff, Hzero. rewrite Z.eqb_eq. reflexivity.
    + rewrite <- SFsame_iff, Hone. rewrite Z.eqb_eq. split; [lia | tauto].
Qed.

(* ===================================================================== *)
(** * PIPixelSortMain.cpp: the blocks of the host *)
(* ===================================================================== *)

(** [TriglavPlugInRect] *)
Record Rect := mkRect {
  rect_left : Z;
  rect_top : Z;
  rect_right : Z;
  rect_bottom : Z
}.

(** What [getBlockImageProc] and [getBlockSelectAreaProc] deliver for a
    block: the address of its first byte in the memory of the host, the
    bytes per row and the bytes per pixel. *)
Record BlockMemory := mkBlockMemory {
  blockAddr : Z;
  blockRowBytes : Z;
  blockPixelBytes : Z
}.

(** A block of the destination offscreen: its rectangle
    ([getBlockRectProc]) and what the two procedures deliver at its top
    left corner; [None] is the NULL address. *)
Record Block := mkBlock {
  blockRect : Rect;
  blockImage : option BlockMemory;
  blockSelect : option BlockMemory
}.

(** [// Gather full image from destination blocks (RGB)]: the loop over
    [x] of one block row; [sr] is the address of the row, [left0] is
    [br.left - selectAreaRect.left]. *)
Fixpoint gather_image_row (host : list BYTE) (rIdx gIdx bIdx : Z)
    (sr imgPB fy fullW left0 : Z) (k : nat) (x : Z) (fullImage : list BYTE)
    : list BYTE :=
  match k with
  | O => fullImage
  | S k' =>
      let fx := left0 + x in
      let sp := sr + x * imgPB in
      let idx := (fy * fullW + fx) * 3 in
      let fullImage := buf_set fullImage (idx + 0) (buf_get host (sp + rIdx)) in
      let fullImage := buf_set fullImage (idx + 1) (buf_get host (sp + gIdx)) in
      let fullImage := buf_set fullImage (idx + 2) (buf_get host (sp + bIdx)) in
      gather_image_row host rIdx gIdx bIdx sr imgPB fy fullW left0 k' (x + 1)
        fullImage
  end.

(** the loop over [y]; [top0] is [br.top - selectAreaRect.top] *)
Fixpoint gather_image_rows (host : list BYTE) (rIdx gIdx bIdx : Z)
    (imgAddr imgRB imgPB fullW left0 top0 : Z) (bw : Z) (k : nat) (y : Z)
    (fullImage : list BYTE) : list BYTE :=
  match k with
  | O => fullImage
  | S k' =>
      let sr := imgAddr + y * imgRB in
      let fy := top0 + y in
      gather_image_rows host rIdx gIdx bIdx imgAddr imgRB imgPB fullW left0 top0
        bw k' (y + 1)
        (gather_image_row host rIdx gIdx bIdx sr imgPB fy fullW left0
           (Z.to_nat bw) 0 fullImage)
  end.

(** the selection values of one block row *)
Fixpoint gather_select_row (host : list BYTE) (sr selPB fy fullW left0 : Z)
    (k : nat) (x : Z) (fullSelect : list BYTE) : list BYTE :=
  match k with
  | O => fullSelect
  | S k' =>
      let fx := left0 + x in
      gather_select_row host sr selPB fy fullW left0 k' (x + 1)
        (buf_set fullSelect (fy * fullW + fx) (buf_get host (sr + x * selPB)))
  end.

Fixpoint gather_select_rows (host : list BYTE)
    (selAddr selRB selPB fullW left0 top0 : Z) (bw : Z) (k : nat) (y : Z)
    (fullSelect : list BYTE) : list BYTE :=
  match k with
  | O => fullSelect
  | S k' =>
      let sr := selAddr + y * selRB in
      let fy := top0 + y in
      gather_select_rows host selAddr selRB selPB fullW left0 top0 bw k' (y + 1)
        (gather_select_row host sr selPB fy fullW left0 (Z.to_nat bw) 0 fullSelect)
  end.

(** The body of the gathering loop [for (bi < blockRectCount)]. *)
Definition gather_block (host : list BYTE) (rIdx gIdx bIdx : Z)
    (selectAreaRect : Rect) (fullW fullH : Z) (hasSelection : bool)
    (blk : Block) (gathered : list BYTE * list BYTE) : list BYTE * list BYTE :=
  let '(fullImage, fullSelect) := gathered in
  let br := blockRect blk in
  let bw := rect_right br - rect_left br in
  let bh := rect_bottom br - rect_top br in
  let left0 := rect_left br - rect_left selectAreaRect in
  let top0 := rect_top br - rect_top selectAreaRect in
  let fullImage :=
    match blockImage blk with
    | Some m =>
        gather_image_rows host rIdx gIdx bIdx (blockAddr m) (blockRowBytes m)
          (blockPixelBytes m) fullW left0 top0 bw (Z.to_nat bh) 0 fullImage
    | None => fullImage
    end in
  let fullSelect :=
    if hasSelection then
      match blockSelect blk with
      | Some m =>
          let fullSelect := resize (Z.to_nat (fullW * fullH)) x00 fullSelect in
          gather_select_rows host (blockAddr m) (blockRowBytes m)
            (blockPixelBytes m) fullW left0 top0 bw (Z.to_nat bh) 0 fullSelect
      | None => fullSelect
      end
    else fullSelect in
  (fullImage, fullSelect).

(** [std::vector<BYTE> fullImage(fullW * fullH * 3, 0)], the empty
    [fullSelect], and the gathering loop. *)
Definition gather (host : list BYTE) (rIdx gIdx bIdx : Z) (selectAreaRect : Rect)
    (fullW fullH : Z) (hasSelection : bool) (blocks : list Block)
    : list BYTE * list BYTE :=
  fold_left
    (fun gathered blk =>
       gather_block host rIdx gIdx bIdx selectAreaRect fullW fullH hasSelection
         blk gathered)
    blocks (replicate (Z.to_nat (fullW * fullH * 3)) x00, []).

(** [// Write back to destination blocks]: the loop over [x] of one block
    row; [dr] is the address of the row. *)
Fixpoint scatter_row (fullImage : list BYTE) (rIdx gIdx bIdx : Z)
    (dr imgPB fy fullW left0 : Z) (k : nat) (x : Z) (host : list BYTE)
    : list BYTE :=
  match k with
  | O => host
  | S k' =>
      let fx := left0 + x in
      let idx := (fy * fullW + fx) * 3 in
      let dp := dr + x * imgPB in
      let host := buf_set host (dp + rIdx) (buf_get fullImage (idx + 0)) in
      let host := buf_set host (dp + gIdx) (buf_get fullImage (idx + 1)) in
      let host := buf_set host (dp + bIdx) (buf_get fullImage (idx + 2)) in
      scatter_row fullImage rIdx gIdx bIdx dr imgPB fy fullW left0 k' (x + 1) host
  end.

Fixpoint scatter_rows (fullImage : list BYTE) (rIdx gIdx bIdx : Z)
    (imgAddr imgRB imgPB fullW left0 top0 : Z) (bw : Z) (k : nat) (y : Z)
    (host : list BYTE) : list BYTE :=
  match k with
  | O => host
  | S k' =>
      let dr := imgAddr + y * imgRB in
      let fy := top0 + y in
      scatter_rows fullImage rIdx gIdx bIdx imgAddr imgRB imgPB fullW left0 top0
        bw k' (y + 1)
        (scatter_row fullImage rIdx gIdx bIdx dr imgPB fy fullW left0
           (Z.to_nat bw) 0 host)
  end.

(** The body of the writing loop [for (bi < blockRectCount)]. *)
Definition scatter_block (fullImage : list BYTE) (rIdx gIdx bIdx : Z)
    (selectAreaRect : Rect) (fullW : Z) (blk : Block) (host : list BYTE)
    : list BYTE :=
  let br := blockRect blk in
  let bw := rect_right br - rect_left br in
  let bh := rect_bottom br - rect_top br in
  let left0 := rect_left br - rect_left selectAreaRect in
  let top0 := rect_top br - rect_top selectAreaRect in
  match blockImage blk with
  | Some m =>
      scatter_rows fullImage rIdx gIdx bIdx (blockAddr m) (blockRowBytes m)
        (blockPixelBytes m) fullW left0 top0 bw (Z.to_nat bh) 0 host
  | None => host
  end.

Definition scatter (fullImage : list BYTE) (rIdx gIdx bIdx : Z)
    (selectAreaRect : Rect) (fullW : Z) (blocks : list Block) (host : list BYTE)
    : list BYTE :=
  fold_left
    (fun host blk => scatter_block fullImage rIdx gIdx bIdx selectAreaRect fullW blk host)
    blocks host.

(** One turn of the [restart] branch of [FilterRun] on the memory of the
    host: the properties are clamped, the generator is re-seeded with 42,
    and, when the selection rectangle is not empty, the image is gathered
    from the blocks, processed and written back to them. *)
Definition filter_run_turn `{StdLib} (host : list BYTE) (rIdx gIdx bIdx : Z)
    (selectAreaRect : Rect) (blocks : list Block) (hasSelection : bool)
    (properties : PixelSortParams) (rng : mt19937) (work : Work)
    : mt19937 * Work * list BYTE :=
  let currentParams := ClampParams properties in
  let rng := mt19937_seed 42 in
  let fullW := rect_right selectAreaRect - rect_left selectAreaRect in
  let fullH := rect_bottom selectAreaRect - rect_top selectAreaRect in
  if (0 <? fullW) && (0 <? fullH) then
    let '(fullImage, fullSelect) :=
      gather host rIdx gIdx bIdx selectAreaRect fullW fullH hasSelection blocks in
    let '(rng, work, fullImage) :=
      full_image_pass currentParams fullW fullH fullImage fullSelect hasSelection
        rng work in
    (rng, work, scatter fullImage rIdx gIdx bIdx selectAreaRect fullW blocks host)
  else (rng, work, host).

(** ** Copy loops between two byte vectors *)

Lemma buf_set_same_value m i : buf_set m i (buf_get m i) = m.
Proof.
  unfold buf_set, buf_get. destruct (i <? 0); [reflexivity|].
  destruct (m !! Z.to_nat i) eqn:E; simpl.
  - apply list_insert_id. exact E.
  - apply list_insert_ge. apply lookup_ge_None. exact E.
Qed.

(** [rIdx], [gIdx] or [bIdx], by the number of the channel *)
Definition channel (rIdx gIdx bIdx c : Z) : Z :=
  if c =? 0 then rIdx else if c =? 1 then gIdx else bIdx.

Section Copy.
Variable src : list BYTE.
(** the address of channel [c] of the pixel [(x, y)] in the source and in
    the destination *)
Variables sa da : Z -> Z -> Z -> Z.

Definition copy_pixel (x y : Z) (dst : list BYTE) : list BYTE :=
  buf_set
    (buf_set (buf_set dst (da 0 x y) (buf_get src (sa 0 x y)))
       (da 1 x y) (buf_get src (sa 1 x y)))
    (da 2 x y) (buf_get src (sa 2 x y)).

Fixpoint copy_xs (y : Z) (k : nat) (x : Z) (dst : list BYTE) : list BYTE :=
  match k with
  | O => dst
  | S k' => copy_xs y k' (x + 1) (copy_pixel x y dst)
  end.

Fixpoint copy_ys (bw : Z) (k : nat) (y : Z) (dst : list BYTE) : list BYTE :=
  match k with
  | O => dst
  | S k' => copy_ys bw k' (y + 1) (copy_xs y (Z.to_nat bw) 0 dst)
  end.

Lemma copy_pixel_length x y dst : length (copy_pixel x y dst) = length dst.
Proof. unfold copy_pixel. rewrite !length_buf_set. reflexivity. Qed.

Lemma copy_pixel_frame x y dst a :
  (forall c, 0 <= c < 3 -> a <> da c x y) ->
  buf_get (copy_pixel x y dst) a = buf_get dst a.
Proof.
  intros Ha. unfold copy_pixel.
  pose proof (Ha 0). pose proof (Ha 1). pose proof (Ha 2).
  rewrite !buf_get_set_other by lia. reflexivity.
Qed.

Lemma copy_pixel_value x y dst c :
  0 <= c < 3 ->
  (forall c1 c2, 0 <= c1 < 3 -> 0 <= c2 < 3 -> da c1 x y = da c2 x y -> c1 = c2) ->
  0 <= da c x y < Z.of_nat (length dst) ->
  buf_get (copy_pixel x y dst) (da c x y) = buf_get src (sa c x y).
Proof.
  intros Hc Hinj Hlen. unfold copy_pixel.
  assert (H01 : da 0 x y <> da 1 x y) by (intros E; apply Hinj in E; lia).
  assert (H02 : da 0 x y <> da 2 x y) by (intros E; apply Hinj in E; lia).
  assert (H12 : da 1 x y <> da 2 x y) by (intros E; apply Hinj in E; lia).
  assert (Hcases : c = 0 \/ c = 1 \/ c = 2) by lia.
  destruct Hcases as [-> | [-> | ->]].
  - rewrite !buf_get_set_other by congruence. apply buf_get_set_same. exact Hlen.
  - rewrite buf_get_set_other by congruence.
    apply buf_get_set_same. rewrite length_buf_set. exact Hlen.
  - apply buf_get_set_same. rewrite !length_buf_set. exact Hlen.
Qed.

Lemma copy_pixel_noop x y dst :
  (forall c, 0 <= c < 3 -> buf_get src (sa c x y) = buf_get dst (da c x y)) ->
  copy_pixel x y dst = dst.
Proof.
  intros Hsame. unfold copy_pixel.
  rewrite (Hsame 0), buf_set_same_value by lia.
  rewrite (Hsame 1), buf_set_same_value by lia.
  rewrite (Hsame 2), buf_set_same_value by lia.
  reflexivity.
Qed.

Lemma copy_xs_length y k : forall x dst, length (copy_xs y k x dst) = length dst.
Proof.
  induction k as [|k IH]; intros x dst; [reflexivity|].
  simpl. rewrite IH. apply copy_pixel_length.
Qed.

Lemma copy_ys_length bw k : forall y dst, length (copy_ys bw k y dst) = length dst.
Proof.
  induction k as [|k IH]; intros y dst; [reflexivity|].
  simpl. rewrite IH. apply copy_xs_length.
Qed.

Lemma copy_xs_frame y k : forall x0 dst a,
  (forall x c, x0 <= x < x0 + Z.of_nat k -> 0 <= c < 3 -> a <> da c x y) ->
  buf_get (copy_xs y k x0 dst) a = buf_get dst a.
Proof.
  induction k as [|k IH]; intros x0 dst a Ha; [reflexivity|].
  simpl. rewrite IH by (intros x c Hx Hc; apply Ha; lia).
  apply copy_pixel_frame. intros c Hc. apply Ha; lia.
Qed.

Lemma copy_ys_frame bw k : forall y0 dst a,
  (forall x y c, 0 <= x < bw -> y0 <= y < y0 + Z.of_nat k -> 0 <= c < 3 ->
     a <> da c x y) ->
  buf_get (copy_ys bw k y0 dst) a = buf_get dst a.
Proof.
  induction k as [|k IH]; intros y0 dst a Ha; [reflexivity|].
  simpl. rewrite IH by (intros x y c Hx Hy Hc; apply Ha; lia).
  apply copy_xs_frame. intros x c Hx Hc. apply Ha; lia.
Qed.

Lemma copy_xs_noop y k : forall x0 dst,
  (forall x c, x0 <= x < x0 + Z.of_nat k -> 0 <= c < 3 ->
     buf_get src (sa c x y) = buf_get dst (da c x y)) ->
  copy_xs y k x0 dst = dst.
Proof.
  induction k as [|k IH]; intros x0 dst Hsame; [reflexivity|].
  simpl. rewrite copy_pixel_noop by (intros c Hc; apply Hsame; lia).
  apply IH. intros x c Hx Hc. apply Hsame; lia.
Qed.

Lemma copy_ys_noop bw k : forall y0 dst,
  (forall x y c, 0 <= x < bw -> y0 <= y < y0 + Z.of_nat k -> 0 <= c < 3 ->
     buf_get src (sa c x y) = buf_get dst (da c x y)) ->
  copy_ys bw k y0 dst = dst.
Proof.
  induction k as [|k IH]; intros y0 dst Hsame; [reflexivity|].
  simpl. rewrite copy_xs_noop by (intros x c Hx Hc; apply Hsame; lia).
  apply IH. intros x y c Hx Hy Hc. apply Hsame; lia.
Qed.

(** the destination addresses of distinct channels or pixels of the
    rectangle are distinct *)
Definition injective_on (bw bh : Z) : Prop :=
  forall c x y c' x' y',
    0 <= c < 3 -> 0 <= x < bw -> 0 <= y < bh ->
    0 <= c' < 3 -> 0 <= x' < bw -> 0 <= y' < bh ->
    da c x y = da c' x' y' -> c = c' /\ x = x' /\ y = y'.

Lemma copy_xs_value bw bh y k : forall x0 dst x c,
  injective_on bw bh -> 0 <= y < bh ->
  0 <= x0 -> x0 + Z.of_nat k <= bw -> x0 <= x < x0 + Z.of_nat k -> 0 <= c < 3 ->
  0 <= da c x y < Z.of_nat (length dst) ->
  buf_get (copy_xs y k x0 dst) (da c x y) = buf_get src (sa c x y).
Proof.
  induction k as [|k IH]; intros x0 dst x c Hinj Hy Hx0 Hk Hx Hc Hlen; [lia|].
  simpl. destruct (Z.eq_dec x x0) as [-> | Hne].
  - rewrite copy_xs_frame.
    + apply copy_pixel_value; [exact Hc | | exact Hlen].
      intros c1 c2 H1 H2 Heq.
      apply (Hinj c1 x0 y c2 x0 y) in Heq; lia.
    + intros x' c' Hx' Hc' Heq.
      apply (Hinj c x0 y c' x' y) in Heq; lia.
  - apply IH; try assumption; try lia.
    rewrite copy_pixel_length. exact Hlen.
Qed.

Lemma copy_ys_value bw bh k : forall y0 dst x y c,
  injective_on bw bh ->
  0 <= y0 -> y0 + Z.of_nat k <= bh -> 0 <= x < bw -> y0 <= y < y0 + Z.of_nat k ->
  0 <= c < 3 ->
  0 <= da c x y < Z.of_nat (length dst) ->
  buf_get (copy_ys bw k y0 dst) (da c x y) = buf_get src (sa c x y).
Proof.
  induction k as [|k IH]; intros y0 dst x y c Hinj Hy0 Hk Hx Hy Hc Hlen; [lia|].
  simpl. destruct (Z.eq_dec y y0) as [-> | Hne].
  - rewrite copy_ys_frame.
    + apply (copy_xs_value bw bh); try assumption; try lia.
    + intros x' y' c' Hx' Hy' Hc' Heq.
      apply (Hinj c x y0 c' x' y') in Heq; lia.
  - apply IH; try assumption; try lia.
    rewrite copy_xs_length. exact Hlen.
Qed.

End Copy.

(** ** Sequences of copy loops *)

(** one copy loop: the two address maps and the size of the rectangle *)
Record CopyJob := mkCopyJob {
  job_sa : Z -> Z -> Z -> Z;
  job_da : Z -> Z -> Z -> Z;
  job_w : Z;
  job_h : Z
}.

Definition run_job (src : list BYTE) (j : CopyJob) (dst : list BYTE) : list BYTE :=
  copy_ys src (job_sa j) (job_da j) (job_w j) (Z.to_nat (job_h j)) 0 dst.

Definition run_jobs (src : list BYTE) (jobs : list CopyJob) (dst : list BYTE)
    : list BYTE :=
  fold_left (fun d j => run_job src j d) jobs dst.

(** channel [c] of the pixel [(x, y)] belongs to the rectangle of [j] *)
Definition in_job (j : CopyJob) (c x y : Z) : Prop :=
  0 <= c < 3 /\ 0 <= x < job_w j /\ 0 <= y < job_h j.

(** no two jobs, pixels or channels share a destination address *)
Definition jobs_injective (jobs : list CopyJob) : Prop :=
  forall (i i' : nat) j j' c x y c' x' y',
    jobs !! i = Some j -> jobs !! i' = Some j' ->
    in_job j c x y -> in_job j' c' x' y' ->
    job_da j c x y = job_da j' c' x' y' ->
    i = i' /\ c = c' /\ x = x' /\ y = y'.

Lemma run_job_length src j dst : length (run_job src j dst) = length dst.
Proof. apply copy_ys_length. Qed.

Lemma run_job_frame src j dst a :
  (forall c x y, in_job j c x y -> a <> job_da j c x y) ->
  buf_get (run_job src j dst) a = buf_get dst a.
Proof.
  intros Ha. apply copy_ys_frame. intros x y c Hx Hy Hc.
  apply Ha. unfold in_job. lia.
Qed.

Lemma run_job_noop src j dst :
  (forall c x y, in_job j c x y ->
     buf_get src (job_sa j c x y) = buf_get dst (job_da j c x y)) ->
  run_job src j dst = dst.
Proof.
  intros Hsame. apply copy_ys_noop. intros x y c Hx Hy Hc.
  apply Hsame. unfold in_job. lia.
Qed.

Lemma run_jobs_length src jobs : forall dst,
  length (run_jobs src jobs dst) = length dst.
Proof.
  induction jobs as [|j rest IH]; intros dst; [reflexivity|].
  simpl. rewrite IH. apply run_job_length.
Qed.

Lemma run_jobs_frame src jobs : forall dst a,
  (forall j c x y, In j jobs -> in_job j c x y -> a <> job_da j c x y) ->
  buf_get (run_jobs src jobs dst) a = buf_get dst a.
Proof.
  induction jobs as [|j rest IH]; intros dst a Ha; [reflexivity|].
  simpl. rewrite IH by (intros j' c x y Hin; apply Ha; right; exact Hin).
  apply run_job_frame. intros c x y. apply Ha. left. reflexivity.
Qed.

Lemma run_jobs_noop src jobs : forall dst,
  (forall j c x y, In j jobs -> in_job j c x y ->
     buf_get src (job_sa j c x y) = buf_get dst (job_da j c x y)) ->
  run_jobs src jobs dst = dst.
Proof.
  induction jobs as [|j rest IH]; intros dst Hsame; [reflexivity|].
  simpl. rewrite run_job_noop by (intros c x y; apply Hsame; left; reflexivity).
  apply IH. intros j' c x y Hin. apply Hsame. right. exact Hin.
Qed.

Lemma jobs_injective_tail j rest : jobs_injective (j :: rest) -> jobs_injective rest.
Proof.
  intros Hinj i i' j1 j2 c x y c' x' y' H1 H2 Hin1 Hin2 Heq.
  destruct (Hinj (S i) (S i') j1 j2 c x y c' x' y' H1 H2 Hin1 Hin2 Heq)
    as [Hi Hrest].
  split; [lia | exact Hrest].
Qed.

Lemma run_jobs_value src jobs : forall dst (i : nat) j c x y,
  jobs_injective jobs -> jobs !! i = Some j -> in_job j c x y ->
  0 <= job_da j c x y < Z.of_nat (length dst) ->
  buf_get (run_jobs src jobs dst) (job_da j c x y) = buf_get src (job_sa j c x y).
Proof.
  induction jobs as [|j0 rest IH]; intros dst i j c x y Hinj Hi Hin Hlen;
    [discriminate|].
  simpl. destruct i as [|i].
  - simpl in Hi. injection Hi as ->.
    rewrite run_jobs_frame.
    + destruct Hin as [Hc [Hx Hy]].
      apply (copy_ys_value src (job_sa j) (job_da j) (job_w j) (job_h j));
        try lia.
      intros c1 x1 y1 c2 x2 y2 Hc1 Hx1 Hy1 Hc2 Hx2 Hy2 Heq.
      apply (Hinj 0%nat 0%nat j j c1 x1 y1 c2 x2 y2 eq_refl eq_refl) in Heq;
        [tauto | unfold in_job; lia | unfold in_job; lia].
    + intros j' c' x' y' Hj' Hin' Heq.
      apply list_elem_of_In, list_elem_of_lookup in Hj'. destruct Hj' as [k Hk].
      apply (Hinj 0%nat (S k) j j' c x y c' x' y' eq_refl Hk Hin Hin') in Heq.
      lia.
  - simpl in Hi. apply (IH _ i); try assumption.
    + eapply jobs_injective_tail, Hinj.
    + rewrite run_job_length. exact Hlen.
Qed.

(** ** The blocks as copy loops *)

Definition block_width (blk : Block) : Z :=
  rect_right (blockRect blk) - rect_left (blockRect blk).

Definition block_height (blk : Block) : Z :=
  rect_bottom (blockRect blk) - rect_top (blockRect blk).

(** the address in the memory of the host of channel [c] of the pixel
    [(x, y)] of a block *)
Definition block_byte (rIdx gIdx bIdx : Z) (m : BlockMemory) (c x y : Z) : Z :=
  blockAddr m + y * blockRowBytes m + x * blockPixelBytes m
  + channel rIdx gIdx bIdx c.

(** the offset in [fullImage] of channel [c] of the pixel [(x, y)] of a
    block *)
Definition image_byte (selectAreaRect : Rect) (fullW : Z) (blk : Block)
    (c x y : Z) : Z :=
  ((rect_top (blockRect blk) - rect_top selectAreaRect + y) * fullW
   + (rect_left (blockRect blk) - rect_left selectAreaRect + x)) * 3 + c.

Definition idle_job : CopyJob := mkCopyJob (fun _ _ _ => 0) (fun _ _ _ => 0) 0 0.

Definition gather_job (rIdx gIdx bIdx : Z) (selectAreaRect : Rect) (fullW : Z)
    (blk : Block) : CopyJob :=
  match blockImage blk with
  | Some m =>
      mkCopyJob (block_byte rIdx gIdx bIdx m) (image_byte selectAreaRect fullW blk)
        (block_width blk) (block_height blk)
  | None => idle_job
  end.

Definition scatter_job (rIdx gIdx bIdx : Z) (selectAreaRect : Rect) (fullW : Z)
    (blk : Block) : CopyJob :=
  match blockImage blk with
  | Some m =>
      mkCopyJob (image_byte selectAreaRect fullW blk) (block_byte rIdx gIdx bIdx m)
        (block_width blk) (block_height blk)
  | None => idle_job
  end.

Lemma gather_image_row_copy host rIdx gIdx bIdx imgAddr imgRB imgPB fullW left0 top0
    y k : forall x fullImage,
  gather_image_row host rIdx gIdx bIdx (imgAddr + y * imgRB) imgPB (top0 + y)
    fullW left0 k x fullImage
  = copy_xs host
      (fun c x y => imgAddr + y * imgRB + x * imgPB + channel rIdx gIdx bIdx c)
      (fun c x y => ((top0 + y) * fullW + (left0 + x)) * 3 + c)
      y k x fullImage.
Proof.
  induction k as [|k IH]; intros x fullImage; [reflexivity|].
  cbn [gather_image_row copy_xs]. rewrite IH. reflexivity.
Qed.

Lemma gather_image_rows_copy host rIdx gIdx bIdx imgAddr imgRB imgPB fullW left0 top0
    bw k : forall y fullImage,
  gather_image_rows host rIdx gIdx bIdx imgAddr imgRB imgPB fullW left0 top0 bw k y
    fullImage
  = copy_ys host
      (fun c x y => imgAddr + y * imgRB + x * imgPB + channel rIdx gIdx bIdx c)
      (fun c x y => ((top0 + y) * fullW + (left0 + x)) * 3 + c)
      bw k y fullImage.
Proof.
  induction k as [|k IH]; intros y fullImage; [reflexivity|].
  cbn [gather_image_rows copy_ys]. rewrite IH, gather_image_row_copy. reflexivity.
Qed.

Lemma scatter_row_copy fullImage rIdx gIdx bIdx imgAddr imgRB imgPB fullW left0 top0
    y k : forall x host,
  scatter_row fullImage rIdx gIdx bIdx (imgAddr + y * imgRB) imgPB (top0 + y)
    fullW left0 k x host
  = copy_xs fullImage
      (fun c x y => ((top0 + y) * fullW + (left0 + x)) * 3 + c)
      (fun c x y => imgAddr + y * imgRB + x * imgPB + channel rIdx gIdx bIdx c)
      y k x host.
Proof.
  induction k as [|k IH]; intros x host; [reflexivity|].
  cbn [scatter_row copy_xs]. rewrite IH. reflexivity.
Qed.

Lemma scatter_rows_copy fullImage rIdx gIdx bIdx imgAddr imgRB imgPB fullW left0 top0
    bw k : forall y host,
  scatter_rows fullImage rIdx gIdx bIdx imgAddr imgRB imgPB fullW left0 top0 bw k y
    host
  = copy_ys fullImage
      (fun c x y => ((top0 + y) * fullW + (left0 + x)) * 3 + c)
      (fun c x y => imgAddr + y * imgRB + x * imgPB + channel rIdx gIdx bIdx c)
      bw k y host.
Proof.
  induction k as [|k IH]; intros y host; [reflexivity|].
  cbn [scatter_rows copy_ys]. rewrite IH, scatter_row_copy. reflexivity.
Qed.

Lemma gather_block_image host rIdx gIdx bIdx selectAreaRect fullW fullH hasSelection
    blk gathered :
  fst (gather_block host rIdx gIdx bIdx selectAreaRect fullW fullH hasSelection blk
         gathered)
  = run_job host (gather_job rIdx gIdx bIdx selectAreaRect fullW blk) (fst gathered).
Proof.
  destruct gathered as [fullImage fullSelect].
  unfold gather_block, gather_job, run_job. cbn [fst].
  destruct (blockImage blk) as [m|]; [|reflexivity].
  rewrite gather_image_rows_copy. reflexivity.
Qed.

Lemma gather_fold_image host rIdx gIdx bIdx selectAreaRect fullW fullH hasSelection
    blocks : forall gathered,
  fst (fold_left
         (fun gathered blk =>
            gather_block host rIdx gIdx bIdx selectAreaRect fullW fullH hasSelection
              blk gathered)
         blocks gathered)
  = run_jobs host (map (gather_job rIdx gIdx bIdx selectAreaRect fullW) blocks)
      (fst gathered).
Proof.
  induction blocks as [|blk rest IH]; intros gathered; [reflexivity|].
  simpl. rewrite IH, gather_block_image. reflexivity.
Qed.

Lemma gather_image host rIdx gIdx bIdx selectAreaRect fullW fullH hasSelection blocks :
  fst (gather host rIdx gIdx bIdx selectAreaRect fullW fullH hasSelection blocks)
  = run_jobs host (map (gather_job rIdx gIdx bIdx selectAreaRect fullW) blocks)
      (replicate (Z.to_nat (fullW * fullH * 3)) x00).
Proof. unfold gather. rewrite gather_fold_image. reflexivity. Qed.

Lemma scatter_block_job fullImage rIdx gIdx bIdx selectAreaRect fullW blk host :
  scatter_block fullImage rIdx gIdx bIdx selectAreaRect fullW blk host
  = run_job fullImage (scatter_job rIdx gIdx bIdx selectAreaRect fullW blk) host.
Proof.
  unfold scatter_block, scatter_job, run_job.
  destruct (blockImage blk) as [m|]; [|reflexivity].
  rewrite scatter_rows_copy. reflexivity.
Qed.

Lemma scatter_jobs fullImage rIdx gIdx bIdx selectAreaRect fullW blocks : forall host,
  scatter fullImage rIdx gIdx bIdx selectAreaRect fullW blocks host
  = run_jobs fullImage (map (scatter_job rIdx gIdx bIdx selectAreaRect fullW) blocks)
      host.
Proof.
  unfold scatter, run_jobs.
  induction blocks as [|blk rest IH]; intros host; [reflexivity|].
  simpl. rewrite IH, scatter_block_job. reflexivity.
Qed.

(** the image the turn writes back *)
Lemma filter_run_turn_host `{StdLib} host rIdx gIdx bIdx selectAreaRect blocks
    hasSelection properties rng work :
  let fullW := rect_right selectAreaRect - rect_left selectAreaRect in
  let fullH := rect_bottom selectAreaRect - rect_top selectAreaRect in
  let gathered :=
    gather host rIdx gIdx bIdx selectAreaRect fullW fullH hasSelection blocks in
  snd (filter_run_turn host rIdx gIdx bIdx selectAreaRect blocks hasSelection
         properties rng work)
  = if (0 <? fullW) && (0 <? fullH) then
      scatter
        (snd (full_image_pass (ClampParams properties) fullW fullH (fst gathered)
                (snd gathered) hasSelection (mt19937_seed 42) work))
        rIdx gIdx bIdx selectAreaRect fullW blocks host
    else host.
Proof.
  cbv zeta. unfold filter_run_turn.
  destruct ((0 <? rect_right selectAreaRect - rect_left selectAreaRect) &&
            (0 <? rect_bottom selectAreaRect - rect_top selectAreaRect));
    [|reflexivity].
  destruct (gather _ _ _ _ _ _ _ _ _) as [fullImage fullSelect]. cbn [fst snd].
  destruct (full_image_pass _ _ _ _ _ _ _ _) as [[rng1 w1] out]. reflexivity.
Qed.

(** ** What a turn does to the memory of the host *)

Lemma lookup_map_Some {A B : Type} (f : A -> B) (l : list A) (i : nat) (y : B) :
  map f l !! i = Some y -> exists x, l !! i = Some x /\ y = f x.
Proof.
  revert i. induction l as [|a l IH]; intros i Hi; [discriminate|].
  destruct i as [|i]; simpl in Hi.
  - injection Hi as <-. exists a. split; reflexivity.
  - apply IH, Hi.
Qed.

Lemma lookup_map_of {A B : Type} (f : A -> B) (l : list A) (i : nat) (x : A) :
  l !! i = Some x -> map f l !! i = Some (f x).
Proof.
  revert i. induction l as [|a l IH]; intros i Hi; [discriminate|].
  destruct i as [|i]; simpl in *.
  - injection Hi as ->. reflexivity.
  - apply IH, Hi.
Qed.

Lemma in_idle_job c x y : ~ in_job idle_job c x y.
Proof. unfold in_job, idle_job. simpl. lia. Qed.

(** X16.  A turn writes the memory of the host only at the red, green and
    blue bytes of the pixels of blocks whose image address is not NULL:
    every other byte (an alpha channel, padding between rows, memory
    outside the blocks) keeps its value, and the memory keeps its size. *)
Theorem filter_run_turn_frame `{StdLib} (host : list BYTE) (rIdx gIdx bIdx : Z)
    (selectAreaRect : Rect) (blocks : list Block) (hasSelection : bool)
    (properties : PixelSortParams) (rng : mt19937) (work : Work) (a : Z) :
  (forall blk m c x y,
     In blk blocks -> blockImage blk = Some m ->
     0 <= c < 3 -> 0 <= x < block_width blk -> 0 <= y < block_height blk ->
     a <> block_byte rIdx gIdx bIdx m c x y) ->
  let host' :=
    snd (filter_run_turn host rIdx gIdx bIdx selectAreaRect blocks hasSelection
           properties rng work) in
  buf_get host' a = buf_get host a /\ length host' = length host.
Proof.
  intros Ha host'. subst host'. rewrite filter_run_turn_host. cbv zeta.
  destruct ((0 <? rect_right selectAreaRect - rect_left selectAreaRect) &&
            (0 <? rect_bottom selectAreaRect - rect_top selectAreaRect));
    [|split; reflexivity].
  rewrite scatter_jobs. split; [|apply run_jobs_length].
  apply run_jobs_frame. intros j c x y Hj Hin.
  apply in_map_iff in Hj. destruct Hj as [blk [<- Hblk]].
  unfold scatter_job in *.
  destruct (blockImage blk) as [m|] eqn:Em; [|destruct (in_idle_job _ _ _ Hin)].
  destruct Hin as [Hc [Hx Hy]]. cbn [job_da job_w job_h] in *.
  apply (Ha blk m); assumption.
Qed.

(** The rectangles of the blocks lie inside the selection rectangle and
    no pixel belongs to two blocks. *)
Record blocks_ok (selectAreaRect : Rect) (blocks : list Block) : Prop := {
  bk_inside : forall blk, In blk blocks ->
    rect_left selectAreaRect <= rect_left (blockRect blk) /\
    rect_right (blockRect blk) <= rect_right selectAreaRect /\
    rect_top selectAreaRect <= rect_top (blockRect blk) /\
    rect_bottom (blockRect blk) <= rect_bottom selectAreaRect;
  bk_disjoint : forall (i i' : nat) blk blk' x y x' y',
    blocks !! i = Some blk -> blocks !! i' = Some blk' ->
    0 <= x < block_width blk -> 0 <= y < block_height blk ->
    0 <= x' < block_width blk' -> 0 <= y' < block_height blk' ->
    rect_left (blockRect blk) + x = rect_left (blockRect blk') + x' ->
    rect_top (blockRect blk) + y = rect_top (blockRect blk') + y' ->
    i = i'
}.

(** The RGB bytes of the pixels of the blocks lie inside the memory of the
    host, and no two of them share an address. *)
Record host_ok (host : list BYTE) (rIdx gIdx bIdx : Z) (blocks : list Block)
    : Prop := {
  hk_bounds : forall blk m c x y,
    In blk blocks -> blockImage blk = Some m ->
    0 <= c < 3 -> 0 <= x < block_width blk -> 0 <= y < block_height blk ->
    0 <= block_byte rIdx gIdx bIdx m c x y < Z.of_nat (length host);
  hk_distinct : forall (i i' : nat) blk blk' m m' c x y c' x' y',
    blocks !! i = Some blk -> blocks !! i' = Some blk' ->
    blockImage blk = Some m -> blockImage blk' = Some m' ->
    0 <= c < 3 -> 0 <= x < block_width blk -> 0 <= y < block_height blk ->
    0 <= c' < 3 -> 0 <= x' < block_width blk' -> 0 <= y' < block_height blk' ->
    block_byte rIdx gIdx bIdx m c x y = block_byte rIdx gIdx bIdx m' c' x' y' ->
    i = i' /\ c = c' /\ x = x' /\ y = y'
}.

Section Blocks.
Variables rIdx gIdx bIdx : Z.
Variable selectAreaRect : Rect.
Variable blocks : list Block.
Hypothesis Hblocks : blocks_ok selectAreaRect blocks.

Let fullW := rect_right selectAreaRect - rect_left selectAreaRect.
Let fullH := rect_bottom selectAreaRect - rect_top selectAreaRect.

Lemma image_byte_offset blk c x y :
  image_byte selectAreaRect fullW blk c x y
  = rgb_offset fullW
      (rect_left (blockRect blk) - rect_left selectAreaRect + x)
      (rect_top (blockRect blk) - rect_top selectAreaRect + y) c.
Proof. reflexivity. Qed.

Lemma image_byte_bounds blk c x y :
  In blk blocks -> 0 <= c < 3 -> 0 <= x < block_width blk ->
  0 <= y < block_height blk ->
  0 <= rect_left (blockRect blk) - rect_left selectAreaRect + x < fullW /\
  0 <= rect_top (blockRect blk) - rect_top selectAreaRect + y < fullH /\
  0 <= image_byte selectAreaRect fullW blk c x y < fullW * fullH * 3.
Proof.
  intros Hin Hc Hx Hy. pose proof (bk_inside _ _ Hblocks blk Hin) as Hi.
  unfold block_width, block_height in *. unfold image_byte.
  subst fullW fullH.
  set (W := rect_right selectAreaRect - rect_left selectAreaRect) in *.
  set (Hh := rect_bottom selectAreaRect - rect_top selectAreaRect) in *.
  set (fx := rect_left (blockRect blk) - rect_left selectAreaRect + x).
  set (fy := rect_top (blockRect blk) - rect_top selectAreaRect + y).
  assert (Hfx : 0 <= fx < W) by (subst fx W; lia).
  assert (Hfy : 0 <= fy < Hh) by (subst fy Hh; lia).
  split; [exact Hfx|]. split; [exact Hfy|]. nia.
Qed.

Lemma gather_jobs_injective :
  jobs_injective (map (gather_job rIdx gIdx bIdx selectAreaRect fullW) blocks).
Proof.
  intros i i' j j' c x y c' x' y' Hi Hi' Hin Hin' Heq.
  apply lookup_map_Some in Hi. destruct Hi as [blk [Hi ->]].
  apply lookup_map_Some in Hi'. destruct Hi' as [blk' [Hi' ->]].
  unfold gather_job in *.
  destruct (blockImage blk) as [m|]; [|destruct (in_idle_job _ _ _ Hin)].
  destruct (blockImage blk') as [m'|]; [|destruct (in_idle_job _ _ _ Hin')].
  destruct Hin as [Hc [Hx Hy]]. destruct Hin' as [Hc' [Hx' Hy']].
  cbn [job_da job_w job_h] in *.
  assert (Hb : In blk blocks) by (eapply In_lookup; exact Hi).
  assert (Hb' : In blk' blocks) by (eapply In_lookup; exact Hi').
  destruct (image_byte_bounds blk c x y Hb Hc Hx Hy) as [Hfx [Hfy _]].
  destruct (image_byte_bounds blk' c' x' y' Hb' Hc' Hx' Hy') as [Hfx' [Hfy' _]].
  rewrite !image_byte_offset in Heq.
  apply rgb_offset_inj in Heq; try assumption.
  destruct Heq as [Ex [Ey Ec]].
  assert (Eii : i = i').
  { apply (bk_disjoint _ _ Hblocks i i' blk blk' x y x' y'); try assumption; lia. }
  subst i'. rewrite Hi in Hi'. injection Hi' as <-.
  split; [reflexivity|]. split; [exact Ec | lia].
Qed.

(** what the gathered image holds at a pixel of a block *)
Lemma gather_value host hasSelection blk m c x y :
  In blk blocks -> blockImage blk = Some m ->
  0 <= c < 3 -> 0 <= x < block_width blk -> 0 <= y < block_height blk ->
  buf_get (fst (gather host rIdx gIdx bIdx selectAreaRect fullW fullH hasSelection
                  blocks))
    (image_byte selectAreaRect fullW blk c x y)
  = buf_get host (block_byte rIdx gIdx bIdx m c x y).
Proof.
  intros Hin Hm Hc Hx Hy. rewrite gather_image.
  apply list_elem_of_In, list_elem_of_lookup in Hin. destruct Hin as [i Hi].
  assert (Hjob : map (gather_job rIdx gIdx bIdx selectAreaRect fullW) blocks !! i
                 = Some (mkCopyJob (block_byte rIdx gIdx bIdx m)
                           (image_byte selectAreaRect fullW blk)
                           (block_width blk) (block_height blk))).
  { rewrite (lookup_map_of _ _ _ _ Hi). unfold gather_job. rewrite Hm. reflexivity. }
  apply (run_jobs_value host _ _ i _ c x y gather_jobs_injective Hjob).
  - unfold in_job. cbn [job_w job_h]. lia.
  - cbn [job_da]. rewrite length_replicate.
    assert (Hb : In blk blocks) by (eapply In_lookup; exact Hi).
    destruct (image_byte_bounds blk c x y Hb Hc Hx Hy) as [_ [_ Hr]]. lia.
Qed.

Lemma gather_scatter_identity host hasSelection :
  scatter
    (fst (gather host rIdx gIdx bIdx selectAreaRect fullW fullH hasSelection blocks))
    rIdx gIdx bIdx selectAreaRect fullW blocks host
  = host.
Proof.
  rewrite scatter_jobs. apply run_jobs_noop. intros j c x y Hj Hin.
  apply in_map_iff in Hj. destruct Hj as [blk [<- Hblk]].
  unfold scatter_job in *.
  destruct (blockImage blk) as [m|] eqn:Em; [|destruct (in_idle_job _ _ _ Hin)].
  destruct Hin as [Hc [Hx Hy]]. cbn [job_sa job_da job_w job_h] in *.
  apply gather_value; assumption.
Qed.

Lemma scatter_jobs_injective host :
  host_ok host rIdx gIdx bIdx blocks ->
  jobs_injective (map (scatter_job rIdx gIdx bIdx selectAreaRect fullW) blocks).
Proof.
  intros Hhost i i' j j' c x y c' x' y' Hi Hi' Hin Hin' Heq.
  apply lookup_map_Some in Hi. destruct Hi as [blk [Hi ->]].
  apply lookup_map_Some in Hi'. destruct Hi' as [blk' [Hi' ->]].
  unfold scatter_job in *.
  destruct (blockImage blk) as [m|] eqn:Em; [|destruct (in_idle_job _ _ _ Hin)].
  destruct (blockImage blk') as [m'|] eqn:Em'; [|destruct (in_idle_job _ _ _ Hin')].
  destruct Hin as [Hc [Hx Hy]]. destruct Hin' as [Hc' [Hx' Hy']].
  cbn [job_da job_w job_h] in *.
  apply (hk_distinct _ _ _ _ _ Hhost i i' blk blk' m m'); assumption.
Qed.

(** what the memory of the host holds at a pixel of a block after the
    image has been written back *)
Lemma scatter_value host fullImage blk m c x y :
  host_ok host rIdx gIdx bIdx blocks ->
  In blk blocks -> blockImage blk = Some m ->
  0 <= c < 3 -> 0 <= x < block_width blk -> 0 <= y < block_height blk ->
  buf_get (scatter fullImage rIdx gIdx bIdx selectAreaRect fullW blocks host)
    (block_byte rIdx gIdx bIdx m c x y)
  = buf_get fullImage (image_byte selectAreaRect fullW blk c x y).
Proof.
  intros Hhost Hin Hm Hc Hx Hy. rewrite scatter_jobs.
  pose proof (hk_bounds _ _ _ _ _ Hhost blk m c x y Hin Hm Hc Hx Hy) as Hb.
  apply list_elem_of_In, list_elem_of_lookup in Hin. destruct Hin as [i Hi].
  assert (Hjob : map (scatter_job rIdx gIdx bIdx selectAreaRect fullW) blocks !! i
                 = Some (mkCopyJob (image_byte selectAreaRect fullW blk)
                           (block_byte rIdx gIdx bIdx m)
                           (block_width blk) (block_height blk))).
  { rewrite (lookup_map_of _ _ _ _ Hi). unfold scatter_job. rewrite Hm. reflexivity. }
  apply (run_jobs_value fullImage _ _ i _ c x y (scatter_jobs_injective host Hhost)
           Hjob).
  - unfold in_job. cbn [job_w job_h]. lia.
  - exact Hb.
Qed.

End Blocks.

(** X17.  Gathering the image from the blocks and writing it back
    unchanged leaves the memory of the host as it was, whatever layout the
    blocks have in memory; so does a whole turn that processes nothing (a
    falloff of 100 without rotation). *)
Theorem gather_scatter_round_trip `{StdLib} (host : list BYTE) (rIdx gIdx bIdx : Z)
    (selectAreaRect : Rect) (blocks : list Block) (hasSelection : bool)
    (properties : PixelSortParams) (rng : mt19937) (work : Work) :
  blocks_ok selectAreaRect blocks ->
  let fullW := rect_right selectAreaRect - rect_left selectAreaRect in
  let fullH := rect_bottom selectAreaRect - rect_top selectAreaRect in
  scatter
    (fst (gather host rIdx gIdx bIdx selectAreaRect fullW fullH hasSelection blocks))
    rIdx gIdx bIdx selectAreaRect fullW blocks host
  = host /\
  (100 <= falloff properties ->
   angle properties mod 360 = 0 \/ direction properties = kSortDirectionVertical ->
   snd (filter_run_turn host rIdx gIdx bIdx selectAreaRect blocks hasSelection
          properties rng work) = host).
Proof.
  intros Hblocks fullW fullH.
  pose proof (gather_scatter_identity rIdx gIdx bIdx selectAreaRect blocks Hblocks
                host hasSelection) as Hid.
  split; [exact Hid|].
  intros Hf Hplain. rewrite filter_run_turn_host. cbv zeta.
  destruct ((0 <? rect_right selectAreaRect - rect_left selectAreaRect) &&
            (0 <? rect_bottom selectAreaRect - rect_top selectAreaRect));
    [|reflexivity].
  rewrite full_image_pass_falloff_all.
  - exact Hid.
  - unfold ClampParams. cbn [falloff]. lia.
  - apply ClampParams_plain, Hplain.
Qed.

(** a block of three RGBA pixels at address 0 with its selection at
    address 12 *)
Definition rgba_block : Block :=
  mkBlock (mkRect 0 0 3 1) (Some (mkBlockMemory 0 12 4)) (Some (mkBlockMemory 12 3 1)).

Definition rgba_host : list BYTE :=
  map int_to_BYTE [150; 0; 0; 255; 200; 0; 0; 255; 100; 0; 0; 255; 0; 255; 255].

Lemma rgba_blocks_ok : blocks_ok (mkRect 0 0 3 1) [rgba_block].
Proof.
  constructor.
  - intros blk [<- | []]. simpl. lia.
  - intros i i' blk blk' x y x' y' Hi Hi' _ _ _ _ _ _.
    apply lookup_lt_Some in Hi, Hi'. simpl in Hi, Hi'. lia.
Qed.

Lemma rgba_host_ok : host_ok rgba_host 0 1 2 [rgba_block].
Proof.
  constructor.
  - intros blk m c x y [<- | []] Hm Hc Hx Hy. injection Hm as <-.
    unfold block_width, block_height in *. simpl in Hx, Hy.
    unfold block_byte, channel. simpl blockAddr. simpl blockRowBytes.
    simpl blockPixelBytes.
    change (Z.of_nat (length rgba_host)) with 15.
    destruct (c =? 0); [lia|]. destruct (c =? 1); lia.
  - intros i i' blk blk' m m' c x y c' x' y' Hi Hi' Hm Hm' Hc Hx Hy Hc' Hx' Hy' Heq.
    assert (E : i = 0%nat /\ i' = 0%nat).
    { apply lookup_lt_Some in Hi, Hi'. simpl in Hi, Hi'. lia. }
    destruct E as [-> ->]. simpl in Hi, Hi'.
    injection Hi as <-. injection Hi' as <-.
    injection Hm as <-. injection Hm' as <-.
    unfold block_width, block_height in *. simpl in Hx, Hy, Hx', Hy'.
    unfold block_byte, channel in Heq. simpl in Heq.
    destruct (Z.eqb_spec c 0); destruct (Z.eqb_spec c 1);
      destruct (Z.eqb_spec c' 0); destruct (Z.eqb_spec c' 1); lia.
Qed.

Lemma gather_scatter_round_trip_witness :
  blocks_ok (mkRect 0 0 3 1) [rgba_block] /\
  scatter
    (fst (gather rgba_host 0 1 2 (mkRect 0 0 3 1) (3 - 0) (1 - 0) true [rgba_block]))
    0 1 2 (mkRect 0 0 3 1) (3 - 0) [rgba_block] rgba_host
  = rgba_host.
Proof.
  split; [exact rgba_blocks_ok|].
  exact (proj1 (gather_scatter_round_trip (H := reference_stdlib) rgba_host 0 1 2
                  (mkRect 0 0 3 1) [rgba_block] true params_red 42 empty_work
                  rgba_blocks_ok)).
Defined.

Lemma filter_run_turn_frame_witness :
  (forall blk m c x y,
     In blk [rgba_block] -> blockImage blk = Some m ->
     0 <= c < 3 -> 0 <= x < block_width blk -> 0 <= y < block_height blk ->
     3 <> block_byte 0 1 2 m c x y) /\
  buf_get (snd (filter_run_turn (H := reference_stdlib) rgba_host 0 1 2
                  (mkRect 0 0 3 1) [rgba_block] true params_red 42 empty_work)) 3
  = buf_get rgba_host 3.
Proof.
  assert (Ha : forall blk m c x y,
     In blk [rgba_block] -> blockImage blk = Some m ->
     0 <= c < 3 -> 0 <= x < block_width blk -> 0 <= y < block_height blk ->
     3 <> block_byte 0 1 2 m c x y).
  { intros blk m c x y [<- | []] Hm Hc Hx Hy. injection Hm as <-.
    unfold block_width, block_height in *. simpl in Hx, Hy.
    unfold block_byte, channel. simpl.
    destruct (c =? 0); [lia|]. destruct (c =? 1); lia. }
  split; [exact Ha|].
  exact (proj1 (filter_run_turn_frame (H := reference_stdlib) rgba_host 0 1 2
                  (mkRect 0 0 3 1) [rgba_block] true params_red 42 empty_work 3 Ha)).
Defined.

(** X18.  A pixel of a block whose gathered selection value is 0 keeps
    its three colour bytes in the memory of the host through a whole turn,
    for every setting of the parameters. *)
Theorem unselected_block_pixels_are_kept `{StdLib} (host : list BYTE)
    (rIdx gIdx bIdx : Z) (selectAreaRect : Rect) (blocks : list Block)
    (properties : PixelSortParams) (rng : mt19937) (work : Work)
    (blk : Block) (m : BlockMemory) (x y : Z) :
  blocks_ok selectAreaRect blocks ->
  host_ok host rIdx gIdx bIdx blocks ->
  In blk blocks -> blockImage blk = Some m ->
  0 <= x < block_width blk -> 0 <= y < block_height blk ->
  let fullW := rect_right selectAreaRect - rect_left selectAreaRect in
  let fullH := rect_bottom selectAreaRect - rect_top selectAreaRect in
  let fullSelect :=
    snd (gather host rIdx gIdx bIdx selectAreaRect fullW fullH true blocks) in
  let fx := rect_left (blockRect blk) - rect_left selectAreaRect + x in
  let fy := rect_top (blockRect blk) - rect_top selectAreaRect + y in
  Z.of_nat (length fullSelect) = fullW * fullH ->
  buf_get fullSelect (fy * fullW + fx) = x00 ->
  forall c, 0 <= c < 3 ->
    buf_get (snd (filter_run_turn host rIdx gIdx bIdx selectAreaRect blocks true
                    properties rng work))
      (block_byte rIdx gIdx bIdx m c x y)
    = buf_get host (block_byte rIdx gIdx bIdx m c x y).
Proof.
  intros Hblocks Hhost Hin Hm Hx Hy fullW fullH fullSelect fx fy Hlen Hmask c Hc.
  rewrite filter_run_turn_host. cbv zeta. fold fullW fullH.
  destruct ((0 <? fullW) && (0 <? fullH)); [|reflexivity].
  rewrite (scatter_value rIdx gIdx bIdx selectAreaRect blocks host _ blk m c x y
             Hhost Hin Hm Hc Hx Hy).
  fold fullW.
  rewrite <- (gather_value rIdx gIdx bIdx selectAreaRect blocks Hblocks host true
                blk m c x y Hin Hm Hc Hx Hy).
  fold fullW fullH.
  destruct (image_byte_bounds selectAreaRect blocks Hblocks blk c x y Hin Hc Hx Hy)
    as [Hfx [Hfy _]].
  fold fullW fullH fx fy in Hfx, Hfy.
  change (image_byte selectAreaRect fullW blk c x y) with (rgb_offset fullW fx fy c).
  apply full_image_pass_unselected; try assumption.
  rewrite gather_image, run_jobs_length, length_replicate.
  subst fullW fullH. nia.
Qed.

Lemma unselected_block_pixels_are_kept_witness :
  blocks_ok (mkRect 0 0 3 1) [rgba_block] /\
  host_ok rgba_host 0 1 2 [rgba_block] /\
  In rgba_block [rgba_block] /\
  blockImage rgba_block = Some (mkBlockMemory 0 12 4) /\
  0 <= 0 < block_width rgba_block /\ 0 <= 0 < block_height rgba_block /\
  Z.of_nat (length (snd (gather rgba_host 0 1 2 (mkRect 0 0 3 1) (3 - 0) (1 - 0) true
                           [rgba_block]))) = (3 - 0) * (1 - 0) /\
  buf_get (snd (gather rgba_host 0 1 2 (mkRect 0 0 3 1) (3 - 0) (1 - 0) true
                  [rgba_block])) ((0 - 0 + 0) * (3 - 0) + (0 - 0 + 0)) = x00 /\
  buf_get (snd (filter_run_turn (H := reference_stdlib) rgba_host 0 1 2
                  (mkRect 0 0 3 1) [rgba_block] true params_red 42 empty_work))
    (block_byte 0 1 2 (mkBlockMemory 0 12 4) 0 0 0)
  = buf_get rgba_host (block_byte 0 1 2 (mkBlockMemory 0 12 4) 0 0 0).
Proof.
  assert (Hin : In rgba_block [rgba_block]) by (left; reflexivity).
  assert (Hm : blockImage rgba_block = Some (mkBlockMemory 0 12 4)) by reflexivity.
  assert (Hx : 0 <= 0 < block_width rgba_block) by (vm_compute; split; congruence).
  assert (Hy : 0 <= 0 < block_height rgba_block) by (vm_compute; split; congruence).
  assert (Hlen : Z.of_nat (length (snd (gather rgba_host 0 1 2 (mkRect 0 0 3 1)
                                          (3 - 0) (1 - 0) true [rgba_block])))
                 = (3 - 0) * (1 - 0)) by (vm_compute; reflexivity).
  assert (Hmask : buf_get (snd (gather rgba_host 0 1 2 (mkRect 0 0 3 1) (3 - 0) (1 - 0)
                                  true [rgba_block]))
                    ((0 - 0 + 0) * (3 - 0) + (0 - 0 + 0)) = x00)
    by (vm_compute; reflexivity).
  assert (Hc : 0 <= 0 < 3) by lia.
  split; [exact rgba_blocks_ok|]. split; [exact rgba_host_ok|].
  split; [exact Hin|]. split; [exact Hm|]. split; [exact Hx|]. split; [exact Hy|].
  split; [exact Hlen|]. split; [exact Hmask|].
  exact (unselected_block_pixels_are_kept (H := reference_stdlib) rgba_host 0 1 2
           (mkRect 0 0 3 1) [rgba_block] params_red 42 empty_work rgba_block
           (mkBlockMemory 0 12 4) 0 0 rgba_blocks_ok rgba_host_ok Hin Hm Hx Hy
           Hlen Hmask 0 Hc).
Defined.

(** ** The cap on the span length *)

Lemma chunks_of_lengths m s e cs :
  0 < m -> chunks_of m s e cs -> Forall (fun sp => 0 < span_len sp <= m) cs.
Proof.
  intros Hm. induction 1 as [s e Hlen | s e cs Hlen Hc IH]; constructor.
  - unfold span_len. simpl. lia.
  - constructor.
  - unfold span_len. simpl. lia.
  - exact IH.
Qed.

Lemma Forall2_chunks_lengths m l css :
  0 < m ->
  Forall2 (fun sp cs => chunks_of m (span_start sp) (span_end sp) cs) l css ->
  Forall (fun sp => 0 < span_len sp <= m) (concat css).
Proof.
  intros Hm. induction 1 as [|sp cs l css Hc Hrest IH]; simpl; [constructor|].
  apply Forall_app. split; [eapply chunks_of_lengths; eassumption | exact IH].
Qed.

(** X19.  With a positive [spanMax] no span that [DetectSpans] returns is
    longer than [spanMax] pixels, in every interval mode (and none is
    empty). *)
Theorem DetectSpans_respects_spanMax `{StdLib} (row : RowAccessor) (img : list BYTE)
    (params : PixelSortParams) (rowIndex : Z) (rng : mt19937)
    (outSpans : list Span) (brightness : list float) :
  0 < spanMax params ->
  Forall (fun sp => 0 < span_end sp - span_start sp <= spanMax params)
    (snd (fst (DetectSpans row img params rowIndex rng outSpans brightness))).
Proof.
  intros Hmax.
  pose proof (detect_dispatch_seq row img params rowIndex rng outSpans brightness)
    as Hseq.
  unfold DetectSpans.
  destruct (detect_dispatch row img params rowIndex rng outSpans brightness)
    as [[rng1 spans] bw]. cbn [fst snd] in *.
  unfold post_filter, cap_span_max.
  destruct (Z.ltb_spec 0 (spanMax params)) as [_ | Hle]; [|lia].
  pose proof (span_seq_nonempty _ _ _
                (filter_span_min_seq (spanMin params) _ _ _ Hseq)) as Hne.
  destruct (span_max_spans_chunks (spanMax params) _ [] Hmax Hne) as [css [Hc Heq]].
  rewrite Heq. simpl.
  exact (Forall2_chunks_lengths _ _ _ Hmax Hc).
Qed.

Lemma DetectSpans_respects_spanMax_witness :
  0 < spanMax params_spanMax2 /\
  Forall (fun sp => 0 < span_end sp - span_start sp <= spanMax params_spanMax2)
    (snd (fst (DetectSpans (H := reference_stdlib) (packed_row 5)
                 threshold_example_line params_spanMax2 0 42 [] []))).
Proof.
  assert (Hmax : 0 < spanMax params_spanMax2) by (simpl; lia).
  split; [exact Hmax|].
  exact (DetectSpans_respects_spanMax (H := reference_stdlib) (packed_row 5)
           threshold_example_line params_spanMax2 0 42 [] [] Hmax).
Defined.

(** ** The gathered selection *)

Lemma pixel_index_inj w fx fy fx' fy' :
  0 <= fx < w -> 0 <= fx' < w -> fy * w + fx = fy' * w + fx' ->
  fx = fx' /\ fy = fy'.
Proof.
  intros Hx Hx' Heq.
  destruct (Z.lt_trichotomy fy fy') as [Hlt | [-> | Hgt]].
  - exfalso. nia.
  - split; [lia | reflexivity].
  - exfalso. nia.
Qed.

Section GatherSelect.
Variable host : list BYTE.
Variables selAddr selRB selPB fullW left0 top0 : Z.

(** where the selection value of the pixel [(x, y)] of the block goes *)
Definition select_index (x y : Z) : Z := (top0 + y) * fullW + (left0 + x).

Lemma gather_select_row_length y k : forall x sel,
  length (gather_select_row host (selAddr + y * selRB) selPB (top0 + y) fullW left0
            k x sel) = length sel.
Proof.
  induction k as [|k IH]; intros x sel; [reflexivity|].
  cbn [gather_select_row]. cbv zeta. rewrite IH. apply length_buf_set.
Qed.

Lemma gather_select_row_frame y k : forall x0 sel a,
  (forall x, x0 <= x < x0 + Z.of_nat k -> a <> select_index x y) ->
  buf_get (gather_select_row host (selAddr + y * selRB) selPB (top0 + y) fullW left0
             k x0 sel) a = buf_get sel a.
Proof.
  induction k as [|k IH]; intros x0 sel a Ha; [reflexivity|].
  cbn [gather_select_row]. cbv zeta.
  rewrite IH by (intros x Hx; apply Ha; lia).
  apply buf_get_set_other. apply (Ha x0). lia.
Qed.

Lemma gather_select_row_value y k : forall x0 sel x,
  x0 <= x < x0 + Z.of_nat k ->
  0 <= select_index x y < Z.of_nat (length sel) ->
  buf_get (gather_select_row host (selAddr + y * selRB) selPB (top0 + y) fullW left0
             k x0 sel) (select_index x y)
  = buf_get host (selAddr + y * selRB + x * selPB).
Proof.
  induction k as [|k IH]; intros x0 sel x Hx Hlen; [lia|].
  cbn [gather_select_row]. cbv zeta.
  destruct (Z.eq_dec x x0) as [-> | Hne].
  - rewrite gather_select_row_frame
      by (intros x' Hx'; unfold select_index; lia).
    apply buf_get_set_same. exact Hlen.
  - apply IH; [lia | rewrite length_buf_set; exact Hlen].
Qed.

Lemma gather_select_rows_length bw k : forall y sel,
  length (gather_select_rows host selAddr selRB selPB fullW left0 top0 bw k y sel)
  = length sel.
Proof.
  induction k as [|k IH]; intros y sel; [reflexivity|].
  cbn [gather_select_rows]. cbv zeta. rewrite IH. apply gather_select_row_length.
Qed.

Lemma gather_select_rows_frame bw k : forall y0 sel a,
  (forall x y, 0 <= x < bw -> y0 <= y < y0 + Z.of_nat k -> a <> select_index x y) ->
  buf_get (gather_select_rows host selAddr selRB selPB fullW left0 top0 bw k y0 sel) a
  = buf_get sel a.
Proof.
  induction k as [|k IH]; intros y0 sel a Ha; [reflexivity|].
  cbn [gather_select_rows]. cbv zeta.
  rewrite IH by (intros x y Hx Hy; apply Ha; lia).
  apply gather_select_row_frame. intros x Hx. apply Ha; lia.
Qed.

Lemma gather_select_rows_value bw k : forall y0 sel x y,
  0 <= left0 -> left0 + bw <= fullW ->
  0 <= x < bw -> y0 <= y < y0 + Z.of_nat k ->
  0 <= select_index x y < Z.of_nat (length sel) ->
  buf_get (gather_select_rows host selAddr selRB selPB fullW left0 top0 bw k y0 sel)
    (select_index x y)
  = buf_get host (selAddr + y * selRB + x * selPB).
Proof.
  induction k as [|k IH]; intros y0 sel x y Hl Hr Hx Hy Hlen; [lia|].
  cbn [gather_select_rows]. cbv zeta.
  destruct (Z.eq_dec y y0) as [-> | Hne].
  - rewrite gather_select_rows_frame.
    + apply gather_select_row_value; [lia | exact Hlen].
    + intros x' y' Hx' Hy' Heq. unfold select_index in Heq. nia.
  - apply IH; try assumption; try lia.
    rewrite gather_select_row_length. exact Hlen.
Qed.

End GatherSelect.

(** the selection vector after one block *)
Lemma gather_block_select host rIdx gIdx bIdx selectAreaRect fullW fullH blk gathered :
  snd (gather_block host rIdx gIdx bIdx selectAreaRect fullW fullH true blk gathered)
  = match blockSelect blk with
    | Some m =>
        gather_select_rows host (blockAddr m) (blockRowBytes m) (blockPixelBytes m)
          fullW (rect_left (blockRect blk) - rect_left selectAreaRect)
          (rect_top (blockRect blk) - rect_top selectAreaRect)
          (block_width blk) (Z.to_nat (block_height blk)) 0
          (resize (Z.to_nat (fullW * fullH)) x00 (snd gathered))
    | None => snd gathered
    end.
Proof.
  destruct gathered as [fullImage fullSelect]. unfold gather_block. cbn [snd].
  destruct (blockSelect blk); reflexivity.
Qed.

Section GatheredSelection.
Variable host : list BYTE.
Variables rIdx gIdx bIdx : Z.
Variable selectAreaRect : Rect.

Let fullW := rect_right selectAreaRect - rect_left selectAreaRect.
Let fullH := rect_bottom selectAreaRect - rect_top selectAreaRect.

Let step := fun gathered blk =>
  gather_block host rIdx gIdx bIdx selectAreaRect fullW fullH true blk gathered.

(** blocks keep a selection vector of full size as it is, except at their
    own pixels *)
Lemma gather_fold_select_frame blocks : forall gathered a,
  Z.of_nat (length (snd gathered)) = fullW * fullH ->
  (forall blk x y, In blk blocks ->
     0 <= x < block_width blk -> 0 <= y < block_height blk ->
     a <> select_index fullW (rect_left (blockRect blk) - rect_left selectAreaRect)
            (rect_top (blockRect blk) - rect_top selectAreaRect) x y) ->
  Z.of_nat (length (snd (fold_left step blocks gathered))) = fullW * fullH /\
  buf_get (snd (fold_left step blocks gathered)) a = buf_get (snd gathered) a.
Proof.
  induction blocks as [|blk rest IH]; intros gathered a Hlen Ha;
    [split; [exact Hlen | reflexivity]|].
  simpl.
  assert (Hstep : Z.of_nat (length (snd (step gathered blk))) = fullW * fullH /\
                  buf_get (snd (step gathered blk)) a = buf_get (snd gathered) a).
  { subst step. cbv beta. rewrite gather_block_select.
    destruct (blockSelect blk) as [m|]; [|split; [exact Hlen | reflexivity]].
    rewrite resize_all_alt by lia. split.
    - rewrite gather_select_rows_length. exact Hlen.
    - apply gather_select_rows_frame. intros x y Hx Hy.
      apply (Ha blk x y); [left; reflexivity | exact Hx | lia]. }
  destruct Hstep as [Hlen' Hval'].
  destruct (IH (step gathered blk) a Hlen') as [Hl Hv].
  - intros blk' x y Hin. apply Ha. right. exact Hin.
  - split; [exact Hl | rewrite Hv; exact Hval'].
Qed.

Lemma gather_fold_select_value blocks : forall gathered (i : nat) blk m x y,
  blocks_ok selectAreaRect blocks ->
  length (snd gathered) = 0%nat \/ Z.of_nat (length (snd gathered)) = fullW * fullH ->
  blocks !! i = Some blk -> blockSelect blk = Some m ->
  0 <= x < block_width blk -> 0 <= y < block_height blk ->
  let sel := snd (fold_left step blocks gathered) in
  Z.of_nat (length sel) = fullW * fullH /\
  buf_get sel
    (select_index fullW (rect_left (blockRect blk) - rect_left selectAreaRect)
       (rect_top (blockRect blk) - rect_top selectAreaRect) x y)
  = buf_get host (blockAddr m + y * blockRowBytes m + x * blockPixelBytes m).
Proof.
  induction blocks as [|b rest IH]; intros gathered i blk m x y Hok Hlen Hi Hm Hx Hy;
    [discriminate|].
  assert (Hinside : forall blk', In blk' (b :: rest) ->
            forall x' y', 0 <= x' < block_width blk' -> 0 <= y' < block_height blk' ->
            0 <= rect_left (blockRect blk') - rect_left selectAreaRect + x' < fullW /\
            0 <= rect_top (blockRect blk') - rect_top selectAreaRect + y' < fullH).
  { intros blk' Hin' x' y' Hx' Hy'.
    pose proof (bk_inside _ _ Hok blk' Hin') as Hb.
    unfold block_width, block_height in *. subst fullW fullH. lia. }
  assert (Hstep_len : forall blk',
            length (snd (step gathered blk')) = 0%nat \/
            Z.of_nat (length (snd (step gathered blk'))) = fullW * fullH).
  { intros blk'. subst step. cbv beta. rewrite gather_block_select.
    destruct (blockSelect blk') as [m'|]; [right | exact Hlen].
    rewrite gather_select_rows_length, length_resize.
    destruct Hlen as [H0 | Hfull]; [|lia].
    destruct (Z_le_gt_dec 0 (fullW * fullH)); [lia|].
    exfalso.
    assert (Hb : In blk (b :: rest)) by (eapply In_lookup; exact Hi).
    destruct (Hinside blk Hb x y Hx Hy) as [Hfx Hfy]. nia. }
  simpl. destruct i as [|i].
  - simpl in Hi. injection Hi as ->.
    assert (Hb : In blk (blk :: rest)) by (left; reflexivity).
    destruct (Hinside blk Hb x y Hx Hy) as [Hfx Hfy].
    assert (Hown : Z.of_nat (length (snd (step gathered blk))) = fullW * fullH /\
                   buf_get (snd (step gathered blk))
                     (select_index fullW
                        (rect_left (blockRect blk) - rect_left selectAreaRect)
                        (rect_top (blockRect blk) - rect_top selectAreaRect) x y)
                   = buf_get host
                       (blockAddr m + y * blockRowBytes m + x * blockPixelBytes m)).
    { subst step. cbv beta. rewrite gather_block_select, Hm.
      assert (Hl : Z.of_nat (length (resize (Z.to_nat (fullW * fullH)) x00
                                       (snd gathered))) = fullW * fullH)
        by (rewrite length_resize; nia).
      split; [rewrite gather_select_rows_length; exact Hl|].
      pose proof (bk_inside _ _ Hok blk Hb) as Hin.
      apply gather_select_rows_value; try lia.
      - unfold block_width. subst fullW. lia.
      - rewrite Hl. unfold select_index. nia. }
    destruct Hown as [Hl Hv].
    destruct (gather_fold_select_frame rest (step gathered blk)
                (select_index fullW
                   (rect_left (blockRect blk) - rect_left selectAreaRect)
                   (rect_top (blockRect blk) - rect_top selectAreaRect) x y) Hl)
      as [Hl' Hv'].
    + intros blk' x' y' Hin' Hx' Hy' Heq.
      apply list_elem_of_In, list_elem_of_lookup in Hin'. destruct Hin' as [k Hk].
      assert (Hb' : In blk' (blk :: rest)) by (right; eapply In_lookup; exact Hk).
      destruct (Hinside blk' Hb' x' y' Hx' Hy') as [Hfx' Hfy'].
      unfold select_index in Heq.
      apply pixel_index_inj in Heq; [|exact Hfx | exact Hfx'].
      assert (E : rect_left (blockRect blk) + x = rect_left (blockRect blk') + x' /\
                  rect_top (blockRect blk) + y = rect_top (blockRect blk') + y') by lia.
      destruct E as [Ex Ey].
      pose proof (bk_disjoint _ _ Hok 0%nat (S k) blk blk' x y x' y' eq_refl Hk
                    Hx Hy Hx' Hy' Ex Ey). lia.
    + split; [exact Hl' | rewrite Hv'; exact Hv].
  - simpl in Hi. apply (IH (step gathered b) i blk m x y); try assumption.
    + destruct Hok as [Hin Hdis]. constructor.
      * intros blk' Hb'. apply Hin. right. exact Hb'.
      * intros k k' b1 b2 x1 y1 x2 y2 H1 H2 Hx1 Hy1 Hx2 Hy2 Ex Ey.
        pose proof (Hdis (S k) (S k') b1 b2 x1 y1 x2 y2 H1 H2 Hx1 Hy1 Hx2 Hy2 Ex Ey).
        lia.
    + apply Hstep_len.
Qed.

End GatheredSelection.

(** X20.  The selection vector gathered from the blocks: at a pixel of a
    block whose selection address is not NULL it holds the byte the host
    keeps for that pixel, and it has one byte for every pixel of the
    selection rectangle. *)
Theorem gathered_selection_values (host : list BYTE) (rIdx gIdx bIdx : Z)
    (selectAreaRect : Rect) (blocks : list Block) (blk : Block) (m : BlockMemory)
    (x y : Z) :
  blocks_ok selectAreaRect blocks ->
  In blk blocks -> blockSelect blk = Some m ->
  0 <= x < block_width blk -> 0 <= y < block_height blk ->
  let fullW := rect_right selectAreaRect - rect_left selectAreaRect in
  let fullH := rect_bottom selectAreaRect - rect_top selectAreaRect in
  let fullSelect :=
    snd (gather host rIdx gIdx bIdx selectAreaRect fullW fullH true blocks) in
  let fx := rect_left (blockRect blk) - rect_left selectAreaRect + x in
  let fy := rect_top (blockRect blk) - rect_top selectAreaRect + y in
  Z.of_nat (length fullSelect) = fullW * fullH /\
  buf_get fullSelect (fy * fullW + fx)
  = buf_get host (blockAddr m + y * blockRowBytes m + x * blockPixelBytes m).
Proof.
  intros Hok Hin Hm Hx Hy fullW fullH fullSelect fx fy.
  apply list_elem_of_In, list_elem_of_lookup in Hin. destruct Hin as [i Hi].
  subst fullSelect. unfold gather.
  apply (gather_fold_select_value host rIdx gIdx bIdx selectAreaRect blocks
           (replicate (Z.to_nat (fullW * fullH * 3)) x00, []) i blk m x y Hok);
    try assumption.
  left. reflexivity.
Qed.

Lemma gathered_selection_values_witness :
  blocks_ok (mkRect 0 0 3 1) [rgba_block] /\
  In rgba_block [rgba_block] /\
  blockSelect rgba_block = Some (mkBlockMemory 12 3 1) /\
  0 <= 1 < block_width rgba_block /\ 0 <= 0 < block_height rgba_block /\
  buf_get (snd (gather rgba_host 0 1 2 (mkRect 0 0 3 1) (3 - 0) (1 - 0) true
                  [rgba_block])) ((0 - 0 + 0) * (3 - 0) + (0 - 0 + 1))
  = buf_get rgba_host (12 + 0 * 3 + 1 * 1).
Proof.
  assert (Hin : In rgba_block [rgba_block]) by (left; reflexivity).
  assert (Hm : blockSelect rgba_block = Some (mkBlockMemory 12 3 1)) by reflexivity.
  assert (Hx : 0 <= 1 < block_width rgba_block) by (vm_compute; split; congruence).
  assert (Hy : 0 <= 0 < block_height rgba_block) by (vm_compute; split; congruence).
  split; [exact rgba_blocks_ok|]. split; [exact Hin|]. split; [exact Hm|].
  split; [exact Hx|]. split; [exact Hy|].
  exact (proj2 (gathered_selection_values rgba_host 0 1 2 (mkRect 0 0 3 1)
                  [rgba_block] rgba_block (mkBlockMemory 12 3 1) 1 0
                  rgba_blocks_ok Hin Hm Hx Hy)).
Defined.

(* ===================================================================== *)
(** * PIPixelSortMain.cpp: the properties of the host *)
(* ===================================================================== *)

(** The values the property object of the host holds for the eleven items
    of the filter ([getEnumerationValueProc], [getIntegerValueProc],
    [getBooleanValueProc]). *)
Record PropertyObject := mkPropertyObject {
  itemDirection : Z;
  itemSortKey : Z;
  itemIntervalMode : Z;
  itemLowerThreshold : Z;
  itemUpperThreshold : Z;
  itemReverse : Z;
  itemJitter : Z;
  itemSpanMin : Z;
  itemSpanMax : Z;
  itemAngle : Z;
  itemFalloff : Z
}.

(** [struct PixelSortFilterInfo]; of the two service pointers only whether
    they are NULL matters. *)
Record PixelSortFilterInfo := mkFilterInfo {
  info_params : PixelSortParamsRaw;
  pPropertyService : bool;
  pPropertyService2 : bool
}.

(** [ReadAllProperties] on a filter info that is not NULL: the values of
    the host are stored as they are, then [ClampParams] runs. *)
Definition ReadAllProperties (pInfo : PixelSortFilterInfo)
    (propertyObject : PropertyObject) : PixelSortFilterInfo :=
  if negb (pPropertyService pInfo) then pInfo
  else
    let old := info_params pInfo in
    let ps2 := pPropertyService2 pInfo in
    let p :=
      {| raw_direction :=
           if ps2 then itemDirection propertyObject else raw_direction old;
         raw_sortKey :=
           if ps2 then itemSortKey propertyObject else raw_sortKey old;
         raw_intervalMode :=
           if ps2 then itemIntervalMode propertyObject
           else raw_intervalMode old;
         raw_lowerThreshold := itemLowerThreshold propertyObject;
         raw_upperThreshold := itemUpperThreshold propertyObject;
         raw_reverse := negb (itemReverse propertyObject =? 0);
         raw_jitter := itemJitter propertyObject;
         raw_spanMin := itemSpanMin propertyObject;
         raw_spanMax := itemSpanMax propertyObject;
         raw_angle := itemAngle propertyObject;
         raw_falloff := itemFalloff propertyObject |} in
    mkFilterInfo (ClampParamsRaw p) (pPropertyService pInfo)
      (pPropertyService2 pInfo).

(** The values [FilterInitialize] gives the items
    ([setEnumerationValueProc], [setIntegerValueProc],
    [setBooleanValueProc]). *)
Definition initial_properties : PropertyObject :=
  mkPropertyObject 0 0 0 64 204 0 0 1 0 0 0.

(** The bounds [FilterInitialize] gives the integer items
    ([setIntegerMinValueProc], [setIntegerMaxValueProc]) and the values it
    adds to the three enumerations. *)
Record registered_range (po : PropertyObject) : Prop := {
  rr_direction : 0 <= itemDirection po <= 1;
  rr_sortKey : 0 <= itemSortKey po <= 7;
  rr_intervalMode : 0 <= itemIntervalMode po <= 4;
  rr_lower : 0 <= itemLowerThreshold po <= 255;
  rr_upper : 0 <= itemUpperThreshold po <= 255;
  rr_jitter : 0 <= itemJitter po <= 100;
  rr_spanMin : 1 <= itemSpanMin po <= 10000;
  rr_spanMax : 0 <= itemSpanMax po <= 10000;
  rr_angle : 0 <= itemAngle po <= 359;
  rr_falloff : 0 <= itemFalloff po <= 100
}.

(** An [int] of an enumeration is the value of the enumerator it stands
    for. *)
Lemma SortDirection_value_of_int (val : Z) :
  0 <= val <= 1 -> SortDirection_value (SortDirection_of_int val) = val.
Proof.
  intros Hv. assert (Hc : val = 0 \/ val = 1) by lia.
  destruct Hc as [-> | ->]; reflexivity.
Qed.

Lemma SortKey_value_of_int (val : Z) :
  0 <= val <= 7 -> SortKey_value (SortKey_of_int val) = val.
Proof.
  intros Hv.
  assert (Hc : val = 0 \/ val = 1 \/ val = 2 \/ val = 3 \/ val = 4 \/ val = 5 \/
               val = 6 \/ val = 7) by lia.
  repeat (destruct Hc as [-> | Hc]; [reflexivity|]). subst val. reflexivity.
Qed.

Lemma IntervalMode_value_of_int (val : Z) :
  0 <= val <= 4 -> IntervalMode_value (IntervalMode_of_int val) = val.
Proof.
  intros Hv.
  assert (Hc : val = 0 \/ val = 1 \/ val = 2 \/ val = 3 \/ val = 4) by lia.
  repeat (destruct Hc as [-> | Hc]; [reflexivity|]). subst val. reflexivity.
Qed.

(** X21.  With both property services present, [ReadAllProperties] stores
    a struct that is in range whatever the host holds; from the values
    [FilterInitialize] sets it stores the parameters of
    [MakeDefaultParams]; and values inside the registered bounds are stored
    as they are, the three enumerations included (read as parameters, the
    struct holds the enumerators with the values of the host), but for the
    two repairs of [ClampParams]: an upper threshold below the lower one is
    raised to it, and a positive [spanMax] below [spanMin] is raised to
    [spanMin]. *)
Theorem ReadAllProperties_in_range (old : PixelSortParamsRaw) (po : PropertyObject) :
  let p := info_params (ReadAllProperties (mkFilterInfo old true true) po) in
  valid_params_raw p /\
  info_params (ReadAllProperties (mkFilterInfo old true true) initial_properties)
  = raw_of_params MakeDefaultParams /\
  (registered_range po ->
   raw_direction p = itemDirection po /\
   raw_sortKey p = itemSortKey po /\
   raw_intervalMode p = itemIntervalMode po /\
   SortDirection_value (direction (params_of_raw p)) = itemDirection po /\
   SortKey_value (sortKey (params_of_raw p)) = itemSortKey po /\
   IntervalMode_value (intervalMode (params_of_raw p)) = itemIntervalMode po /\
   raw_lowerThreshold p = itemLowerThreshold po /\
   raw_upperThreshold p = Z.max (itemLowerThreshold po) (itemUpperThreshold po) /\
   raw_jitter p = itemJitter po /\
   raw_spanMin p = itemSpanMin po /\
   raw_spanMax p = (if itemSpanMax po =? 0 then 0
                    else Z.max (itemSpanMin po) (itemSpanMax po)) /\
   raw_angle p = itemAngle po /\
   raw_falloff p = itemFalloff po /\
   raw_reverse p = negb (itemReverse po =? 0)).
Proof.
  intros p. subst p. unfold ReadAllProperties. cbn [pPropertyService negb
    pPropertyService2 info_params].
  split; [apply ClampParamsRaw_valid|]. split; [reflexivity|].
  intros [Hd Hk Hm Hlo Hup Hj Hmin Hmax Ha Hf].
  unfold params_of_raw, ClampParamsRaw.
  cbn [raw_direction raw_sortKey raw_intervalMode raw_lowerThreshold
       raw_upperThreshold raw_reverse raw_jitter raw_spanMin raw_spanMax
       raw_angle raw_falloff direction sortKey intervalMode].
  rewrite wrap_angle_mod, Z.mod_small by lia.
  destruct (Z.ltb_spec (itemDirection po) 0); [lia|].
  destruct (Z.ltb_spec 1 (itemDirection po)); [lia|].
  destruct (Z.ltb_spec (itemSortKey po) 0); [lia|].
  destruct (Z.ltb_spec 7 (itemSortKey po)); [lia|].
  destruct (Z.ltb_spec (itemIntervalMode po) 0); [lia|].
  destruct (Z.ltb_spec 4 (itemIntervalMode po)); [lia|].
  cbn [orb].
  rewrite SortDirection_value_of_int, SortKey_value_of_int,
    IntervalMode_value_of_int by assumption.
  repeat split; try lia.
  - destruct (Z.ltb_spec (Z.max 0 (Z.min 255 (itemUpperThreshold po)))
                (Z.max 0 (Z.min 255 (itemLowerThreshold po)))); lia.
  - destruct (Z.eqb_spec (itemSpanMax po) 0) as [E | E];
      destruct (Z.ltb_spec 0 (Z.max 0 (Z.min 10000 (itemSpanMax po))));
      destruct (Z.ltb_spec (Z.max 0 (Z.min 10000 (itemSpanMax po)))
                  (Z.max 1 (Z.min 10000 (itemSpanMin po))));
      cbn [andb]; lia.
Qed.

(** values of the host inside the registered bounds: vertical, by the red
    channel, without intervals *)
Definition example_properties : PropertyObject :=
  mkPropertyObject 1 5 4 64 204 1 10 2 5 90 50.

Lemma ReadAllProperties_in_range_witness :
  registered_range example_properties /\
  SortKey_value
    (sortKey
       (params_of_raw
          (info_params
             (ReadAllProperties
                (mkFilterInfo (raw_of_params MakeDefaultParams) true true)
                example_properties))))
  = itemSortKey example_properties.
Proof.
  assert (Hr : registered_range example_properties)
    by (constructor; simpl; lia).
  split; [exact Hr|].
  exact (proj1 (proj2 (proj2 (proj2 (proj2
           (proj2 (proj2 (ReadAllProperties_in_range
                            (raw_of_params MakeDefaultParams)
                            example_properties)) Hr)))))).
Defined.

(** ** The angle in vertical direction *)

(** the record with another angle *)
Definition with_angle (p : PixelSortParams) (a : Z) : PixelSortParams :=
  mkParams (direction p) (sortKey p) (intervalMode p) (lowerThreshold p)
    (upperThreshold p) (reverse p) (jitter p) (spanMin p) (spanMax p) a (falloff p).

(** [SortLine] does not read the angle. *)
Lemma SortLine_angle `{StdLib} row p a selectArea stride rowIndex rng work img :
  SortLine row (with_angle p a) selectArea stride rowIndex rng work img
  = SortLine row p selectArea stride rowIndex rng work img.
Proof. reflexivity. Qed.

Lemma sort_columns_loop_angle `{StdLib} p a rot fullSelect k : forall x rng work buf,
  sort_columns_loop (with_angle p a) rot fullSelect k x rng work buf
  = sort_columns_loop p rot fullSelect k x rng work buf.
Proof.
  induction k as [|k IH]; intros x rng work buf; [reflexivity|].
  rewrite !sort_columns_loop_step. cbv zeta. rewrite !SortLine_angle. apply IH.
Qed.

(** X22.  In vertical direction the angle has no effect: the pass returns
    the same result for every value of the angle. *)
Theorem vertical_pass_ignores_angle `{StdLib} (seed : Z) (properties : PixelSortParams)
    (a a' w h : Z) (fullImage fullSelect : list BYTE) (hasSelection : bool)
    (rng : mt19937) (work : Work) :
  direction properties = kSortDirectionVertical ->
  run_pass seed (with_angle properties a) w h fullImage fullSelect hasSelection
    rng work
  = run_pass seed (with_angle properties a') w h fullImage fullSelect hasSelection
      rng work.
Proof.
  intros Hdir. unfold run_pass.
  destruct ((0 <? w) && (0 <? h)); [|reflexivity].
  assert (Hpass : forall b,
            full_image_pass (ClampParams (with_angle properties b)) w h fullImage
              fullSelect hasSelection (mt19937_seed seed) work
            = sort_columns_loop (ClampParams properties) (no_rotation w h) fullSelect
                (Z.to_nat w) 0 (mt19937_seed seed) work fullImage).
  { intros b. unfold full_image_pass. cbv zeta.
    replace (direction (ClampParams (with_angle properties b)))
      with kSortDirectionVertical by (symmetry; exact Hdir).
    rewrite andb_false_r. cbn [sortW no_rotation].
    change (ClampParams (with_angle properties b))
      with (with_angle (ClampParams properties)
              (Z.rem (Z.rem b 360 + 360) 360)).
    rewrite sort_columns_loop_angle.
    destruct (sort_columns_loop _ _ _ _ _ _ _ _) as [[rng1 w1] buf1]. reflexivity. }
  rewrite !Hpass. reflexivity.
Qed.

Definition params_vertical : PixelSortParams :=
  mkParams kSortDirectionVertical kSortKeyRed kIntervalModeNone 0 255 false 0 1 0 0 0.

Lemma vertical_pass_ignores_angle_witness :
  direction params_vertical = kSortDirectionVertical /\
  run_pass (H := reference_stdlib) 42 (with_angle params_vertical 0) 1 3 line3 []
    false 0 empty_work
  = run_pass (H := reference_stdlib) 42 (with_angle params_vertical 45) 1 3 line3 []
      false 0 empty_work.
Proof.
  assert (Hd : direction params_vertical = kSortDirectionVertical) by reflexivity.
  split; [exact Hd|].
  exact (vertical_pass_ignores_angle (H := reference_stdlib) 42 params_vertical 0 45
           1 3 line3 [] false 0 empty_work Hd).
Defined.
